(** * DAGOBAH table annotation: a shallow embedding of the disambiguation engine

    The development follows [annotation/annot_scripts/annotation_models.py]
    ([Baseline_Model]), [annotation/annot_scripts/knowledge_bases.py]
    ([Wikidata_KB]), [annotation/annot_scripts/utils.py] and
    [annotation/table_annotation.py].

    Conventions of the embedding.
    - Python floats are idealised as rationals ([Q]); values written into
      annotation records are kept in lowest terms ([Qred]), so that two
      numerically equal stored scores are equal terms.  The source rounds
      every operation to a binary64 number: an equality of two scores that
      are computed in different ways holds here for the exact values and
      may fail in the source by one unit in the last place; inequalities
      and ranges are kept by rounding, which is monotone.
    - Python dictionaries are insertion ordered; they are association lists
      ([odict]) with in-place replacement, so iteration order is the source's.
    - A Python exception is a value of [exn]; a method of the engine is a
      function from the engine state to an outcome and the state reached,
      also when the outcome is an exception.
    - Wall-clock measurements ([time.time()]) are not part of the state. *)

From Stdlib Require Import QArith Qabs Qround Qminmax Qpower Lqa ZArith Lia Sorted.
From stdpp Require Import base option list strings gmap.

Local Open Scope Q_scope.

(** ** Exceptions and outcomes *)

Inductive exn :=
| TypeError | KeyError | UnboundLocalError | IndexError | AttributeError | ValueError
| ZeroDivisionError.

Inductive result (A : Type) :=
| Ok (a : A)
| Raise (e : exn).
Arguments Ok {A} a.
Arguments Raise {A} e.

Definition rbind {A B} (r : result A) (k : A -> result B) : result B :=
  match r with Ok a => k a | Raise e => Raise e end.

Definition of_option {A} (e : exn) (o : option A) : result A :=
  match o with Some a => Ok a | None => Raise e end.

(** Stateful computations: the state reached is reported together with the
    outcome, so that what a method wrote before raising stays visible. *)
Definition M (S A : Type) := S -> result A * S.

Definition mret {S A} (a : A) : M S A := fun s => (Ok a, s).
Definition mraise {S A} (e : exn) : M S A := fun s => (Raise e, s).
Definition mbind {S A B} (m : M S A) (k : A -> M S B) : M S B :=
  fun s => match m s with
           | (Ok a, s') => k a s'
           | (Raise e, s') => (Raise e, s')
           end.
Definition mget {S} : M S S := fun s => (Ok s, s).
Definition mmodify {S} (f : S -> S) : M S unit := fun s => (Ok tt, f s).
Definition mlift {S A} (r : result A) : M S A := fun s => (r, s).

Declare Scope py_scope.
Delimit Scope py_scope with py.
Notation "x <- c1 ;; c2" := (mbind c1 (fun x => c2))
  (at level 100, c1 at next level, right associativity) : py_scope.
Notation "c1 ;;; c2" := (mbind c1 (fun _ => c2))
  (at level 100, right associativity) : py_scope.
Notation "x <~ c1 ;; c2" := (rbind c1 (fun x => c2))
  (at level 100, c1 at next level, right associativity) : py_scope.
Local Open Scope py_scope.

(** [for x in l: body x] *)
Fixpoint forM {S X} (l : list X) (body : X -> M S unit) : M S unit :=
  match l with
  | [] => mret tt
  | x :: l' => body x ;;; forM l' body
  end.

(** A loop that threads local variables [B] besides the state. *)
Fixpoint foldM {S X B} (body : B -> X -> M S B) (b : B) (l : list X) : M S B :=
  match l with
  | [] => mret b
  | x :: l' => b' <- body b x ;; foldM body b' l'
  end.

(** The same loops for code that has locals only. *)
Fixpoint foldR {X B} (body : B -> X -> result B) (b : B) (l : list X) : result B :=
  match l with
  | [] => Ok b
  | x :: l' => b' <~ body b x ;; foldR body b' l'
  end.

(** ** Insertion-ordered dictionaries *)

Section odict.
Context {K V : Type} `{EqDecision K}.

Definition odict := list (K * V).

Fixpoint od_get (k : K) (d : odict) : option V :=
  match d with
  | [] => None
  | (k', v) :: d' => if decide (k' = k) then Some v else od_get k d'
  end.

Definition od_mem (k : K) (d : odict) : bool :=
  match od_get k d with Some _ => true | None => false end.

(** [d[k] = v]: an existing key keeps its position. *)
Fixpoint od_set (k : K) (v : V) (d : odict) : odict :=
  match d with
  | [] => [(k, v)]
  | (k', v') :: d' =>
      if decide (k' = k) then (k, v) :: d' else (k', v') :: od_set k v d'
  end.

(** [d.pop(k, None)] *)
Fixpoint od_del (k : K) (d : odict) : odict :=
  match d with
  | [] => []
  | (k', v') :: d' =>
      if decide (k' = k) then d' else (k', v') :: od_del k d'
  end.

(** [d.update(d2)] *)
Definition od_update (d d2 : odict) : odict :=
  fold_left (fun acc kv => od_set kv.1 kv.2 acc) d2 d.

Definition od_keys (d : odict) : list K := map fst d.
End odict.
Arguments odict : clear implicits.

(** [x in l] for a list or a set of the source. *)
Definition mem {A} `{EqDecision A} (x : A) (l : list A) : bool :=
  bool_decide (x ∈ l).

(** [s.add(x)] on a set kept as a duplicate-free list. *)
Definition set_add {A} `{EqDecision A} (x : A) (l : list A) : list A :=
  if mem x l then l else l ++ [x].

(** [range(a, b)] *)
Definition range (a b : nat) : list nat := seq a (b - a).

(** ** Strings *)

(** [s[:3] == "(-)"] *)
Definition is_backward (pid : string) : bool := String.prefix "(-)" pid.

(** [pat in s] *)
Fixpoint contains (pat s : string) : bool :=
  String.prefix pat s ||
  match s with
  | EmptyString => false
  | String _ s' => contains pat s'
  end.

(** [s.replace(pat, rep)] for a non-empty pattern: occurrences are replaced
    from the left and do not overlap. *)
Fixpoint replace_fuel (fuel : nat) (pat rep s : string) : string :=
  match fuel with
  | O => s
  | S fuel' =>
      match s with
      | EmptyString => EmptyString
      | String c s' =>
          if String.prefix pat s
          then rep +:+ replace_fuel fuel' pat rep
                        (String.substring (String.length pat)
                           (String.length s - String.length pat) s)
          else String c (replace_fuel fuel' pat rep s')
      end
  end.
Definition replace (pat rep s : string) : string :=
  replace_fuel (String.length s) pat rep s.

(** [s.split(sep)] for a non-empty separator. *)
Fixpoint split_fuel (fuel : nat) (sep cur s : string) : list string :=
  match fuel with
  | O => [cur +:+ s]
  | S fuel' =>
      match s with
      | EmptyString => [cur]
      | String c s' =>
          if String.prefix sep s
          then cur :: split_fuel fuel' sep ""
                        (String.substring (String.length sep)
                           (String.length s - String.length sep) s)
          else split_fuel fuel' sep (cur +:+ String c "") s'
      end
  end.
Definition split (sep s : string) : list string :=
  split_fuel (String.length s) sep "" s.

(** [l[i]] *)
Definition index {A} (l : list A) (i : nat) : result A :=
  of_option IndexError (l !! i).

(** [s[0]] on a string *)
Definition first_char (s : string) : result string :=
  match s with
  | EmptyString => Raise IndexError
  | String c _ => Ok (String c "")
  end.

(** ** Numbers *)

Definition Qmaxl (l : list Q) (default : Q) : Q :=
  match l with
  | [] => default
  | x :: l' => fold_left Qmax l' x
  end.

Definition Qsum (l : list Q) : Q := fold_right Qplus 0 l.

(** [np.mean(l)]; numpy answers [nan] on an empty list, which the callers
    below never turn into a score (see [cea_task]). *)
Definition np_mean (l : list Q) : Q :=
  match l with
  | [] => 0
  | _ => Qsum l / inject_Z (Z.of_nat (length l))
  end.

Definition Qgtb (a b : Q) : bool := negb (Qle_bool a b).
Definition Qgeb (a b : Q) : bool := Qle_bool b a.

(** ** The knowledge base ([Wikidata_KB]) *)

(** The adjacency of one predicate: neighbour to rank or literal-type tag for
    a forward predicate; for a predicate prefixed with "(-)" the source holds
    a set of neighbours, kept here with empty tags. *)
Abbreviation adjacency := (odict string string).

(** One unpickled value of the store. *)
Record kb_entry := {
  labels : list string;
  aliases : list string;
  descriptions : list string;
  props : odict string adjacency
}.

Record Wikidata_KB := {
  edge_txn : gmap string kb_entry
}.

Definition type_properties : list string := ["P31"; "P106"; "P39"; "P105"].
Definition instanceOfPID : string := "P31".
Definition subClassPID : string := "P279".
Definition unitSymbolPID : string := "P5061".
Definition transitivePID : list string :=
  ["P131"; "P276"; "P279"; "P361"; "P403"; "P460"; "P527"; "P706"; "P927";
   "P1647"; "P2094"; "P3373"; "P3403"; "P5607"; "P5973"; "P171"].

(** [prop_obj_dict] of a key, [{}] when the key is missing. *)
Definition prop_obj_dict (KB : Wikidata_KB) (entity_id : string) : odict string adjacency :=
  match edge_txn KB !! entity_id with
  | Some e => props e
  | None => []
  end.

Definition get_subgraph_of_entity (KB : Wikidata_KB) (entity_id : string)
  : odict string adjacency := prop_obj_dict KB entity_id.

(** A positional or keyword argument of a call. *)
Inductive arg := AStr (s : string) | ABool (b : bool).

(** [def get_label_of_entity(self, entity_id)]: the method has one parameter,
    a call with any other argument list raises [TypeError]. *)
Definition get_label_of_entity (KB : Wikidata_KB) (args : list arg) : result string :=
  match args with
  | [AStr entity_id] =>
      Ok match edge_txn KB !! entity_id with
         | Some e =>
             match labels e with
             | l :: _ => l
             | [] => "No English Label"
             end
         | None => ""
         end
  | _ => Raise TypeError
  end.

Definition get_num_edges (KB : Wikidata_KB) (entity_id : string) : nat :=
  fold_left (fun num_edges po => (num_edges + length po.2)%nat)
            (prop_obj_dict KB entity_id) 0%nat.

Definition get_supertypes_of_type (KB : Wikidata_KB) (type_id : string) : adjacency :=
  default [] (od_get subClassPID (prop_obj_dict KB type_id)).

(** The hierarchical types of an entity: position [i] holds the dictionary
    stored under the key [level_(i+1)]. *)
Abbreviation hierarchy := (list adjacency).

Definition level (i : nat) (h : hierarchy) : result adjacency :=
  of_option KeyError (h !! (i - 1)%nat).

(** The first loop of [get_types_of_entity]: the pair
    [(instanceOf_types, others_types)]. *)
Definition collect_types (pod : odict string adjacency) : adjacency * adjacency :=
  fold_left (fun '(instanceOf_types, others_types) prop =>
               match od_get prop pod with
               | Some ((_ :: _) as a_type) =>
                   if decide (prop = instanceOfPID)
                   then (od_update instanceOf_types a_type, others_types)
                   else (instanceOf_types, od_update others_types a_type)
               | _ => (instanceOf_types, others_types)
               end)
            type_properties ([], []).

(** One round of the level loop: the super types of [inter_types]. *)
Definition super_types (KB : Wikidata_KB) (inter_types : adjacency) : adjacency :=
  fold_left (fun types t =>
               match od_get subClassPID (prop_obj_dict KB t) with
               | Some ((_ :: _) as super_type) => od_update types super_type
               | _ => types
               end)
            (od_keys inter_types) [].

Fixpoint higher_levels (KB : Wikidata_KB) (n : nat) (inter_types : adjacency) : hierarchy :=
  match n with
  | O => []
  | S n' =>
      let types := super_types KB inter_types in
      od_update [] types :: higher_levels KB n' types
  end.

Definition get_types_of_entity (KB : Wikidata_KB) (entity_id : string) (num_level : nat)
  : hierarchy :=
  match num_level with
  | O => []
  | S n =>
      let '(instanceOf_types, others_types) := collect_types (prop_obj_dict KB entity_id) in
      let level_1 :=
        match others_types with
        | _ :: _ => others_types
        | [] => instanceOf_types
        end in
      level_1 :: higher_levels KB n level_1
  end.

Definition map_rank (rank : string) : Z :=
  if decide (rank = "PREFERRED") then 2
  else if decide (rank = "NORMAL") then 1
  else 0.

Definition prefixing_entity (entity : string) : result string :=
  c <~ first_char entity ;;
  Ok (if decide (c = "Q") then "http://www.wikidata.org/entity/" +:+ entity
      else if decide (c = "P") then "http://www.wikidata.org/prop/direct/" +:+ entity
      else entity).

Definition is_digit (c : Ascii.ascii) : bool :=
  let n := Ascii.nat_of_ascii c in (48 <=? n)%nat && (n <=? 57)%nat.

Fixpoint all_digits (s : string) : bool :=
  match s with
  | EmptyString => true
  | String c s' => is_digit c && all_digits s'
  end.

Definition is_valid_ID (entity_id : string) : bool :=
  match entity_id with
  | String c ((String _ _) as rest) =>
      (bool_decide (String c "" = "P") || bool_decide (String c "" = "Q")) && all_digits rest
  | _ => false
  end.

(** [get_symbol_of_unit_entity]; for a currency unit the source calls
    [get_label_of_entity(unit_entity_id, only_one=True)]. *)
Definition get_symbol_of_unit_entity (KB : Wikidata_KB) (unit_entity_id : string)
  : result (option string) :=
  match edge_txn KB !! unit_entity_id with
  | Some e =>
      if od_mem "Q8142" (default [] (od_get instanceOfPID (props e)))
      then l <~ get_label_of_entity KB [AStr unit_entity_id; ABool true] ;;
           Ok (Some l)
      else match od_get unitSymbolPID (props e) with
           | Some a => k <~ index (od_keys a) 0 ;; Ok (Some k)
           | None => Ok None
           end
  | None => Ok None
  end.

(** ** Table components and annotation records ([abstract_classes.py]) *)

Record Column := mkColumn { column_index : nat }.
Record Cell := mkCell { cell_row : nat; cell_col : nat }.
Record Column_Pair := mkPair { head_col_index : nat; tail_col_index : nat }.
Record Candidate_Entity := mkCand { cand_row : nat; cand_col : nat; cand_id : string }.
Record Relation := mkRel { rel_id : string; rel_semantic_proximity : Q }.
Record Edge := mkEdge { pid : string; info : string }.

#[global] Instance Column_eq_dec : EqDecision Column.
Proof. solve_decision. Defined.
#[global] Instance Cell_eq_dec : EqDecision Cell.
Proof. solve_decision. Defined.
#[global] Instance Column_Pair_eq_dec : EqDecision Column_Pair.
Proof. solve_decision. Defined.
#[global] Instance Candidate_Entity_eq_dec : EqDecision Candidate_Entity.
Proof. solve_decision. Defined.

(** [{"weight": w, "score": s, "context": [...]}] *)
Record context_rec := mkCtx { ctx_weight : Q; ctx_score : Q; ctx_context : list string }.

(** [{"id": i, "score": s}] *)
Record cea := mkCea { cea_id : string; cea_score : Q }.

(** [{"id": i, "score": s, "coverage": c}] *)
Record cta := mkCta { cta_id : string; cta_score : Q; cta_coverage : Q }.

(** [{"id": i, "score": s, "semantic_proximity": p, "coverage": c}] *)
Record cpa := mkCpa {
  cpa_id : string; cpa_score : Q; cpa_semantic_proximity : Q; cpa_coverage : Q
}.

(** [{"cpa_coeff": c, "cpa_score": s, "cpa_id": i}] *)
Record potential := mkPot { pot_cpa_coeff : Q; pot_cpa_score : Q; pot_cpa_id : string }.

(** [{"entity": {...}, "literal": {...}, "pids": set()}] *)
Record subgraph := mkSub {
  sg_entity : odict string (list Edge);
  sg_literal : odict string (list Edge);
  sg_pids : list string
}.

(** What a task returns: a list of annotations, [""], or nothing. *)
Inductive task_ret (A : Type) :=
| RetList (l : list A)
| RetEmptyStr
| RetNone.
Arguments RetList {A} l.
Arguments RetEmptyStr {A}.
Arguments RetNone {A}.

(** The ["preprocessed"] entry of the preprocessor's answer, as far as the
    engine reads it. *)
Record table_infos_rec := {
  tableDataRevised : list (list string);
  hasHeader : bool;
  primitiveTyping : list (list (string * Q))
}.

(** One item of the lookup answer: a label and, unless the item is
    malformed, its [(entity, score)] list. *)
Record lookup_item := {
  li_label : string;
  li_entities : option (list (string * Q))
}.
Record lookup_response := {
  executionTimeSec : Q;
  output : list lookup_item
}.

(** ** The engine state ([Baseline_Model]) *)

(** Attributes fixed by [__init__]. *)
Record Setup := {
  K : nat;
  multiHop_context : bool;
  transitivePropertyOnly_path : bool;
  soft_scoring : bool;
  KB : Wikidata_KB;
  is_model_init_success : bool;
  table_infos : option table_infos_rec;
  table : list (list string);
  num_columns : nat;
  num_rows : nat;
  first_data_row : nat;
  entity_cols : list nat;
  literal_cols : list nat;
  date_cols : list nat;
  numeral_cols_with_unit : list nat;
  numeral_cols_without_unit : list nat;
  textual_cols : list nat;
  index_col : option nat;
  lookup_tbl : odict Cell (list string);
  abnormal_lookup_mentions : list string;
  lookup_time : Q;
  avg_lookup_candidate : Q;
  G_memory : gmap string subgraph
}.

(** Attributes written by the scoring and annotation methods. *)
Record Baseline_Model := mkModel {
  setup : Setup;
  lookup_scores : odict Candidate_Entity Q;
  entity_context_scores : odict Candidate_Entity (odict nat context_rec);
  entity_sim_scores : odict Candidate_Entity Q;
  entity_scores : odict Candidate_Entity Q;
  type_graph : gmap string (list string);
  cached_cpa_candidates : gmap (string * string) (list Relation);
  unrelated_col_pairs : list Column_Pair;
  cached_cta_candidates : gmap string hierarchy;
  contextless_cells : odict Cell Q;
  potential_candidates : odict Candidate_Entity (list potential);
  cta_annot : odict Column (list cta);
  cea_annot : odict Cell (list cea);
  cpa_annot : odict Column_Pair (list cpa)
}.

Definition set_lookup_scores v (s : Baseline_Model) :=
  let 'mkModel a _ c d e f g h i j k l m n := s in mkModel a v c d e f g h i j k l m n.
Definition set_entity_context_scores v (s : Baseline_Model) :=
  let 'mkModel a b _ d e f g h i j k l m n := s in mkModel a b v d e f g h i j k l m n.
Definition set_entity_sim_scores v (s : Baseline_Model) :=
  let 'mkModel a b c _ e f g h i j k l m n := s in mkModel a b c v e f g h i j k l m n.
Definition set_entity_scores v (s : Baseline_Model) :=
  let 'mkModel a b c d _ f g h i j k l m n := s in mkModel a b c d v f g h i j k l m n.
Definition set_type_graph v (s : Baseline_Model) :=
  let 'mkModel a b c d e _ g h i j k l m n := s in mkModel a b c d e v g h i j k l m n.
Definition set_cached_cpa_candidates v (s : Baseline_Model) :=
  let 'mkModel a b c d e f _ h i j k l m n := s in mkModel a b c d e f v h i j k l m n.
Definition set_unrelated_col_pairs v (s : Baseline_Model) :=
  let 'mkModel a b c d e f g _ i j k l m n := s in mkModel a b c d e f g v i j k l m n.
Definition set_cached_cta_candidates v (s : Baseline_Model) :=
  let 'mkModel a b c d e f g h _ j k l m n := s in mkModel a b c d e f g h v j k l m n.
Definition set_contextless_cells v (s : Baseline_Model) :=
  let 'mkModel a b c d e f g h i _ k l m n := s in mkModel a b c d e f g h i v k l m n.
Definition set_potential_candidates v (s : Baseline_Model) :=
  let 'mkModel a b c d e f g h i j _ l m n := s in mkModel a b c d e f g h i j v l m n.
Definition set_cta_annot v (s : Baseline_Model) :=
  let 'mkModel a b c d e f g h i j k _ m n := s in mkModel a b c d e f g h i j k v m n.
Definition set_cea_annot v (s : Baseline_Model) :=
  let 'mkModel a b c d e f g h i j k l _ n := s in mkModel a b c d e f g h i j k l v n.
Definition set_cpa_annot v (s : Baseline_Model) :=
  let 'mkModel a b c d e f g h i j k l m _ := s in mkModel a b c d e f g h i j k l m v.

(** Weights set once by [__init__]. *)
Definition semantic_context_weight : Q := 1.
Definition literal_context_weight : Q := 3 # 10.
Definition first_level : Q := 1.
Definition second_level : Q := 7 # 10.
Definition third_level : Q := 2 # 10.

(** [self.num_rows - self.first_data_row], as an integer and as a float. *)
Definition num_data_rows (s : Setup) : Z :=
  Z.of_nat (num_rows s) - Z.of_nat (first_data_row s).
Definition data_rows (s : Setup) : list nat := range (first_data_row s) (num_rows s).
Definition Qnat (n : nat) : Q := inject_Z (Z.of_nat n).

(** [sorted(l, key=..., reverse=True)]: a stable descending sort; [ltb a b]
    says that the key of [a] is smaller than the key of [b]. *)
Fixpoint insert_desc {A} (ltb : A -> A -> bool) (x : A) (l : list A) : list A :=
  match l with
  | [] => [x]
  | y :: l' => if ltb x y then y :: insert_desc ltb x l' else x :: l
  end.
Definition sorted_desc {A} (ltb : A -> A -> bool) (l : list A) : list A :=
  fold_right (insert_desc ltb) [] l.

(** [max(l)] of a list of floats *)
Definition py_max (l : list Q) : result Q :=
  match l with
  | [] => Raise ValueError
  | x :: l' => Ok (fold_left Qmax l' x)
  end.

(** [min(l)] of a list of column indices *)
Definition py_min (l : list nat) : result nat :=
  match l with
  | [] => Raise ValueError
  | x :: l' => Ok (fold_left Nat.min l' x)
  end.

Definition is_rank (obj_type : string) : bool :=
  mem obj_type ["NORMAL"; "PREFERRED"; "DEPRECATED"].

(** ** CEA: cell-entity annotation *)

Definition is_neighbor_of_entity (target_graph query_entity_ids : list string) : bool :=
  existsb (fun query_e => mem query_e target_graph) query_entity_ids.

(** The entry [self.type_graph[cta_type]] built on first use: the keys of
    the dictionary, in insertion order. *)
Definition build_type_graph (KB : Wikidata_KB) (cta_type : string) : list string :=
  let graph_tmp := od_del "(-)P31" (get_subgraph_of_entity KB cta_type) in
  fold_left (fun tg '(pid, objs) =>
               if is_backward pid
               then fold_left (fun tg obj => set_add obj tg) (od_keys objs) tg
               else fold_left (fun tg '(obj, obj_type) =>
                                 if is_rank obj_type then set_add obj tg else tg)
                              objs tg)
            graph_tmp [].

(** The body of [for cea in cea_candidates] under one CTA of the column. *)
Definition cta_disambiguation_step (s : Baseline_Model) (a_cta : cta)
    (cta_disambiguation_scores : odict string Q) (c : cea) : result (odict string Q) :=
  let cta_type := cta_id a_cta in
  let scores :=
    if od_mem (cea_id c) cta_disambiguation_scores then cta_disambiguation_scores
    else od_set (cea_id c) 0 cta_disambiguation_scores in
  let current := default 0 (od_get (cea_id c) scores) in
  hierachical_types <~ of_option KeyError (cached_cta_candidates s !! cea_id c) ;;
  level_1 <~ level 1 hierachical_types ;;
  if od_mem cta_type level_1
  then Ok (od_set (cea_id c) (Qmax current (first_level * cta_score a_cta)) scores)
  else
    level_2 <~ level 2 hierachical_types ;;
    (* [self.type_graph[cta_type]] was filled just before this loop *)
    let tg := default [] (type_graph s !! cta_type) in
    if od_mem cta_type level_2 || is_neighbor_of_entity tg (od_keys level_1)
    then Ok (od_set (cea_id c) (Qmax current (second_level * cta_score a_cta)) scores)
    else
      level_3 <~ level 3 hierachical_types ;;
      if od_mem cta_type level_3 || is_neighbor_of_entity tg (od_keys level_2)
      then Ok (od_set (cea_id c) (Qmax current (third_level * cta_score a_cta)) scores)
      else Ok scores.

(** The body of [for a_cta in cta]: fills the type graph, records the
    coverage and updates the disambiguation score of every candidate. *)
Definition cta_disambiguation_cta (cea_candidates : list cea)
    (acc : odict string Q * list Q) (a_cta : cta)
  : M Baseline_Model (odict string Q * list Q) :=
  let '(cta_disambiguation_scores, cta_disambiguation_weights) := acc in
  s0 <- mget ;;
  (match type_graph s0 !! cta_id a_cta with
   | Some _ => mret tt
   | None => mmodify (set_type_graph
                        (<[cta_id a_cta := build_type_graph (KB (setup s0)) (cta_id a_cta)]>
                           (type_graph s0)))
   end) ;;;
  s <- mget ;;
  let weights := cta_disambiguation_weights ++ [cta_coverage a_cta] in
  scores <- mlift (foldR (cta_disambiguation_step s a_cta)
                         cta_disambiguation_scores cea_candidates) ;;
  mret (scores, weights).

(** The loop [for col, cta in self.cta_annot.items()]. *)
Definition cta_disambiguation (col_index : nat) (cea_candidates : list cea)
  : M Baseline_Model (bool * odict string Q * list Q) :=
  s <- mget ;;
  foldM (fun '(cta_disabg_applied, scores, weights) '(col, cta_list) =>
           if decide (column_index col = col_index)
           then r <- foldM (cta_disambiguation_cta cea_candidates) (scores, weights) cta_list ;;
                mret (true, r.1, r.2)
           else mret (cta_disabg_applied, scores, weights))
        (false, [], []) (cta_annot s).

(** The boost of a candidate of a contextless cell whose predicates contain
    a CPA of the table. *)
Definition cpa_boost (s : Baseline_Model) (row_index col_index : nat) (c : cea) : result cea :=
  match od_get (mkCand row_index col_index (cea_id c)) (potential_candidates s) with
  | Some pots =>
      cpa_coeff <~ py_max (map pot_cpa_coeff pots) ;;
      Ok (mkCea (cea_id c) (Qmin 1 (cea_score c * (1 + cpa_coeff))))
  | None => Ok c
  end.

Definition is_contextless (s : Baseline_Model) (cell : Cell) : bool :=
  match contextless_cells s with
  | [] => false
  | _ => Qeq_bool (default (1 # 10) (od_get cell (contextless_cells s))) (1 # 10)
  end.

(** [cta_coeff] and the candidates after the contextless boost. *)
Definition cta_coefficient (s : Baseline_Model) (row_index col_index : nat)
    (weights : list Q) (cea_candidates : list cea) : result (Q * list cea) :=
  if soft_scoring (setup s)
  then if is_contextless s (mkCell row_index col_index)
       then boosted <~ foldR (fun acc c => c' <~ cpa_boost s row_index col_index c ;;
                                            Ok (acc ++ [c']))
                             [] cea_candidates ;;
            Ok (np_mean weights, boosted)
       else Ok (np_mean weights / 2, cea_candidates)
  else Ok (1 # 4, cea_candidates).

(** The final update [for cea in cea_candidates].  The quotient is exact
    here; the source rounds the product, the sum and the quotient, so that
    for instance [(0.2 + 0.5 * 0.2) / 1.5] is [1 # 5] here and
    [0.20000000000000004] there. *)
Definition cea_final_score (cta_disabg_applied : bool) (cta_coeff : Q)
    (cta_disambiguation_scores : odict string Q) (c : cea) : result cea :=
  if cta_disabg_applied
  then bonus <~ of_option KeyError (od_get (cea_id c) cta_disambiguation_scores) ;;
       Ok (mkCea (cea_id c) (Qred ((cea_score c + cta_coeff * bonus) / (1 + cta_coeff))))
  else Ok (mkCea (cea_id c) (Qred (cea_score c / 1))).

Definition num_cpa_memberships (s : Baseline_Model) (row_index col_index : nat) (c : cea) : nat :=
  length (default [] (od_get (mkCand row_index col_index (cea_id c)) (potential_candidates s))).

(** The sort key [(score, number of CPA memberships)], compared as tuples. *)
Definition cea_key_ltb (s : Baseline_Model) (row_index col_index : nat) (a b : cea) : bool :=
  Qgtb (cea_score b) (cea_score a)
  || (Qeq_bool (cea_score a) (cea_score b)
      && (num_cpa_memberships s row_index col_index a
          <? num_cpa_memberships s row_index col_index b)%nat).

Definition top_score_group (sorted_cea_candidates : list cea) : list cea :=
  match sorted_cea_candidates with
  | [] => []
  | top :: _ => filter (fun c => Qeq_bool (cea_score c) (cea_score top) = true)
                       sorted_cea_candidates
  end.

(** The candidates of a cell with their scores before disambiguation. *)
Definition initial_cea_candidates (s : Baseline_Model) (row_index col_index : nat)
    (ids : list string) : list cea :=
  flat_map (fun candidate_id =>
              match od_get (mkCand row_index col_index candidate_id) (entity_scores s) with
              | Some sc => [mkCea candidate_id sc]
              | None => []
              end) ids.

Definition cea_task (col_index row_index : nat) (only_one : bool)
  : M Baseline_Model (task_ret cea) :=
  s0 <- mget ;;
  let cell := mkCell row_index col_index in
  match od_get cell (lookup_tbl (setup s0)) with
  | Some ids =>
      let cea_candidates := initial_cea_candidates s0 row_index col_index ids in
      match cea_candidates with
      | [] => mret RetNone
      | _ :: _ =>
          r <- (match cta_annot s0 with
                | [] => mret (false, [], [])
                | _ => cta_disambiguation col_index cea_candidates
                end) ;;
          let '(cta_disabg_applied, cta_disambiguation_scores, weights) := r in
          s <- mget ;;
          cc <- mlift (if cta_disabg_applied
                       then cta_coefficient s row_index col_index weights cea_candidates
                       else Ok (0, cea_candidates)) ;;
          let '(cta_coeff, cea_candidates1) := cc in
          scored <- mlift (foldR (fun acc c =>
                                    c' <~ cea_final_score cta_disabg_applied cta_coeff
                                            cta_disambiguation_scores c ;;
                                    Ok (acc ++ [c']))
                                 [] cea_candidates1) ;;
          let sorted_cea_candidates :=
            sorted_desc (cea_key_ltb s row_index col_index) scored in
          let annot := if only_one then top_score_group sorted_cea_candidates
                       else sorted_cea_candidates in
          mmodify (set_cea_annot (od_set cell annot (cea_annot s))) ;;;
          mret (RetList annot)
      end
  | None => mret RetEmptyStr
  end.

(** ** CTA: column-type annotation *)

(** [{"score": s, "rank": r}] of a type in the current row *)
Record row_type := mkRowType { rt_score : Q; rt_rank : Z }.

(** [{"count": c, "total_scores": s, "total_ranks": r}] of a type in the column *)
Record type_stat := mkStat { count : nat; total_scores : Q; total_ranks : Z }.

(** The loop over [level_1]; it also binds the loop variable [t1], which
    Python keeps after the loop. *)
Definition cta_level_1 (candidate_score : Q)
    (acc : odict string row_type * option string) (it : string * string)
  : result (odict string row_type * option string) :=
  let '(types_in_current_row, _) := acc in
  let '(t1, rank) := it in
  match od_get t1 types_in_current_row with
  | Some old =>
      r0 <~ first_char rank ;;
      Ok (od_set t1 (mkRowType (Qmax (rt_score old) (first_level * candidate_score))
                               (Z.max (rt_rank old) (map_rank r0)))
                 types_in_current_row, Some t1)
  | None =>
      r0 <~ first_char rank ;;
      Ok (od_set t1 (mkRowType (first_level * candidate_score) (map_rank r0))
                 types_in_current_row, Some t1)
  end.

(** The loop over [level_2]: for a type already seen in the row the rank is
    read from [types_in_current_row[t1]], with the [t1] left by the last
    [level_1] loop that ran an iteration. *)
Definition cta_level_2 (candidate_score : Q) (t1 : option string)
    (types_in_current_row : odict string row_type) (it : string * string)
  : result (odict string row_type) :=
  let '(t2, rank) := it in
  match od_get t2 types_in_current_row with
  | Some old =>
      t1' <~ of_option UnboundLocalError t1 ;;
      old1 <~ of_option KeyError (od_get t1' types_in_current_row) ;;
      r0 <~ first_char rank ;;
      Ok (od_set t2 (mkRowType (Qmax (rt_score old) (second_level * candidate_score))
                               (Z.max (rt_rank old1) (map_rank r0)))
                 types_in_current_row)
  | None =>
      r0 <~ first_char rank ;;
      Ok (od_set t2 (mkRowType (second_level * candidate_score) (map_rank r0))
                 types_in_current_row)
  end.

Definition cta_level_3 (candidate_score : Q)
    (types_in_current_row : odict string row_type) (it : string * string)
  : result (odict string row_type) :=
  let '(t3, rank) := it in
  match od_get t3 types_in_current_row with
  | Some old =>
      r0 <~ first_char rank ;;
      Ok (od_set t3 (mkRowType (Qmax (rt_score old) (third_level * candidate_score))
                               (Z.max (rt_rank old) (map_rank r0)))
                 types_in_current_row)
  | None =>
      r0 <~ first_char rank ;;
      Ok (od_set t3 (mkRowType (third_level * candidate_score) (map_rank r0))
                 types_in_current_row)
  end.

(** The body of [for cea in self.cea_annot[cell]]. *)
Definition cta_cea (acc : odict string row_type * option string) (c : cea)
  : M Baseline_Model (odict string row_type * option string) :=
  s <- mget ;;
  hierachical_types <-
    (match cached_cta_candidates s !! cea_id c with
     | None =>
         let h := get_types_of_entity (KB (setup s)) (cea_id c) 3 in
         mmodify (set_cached_cta_candidates (<[cea_id c := h]> (cached_cta_candidates s))) ;;;
         mret h
     | Some h => mret h
     end) ;;
  mlift (level_1 <~ level 1 hierachical_types ;;
         acc1 <~ foldR (cta_level_1 (cea_score c)) acc level_1 ;;
         level_2 <~ level 2 hierachical_types ;;
         row2 <~ foldR (cta_level_2 (cea_score c) acc1.2) acc1.1 level_2 ;;
         level_3 <~ level 3 hierachical_types ;;
         row3 <~ foldR (cta_level_3 (cea_score c)) row2 level_3 ;;
         Ok (row3, acc1.2)).

(** [for t in types_in_current_row]: the column statistics. *)
Definition cta_merge_row (candidate_types : odict string type_stat)
    (types_in_current_row : odict string row_type) : odict string type_stat :=
  fold_left (fun ct '(t, rt) =>
               match od_get t ct with
               | Some st => od_set t (mkStat (count st + 1) (total_scores st + rt_score rt)
                                             (total_ranks st + rt_rank rt)) ct
               | None => od_set t (mkStat 1 (rt_score rt) (rt_rank rt)) ct
               end)
            types_in_current_row candidate_types.

(** The body of [for row_index in range(first_data_row, num_rows)]. *)
Definition cta_row (col_index : nat)
    (acc : odict string type_stat * option string) (row_index : nat)
  : M Baseline_Model (odict string type_stat * option string) :=
  s <- mget ;;
  match od_get (mkCell row_index col_index) (cea_annot s) with
  | Some ceas =>
      r <- foldM cta_cea ([], acc.2) ceas ;;
      mret (cta_merge_row acc.1 r.1, r.2)
  | None => mret acc
  end.

Definition cta_product (st : type_stat) : Q := Qnat (count st) * total_scores st.

(** The sort key [(count*total_scores, total_ranks)]. *)
Definition cta_key_ltb (a b : string * type_stat) : bool :=
  Qgtb (cta_product b.2) (cta_product a.2)
  || (Qeq_bool (cta_product a.2) (cta_product b.2) && (total_ranks a.2 <? total_ranks b.2)%Z).

(** The annotation record of a candidate type. *)
Definition cta_record (s : Setup) (ct : string * type_stat) : cta :=
  mkCta ct.1 (Qred (total_scores ct.2 / inject_Z (num_data_rows s)))
             (Qred (Qnat (count ct.2) / inject_Z (num_data_rows s))).

Definition cta_select (s : Setup) (only_one : bool)
    (sorted_candidate_types : list (string * type_stat)) (threshold : type_stat) : list cta :=
  if only_one then
    let best := filter (fun ct => Qeq_bool (cta_product ct.2) (cta_product threshold) = true)
                       sorted_candidate_types in
    let supertypes := flat_map (fun ct => od_keys (get_supertypes_of_type (KB s) ct.1)) best in
    fold_left (fun annot ct =>
                 if mem ct.1 supertypes && negb (mem ct.1 (map cta_id annot))
                 then annot ++ [cta_record s ct] else annot)
              sorted_candidate_types (map (cta_record s) best)
  else
    map (cta_record s)
        (filter (fun ct => (count threshold <=? count ct.2)%nat = true) sorted_candidate_types).

Definition cta_task (col_index : nat) (only_one : bool) : M Baseline_Model (task_ret cta) :=
  s0 <- mget ;;
  r <- foldM (cta_row col_index) ([], None) (data_rows (setup s0)) ;;
  let candidate_types := r.1 in
  match sorted_desc cta_key_ltb candidate_types with
  | [] => mret RetEmptyStr
  | (top :: _) as sorted_candidate_types =>
      s <- mget ;;
      let annot := cta_select (setup s) only_one sorted_candidate_types top.2 in
      mmodify (set_cta_annot (od_set (mkColumn col_index) annot (cta_annot s))) ;;;
      mret (RetList annot)
  end.

(** ** CPA: column-pair annotation *)

(** [{"semantic_proximity": p, "score": s}] of a relation in the current row *)
Record row_rel := mkRowRel { rr_semantic_proximity : Q; rr_score : Q }.

(** [{"count": c, "total_scores": s, "semantic_proximity": p}] *)
Record rel_stat := mkRelStat { rs_count : nat; rs_total_scores : Q; rs_semantic_proximity : Q }.

(** [self.table[row][col]] *)
Definition table_cell (s : Setup) (row col : nat) : result string :=
  r <~ index (table s) row ;; index r col.

(** The first loop: the CEAs of the head column and of the tail column, row
    by row; a literal tail cell stands for itself with score 0. *)
Definition cpa_cells (s : Baseline_Model) (head_col_index tail_col_index : nat)
  : result (odict nat (list cea) * odict nat (list cea)) :=
  foldR (fun '(head_cells, tail_cells) row_index =>
           let head_cells' :=
             match od_get (mkCell row_index head_col_index) (cea_annot s) with
             | Some l => od_set row_index l head_cells
             | None => head_cells
             end in
           if mem tail_col_index (entity_cols (setup s))
           then Ok (head_cells',
                    match od_get (mkCell row_index tail_col_index) (cea_annot s) with
                    | Some l => od_set row_index l tail_cells
                    | None => tail_cells
                    end)
           else mention <~ table_cell (setup s) row_index tail_col_index ;;
                Ok (head_cells', od_set row_index [mkCea mention 0] tail_cells))
        ([], []) (data_rows (setup s)).

(** The relations cached for one pair of candidates, merged into the row. *)
Definition cpa_pair (s : Baseline_Model) (head_candidate tail_candidate : cea)
    (relation_in_current_row : odict string row_rel) : odict string row_rel :=
  let conf := Qmax (cea_score head_candidate) (cea_score tail_candidate) in
  fold_left (fun rel a_cpa_candidate =>
               let p := rel_semantic_proximity a_cpa_candidate in
               match od_get (rel_id a_cpa_candidate) rel with
               | Some old =>
                   od_set (rel_id a_cpa_candidate)
                          (mkRowRel (Qmin (rr_semantic_proximity old) p)
                                    (Qmax (rr_score old) (p * conf))) rel
               | None => od_set (rel_id a_cpa_candidate) (mkRowRel p (p * conf)) rel
               end)
            (default [] (cached_cpa_candidates s !! (cea_id head_candidate, cea_id tail_candidate)))
            relation_in_current_row.

Definition cpa_row_relations (s : Baseline_Model) (heads tails : list cea)
  : odict string row_rel :=
  fold_left (fun rel head_candidate =>
               fold_left (fun rel tail_candidate => cpa_pair s head_candidate tail_candidate rel)
                         tails rel)
            heads [].

Definition cpa_merge_row (cpa_candidates : odict string rel_stat)
    (relation_in_current_row : odict string row_rel) : odict string rel_stat :=
  fold_left (fun cc '(prop, score_info) =>
               match od_get prop cc with
               | None => od_set prop (mkRelStat 1 (rr_score score_info)
                                                (rr_semantic_proximity score_info)) cc
               | Some st =>
                   od_set prop (mkRelStat (rs_count st + 1)
                                          (rs_total_scores st + rr_score score_info)
                                          (Qmin (rs_semantic_proximity st)
                                                (rr_semantic_proximity score_info))) cc
               end)
            relation_in_current_row cpa_candidates.

(** The second loop, over the rows that have both a head and a tail; the
    source iterates over a set of row numbers, taken here in ascending order. *)
Definition cpa_collect (s : Baseline_Model)
    (head_cells tail_cells : odict nat (list cea)) : odict string rel_stat :=
  fold_left (fun cc '(row_index, heads) =>
               match od_get row_index tail_cells with
               | Some tails => cpa_merge_row cc (cpa_row_relations s heads tails)
               | None => cc
               end)
            head_cells [].

Definition cpa_product (st : rel_stat) : Q := Qnat (rs_count st) * rs_total_scores st.

Definition bool_ltb (a b : bool) : bool := negb a && b.

(** The sort key [(count*total_scores, count, semantic_proximity,
    "::" not in id, "(-)" not in id)], compared as tuples. *)
Definition cpa_key_ltb (a b : string * rel_stat) : bool :=
  let ka4 := negb (contains "::" a.1) in
  let kb4 := negb (contains "::" b.1) in
  let ka5 := negb (contains "(-)" a.1) in
  let kb5 := negb (contains "(-)" b.1) in
  Qgtb (cpa_product b.2) (cpa_product a.2)
  || (Qeq_bool (cpa_product a.2) (cpa_product b.2)
      && ((rs_count a.2 <? rs_count b.2)%nat
          || ((rs_count a.2 =? rs_count b.2)%nat
              && (Qgtb (rs_semantic_proximity b.2) (rs_semantic_proximity a.2)
                  || (Qeq_bool (rs_semantic_proximity a.2) (rs_semantic_proximity b.2)
                      && (bool_ltb ka4 kb4
                          || (bool_decide (ka4 = kb4) && bool_ltb ka5 kb5))))))).

Definition cpa_record (s : Setup) (c : string * rel_stat) : cpa :=
  mkCpa c.1 (Qred (rs_total_scores c.2 / inject_Z (num_data_rows s)))
            (Qred (rs_semantic_proximity c.2))
            (Qred (Qnat (rs_count c.2) / inject_Z (num_data_rows s))).

Definition cpa_select (s : Setup) (only_one : bool)
    (sorted_cpa_candidates : list (string * rel_stat)) (threshold : rel_stat) : list cpa :=
  map (cpa_record s)
      (filter (fun c => (if only_one
                         then Qgeb (cpa_product c.2) (cpa_product threshold)
                         else (rs_count threshold <=? rs_count c.2)%nat) = true)
              sorted_cpa_candidates).

Definition cpa_task (head_col_index tail_col_index : nat) (only_one : bool)
  : M Baseline_Model (task_ret cpa) :=
  s <- mget ;;
  if mem (mkPair head_col_index tail_col_index) (unrelated_col_pairs s)
     || (mem tail_col_index (literal_cols (setup s)) && (tail_col_index <? head_col_index)%nat)
  then mret RetEmptyStr
  else
    cells <- mlift (cpa_cells s head_col_index tail_col_index) ;;
    let cpa_candidates := cpa_collect s cells.1 cells.2 in
    match sorted_desc cpa_key_ltb cpa_candidates with
    | [] => mret RetEmptyStr
    | (top :: _) as sorted_cpa_candidates =>
        let annot := cpa_select (setup s) only_one sorted_cpa_candidates top.2 in
        mmodify (set_cpa_annot (od_set (mkPair head_col_index tail_col_index) annot (cpa_annot s))) ;;;
        mret (RetList annot)
    end.

(** ** Libraries and services outside the engine

    The floating-point library ([math]), the string metrics ([rapidfuzz]),
    the date parser ([dateutil]), the unit libraries ([quantulum3], [pint]),
    [unidecode], the table preprocessor, the lookup service and the
    key-value store behind a KB path are taken as given. *)
Class Externals := {
  (** [math.log10], [math.exp] and the power operator *)
  log10 : Q -> Q;
  exp : Q -> Q;
  pow : Q -> Q -> Q;
  (** [fuzz.ratio], [fuzz.token_sort_ratio], [fuzz.token_set_ratio] *)
  fuzz_ratio : string -> string -> Q;
  fuzz_token_sort_ratio : string -> string -> Q;
  fuzz_token_set_ratio : string -> string -> Q;
  (** [str.lower] *)
  lower : string -> string;
  (** [dateutil.parser.parse]: [None] when it raises; a date is a point
      in time, of which only equality and the year are used *)
  parse : string -> option Z;
  year_str : Z -> string;
  unidecode : string -> string;
  (** [float(value) * ureg(unit).to_base_units()]: the base unit and the
      magnitude, [None] when the conversion raises *)
  to_base_units : string -> option string -> option (string * Q);
  (** [standardize_to_base_unit] of the text of a cell *)
  standardize_text : string -> odict string (list Q);
  (** [table_preprocessing(table)["preprocessed"]], [None] when it is empty *)
  table_preprocessing : list (list string) -> option table_infos_rec;
  (** [entity_lookup(labels, KG)] *)
  entity_lookup : list string -> string -> lookup_response;
  (** the store opened by [Wikidata_KB(kb_path)] *)
  open_kb : string -> Wikidata_KB
}.

Section Engine.
Context {E : Externals}.

(** *** [utils.py] *)

Definition date_similarity (s1 s2 : string) : bool :=
  match parse s1, parse s2 with
  | Some d1, Some d2 => bool_decide (d1 = d2)
  | _, _ => false
  end.

(** [get_year_from_date]: [None] stands for the [False] of the source, on
    which [date_similarity] then answers [False]. *)
Definition get_year_from_date (d : string) : option string :=
  match parse d with
  | Some t => Some (year_str t)
  | None => None
  end.

Definition year_similarity (year_obj year_cell : option string) : bool :=
  match year_obj, year_cell with
  | Some a, Some b => date_similarity a b
  | _, _ => false
  end.

Definition Qltb (a b : Q) : bool := Qgtb b a.

Definition textual_similarity (s1 s2 : string) : Q :=
  let char_based_ratio := fuzz_ratio (lower s1) (lower s2) / 100 in
  let token_sort_based_ratio := fuzz_token_sort_ratio (lower s1) (lower s2) / 100 in
  let token_set_based_ratio := fuzz_token_set_ratio (lower s1) (lower s2) / 100 in
  Qsum (take 2 (sorted_desc Qltb
                  [char_based_ratio; token_sort_based_ratio; token_set_based_ratio])) / 2.

(** [dimensionless_quantity_similarity] on two floats *)
Definition dimensionless_quantity_similarity (s1 s2 : Q) : Q :=
  1 - Qabs (s1 - s2) / (Qabs s1 + Qabs s2 + (1 # 10000)).

(** [standardize_to_base_unit({"value": v, "unit": u})] *)
Definition standardize_measure (value : string) (unit_dim : option string)
  : odict string (list Q) :=
  match to_base_units value unit_dim with
  | Some (units, magnitude) => [(units, [magnitude])]
  | None => []
  end.

(** *** Literal similarity *)

Definition _literal_similarity_scoring : M Baseline_Model unit :=
  s0 <- mget ;;
  match lookup_scores s0 with
  | _ :: _ =>
      forM (od_keys (entity_sim_scores s0))
           (fun candidate =>
              s <- mget ;;
              sc <- mlift (of_option KeyError (od_get candidate (lookup_scores s))) ;;
              mmodify (set_entity_sim_scores (od_set candidate sc (entity_sim_scores s)))) ;;;
      mmodify (set_lookup_scores [])
  | [] =>
      (* [get_label_of_entity] answers a string, which the source then
         indexes with ["labels"] *)
      forM (od_keys (entity_sim_scores s0))
           (fun candidate =>
              mention <- mlift (table_cell (setup s0) (cand_row candidate) (cand_col candidate)) ;;
              candidate_labels_and_aliases <-
                mlift (get_label_of_entity (KB (setup s0)) [AStr (cand_id candidate)]) ;;
              mraise TypeError)
  end.

(** *** Semantic context: the relations between two candidates *)

(** Reversing the direction of [rel_tail]. *)
Definition reverse_direction (rel_tail : string) : string :=
  if is_backward rel_tail then replace "(-)" "" rel_tail else "(-)" +:+ rel_tail.

Definition node_popularity (kb : Wikidata_KB) (node : string) : Q :=
  let num_edges := get_num_edges kb node in
  if (num_edges =? 0)%nat then 0 else 1 / (2 + log10 (2 + Qnat num_edges)).

(** The relation found through one shared neighbour for one pair of edges,
    with its semantic proximity. *)
Definition path_candidate (popularity : Q) (rel_head rel_tail0 : string) : string * Q :=
  let rel_tail := reverse_direction rel_tail0 in
  if decide (rel_head = rel_tail) then
    if mem (replace "(-)" "" rel_head) transitivePID
    then (rel_head, 1)
    else (rel_head +:+ "::" +:+ rel_tail, popularity)
  else
    (rel_head +:+ "::" +:+ rel_tail,
     if (is_backward rel_head && negb (is_backward rel_tail))
        || (negb (is_backward rel_head) && is_backward rel_tail)
     then popularity / (7 # 4)
     else popularity).

(** The two assignments that close the innermost loop body:
    [best_semantic_proximity] and [semantic_proximities[a_cpa_candidate]]. *)
Definition record_relation (acc : Q * odict string Q) (c : string * Q) : Q * odict string Q :=
  let '(best_semantic_proximity, semantic_proximities) := acc in
  (Qmax best_semantic_proximity c.2,
   od_set c.1 (Qmin (default c.2 (od_get c.1 semantic_proximities)) c.2) semantic_proximities).

(** [G_head.keys() & G_tail.keys()]; the source iterates over a set, the
    order of the head's dictionary is taken here. *)
Definition G_intersect (G_head G_tail : odict string (list Edge)) : list string :=
  filter (fun node => od_mem node G_tail = true) (od_keys G_head).

Definition multi_hop (kb : Wikidata_KB) (G_head G_tail : odict string (list Edge))
  : Q * odict string Q :=
  fold_left
    (fun acc node =>
       let popularity := node_popularity kb node in
       if Qgtb popularity 0 then
         fold_left
           (fun acc prop_head =>
              fold_left
                (fun acc prop_tail =>
                   record_relation acc (path_candidate popularity (pid prop_head) (pid prop_tail)))
                (default [] (od_get node G_tail)) acc)
           (default [] (od_get node G_head)) acc
       else acc)
    (G_intersect G_head G_tail) (0, []).

Definition entity_subgraph (s : Setup) (entity_id : string) : odict string (list Edge) :=
  match G_memory s !! entity_id with
  | Some g => sg_entity g
  | None => []
  end.

(** [(best_semantic_proximity, semantic_proximities)] of a pair. *)
Definition pair_relations (s : Baseline_Model) (head_id tail_id : string)
    (G_head : odict string (list Edge)) : Q * odict string Q :=
  match cached_cpa_candidates s !! (head_id, tail_id) with
  | Some cpa_candidates =>
      fold_left (fun '(best, sps) a_cpa_candidate =>
                   (Qmax best (rel_semantic_proximity a_cpa_candidate),
                    od_set (rel_id a_cpa_candidate)
                           (rel_semantic_proximity a_cpa_candidate) sps))
                cpa_candidates (0, [])
  | None =>
      let G_tail := entity_subgraph (setup s) tail_id in
      match od_get tail_id G_head with
      | Some props => (1, fold_left (fun sps prop => od_set (pid prop) 1 sps) props [])
      | None =>
          if multiHop_context (setup s)
          then multi_hop (KB (setup s)) G_head G_tail
          else (0, [])
      end
  end.

(** *** Context records *)

Definition initial_context (weight : Q) : context_rec := mkCtx weight (1 # 10) [].

(** [self.entity_context_scores[candidate][col]] *)
Definition get_context (candidate : Candidate_Entity) (col : nat) : M Baseline_Model context_rec :=
  s <- mget ;;
  ctxs <- mlift (of_option KeyError (od_get candidate (entity_context_scores s))) ;;
  mlift (of_option KeyError (od_get col ctxs)).

(** [self.entity_context_scores[candidate][col] = ctx] *)
Definition put_context (candidate : Candidate_Entity) (col : nat) (ctx : context_rec)
  : M Baseline_Model unit :=
  s <- mget ;;
  ctxs <- mlift (of_option KeyError (od_get candidate (entity_context_scores s))) ;;
  mmodify (set_entity_context_scores
             (od_set candidate (od_set col ctx ctxs) (entity_context_scores s))).

Definition raise_score (candidate : Candidate_Entity) (col : nat) (sc : Q) : M Baseline_Model unit :=
  ctx <- get_context candidate col ;;
  put_context candidate col (mkCtx (ctx_weight ctx) (Qmax (ctx_score ctx) sc) (ctx_context ctx)).

Definition append_context (candidate : Candidate_Entity) (col : nat) (rel : string)
  : M Baseline_Model unit :=
  ctx <- get_context candidate col ;;
  put_context candidate col (mkCtx (ctx_weight ctx) (ctx_score ctx) (ctx_context ctx ++ [rel])).

(** The score a partner gives: gated by the similarity of the partner. *)
Definition partner_score (best_semantic_proximity sim : Q) (partner_mention : string) : Q :=
  let threshold := if (5 <? String.length partner_mention)%nat then 7 # 10 else 9 # 10 in
  if Qgeb sim threshold then Qmax (1 # 10) (best_semantic_proximity * sim) else 1 # 10.

(** The body of [for tail_id in self.lookup[tail_cell]]. *)
Definition semantic_pair (row_idx head_col tail_col : nat) (head_mention tail_mention : string)
    (head_id : string) (G_head : odict string (list Edge)) (tail_id : string)
  : M Baseline_Model unit :=
  let head_candidate := mkCand row_idx head_col head_id in
  let tail_candidate := mkCand row_idx tail_col tail_id in
  s0 <- mget ;;
  tail_ctxs <- mlift (of_option KeyError (od_get tail_candidate (entity_context_scores s0))) ;;
  (if od_mem head_col tail_ctxs then mret tt
   else put_context tail_candidate head_col (initial_context semantic_context_weight)) ;;;
  if decide (head_id = tail_id) then mret tt
  else
    s <- mget ;;
    let '(best_semantic_proximity, semantic_proximities) :=
      pair_relations s head_id tail_id G_head in
    if Qgtb best_semantic_proximity 0 then
      sim_tail <- mlift (of_option KeyError (od_get tail_candidate (entity_sim_scores s))) ;;
      let head_score := partner_score best_semantic_proximity sim_tail tail_mention in
      raise_score head_candidate tail_col head_score ;;;
      sim_head <- mlift (of_option KeyError (od_get head_candidate (entity_sim_scores s))) ;;
      let tail_score := partner_score best_semantic_proximity sim_head head_mention in
      raise_score tail_candidate head_col tail_score ;;;
      if Qgtb head_score (1 # 10) || Qgtb tail_score (1 # 10) then
        s1 <- mget ;;
        (match cached_cpa_candidates s1 !! (head_id, tail_id) with
         | Some _ => mret tt
         | None =>
             mmodify (set_cached_cpa_candidates
                        (<[(head_id, tail_id) :=
                             map (fun '(a_cpa_candidate, cpa_score) =>
                                    mkRel a_cpa_candidate cpa_score) semantic_proximities]>
                           (cached_cpa_candidates s1)))
         end) ;;;
        forM semantic_proximities
             (fun '(a_cpa_candidate, _) =>
                append_context head_candidate tail_col a_cpa_candidate ;;;
                append_context tail_candidate head_col a_cpa_candidate)
      else mret tt
    else mret tt.

(** The columns [entity_cols[j]] for [j] in [range(i+1, len(entity_cols))]. *)
Definition later_entity_cols (s : Setup) (i : nat) : list nat := drop (i + 1) (entity_cols s).

(** The body of [for i in range(len(self.entity_cols)-1)]. *)
Definition semantic_head (row_idx : nat) (i : nat) : M Baseline_Model unit :=
  s0 <- mget ;;
  let st := setup s0 in
  head_col <- mlift (index (entity_cols st) i) ;;
  head_mention <- mlift (table_cell st row_idx head_col) ;;
  match default [] (od_get (mkCell row_idx head_col) (lookup_tbl st)) with
  | [] =>
      forM (later_entity_cols st i)
           (fun tail_col =>
              tail_mention <- mlift (table_cell st row_idx tail_col) ;;
              forM (default [] (od_get (mkCell row_idx tail_col) (lookup_tbl st)))
                   (fun tail_id =>
                      put_context (mkCand row_idx tail_col tail_id) head_col
                                  (initial_context semantic_context_weight)))
  | head_ids =>
      forM head_ids
           (fun head_id =>
              let G_head := entity_subgraph st head_id in
              forM (later_entity_cols st i)
                   (fun tail_col =>
                      tail_mention <- mlift (table_cell st row_idx tail_col) ;;
                      put_context (mkCand row_idx head_col head_id) tail_col
                                  (initial_context semantic_context_weight) ;;;
                      match od_get (mkCell row_idx tail_col) (lookup_tbl st) with
                      | Some tail_ids =>
                          forM tail_ids
                               (semantic_pair row_idx head_col tail_col head_mention
                                              tail_mention head_id G_head)
                      | None => mret tt
                      end))
  end.

(** *** Literal context *)

(** How an accepted literal edge changes the score of the context:
    a date match assigns it, the other matches raise it. *)
Inductive literal_match :=
| NoMatch
| AssignScore (matching_score : Q)
| RaiseScore (matching_score : Q).

Definition strip_brackets (literal_mention : string) : string :=
  replace ")" "" (replace "(" "" (replace "]" "" (replace "[" "" literal_mention))).

Definition date_match (obj literal_mention : string) (is_period : bool) : result Q :=
  if negb is_period then
    if date_similarity obj literal_mention then Ok 1
    else if year_similarity (get_year_from_date obj) (get_year_from_date literal_mention)
         then Ok (4 # 5)
         else Ok 0
  else
    match split ":" obj with
    | [obj_start_date; obj_end_date] =>
        match split "-" (unidecode (strip_brackets literal_mention)) with
        | [d0; d1] =>
            if date_similarity obj_start_date d0 && date_similarity obj_end_date d1
            then Ok 1 else Ok 0
        | _ => Ok 0
        end
    | _ => Raise ValueError
    end.

Definition quantity_match (st : Setup) (literal_col : nat) (obj literal_mention prop_unit : string)
  : result literal_match :=
  if mem literal_col (numeral_cols_without_unit st) then Ok NoMatch
  else if mem literal_col (numeral_cols_with_unit st) && negb (bool_decide (prop_unit = "1")) then
    unit_dim_of_obj <~ get_symbol_of_unit_entity (KB st) prop_unit ;;
    let standardized_obj := standardize_measure obj unit_dim_of_obj in
    let standardized_literal_cell := standardize_text literal_mention in
    match standardized_obj with
    | (base_unit_of_obj, magnitudes) :: _ =>
        match standardized_literal_cell with
        | [_] =>
            match od_get base_unit_of_obj standardized_literal_cell with
            | Some [cell_magnitude] =>
                obj_magnitude <~ index magnitudes 0 ;;
                let sim := dimensionless_quantity_similarity obj_magnitude cell_magnitude in
                let matching_threshold :=
                  if decide (base_unit_of_obj = "dollar") then 3 # 4 else 19 # 20 in
                if Qgtb sim matching_threshold then Ok (RaiseScore sim) else Ok NoMatch
            | _ => Ok NoMatch
            end
        | _ => Ok NoMatch
        end
    | [] => Ok NoMatch
    end
  else Ok NoMatch.

(** The comparison of one literal neighbour with the cell of a literal column. *)
Definition literal_edge_match (st : Setup) (literal_col : nat) (literal_mention obj : string)
    (prop : Edge) : result literal_match :=
  let parts := split "-" (info prop) in
  kind <~ index parts 0 ;;
  if bool_decide (kind = "DateTime") && mem literal_col (date_cols st) then
    p1 <~ index parts 1 ;;
    matching_score <~ date_match obj literal_mention (bool_decide (p1 = "Period")) ;;
    if Qeq_bool matching_score 0 then Ok NoMatch else Ok (AssignScore matching_score)
  else if bool_decide (kind = "String") && mem literal_col (textual_cols st) then
    let sim := textual_similarity obj literal_mention in
    if Qgtb sim (9 # 10) then Ok (RaiseScore sim) else Ok NoMatch
  else if bool_decide (kind = "Quantity") then
    p1 <~ index parts 1 ;;
    quantity_match st literal_col obj literal_mention
                   (replace "http://www.wikidata.org/entity/" "" p1)
  else Ok NoMatch.

Definition relation_eqb (a b : Relation) : bool :=
  bool_decide (rel_id a = rel_id b)
  && Qeq_bool (rel_semantic_proximity a) (rel_semantic_proximity b).

(** Caching the property of an accepted literal edge for CPA. *)
Definition cache_literal_relation (entity_id literal_mention a_cpa_candidate : string)
  : M Baseline_Model unit :=
  s <- mget ;;
  let cached := default [] (cached_cpa_candidates s !! (entity_id, literal_mention)) in
  let cached' :=
    if existsb (relation_eqb (mkRel a_cpa_candidate literal_context_weight)) cached
    then cached else cached ++ [mkRel a_cpa_candidate 1] in
  mmodify (set_cached_cpa_candidates
             (<[(entity_id, literal_mention) := cached']> (cached_cpa_candidates s))).

(** The body of [for prop in props]. *)
Definition literal_edge (entity_candidate : Candidate_Entity) (literal_col : nat)
    (literal_mention obj : string) (prop : Edge) : M Baseline_Model unit :=
  s <- mget ;;
  m <- mlift (literal_edge_match (setup s) literal_col literal_mention obj prop) ;;
  match m with
  | NoMatch => mret tt
  | AssignScore matching_score =>
      ctx <- get_context entity_candidate literal_col ;;
      put_context entity_candidate literal_col
                  (mkCtx (ctx_weight ctx) matching_score (ctx_context ctx)) ;;;
      append_context entity_candidate literal_col (pid prop) ;;;
      cache_literal_relation (cand_id entity_candidate) literal_mention (pid prop)
  | RaiseScore matching_score =>
      raise_score entity_candidate literal_col matching_score ;;;
      append_context entity_candidate literal_col (pid prop) ;;;
      cache_literal_relation (cand_id entity_candidate) literal_mention (pid prop)
  end.

Definition literal_subgraph (s : Setup) (entity_id : string) : odict string (list Edge) :=
  match G_memory s !! entity_id with
  | Some g => sg_literal g
  | None => []
  end.

(** The body of [for entity_col in self.entity_cols] in the literal part. *)
Definition literal_entity_col (row_idx entity_col : nat) : M Baseline_Model unit :=
  s0 <- mget ;;
  let st := setup s0 in
  match od_get (mkCell row_idx entity_col) (lookup_tbl st) with
  | Some entity_ids =>
      forM entity_ids
           (fun entity_id =>
              let G_literal_entity := literal_subgraph st entity_id in
              let entity_candidate := mkCand row_idx entity_col entity_id in
              forM (literal_cols st)
                   (fun literal_col =>
                      if (literal_col <? entity_col)%nat then mret tt
                      else
                        put_context entity_candidate literal_col
                                    (initial_context literal_context_weight) ;;;
                        literal_mention <- mlift (table_cell st row_idx literal_col) ;;
                        forM G_literal_entity
                             (fun '(obj, props) =>
                                forM props
                                     (literal_edge entity_candidate literal_col
                                                   literal_mention obj))))
  | None => mret tt
  end.

Definition _context_scoring : M Baseline_Model unit :=
  s0 <- mget ;;
  let st := setup s0 in
  forM (data_rows st)
       (fun row_idx =>
          forM (seq 0 (length (entity_cols st) - 1)) (semantic_head row_idx) ;;;
          forM (entity_cols st) (literal_entity_col row_idx)).

(** *** Candidate scores *)

(** The column pair under which the CPA of a context is stored. *)
Definition context_col_pair (st : Setup) (candidate : Candidate_Entity) (col_idx : nat)
  : Column_Pair :=
  if (col_idx <? cand_col candidate)%nat && mem col_idx (entity_cols st)
  then mkPair col_idx (cand_col candidate)
  else mkPair (cand_col candidate) col_idx.

(** A context takes part in the score when its column pair is not marked
    unrelated and carries a CPA. *)
Definition context_counts (s : Baseline_Model) (col_pair : Column_Pair) : bool :=
  negb (mem col_pair (unrelated_col_pairs s)) && od_mem col_pair (cpa_annot s).

(** [scale_factor]: 1 on the first step; afterwards coverage times semantic
    proximity of the first CPA of the pair found among the relations of the
    context, 0 when there is none. *)
Definition scale_factor (s : Baseline_Model) (first_step : bool) (col_pair : Column_Pair)
    (a_context : context_rec) : Q :=
  if first_step then 1
  else match list_find (fun a_cpa => mem (cpa_id a_cpa) (ctx_context a_context) = true)
                       (default [] (od_get col_pair (cpa_annot s))) with
       | Some (_, a_cpa) => cpa_coverage a_cpa * cpa_semantic_proximity a_cpa
       | None => 0
       end.

Definition scaled_score (s : Baseline_Model) (first_step : bool) (col_pair : Column_Pair)
    (a_context : context_rec) : Q :=
  Qmax (1 # 10) (scale_factor s first_step col_pair a_context * ctx_score a_context).

(** What a context adds to [context_weight]. *)
Definition base_weight (st : Setup) (col_idx : nat) : Q :=
  if mem col_idx (entity_cols st) then semantic_context_weight
  else if mem col_idx (literal_cols st) then literal_context_weight
  else 0.

Definition contains_cpa (st : Setup) (candidate : Candidate_Entity) (col_idx : nat)
    (a_cpa : cpa) : result bool :=
  g <~ of_option KeyError (G_memory st !! cand_id candidate) ;;
  if (col_idx <? cand_col candidate)%nat && mem col_idx (entity_cols st) then
    if contains "(-)" (cpa_id a_cpa)
    then Ok (mem (replace "(-)" "" (cpa_id a_cpa)) (sg_pids g))
    else Ok (mem ("(-)" +:+ cpa_id a_cpa) (sg_pids g))
  else Ok (mem (cpa_id a_cpa) (sg_pids g)).

(** The bookkeeping of the last step for one context: the best scaled score
    of the cell, and the candidates whose predicates contain a CPA. *)
Definition last_step_context (candidate : Candidate_Entity) (col_idx : nat)
    (col_pair : Column_Pair) (sc : Q) : M Baseline_Model unit :=
  let cell := mkCell (cand_row candidate) (cand_col candidate) in
  s0 <- mget ;;
  mmodify (set_contextless_cells
             (match od_get cell (contextless_cells s0) with
              | None => od_set cell sc (contextless_cells s0)
              | Some old => od_set cell (Qmax old sc) (contextless_cells s0)
              end)) ;;;
  cpas <- mlift (of_option KeyError (od_get col_pair (cpa_annot s0))) ;;
  forM cpas
       (fun a_cpa =>
          s <- mget ;;
          is_candidate_contain_cpa <- mlift (contains_cpa (setup s) candidate col_idx a_cpa) ;;
          if is_candidate_contain_cpa then
            let p := mkPot (cpa_coverage a_cpa) (cpa_score a_cpa) (cpa_id a_cpa) in
            mmodify (set_potential_candidates
                       (od_set candidate
                               (default [] (od_get candidate (potential_candidates s)) ++ [p])
                               (potential_candidates s)))
          else mret tt).

(** The locals [(context_score, context_weight, max_context_weight)] after
    one context. *)
Definition context_step (first_step last_step : bool) (candidate : Candidate_Entity)
    (acc : Q * Q * Q) (it : nat * context_rec) : M Baseline_Model (Q * Q * Q) :=
  let '(context_score, context_weight, max_context_weight) := acc in
  let '(col_idx, a_context) := it in
  s <- mget ;;
  let col_pair := context_col_pair (setup s) candidate col_idx in
  if context_counts s col_pair then
    let sc := scaled_score s first_step col_pair a_context in
    (if last_step then last_step_context candidate col_idx col_pair sc else mret tt) ;;;
    mret (context_score + ctx_weight a_context * sc,
          context_weight + base_weight (setup s) col_idx,
          Qmax max_context_weight (ctx_weight a_context))
  else mret acc.

Definition mark_contextless (cell : Cell) : M Baseline_Model unit :=
  s <- mget ;;
  if od_mem cell (contextless_cells s) then mret tt
  else mmodify (set_contextless_cells (od_set cell (1 # 10) (contextless_cells s))).

(** [1+math.exp(-(sim**2.5/0.5-1.0)/0.2)] *)
Definition logistic_denominator (sim : Q) : Q :=
  1 + exp (- (pow sim (5 # 2) / (1 # 2) - 1) / (1 # 5)).

(** The aggregated context score and the largest weight met. *)
Definition aggregate_context (first_step last_step : bool) (candidate : Candidate_Entity)
    (contexts : odict nat context_rec) : M Baseline_Model (Q * Q) :=
  match contexts with
  | _ :: _ =>
      r <- foldM (context_step first_step last_step candidate) (0, 0, 0) contexts ;;
      let '(context_score, context_weight, max_context_weight) := r in
      if Qeq_bool context_weight 0
      then mret (1 # 100, max_context_weight)
      else mret (context_score / context_weight, max_context_weight)
  | [] =>
      (if last_step
       then mark_contextless (mkCell (cand_row candidate) (cand_col candidate))
       else mret tt) ;;;
      mret (1 # 100, 0)
  end.

(** The body of [for candidate in self.entity_scores]. *)
Definition score_candidate (first_step last_step : bool) (candidate : Candidate_Entity)
  : M Baseline_Model unit :=
  s0 <- mget ;;
  let st := setup s0 in
  let cell := mkCell (cand_row candidate) (cand_col candidate) in
  if (1 <? num_columns st)%nat
     && (negb (bool_decide (entity_cols st = [])) || negb (bool_decide (literal_cols st = [])))
  then
    contexts <- mlift (of_option KeyError (od_get candidate (entity_context_scores s0))) ;;
    r <- aggregate_context first_step last_step candidate contexts ;;
    let '(context_score, max_context_weight) := r in
    s <- mget ;;
    sim <- mlift (of_option KeyError (od_get candidate (entity_sim_scores s))) ;;
    if Qgtb max_context_weight (1 # 10)
    then mmodify (set_entity_scores
                    (od_set candidate (Qred (context_score * 1 / logistic_denominator sim))
                            (entity_scores s)))
    else mmodify (set_entity_scores
                    (od_set candidate (Qred ((1 # 10) * sim)) (entity_scores s)))
  else
    sim <- mlift (of_option KeyError (od_get candidate (entity_sim_scores s0))) ;;
    mmodify (set_entity_scores (od_set candidate sim (entity_scores s0))) ;;;
    (if last_step then mark_contextless cell else mret tt).

Definition entity_scoring_task (first_step last_step : bool) : M Baseline_Model unit :=
  (if first_step then _literal_similarity_scoring ;;; _context_scoring else mret tt) ;;;
  s <- mget ;;
  forM (od_keys (entity_scores s)) (score_candidate first_step last_step).

(** *** Context weights *)

Definition Zabs_diff (a b : nat) : Z := Z.abs (Z.of_nat a - Z.of_nat b).

(** The new weight of one context when all contexts are updated. *)
Definition updated_weight (s : Baseline_Model) (candidate : Candidate_Entity) (col_idx : nat)
  : result Q :=
  let st := setup s in
  let col_pair := context_col_pair st candidate col_idx in
  match od_get col_pair (cpa_annot s) with
  | Some cpas =>
      first <~ index cpas 0 ;;
      let cnt_col := cpa_coverage first in
      leftmost <~ py_min (entity_cols st) ;;
      let df_col :=
        / inject_Z (1 + 4 * Z.min (Zabs_diff col_idx leftmost)
                                  (Zabs_diff (cand_col candidate) leftmost)) in
      let tau_col := cpa_semantic_proximity first in
      if mem col_idx (entity_cols st)
      then Ok (Qmax (1 # 20) (semantic_context_weight * cnt_col * tau_col * df_col))
      else Ok (Qmax (1 # 100) (literal_context_weight * cnt_col * tau_col * df_col))
  | None =>
      if mem col_idx (entity_cols st) then Ok (1 # 20) else Ok (1 # 100)
  end.

(** The body of [for entity_col in self.entity_cols] for one literal column:
    the pair is marked unrelated, and the entity column of highest coverage
    so far is remembered in [(match_score, match_column)]. *)
Definition match_entity_col (literal_col : nat) (acc : Q * option nat) (entity_col : nat)
  : M Baseline_Model (Q * option nat) :=
  let col_pair := mkPair entity_col literal_col in
  mmodify (fun s => set_unrelated_col_pairs (set_add col_pair (unrelated_col_pairs s)) s) ;;;
  s <- mget ;;
  match od_get col_pair (cpa_annot s) with
  | Some cpas =>
      first <- mlift (index cpas 0) ;;
      if Qgtb (cpa_coverage first) acc.1
      then mret (cpa_coverage first, Some entity_col)
      else mret acc
  | None => mret acc
  end.

(** [s.remove(x)] on a set *)
Definition set_remove {A} `{EqDecision A} (x : A) (l : list A) : result (list A) :=
  if mem x l then Ok (filter (fun y => y <> x) l) else Raise KeyError.

Definition update_context_weight (onlyLiteralContext : bool) : M Baseline_Model unit :=
  s0 <- mget ;;
  if negb onlyLiteralContext then
    forM (entity_context_scores s0)
         (fun '(candidate, contexts) =>
            forM (od_keys contexts)
                 (fun col_idx =>
                    s <- mget ;;
                    a_context <- get_context candidate col_idx ;;
                    w <- mlift (updated_weight s candidate col_idx) ;;
                    put_context candidate col_idx
                                (mkCtx w (ctx_score a_context) (ctx_context a_context))))
  else
    forM (literal_cols (setup s0))
         (fun literal_col =>
            r <- foldM (match_entity_col literal_col) (0, None) (entity_cols (setup s0)) ;;
            match r.2 with
            | Some match_column =>
                s <- mget ;;
                l <- mlift (set_remove (mkPair match_column literal_col)
                                       (unrelated_col_pairs s)) ;;
                mmodify (set_unrelated_col_pairs l)
            | None => mret tt
            end).

(** *** Initialisation ([__init__]) *)

(** [round(x, 2)]: to the nearest hundredth, ties to the even one. *)
Definition round2 (x : Q) : Q :=
  let y := x * 100 in
  let f := Qfloor y in
  let r := y - inject_Z f in
  let n := if Qltb r (1 # 2) then f
           else if Qltb (1 # 2) r then (f + 1)%Z
           else if Z.even f then f else (f + 1)%Z in
  Qred (inject_Z n / 100).

(** [a / b] on integers *)
Definition py_div (a b : Z) : result Q :=
  if (b =? 0)%Z then Raise ZeroDivisionError else Ok (inject_Z a / inject_Z b).

Definition named_entity_related_typing (t : string) : bool :=
  mem t ["UNKNOWN"; "PERSON"; "ORG"; "FAC"; "GPE"; "LANGUAGE"; "LAW"; "LOC"; "NORP";
         "ORG"; "PRODUCT"; "WORK_OF_ART"; "EVENT"].

Definition date_related_typing (t : string) : bool := bool_decide (t = "DATE").

Definition numerical_typing_with_unit (t : string) : bool :=
  mem t ["PERCENT"; "DISTANCE"; "MASS"; "MONEY"; "DURATION";
         "TEMPERATURE"; "CHARGE"; "ANGLE"; "DATA STORAGE";
         "AMOUNT OF SUBSTANCE"; "CATALYTIC ACTIVITY"; "AREA";
         "VOLUME"; "VOLUME (LUMBER)"; "FORCE"; "PRESSURE";
         "ENERGY"; "POWER"; "SPEED"; "ACCELERATION";
         "FUEL ECONOMY"; "FUEL CONSUMPTION"; "ANGULAR SPEED"; "ANGULAR ACCELERATION";
         "DENSITY"; "SPECIFIC VOLUME"; "MOMENT OF INERTIA"; "TORQUE";
         "THERMAL RESISTANCE"; "THERMAL CONDUCTIVITY"; "SPECIFIC HEAT CAPACITY";
         "VOLUMETRIC FLOW"; "MASS FLOW"; "CONCENTRATION"; "DYNAMIC VISCOSITY";
         "KINEMATIC VISCOSITY"; "FLUIDITY"; "SURFACE TENSION"; "PERMEABILITY";
         "SOUND LEVEL"; "LUMINOUS INTENSITY"; "LUMINOUS FLUX"; "ILLUMINANCE"; "LUMINANCE";
         "TYPOGRAPHICAL ELEMENT"; "IMAGE RESOLUTION"; "FREQUENCY"; "INSTANCE FREQUENCY";
         "FLUX DENSITY"; "LINEAR MASS DENSITY"; "LINEAR CHARGE DENSITY";
         "SURFACE CHARGE DENSITY"; "CHARGE DENSITY"; "CURRENT"; "LINEAR CURRENT DENSITY";
         "SURFACE CURRENT DENSITY"; "ELECTRIC POTENTIAL"; "ELECTRIC FIELD";
         "ELECTRICAL RESISTANCE"; "ELECTRICAL RESISTIVITY"; "ELECTRICAL CONDUCTANCE";
         "ELECTRICAL CONDUCTIVITY"; "CAPACITANCE"; "INDUCTANCE"; "MAGNETIC FLUX";
         "RELUCTANCE"; "MAGNETOMOTIVE FORCE"; "MAGNETIC FIELD"; "IRRADIANCE";
         "RADIATION ABSORBED DOSE"; "RADIOACTIVITY"; "RADIATION EXPOSURE";
         "RADIATION"; "DATA TRANSFER RATE"].

Definition numerical_typing_without_unit (t : string) : bool :=
  mem t ["CARDINAL"; "QUANTITY"; "ORDINAL"].

(** Membership in [string.punctuation] *)
Definition is_punctuation (c : Ascii.ascii) : bool :=
  let n := Ascii.nat_of_ascii c in
  ((33 <=? n) && (n <=? 47) || (58 <=? n) && (n <=? 64)
   || (91 <=? n) && (n <=? 96) || (123 <=? n) && (n <=? 126))%nat.

(** [len(puncs)]: the number of distinct punctuation marks of a cell *)
Definition num_punctuation_marks (cell : string) : nat :=
  length (remove_dups (filter (fun c => is_punctuation c = true) (String.list_ascii_of_string cell))).

(** The locals of [__init__] before the lookup. *)
Record table_shape := {
  ts_infos : table_infos_rec;
  ts_table : list (list string);
  ts_num_columns : nat;
  ts_num_rows : nat;
  ts_first_data_row : nat
}.

Definition ts_rows (t : table_shape) : list nat := range (ts_first_data_row t) (ts_num_rows t).
Definition ts_cell (t : table_shape) (row col : nat) : result string :=
  r <~ index (ts_table t) row ;; index r col.
Definition ts_num_data_rows (t : table_shape) : Z :=
  Z.of_nat (ts_num_rows t) - Z.of_nat (ts_first_data_row t).

Definition _find_semantic_columns (t : table_shape) : result (list nat) :=
  foldR (fun semantic_columns column_idx =>
           counts <~ foldR (fun '(num_long_cellcontent, num_punctuated_cellcontent) row_idx =>
                              c <~ ts_cell t row_idx column_idx ;;
                              Ok (if (150 <? String.length c)%nat
                                  then S num_long_cellcontent else num_long_cellcontent,
                                  if (3 <? num_punctuation_marks c)%nat
                                  then S num_punctuated_cellcontent
                                  else num_punctuated_cellcontent))
                           (0%nat, 0%nat) (ts_rows t) ;;
           typing <~ index (primitiveTyping (ts_infos t)) column_idx ;;
           let object_typing_score :=
             fold_left (fun sc '(typingLabel, typingScore) =>
                          if named_entity_related_typing typingLabel
                          then sc + typingScore else sc) typing 0 in
           if Qgtb object_typing_score (1 # 2) then
             long_ratio <~ py_div (Z.of_nat counts.1) (ts_num_data_rows t) ;;
             if Qltb long_ratio (1 # 2) then
               punctuated_ratio <~ py_div (Z.of_nat counts.2) (ts_num_data_rows t) ;;
               if Qltb punctuated_ratio (1 # 2)
               then Ok (semantic_columns ++ [column_idx])
               else Ok semantic_columns
             else Ok semantic_columns
           else Ok semantic_columns)
        [] (seq 0 (ts_num_columns t)).

(** [(date_columns, with_unit, without_unit, textual_columns, index_column)] *)
Definition _disambiguate_literal_columns (t : table_shape) (literal_cols : list nat)
  : result (list nat * list nat * list nat * list nat * option nat) :=
  foldR (fun '(date_columns, with_unit, without_unit, textual_columns, index_column) column_idx =>
           typing <~ index (primitiveTyping (ts_infos t)) column_idx ;;
           first <~ index typing 0 ;;
           if date_related_typing first.1 then
             if Qgtb first.2 (1 # 2)
             then Ok (date_columns ++ [column_idx], with_unit, without_unit,
                      textual_columns, index_column)
             else Ok (date_columns, with_unit, without_unit, textual_columns, index_column)
           else if (column_idx =? 0)%nat && bool_decide (first.1 = "ORDINAL") then
             Ok (date_columns, with_unit, without_unit, textual_columns, Some 0%nat)
           else
             let '(unit_score, nonunit_score) :=
               fold_left (fun '(u, n) '(typingLabel, typingScore) =>
                            if numerical_typing_with_unit typingLabel
                            then (u + typingScore, n)
                            else if numerical_typing_without_unit typingLabel
                                 then (u, n + typingScore) else (u, n))
                         typing (0, 0) in
             if Qgtb unit_score (1 # 2)
             then Ok (date_columns, with_unit ++ [column_idx], without_unit,
                      textual_columns, index_column)
             else if Qgtb nonunit_score (1 # 2)
                  then Ok (date_columns, with_unit, without_unit ++ [column_idx],
                           textual_columns, index_column)
                  else Ok (date_columns, with_unit, without_unit,
                           textual_columns ++ [column_idx], index_column))
        ([], [], [], [], None) literal_cols.

(** The attributes [lookup_task] writes. *)
Record lookup_locals := mkLocals {
  ll_entity_cols : list nat;
  ll_literal_cols : list nat;
  ll_textual_cols : list nat;
  ll_lookup : odict Cell (list string);
  ll_lookup_scores : odict Candidate_Entity Q
}.

(** [d.pop(k)] *)
Definition od_pop {K V} `{EqDecision K} (k : K) (d : odict K V) : result (odict K V) :=
  if od_mem k d then Ok (od_del k d) else Raise KeyError.

(** [l.remove(x)] on a list: the first occurrence goes. *)
Fixpoint list_remove (x : nat) (l : list nat) : result (list nat) :=
  match l with
  | [] => Raise ValueError
  | y :: l' => if decide (y = x) then Ok l' else l'' <~ list_remove x l' ;; Ok (y :: l'')
  end.

(** The mentions sent to the lookup; the source collects them in a set. *)
Definition lookup_inputs (t : table_shape) (entity_cols : list nat) : result (list string) :=
  foldR (fun acc column_idx =>
           foldR (fun acc row_idx =>
                    c <~ ts_cell t row_idx column_idx ;;
                    if (1 <? String.length (lower c))%nat
                    then Ok (set_add (lower c) acc) else Ok acc)
                 acc (ts_rows t))
        [] entity_cols.

(** Distributing the candidates to the cells of one column. *)
Definition distribute_column (t : table_shape)
    (lookup_results : odict string (list (string * Q))) (column_idx : nat)
    (ll : lookup_locals) : result (Q * lookup_locals) :=
  foldR (fun '(col_coverage, ll) row_idx =>
           c <~ ts_cell t row_idx column_idx ;;
           match od_get (lower c) lookup_results with
           | Some candidates =>
               let cell := mkCell row_idx column_idx in
               Ok (col_coverage + 1 / inject_Z (ts_num_data_rows t),
                   mkLocals (ll_entity_cols ll) (ll_literal_cols ll) (ll_textual_cols ll)
                     (od_set cell (map fst candidates) (ll_lookup ll))
                     (fold_left (fun sc '(entity, score) =>
                                   od_set (mkCand row_idx column_idx entity) score sc)
                                candidates (ll_lookup_scores ll)))
           | None => Ok (col_coverage, ll)
           end)
        (0, ll) (ts_rows t).

(** A column with candidates for less than 30% of its cells becomes a
    textual column and loses its lookups. *)
Definition demote_column (t : table_shape)
    (lookup_results : odict string (list (string * Q))) (column_idx : nat)
    (ll : lookup_locals) : result lookup_locals :=
  entity_cols' <~ list_remove column_idx (ll_entity_cols ll) ;;
  foldR (fun ll row_idx =>
           let lookup' := od_del (mkCell row_idx column_idx) (ll_lookup ll) in
           c <~ ts_cell t row_idx column_idx ;;
           scores' <~ foldR (fun sc '(entity, _) => od_pop (mkCand row_idx column_idx entity) sc)
                            (ll_lookup_scores ll)
                            (default [] (od_get (lower c) lookup_results)) ;;
           Ok (mkLocals (ll_entity_cols ll) (ll_literal_cols ll) (ll_textual_cols ll)
                        lookup' scores'))
        (mkLocals entity_cols' (ll_literal_cols ll ++ [column_idx])
                  (ll_textual_cols ll ++ [column_idx]) (ll_lookup ll) (ll_lookup_scores ll))
        (ts_rows t).

(** [for column_idx in self.entity_cols], a list the body shortens: the
    iteration goes by position [i] in the current list. *)
Fixpoint lookup_columns (fuel i : nat) (t : table_shape)
    (lookup_results : odict string (list (string * Q))) (ll : lookup_locals)
  : result lookup_locals :=
  match fuel with
  | O => Ok ll
  | S fuel' =>
      match ll_entity_cols ll !! i with
      | None => Ok ll
      | Some column_idx =>
          r <~ distribute_column t lookup_results column_idx ll ;;
          ll' <~ (if Qltb r.1 (3 # 10)
                  then demote_column t lookup_results column_idx r.2
                  else Ok r.2) ;;
          lookup_columns fuel' (S i) t lookup_results ll'
      end
  end.

(** The answer of the lookup as a dictionary, and the abnormal mentions. *)
Definition lookup_results_of (k : nat) (response : lookup_response)
  : odict string (list (string * Q)) * list string :=
  fold_left (fun '(lookup_results, abnormal) item =>
               match li_entities item with
               | Some entities => (od_set (li_label item) (take k entities) lookup_results, abnormal)
               | None => (lookup_results, abnormal ++ [li_label item])
               end)
            (output response) ([], []).

Definition average_candidates (lookup_dict : odict Cell (list string)) : Q :=
  match lookup_dict with
  | [] => 0
  | _ => round2 (Qnat (fold_left (fun n '(_, l) => (n + length l)%nat) lookup_dict 0%nat)
                 / Qnat (length lookup_dict))
  end.

(** [lookup_task]: [None] is the answer [False]. *)
Definition lookup_task (t : table_shape) (k : nat) (lookup_index : string)
    (ll : lookup_locals) : result (option (lookup_locals * list string * Q * Q)) :=
  inputs <~ lookup_inputs t (ll_entity_cols ll) ;;
  let response := entity_lookup inputs lookup_index in
  let '(lookup_results, abnormal) := lookup_results_of k response in
  match lookup_results with
  | [] => Ok None
  | _ =>
      ll' <~ lookup_columns (length (ll_entity_cols ll)) 0 t lookup_results ll ;;
      Ok (Some (ll', abnormal, executionTimeSec response, average_candidates (ll_lookup ll')))
  end.

Definition _initialize_scores (lookup_dict : odict Cell (list string))
  : odict Candidate_Entity (odict nat context_rec) * odict Candidate_Entity Q
    * odict Candidate_Entity Q :=
  fold_left (fun acc '(cell, entity_list) =>
               fold_left (fun '(ctx, sim, sc) entity_id =>
                            let candidate := mkCand (cell_row cell) (cell_col cell) entity_id in
                            (od_set candidate [] ctx, od_set candidate 0 sim,
                             od_set candidate 0 sc))
                         entity_list acc)
            lookup_dict ([], [], []).

(** [d.setdefault(k, []).append(x)] *)
Definition od_append {K V} `{EqDecision K} (k : K) (x : V) (d : odict K (list V))
  : odict K (list V) :=
  od_set k (default [] (od_get k d) ++ [x]) d.

(** The one-hop subgraph of a candidate. *)
Definition build_subgraph (kb : Wikidata_KB) (candidate_id : string) : subgraph :=
  fold_left (fun g '(p, objs) =>
               let pids := set_add p (sg_pids g) in
               if is_backward p then
                 mkSub (fold_left (fun e obj => od_append obj (mkEdge p "entity") e)
                                  (od_keys objs) (sg_entity g))
                       (sg_literal g) pids
               else
                 fold_left (fun g '(obj, obj_type) =>
                              if is_rank obj_type
                              then mkSub (od_append obj (mkEdge p "entity") (sg_entity g))
                                         (sg_literal g) (sg_pids g)
                              else mkSub (sg_entity g)
                                         (od_append obj (mkEdge p obj_type) (sg_literal g))
                                         (sg_pids g))
                           objs (mkSub (sg_entity g) (sg_literal g) pids))
            (get_subgraph_of_entity kb candidate_id) (mkSub [] [] []).

Definition _set_subgraph (kb : Wikidata_KB) (lookup_dict : odict Cell (list string))
  : gmap string subgraph :=
  fold_left (fun G '(_, lookups) =>
               fold_left (fun G candidate_id =>
                            match G !! candidate_id with
                            | Some _ => G
                            | None => <[candidate_id := build_subgraph kb candidate_id]> G
                            end)
                         lookups G)
            lookup_dict ∅.

(** The engine whose initialisation did not succeed: only the flag and the
    KB are read from it. *)
Definition uninitialized (kb : Wikidata_KB) (k : nat) (infos : option table_infos_rec)
  : Baseline_Model :=
  mkModel {| K := k; multiHop_context := false; transitivePropertyOnly_path := false;
             soft_scoring := false; KB := kb; is_model_init_success := false;
             table_infos := infos; table := []; num_columns := 0; num_rows := 0;
             first_data_row := 0; entity_cols := []; literal_cols := []; date_cols := [];
             numeral_cols_with_unit := []; numeral_cols_without_unit := [];
             textual_cols := []; index_col := None; lookup_tbl := [];
             abnormal_lookup_mentions := []; lookup_time := 0;
             avg_lookup_candidate := 0; G_memory := ∅ |}
          [] [] [] [] ∅ ∅ [] ∅ [] [] [] [] [].

(** [params] of [table_annotation] *)
Record params_rec := {
  p_multiHop_context : bool;
  p_transitivePropertyOnly_path : bool;
  p_soft_scoring : bool;
  p_K : nat
}.

(** [Baseline_Model(table, target_kb, params)] *)
Definition Baseline_Model_init (raw_table : list (list string)) (kb_path lookup_index : string)
    (params : params_rec) : result Baseline_Model :=
  let kb := open_kb kb_path in
  match table_preprocessing raw_table with
  | None => Ok (uninitialized kb (p_K params) None)
  | Some infos =>
      let tbl := tableDataRevised infos in
      row0 <~ index tbl 0 ;;
      let t := {| ts_infos := infos; ts_table := tbl; ts_num_columns := length row0;
                  ts_num_rows := length tbl;
                  ts_first_data_row := if hasHeader infos then 1 else 0 |} in
      ecols <~ _find_semantic_columns t ;;
      let lcols := filter (fun c => ¬ c ∈ ecols) (seq 0 (ts_num_columns t)) in
      cls <~ _disambiguate_literal_columns t lcols ;;
      let '(dcols, with_unit, without_unit, tcols, icol) := cls in
      lk <~ lookup_task t (p_K params) lookup_index (mkLocals ecols lcols tcols [] []) ;;
      match lk with
      | None => Ok (uninitialized kb (p_K params) (Some infos))
      | Some (ll, abnormal, ltime, avg) =>
          let '(ctx, sim, sc) := _initialize_scores (ll_lookup ll) in
          Ok (mkModel {| K := p_K params;
                         multiHop_context := p_multiHop_context params;
                         transitivePropertyOnly_path := p_transitivePropertyOnly_path params;
                         soft_scoring := p_soft_scoring params;
                         KB := kb; is_model_init_success := true;
                         table_infos := Some infos; table := tbl;
                         num_columns := ts_num_columns t; num_rows := ts_num_rows t;
                         first_data_row := ts_first_data_row t;
                         entity_cols := ll_entity_cols ll;
                         literal_cols := ll_literal_cols ll;
                         date_cols := dcols;
                         numeral_cols_with_unit := with_unit;
                         numeral_cols_without_unit := without_unit;
                         textual_cols := ll_textual_cols ll; index_col := icol;
                         lookup_tbl := ll_lookup ll;
                         abnormal_lookup_mentions := abnormal;
                         lookup_time := ltime; avg_lookup_candidate := avg;
                         G_memory := _set_subgraph kb (ll_lookup ll) |}
                      (ll_lookup_scores ll) ctx sim sc ∅ ∅ [] ∅ [] [] [] [] [])
      end
  end.

(** *** The pipeline ([table_annotation]) *)

Definition cea_loop (only_one : bool) : M Baseline_Model unit :=
  s <- mget ;;
  forM (entity_cols (setup s))
       (fun col_idx =>
          forM (data_rows (setup s))
               (fun row_idx => cea_task col_idx row_idx only_one ;;; mret tt)).

Definition cta_loop (only_one : bool) : M Baseline_Model unit :=
  s <- mget ;;
  forM (entity_cols (setup s))
       (fun col_idx => cta_task col_idx only_one ;;; mret tt).

Definition cpa_loop (only_one : bool) : M Baseline_Model unit :=
  s <- mget ;;
  let ecols := entity_cols (setup s) in
  forM (seq 0 (length ecols - 1))
       (fun i =>
          head_col <- mlift (index ecols i) ;;
          forM (drop (i + 1) ecols)
               (fun tail_col => cpa_task head_col tail_col only_one ;;; mret tt)) ;;;
  forM ecols
       (fun head_col =>
          forM (literal_cols (setup s))
               (fun tail_col => cpa_task head_col tail_col only_one ;;; mret tt)).

(** Initial scores. *)
Definition pass0 : M Baseline_Model unit := entity_scoring_task true false.

(** First annotation loop. *)
Definition pass1 : M Baseline_Model unit := cea_loop false ;;; cpa_loop false.

(** Weight update and second annotation loop. *)
Definition pass2 : M Baseline_Model unit :=
  update_context_weight false ;;;
  entity_scoring_task false false ;;;
  mmodify (set_cea_annot []) ;;;
  cea_loop false ;;;
  cta_loop false.

(** Third annotation loop: disambiguation. *)
Definition pass3 : M Baseline_Model unit :=
  mmodify (set_cea_annot []) ;;;
  cea_loop true ;;;
  mmodify (set_cta_annot []) ;;;
  cta_loop true ;;;
  mmodify (set_cpa_annot []) ;;;
  cpa_loop false.

(** Fourth annotation loop: reinforced disambiguation. *)
Definition pass4 : M Baseline_Model unit :=
  update_context_weight true ;;;
  entity_scoring_task false true ;;;
  mmodify (set_cea_annot []) ;;;
  cea_loop true ;;;
  mmodify (set_cta_annot []) ;;;
  cta_loop true ;;;
  mmodify (set_cpa_annot []) ;;;
  cpa_loop true.

Definition pipeline : M Baseline_Model unit :=
  pass0 ;;; pass1 ;;; pass2 ;;; pass3 ;;; pass4.

(** [{"label": l, "uri": u, "score": s}] with an optional coverage *)
Record annotation_rec := {
  an_label : string; an_uri : string; an_score : Q; an_coverage : option Q
}.
Record cea_output := { co_row : nat; co_column : nat; co_annotation : annotation_rec }.
Record cta_output := { to_column : nat; to_annotation : list annotation_rec }.
Record cpa_output := {
  po_headColumn : nat; po_tailColumn : nat; po_annotation : annotation_rec
}.

Record annotated_rec := {
  out_tableDataRevised : list (list string);
  out_CEA : list cea_output;
  out_CTA : list cta_output;
  out_CPA : list cpa_output
}.

Record annotation_output := {
  out_tableDataRaw : list (list string);
  out_annotated : option annotated_rec;
  out_preprocessed : option table_infos_rec;
  out_preprocessingTime : Q;
  out_lookupTime : Q;
  out_entityScoringTime : Q;
  out_subgraphConstructionTime : Q;
  out_ctaTaskTime : Q;
  out_ceaTaskTime : Q;
  out_cpaTaskTime : Q;
  out_avgLookupCandidate : Q
}.

(** The record [table_annotation] starts from: the raw table, nothing
    annotated, nothing preprocessed, all measures 0. *)
Definition initial_output (raw_table : list (list string)) : annotation_output :=
  {| out_tableDataRaw := raw_table; out_annotated := None; out_preprocessed := None;
     out_preprocessingTime := 0; out_lookupTime := 0; out_entityScoringTime := 0;
     out_subgraphConstructionTime := 0; out_ctaTaskTime := 0; out_ceaTaskTime := 0;
     out_cpaTaskTime := 0; out_avgLookupCandidate := 0 |}.

(** One entry of the CEA output; the label is asked with
    [get_label_of_entity(cea[0]["id"], True)]. *)
Definition cea_entry (kb : Wikidata_KB) (cell : Cell) (annot : list cea) : result cea_output :=
  first <~ index annot 0 ;;
  label <~ get_label_of_entity kb [AStr (cea_id first); ABool true] ;;
  uri <~ prefixing_entity (cea_id first) ;;
  Ok {| co_row := cell_row cell; co_column := cell_col cell;
        co_annotation := {| an_label := label; an_uri := uri;
                            an_score := round2 (cea_score first); an_coverage := None |} |}.

Definition cta_entry (kb : Wikidata_KB) (col : Column) (cta_list : list cta) : result cta_output :=
  annots <~ foldR (fun acc a_cta =>
                     label <~ get_label_of_entity kb [AStr (cta_id a_cta); ABool true] ;;
                     uri <~ prefixing_entity (cta_id a_cta) ;;
                     Ok (acc ++ [{| an_label := label; an_uri := uri;
                                    an_score := round2 (cta_score a_cta);
                                    an_coverage := Some (round2 (cta_coverage a_cta)) |}]))
                  [] cta_list ;;
  Ok {| to_column := column_index col; to_annotation := annots |}.

(** The identifiers of a relation; the source iterates over them as a set. *)
Definition id_components (rel : string) : list string :=
  remove_dups (split "::" (replace ")" "" (replace "(" "" (replace "(-)" "" rel)))).

Definition cpa_entry (kb : Wikidata_KB) (col_pair : Column_Pair) (annot : list cpa)
  : result cpa_output :=
  first <~ index annot 0 ;;
  let rel := cpa_id first in
  r <~ foldR (fun '(rel_uri, rel_label) a_id =>
                if is_valid_ID a_id then
                  uri <~ prefixing_entity a_id ;;
                  label <~ get_label_of_entity kb [AStr a_id] ;;
                  Ok (replace a_id uri rel_uri, replace a_id label rel_label)
                else Ok (rel_uri, rel_label))
             (rel, rel) (id_components rel) ;;
  Ok {| po_headColumn := head_col_index col_pair; po_tailColumn := tail_col_index col_pair;
        po_annotation := {| an_label := r.2; an_uri := r.1;
                            an_score := round2 (cpa_score first);
                            an_coverage := Some (round2 (cpa_coverage first)) |} |}.

Definition traverse {X Y} (f : X -> result Y) (l : list X) : result (list Y) :=
  foldR (fun acc x => y <~ f x ;; Ok (acc ++ [y])) [] l.

(** The lines that render the annotations.  After the three lists the
    source reads [baseline_model.preprocessing_infos], an attribute the
    engine never sets; the assignments behind that line are not reached. *)
Definition render_output (raw_table : list (list string)) (s : Baseline_Model)
  : result annotation_output :=
  let kb := KB (setup s) in
  cea_out <~ traverse (fun '(cell, annot) => cea_entry kb cell annot) (cea_annot s) ;;
  cta_out <~ traverse (fun '(col, cta_list) => cta_entry kb col cta_list) (cta_annot s) ;;
  cpa_out <~ traverse (fun '(col_pair, annot) => cpa_entry kb col_pair annot) (cpa_annot s) ;;
  Raise AttributeError.

Definition table_annotation (raw_table : list (list string)) (k : nat)
    (kb_path lookup_index : string) : result annotation_output :=
  let params := {| p_multiHop_context := true; p_transitivePropertyOnly_path := false;
                   p_soft_scoring := true; p_K := k |} in
  baseline_model <~ Baseline_Model_init raw_table kb_path lookup_index params ;;
  if is_model_init_success (setup baseline_model) then
    match pipeline baseline_model with
    | (Ok _, s) => render_output raw_table s
    | (Raise e, _) => Raise e
    end
  else Ok (initial_output raw_table).

End Engine.

(** * Worked examples

    Three small stores, a lookup answer and the tables on which the engine
    is run. *)

Module Example.

Definition ascii_lower (c : Ascii.ascii) : Ascii.ascii :=
  let n := Ascii.nat_of_ascii c in
  if ((65 <=? n) && (n <=? 90))%nat then Ascii.ascii_of_nat (n + 32) else c.

Fixpoint str_lower (s : string) : string :=
  match s with
  | EmptyString => EmptyString
  | String c s' => String (ascii_lower c) (str_lower s')
  end.

Definition entry (ps : odict string adjacency) : kb_entry :=
  {| labels := ["a label"]; aliases := []; descriptions := []; props := ps |}.

(** [A] is a [T], [A2] and [B] are [U]s; [X] points to [Y] through [P1];
    [Ada] is an instance of [Q5] with the occupation [Q82955]; [M] lies in
    [Z], which lies in [N] ([P131] is transitive), and [M] and [N] have the
    same country [W]. *)
Definition kb1 : Wikidata_KB :=
  {| edge_txn := list_to_map
       [("A", entry [("P31", [("T", "NORMAL")])]);
        ("A2", entry [("P31", [("U", "NORMAL")])]);
        ("B", entry [("P31", [("U", "NORMAL")])]);
        ("X", entry [("P1", [("Y", "NORMAL")])]);
        ("Y", entry [("(-)P1", [("X", "")])]);
        ("X2", entry []);
        ("Y2", entry []);
        ("Ada", entry [("P31", [("Q5", "NORMAL")]); ("P106", [("Q82955", "NORMAL")])]);
        ("M", entry [("P131", [("Z", "NORMAL")]); ("P17", [("W", "NORMAL")])]);
        ("N", entry [("(-)P131", [("Z", "")]); ("P17", [("W", "NORMAL")])]);
        ("Z", entry [("(-)P131", [("M", "")]); ("P131", [("N", "NORMAL")])]);
        ("W", entry [("(-)P17", [("M", ""); ("N", "")])])] |}.

(** The same store where [T] is a subclass of [V]. *)
Definition kb2 : Wikidata_KB :=
  {| edge_txn := <["T" := entry [("P279", [("V", "NORMAL")])]]> (edge_txn kb1) |}.

(** A third store.  [G1] and [H1] are instances of [T1] and [T2], [G2] and
    [H2] of [T2] only, and [T1] is a subclass of [S1].  [MH] and [MT] are
    not linked, but share the neighbours [Z1] (through the transitive
    [P131]), [W1] and [W2] (both have the country [P17]; [MT] is also the
    capital [P36] of [W1]), [V1] (through [P50]) and [U1], which has no
    record of its own.  [X3] and [X4] point to [Y3] and [Y4] through [P1];
    [X3], [Y3] and [Y4] carry the strings [lx], [mx] and [m4].  [X5] and
    [Xa] point to [Y5] through [P1], [Xb] points through [P1] to an entity
    that no table mentions, [Xc] has no such edge; [Xa] is an instance of
    [TZ], which [TX] is a part of. *)
Definition kb3 : Wikidata_KB :=
  {| edge_txn := list_to_map
       [("G1", entry [("P31", [("T1", "NORMAL"); ("T2", "NORMAL")])]);
        ("G2", entry [("P31", [("T2", "NORMAL")])]);
        ("H1", entry [("P31", [("T1", "NORMAL"); ("T2", "NORMAL")])]);
        ("H2", entry [("P31", [("T2", "NORMAL")])]);
        ("T1", entry [("P279", [("S1", "NORMAL")])]);
        ("MH", entry [("P131", [("Z1", "NORMAL")]);
                      ("P17", [("W1", "NORMAL"); ("W2", "NORMAL")]);
                      ("(-)P50", [("V1", "")]);
                      ("P9", [("U1", "NORMAL")])]);
        ("MT", entry [("(-)P131", [("Z1", "")]);
                      ("P17", [("W1", "NORMAL"); ("W2", "NORMAL")]);
                      ("(-)P36", [("W1", "")]);
                      ("P50", [("V1", "NORMAL")]);
                      ("P9", [("U1", "NORMAL")])]);
        ("Z1", entry [("(-)P131", [("MH", "")]); ("P131", [("MT", "NORMAL")])]);
        ("W1", entry [("(-)P17", [("MH", "")])]);
        ("W2", entry [("(-)P17", [("MH", ""); ("MT", ""); ("X2", "")])]);
        ("V1", entry [("P50", [("MH", "NORMAL")]); ("(-)P50", [("MT", "")])]);
        ("X2", entry []);
        ("Y2", entry []);
        ("X3", entry [("P1", [("Y3", "NORMAL")]); ("P5", [("lx", "String")]);
                      ("P7", [("mx", "String")])]);
        ("Y3", entry [("(-)P1", [("X3", "")]); ("P8", [("mx", "String")])]);
        ("X4", entry [("P1", [("Y4", "NORMAL")])]);
        ("Y4", entry [("(-)P1", [("X4", "")]); ("P8", [("m4", "String")])]);
        ("X5", entry [("P1", [("Y5", "NORMAL")]); ("P31", [("TX", "NORMAL")])]);
        ("Xa", entry [("P1", [("Y5", "NORMAL")]); ("P31", [("TZ", "NORMAL")])]);
        ("Xb", entry [("P1", [("Y9", "NORMAL")]); ("P31", [("TX", "NORMAL")])]);
        ("Xc", entry [("P31", [("TX", "NORMAL")])]);
        ("Y5", entry [("(-)P1", [("X5", ""); ("Xa", "")]); ("P31", [("TY", "NORMAL")])]);
        ("TX", entry [("P361", [("TZ", "NORMAL")])])] |}.

Definition candidates_of (label : string) : option (list (string * Q)) :=
  if decide (label = "alpha") then Some [("A", 1); ("A2", 1 # 5)]
  else if decide (label = "beta") then Some [("B", 1 # 5)]
  else if decide (label = "px") then Some [("X", 1)]
  else if decide (label = "py") then Some [("Y", 1)]
  else if decide (label = "qx") then Some [("X2", 1)]
  else if decide (label = "qy") then Some [("Y2", 1)]
  else if decide (label = "pm") then Some [("M", 1)]
  else if decide (label = "pn") then Some [("N", 1)]
  else if decide (label = "gamma") then Some [("G1", 1); ("G2", 1 # 2)]
  else if decide (label = "delta") then Some [("H1", 1); ("H2", 1 # 2)]
  else if decide (label = "ph") then Some [("MH", 1)]
  else if decide (label = "pt") then Some [("MT", 1)]
  else if decide (label = "px3") then Some [("X3", 1)]
  else if decide (label = "py3") then Some [("Y3", 1)]
  else if decide (label = "px4") then Some [("X4", 1)]
  else if decide (label = "py4") then Some [("Y4", 1)]
  else if decide (label = "px5") then Some [("X5", 1)]
  else if decide (label = "py5") then Some [("Y5", 1)]
  else if decide (label = "tri") then Some [("Xa", 1 # 10); ("Xc", 1); ("Xb", 1)]
  else None.

(** Stand-ins for the libraries: a step function below [log10], a positive
    step function for [exp], exact match for the string metrics; the
    preprocessor accepts a table of two rows or more, without header, and
    types every column as a named entity. *)
#[local] Instance example_externals : Externals := {|
  log10 := fun x => inject_Z (Z.log2 (Qfloor x)) * (3 # 10);
  exp := fun x => Qpower 2 (Qfloor x);
  pow := fun x _ => x;
  fuzz_ratio := fun a b => if decide (a = b) then 100 else 0;
  fuzz_token_sort_ratio := fun a b => if decide (a = b) then 100 else 0;
  fuzz_token_set_ratio := fun a b => if decide (a = b) then 100 else 0;
  lower := str_lower;
  parse := fun _ => None;
  year_str := fun _ => "";
  unidecode := fun s => s;
  to_base_units := fun _ _ => None;
  standardize_text := fun _ => [];
  table_preprocessing := fun raw =>
    match raw with
    | r0 :: _ :: _ =>
        Some {| tableDataRevised := raw; hasHeader := false;
                primitiveTyping := map (fun _ => [("UNKNOWN", 1)]) r0 |}
    | _ => None
    end;
  entity_lookup := fun labels _ =>
    {| executionTimeSec := 0;
       output := map (fun l => {| li_label := l; li_entities := candidates_of l |}) labels |};
  open_kb := fun path => if decide (path = "kb2") then kb2
                         else if decide (path = "kb3") then kb3 else kb1
|}.

Definition table1 : list (list string) := [["alpha"]; ["beta"]].
Definition table2 : list (list string) := [["px"; "py"]; ["qx"; "qy"]].
Definition table3 : list (list string) := [["pm"; "pn"]; ["qx"; "qy"]].
Definition table5 : list (list string) := [["alpha"; "beta"]; ["alpha"; "beta"]].
Definition table6 : list (list string) := [["gamma"]; ["delta"]].
Definition table7 : list (list string) := [["ph"; "pt"]; ["qx"; "qy"]].
Definition table8 : list (list string) :=
  [["px3"; "py3"; "lx"; "ss"; "mx"];
   ["px4"; "py4"; "l4"; "ss"; "m4"];
   ["qx"; "qy"; "zz"; "ss"; "ww"]].
Definition table9 : list (list string) := [["tri"; "py5"]; ["px5"; "py5"]].

Definition params1 : params_rec :=
  {| p_multiHop_context := true; p_transitivePropertyOnly_path := false;
     p_soft_scoring := true; p_K := 20 |}.

(** Running a method on the outcome of the previous ones. *)
Definition run {A} (m : M Baseline_Model A) (r : result Baseline_Model) : result Baseline_Model :=
  match r with
  | Ok s => match m s with (Ok _, s') => Ok s' | (Raise e, _) => Raise e end
  | Raise e => Raise e
  end.

(** The engine after the second annotation loop. *)
Definition after_pass2 (tbl : list (list string)) (path : string) : result Baseline_Model :=
  run pass2 (run pass1 (run pass0 (Baseline_Model_init tbl path "idx" params1))).

(** The engine after the first annotation loop and the update of the
    context weights. *)
Definition reweighted (tbl : list (list string)) (path : string) : result Baseline_Model :=
  run (update_context_weight false)
      (run pass1 (run pass0 (Baseline_Model_init tbl path "idx" params1))).

End Example.

(** * Definitions used in the statements *)

(** ** Hierarchical types *)

Definition adjacency_of (kb : Wikidata_KB) (entity_id p : string) : adjacency :=
  default [] (od_get p (prop_obj_dict kb entity_id)).

(** The type-bearing predicates other than instance-of. *)
Definition other_type_properties : list string := ["P106"; "P39"; "P105"].

Definition other_types_present (kb : Wikidata_KB) (entity_id : string) : bool :=
  existsb (fun p => match adjacency_of kb entity_id p with [] => false | _ => true end)
          other_type_properties.

(** The body of the first loop of [get_types_of_entity], by name. *)
Definition collect_step (pod : odict string adjacency)
  : adjacency * adjacency -> string -> adjacency * adjacency :=
  fun '(instanceOf_types, others_types) prop =>
  match od_get prop pod with
  | Some ((_ :: _) as a_type) =>
      if decide (prop = instanceOfPID)
      then (od_update instanceOf_types a_type, others_types)
      else (instanceOf_types, od_update others_types a_type)
  | _ => (instanceOf_types, others_types)
  end.

(** Level 1 in the words of the specification: the union of the adjacencies
    of all configured type-bearing predicates. *)
Definition spec_level_1 (kb : Wikidata_KB) (entity_id : string) : list string :=
  flat_map (fun p => od_keys (adjacency_of kb entity_id p)) type_properties.

(** ** Column types *)

(** The dictionary [candidate_types] that [cta_task] has after its loop
    over the rows. *)
Definition cta_candidate_types (col_index : nat) (s : Baseline_Model)
  : result (odict string type_stat) :=
  match foldM (cta_row col_index) ([], None) (data_rows (setup s)) s with
  | (Ok r, _) => Ok r.1
  | (Raise e, _) => Raise e
  end.

(** The sum of the counts over the distinct candidate types. *)
Definition sum_counts (candidate_types : odict string type_stat) : nat :=
  fold_right (fun '(_, st) n => (count st + n)%nat) 0%nat candidate_types.

(** The engine after the second annotation loop on [table1], over the store
    in which [T] has a super type. *)
Definition engine_kb2 : Baseline_Model :=
  match Example.after_pass2 Example.table1 "kb2" with
  | Ok s => s
  | Raise _ => uninitialized Example.kb2 20 None
  end.

(** ** Scores before disambiguation *)

(** The three maps of scores that the scoring task maintains. *)
Definition score_maps (s : Baseline_Model)
  : odict Candidate_Entity Q * odict Candidate_Entity Q
    * odict Candidate_Entity (odict nat context_rec) :=
  (entity_scores s, entity_sim_scores s, entity_context_scores s).

(** A computation leaves the observation [f] of the state as it found it,
    whatever its outcome. *)
Definition preserves {S A X} (f : S -> X) (m : M S A) : Prop :=
  forall s, f (m s).2 = f s.

(** ** Ranking of the candidates of a cell *)

(** What [cea_task] reads of the engine besides the caches. *)
Definition cea_inputs (s : Baseline_Model) :=
  (setup s, contextless_cells s, potential_candidates s, cta_annot s, entity_scores s).

(** The CTA annotations attached to the column. *)
Definition column_ctas (s : Baseline_Model) (col_index : nat) : list cta :=
  flat_map (fun it : Column * list cta =>
              if decide (column_index it.1 = col_index) then it.2 else [])
           (cta_annot s).

(** The neighbours of a CTA type: the ones held by the engine, or the ones
    that the store gives when the type is met for the first time. *)
Definition type_neighbours (s : Baseline_Model) (cta_type : string) : list string :=
  match type_graph s !! cta_type with
  | Some neighbours => neighbours
  | None => build_type_graph (KB (setup s)) cta_type
  end.

(** The types of a candidate at the level [i] of its hierarchy. *)
Definition types_at (s : Baseline_Model) (candidate_id : string) (i : nat) : list string :=
  match cached_cta_candidates s !! candidate_id with
  | Some hierachical_types =>
      match hierachical_types !! (i - 1)%nat with
      | Some types => od_keys types
      | None => []
      end
  | None => []
  end.

(** The weight of a CTA type for a candidate: 1.0 for a type of level 1,
    0.7 for a type of level 2 or a neighbour of a type of level 1, 0.2 for a
    type of level 3 or a neighbour of a type of level 2, 0 otherwise. *)
Definition taxonomy_weight (s : Baseline_Model) (candidate_id cta_type : string) : Q :=
  if decide (cta_type ∈ types_at s candidate_id 1) then 1
  else if decide (cta_type ∈ types_at s candidate_id 2
                  \/ Exists (fun t => t ∈ type_neighbours s cta_type)
                            (types_at s candidate_id 1))
  then 7 # 10
  else if decide (cta_type ∈ types_at s candidate_id 3
                  \/ Exists (fun t => t ∈ type_neighbours s cta_type)
                            (types_at s candidate_id 2))
  then 2 # 10
  else 0.

(** [cta_bonus]: the largest weighted score among the CTAs of the column,
    0 when no type of the candidate is among them. *)
Definition cta_bonus (s : Baseline_Model) (col_index : nat) (candidate_id : string) : Q :=
  fold_left (fun bonus a_cta =>
               Qmax bonus (taxonomy_weight s candidate_id (cta_id a_cta) * cta_score a_cta))
            (column_ctas s col_index) 0.

(** The cell counts as contextless: cells were recorded, and this one with
    0.1 or not at all. *)
Definition cell_is_contextless (s : Baseline_Model) (cell : Cell) : bool :=
  (0 <? length (contextless_cells s))%nat
  && Qeq_bool (default (1 # 10) (od_get cell (contextless_cells s))) (1 # 10).

(** [cta_coeff]: the mean coverage of the CTAs of the column, halved unless
    the cell is contextless; 0.25 without soft scoring. *)
Definition cta_coeff (s : Baseline_Model) (row_index col_index : nat) : Q :=
  let weights := map cta_coverage (column_ctas s col_index) in
  let mean := Qsum weights / Qnat (length weights) in
  if soft_scoring (setup s)
  then if cell_is_contextless s (mkCell row_index col_index) then mean else mean / 2
  else 1 # 4.

(** The score of a candidate when the combination starts: its score before
    disambiguation, multiplied by [1 + cpa_coeff] and capped at 1 for a
    potential candidate of a contextless cell. *)
Definition boosted_score (s : Baseline_Model) (row_index col_index : nat) (c : cea) : Q :=
  if soft_scoring (setup s) && cell_is_contextless s (mkCell row_index col_index)
  then match od_get (mkCand row_index col_index (cea_id c)) (potential_candidates s) with
       | Some (p :: pots) =>
           Qmin 1 (cea_score c
                   * (1 + fold_left Qmax (map pot_cpa_coeff pots) (pot_cpa_coeff p)))
       | _ => cea_score c
       end
  else cea_score c.

(** The number of CPA memberships of a candidate. *)
Definition cpa_memberships (s : Baseline_Model) (row_index col_index : nat) (c : cea) : nat :=
  length (default [] (od_get (mkCand row_index col_index (cea_id c))
                             (potential_candidates s))).

(** No candidate of [l] has a higher score than [c]. *)
Definition ties_top (l : list cea) (c : cea) : bool :=
  forallb (fun c' => Qle_bool (cea_score c') (cea_score c)) l.

(** What the loops over the CTAs keep of the engine they started from:
    the configuration, the cached types, and a type graph that holds the
    neighbours of every type it knows. *)
Definition keeps_types (s0 s : Baseline_Model) : Prop :=
  setup s = setup s0
  /\ cached_cta_candidates s = cached_cta_candidates s0
  /\ (forall t g, type_graph s0 !! t = Some g -> type_graph s !! t = Some g)
  /\ (forall t g, type_graph s !! t = Some g -> g = type_neighbours s0 t).

(** The bonus of a candidate after a list of CTAs. *)
Definition bonus_after (s0 : Baseline_Model) (id : string) (ctas : list cta) (b : Q) : Q :=
  fold_left (fun bonus a_cta =>
               Qmax bonus (taxonomy_weight s0 id (cta_id a_cta) * cta_score a_cta))
            ctas b.

(** The engine on [table9] when the fourth annotation loop starts its CEA
    step: after the third loop, the update of the literal weights and the
    last scoring. *)
Definition engine_table9 : Baseline_Model :=
  match Example.run (entity_scoring_task (E := Example.example_externals) false true)
          (Example.run (update_context_weight true)
             (Example.run pass3 (Example.after_pass2 Example.table9 "kb3"))) with
  | Ok s => set_cea_annot [] s
  | Raise _ => uninitialized Example.kb3 20 None
  end.

(** The engine as [__init__] leaves it on the table [alpha; beta]. *)
Definition engine_table1_init : Baseline_Model :=
  match Baseline_Model_init (E := Example.example_externals)
          Example.table1 "kb1" "idx" Example.params1 with
  | Ok s => s
  | Raise _ => uninitialized Example.kb1 20 None
  end.

(** The engine after the second annotation loop on [table1] and on
    [table2], over the first store. *)
Definition engine_kb1 : Baseline_Model :=
  match Example.after_pass2 Example.table1 "kb1" with
  | Ok s => s
  | Raise _ => uninitialized Example.kb1 20 None
  end.


(** ** Relations through a shared neighbour *)

Section Relations.
Context {E : Externals}.

(** Every relation emitted by the intersection of two entity subgraphs, in
    the order of the loops: one per shared neighbour of positive popularity
    and per pair of edges leading to it. *)
Definition emissions (kb : Wikidata_KB) (G_head G_tail : odict string (list Edge))
  : list (string * Q) :=
  flat_map
    (fun node =>
       let popularity := node_popularity kb node in
       if Qgtb popularity 0 then
         flat_map
           (fun prop_head =>
              map (fun prop_tail =>
                     path_candidate popularity (pid prop_head) (pid prop_tail))
                  (default [] (od_get node G_tail)))
           (default [] (od_get node G_head))
       else [])
    (G_intersect G_head G_tail).

(** The popularity of a node, by the formula of the specification. *)
Definition popularity (kb : Wikidata_KB) (node : string) : Q :=
  1 / (2 + log10 (2 + Qnat (get_num_edges kb node))).

(** A predicate without its mark of direction. *)
Definition undirected (p : string) : string := replace "(-)" "" p.

(** A predicate with its direction reversed: a backward predicate loses
    the mark [(-)], a forward predicate receives it. *)
Definition reversed (p : string) : string :=
  if String.prefix "(-)" p then undirected p else "(-)" +:+ p.

(** Exactly one of the two predicates carries the mark [(-)]. *)
Definition mixed_directions (p q : string) : bool :=
  xorb (String.prefix "(-)" p) (String.prefix "(-)" q).

(** The edges [e_head] and [e_tail] lead from the head and from the tail
    to [n], a neighbour of both that has edges of its own and a positive
    popularity. *)
Definition lead_to (kb : Wikidata_KB) (G_head G_tail : odict string (list Edge))
    (n : string) (e_head e_tail : Edge) : Prop :=
  n ∈ od_keys G_head /\ n ∈ od_keys G_tail
  /\ get_num_edges kb n <> 0%nat
  /\ 0 < popularity kb n
  /\ e_head ∈ default [] (od_get n G_head)
  /\ e_tail ∈ default [] (od_get n G_tail).

(** [emits kb G_head G_tail rel q]: some pair of predicates leading to a
    shared neighbour emits the relation [rel] with the semantic proximity
    [q].  A head predicate that equals the reversed tail predicate and is
    transitive is emitted alone, with proximity 1; any other pair is emitted
    as a path, with the popularity of the neighbour, divided by 1.75 when
    the directions are mixed. *)
Inductive emits (kb : Wikidata_KB) (G_head G_tail : odict string (list Edge))
  : string -> Q -> Prop :=
| emits_transitive n e_head e_tail :
    lead_to kb G_head G_tail n e_head e_tail ->
    pid e_head = reversed (pid e_tail) ->
    undirected (pid e_head) ∈ transitivePID ->
    emits kb G_head G_tail (pid e_head) 1
| emits_path n e_head e_tail :
    lead_to kb G_head G_tail n e_head e_tail ->
    ~ (pid e_head = reversed (pid e_tail) /\ undirected (pid e_head) ∈ transitivePID) ->
    emits kb G_head G_tail
      (pid e_head +:+ "::" +:+ reversed (pid e_tail))
      (if mixed_directions (pid e_head) (reversed (pid e_tail))
       then popularity kb n / (7 # 4) else popularity kb n).

End Relations.

(** [b] is the largest proximity among the emitted relations (0 when
    nothing was emitted). *)
Definition is_maximum (emitted : list (string * Q)) (b : Q) : Prop :=
  (forall e, e ∈ emitted -> e.2 <= b)
  /\ (emitted = [] -> b == 0)
  /\ (emitted <> [] -> exists e, e ∈ emitted /\ b == e.2).

(** [v] is the smallest proximity with which the relation [r] was emitted. *)
Definition is_minimum_of (emitted : list (string * Q)) (r : string) (v : Q) : Prop :=
  (exists e, e ∈ emitted /\ e.1 = r /\ v == e.2)
  /\ (forall e, e ∈ emitted -> e.1 = r -> v <= e.2).

(** The engine as [__init__] leaves it on [table3]. *)
Definition engine_table3 : Baseline_Model :=
  match Baseline_Model_init (E := Example.example_externals)
          Example.table3 "kb1" "idx" Example.params1 with
  | Ok s => s
  | Raise _ => uninitialized Example.kb1 20 None
  end.

(** The engine as [__init__] leaves it on [table5], over the first store,
    and on [table7], over the third store. *)
Definition engine_table5 : Baseline_Model :=
  match Baseline_Model_init (E := Example.example_externals)
          Example.table5 "kb1" "idx" Example.params1 with
  | Ok s => s
  | Raise _ => uninitialized Example.kb1 20 None
  end.

Definition engine_table7 : Baseline_Model :=
  match Baseline_Model_init (E := Example.example_externals)
          Example.table7 "kb3" "idx" Example.params1 with
  | Ok s => s
  | Raise _ => uninitialized Example.kb3 20 None
  end.

(** ** The aggregated context score *)

(** The weighted mean of the specification: the sub-scores of the contexts
    weighted by their current weights, 0.01 without context. *)
Definition spec_weighted_context (contexts : odict nat context_rec) : Q :=
  match contexts with
  | [] => 1 # 100
  | _ => Qsum (map (fun '(_, c) => ctx_weight c * ctx_score c) contexts)
         / Qsum (map (fun '(_, c) => ctx_weight c) contexts)
  end.

(** What the scoring loop reads of the engine. *)
Definition context_inputs (s : Baseline_Model) :=
  (setup s, unrelated_col_pairs s, cpa_annot s).

(** What one context adds to [context_score] and to [context_weight]. *)
Definition context_contribution (s : Baseline_Model) (first_step : bool)
    (candidate : Candidate_Entity) (it : nat * context_rec) : Q * Q :=
  let col_pair := context_col_pair (setup s) candidate it.1 in
  if context_counts s col_pair
  then (ctx_weight it.2 * scaled_score s first_step col_pair it.2, base_weight (setup s) it.1)
  else (0, 0).

Definition context_numerator (s : Baseline_Model) (first_step : bool)
    (candidate : Candidate_Entity) (contexts : odict nat context_rec) : Q :=
  Qsum (map (fun it => (context_contribution s first_step candidate it).1) contexts).

Definition context_denominator (s : Baseline_Model) (first_step : bool)
    (candidate : Candidate_Entity) (contexts : odict nat context_rec) : Q :=
  Qsum (map (fun it => (context_contribution s first_step candidate it).2) contexts).

(** The column pair under which the CPA of the context of [candidate] at
    the column [col_idx] is looked up. *)
Definition pair_of_context (s : Baseline_Model) (candidate : Candidate_Entity)
    (col_idx : nat) : Column_Pair :=
  if decide ((col_idx < cand_col candidate)%nat /\ col_idx ∈ entity_cols (setup s))
  then mkPair col_idx (cand_col candidate)
  else mkPair (cand_col candidate) col_idx.

(** The contexts that take part in the score: the column pair carries a
    CPA annotation and is not marked unrelated. *)
Definition takes_part (s : Baseline_Model) (candidate : Candidate_Entity)
    (it : nat * context_rec) : Prop :=
  (pair_of_context s candidate it.1 ∉ unrelated_col_pairs s)
  /\ is_Some (od_get (pair_of_context s candidate it.1) (cpa_annot s)).

#[global] Instance takes_part_dec s candidate it : Decision (takes_part s candidate it).
Proof. unfold takes_part. apply _. Defined.

(** The scale of a context: 1 on the first pass; afterwards coverage times
    semantic proximity of the first CPA of the pair that is among the
    relations of the context, 0 when there is none. *)
Definition cpa_scale (s : Baseline_Model) (first_step : bool) (candidate : Candidate_Entity)
    (it : nat * context_rec) : Q :=
  if first_step then 1
  else match filter (fun a_cpa => cpa_id a_cpa ∈ ctx_context it.2)
                    (default [] (od_get (pair_of_context s candidate it.1) (cpa_annot s))) with
       | a_cpa :: _ => cpa_coverage a_cpa * cpa_semantic_proximity a_cpa
       | [] => 0
       end.

(** The fixed weight of a column: 1.0 for an entity column, 0.3 for a
    literal column. *)
Definition column_base_weight (s : Baseline_Model) (col_idx : nat) : Q :=
  if decide (col_idx ∈ entity_cols (setup s)) then 1
  else if decide (col_idx ∈ literal_cols (setup s)) then 3 # 10
  else 0.

(** The engine on [table8] after the third annotation loop and the update
    of the weights of the literal contexts, before the last scoring. *)
Definition engine_table8 : Baseline_Model :=
  match Example.run (update_context_weight true)
          (Example.run pass3 (Example.after_pass2 Example.table8 "kb3")) with
  | Ok s => s
  | Raise _ => uninitialized Example.kb3 20 None
  end.

(** The engine on [table2] after the first annotation loop and the update
    of the context weights, before the scores are computed again. *)
Definition engine_reweighted : Baseline_Model :=
  match Example.reweighted Example.table2 "kb1" with
  | Ok s => s
  | Raise _ => uninitialized Example.kb1 20 None
  end.

(** ** Running the third annotation loop again *)

(** The caches of [y] extend the caches of [x]: what [x] holds, [y] holds,
    and what [y] holds beyond is what the KB gives. *)
Definition cache_ext (x y : Baseline_Model) : Prop :=
  setup x = setup y
  /\ (forall t, match type_graph x !! t with
                | Some g => type_graph y !! t = Some g
                | None => forall g, type_graph y !! t = Some g ->
                                    g = build_type_graph (KB (setup x)) t
                end)
  /\ (forall i, match cached_cta_candidates x !! i with
                | Some h => cached_cta_candidates y !! i = Some h
                | None => forall h, cached_cta_candidates y !! i = Some h ->
                                    h = get_types_of_entity (KB (setup x)) i 3
                end).

(** Everything of the engine but the two caches and the CPA results. *)
Definition core (s : Baseline_Model) :=
  (setup s, lookup_scores s, entity_context_scores s, entity_sim_scores s, entity_scores s,
   cached_cpa_candidates s, unrelated_col_pairs s, contextless_cells s,
   potential_candidates s, cta_annot s, cea_annot s).

(** What the third annotation loop does not write. *)
Definition pass3_frame (s : Baseline_Model) :=
  (setup s, lookup_scores s, entity_context_scores s, entity_sim_scores s, entity_scores s,
   cached_cpa_candidates s, unrelated_col_pairs s, contextless_cells s,
   potential_candidates s).

Definition sim (x y : Baseline_Model) : Prop := core x = core y /\ cache_ext x y.

Definition sim_full (x y : Baseline_Model) : Prop := sim x y /\ cpa_annot x = cpa_annot y.

(** The engine after the second annotation loop on [table6], over the
    third store: two candidates in each cell, with the lookup scores 1 and
    1/2, and three types in the column. *)
Definition engine_table6 : Baseline_Model :=
  match Example.after_pass2 Example.table6 "kb3" with
  | Ok s => s
  | Raise _ => uninitialized Example.kb3 20 None
  end.

(** A run of [m2] from [y] follows a successful run of [m1] from [x]: it
    succeeds with the same value and reaches a state related by [R]. *)
Definition follows {S A} (R : S -> S -> Prop) (m1 m2 : M S A) (x y : S) : Prop :=
  forall a x', m1 x = (Ok a, x') -> exists y', m2 y = (Ok a, y') /\ R x' y'.

(** A computation only extends the caches. *)
Definition extends {A} (m : M Baseline_Model A) : Prop :=
  forall s, cache_ext s (m s).2.

(** ** The ranges of the scores *)

Definition unit_interval (q : Q) : Prop := 0 <= q /\ q <= 1.

(** Every entry of a dictionary satisfies [P]. *)
Definition od_Forall {K V} (P : K -> V -> Prop) (d : odict K V) : Prop :=
  Forall (fun kv => P kv.1 kv.2) d.

(** A context holds a score between the floor and 1 and a positive weight
    that is at most what its column adds to the total weight. *)
Definition ctx_ok (st : Setup) (col : nat) (c : context_rec) : Prop :=
  1 # 10 <= ctx_score c /\ ctx_score c <= 1
  /\ 0 < ctx_weight c /\ ctx_weight c <= base_weight st col.

Definition cta_ok (c : cta) : Prop := unit_interval (cta_score c) /\ 0 <= cta_coverage c.

Definition cpa_ok (c : cpa) : Prop :=
  unit_interval (cpa_coverage c) /\ unit_interval (cpa_semantic_proximity c)
  /\ 0 <= cpa_score c.

(** The ranges the engine keeps, for an engine whose setup is [st]. *)
Definition in_range_at (st : Setup) (s : Baseline_Model) : Prop :=
  setup s = st
  /\ od_Forall (fun _ => unit_interval) (lookup_scores s)
  /\ od_Forall (fun _ => unit_interval) (entity_sim_scores s)
  /\ od_Forall (fun _ => unit_interval) (entity_scores s)
  /\ od_Forall (fun _ => od_Forall (ctx_ok st)) (entity_context_scores s)
  /\ map_Forall (fun _ => Forall (fun r => unit_interval (rel_semantic_proximity r)))
                (cached_cpa_candidates s)
  /\ od_Forall (fun _ => Forall (fun c => unit_interval (cea_score c))) (cea_annot s)
  /\ od_Forall (fun _ => Forall cta_ok) (cta_annot s)
  /\ od_Forall (fun _ => Forall cpa_ok) (cpa_annot s)
  /\ od_Forall (fun _ => Forall (fun p => 0 <= pot_cpa_coeff p)) (potential_candidates s).

Definition in_range (s : Baseline_Model) : Prop := in_range_at (setup s) s.

(** What is promised of the scores of the candidates. *)
Definition scores_in_range (s : Baseline_Model) : Prop :=
  (forall candidate sc, (candidate, sc) ∈ entity_scores s -> 0 <= sc /\ sc <= 1)
  /\ (forall cell annot c, (cell, annot) ∈ cea_annot s -> c ∈ annot ->
        0 <= cea_score c /\ cea_score c <= 1)
  /\ (forall candidate sim, (candidate, sim) ∈ entity_sim_scores s -> 0 <= sim /\ sim <= 1)
  /\ (forall candidate contexts col ctx,
        (candidate, contexts) ∈ entity_context_scores s -> (col, ctx) ∈ contexts ->
        1 # 10 <= ctx_score ctx).

(** A method run from a state that satisfies [I] leaves a state that
    satisfies [I], whether it returns or raises, and what it returns
    satisfies [Q]. *)
Definition triple {S A} (I : S -> Prop) (m : M S A) (Q : A -> Prop) : Prop :=
  forall s, I s -> I (m s).2 /\ forall a, (m s).1 = Ok a -> Q a.

(** The points of the pipeline: the engine as [__init__] leaves it, and as
    any of its methods leaves it, whether the method returns or raises. *)
Inductive pipeline_point {E : Externals} : Baseline_Model -> Prop :=
| point_init raw_table kb_path lookup_index params m :
    Baseline_Model_init raw_table kb_path lookup_index params = Ok m -> pipeline_point m
| point_scoring s first_step last_step :
    pipeline_point s -> pipeline_point (entity_scoring_task first_step last_step s).2
| point_weights s onlyLiteralContext :
    pipeline_point s -> pipeline_point (update_context_weight onlyLiteralContext s).2
| point_cea s col_index row_index only_one :
    pipeline_point s -> pipeline_point (cea_task col_index row_index only_one s).2
| point_cta s col_index only_one :
    pipeline_point s -> pipeline_point (cta_task col_index only_one s).2
| point_cpa s head_col_index tail_col_index only_one :
    pipeline_point s -> pipeline_point (cpa_task head_col_index tail_col_index only_one s).2
| point_reset_cea s : pipeline_point s -> pipeline_point (set_cea_annot [] s)
| point_reset_cta s : pipeline_point s -> pipeline_point (set_cta_annot [] s)
| point_reset_cpa s : pipeline_point s -> pipeline_point (set_cpa_annot [] s).

(** What is taken for granted of the libraries: the exponential is positive,
    the logarithm of a number from 1 on is not negative, the string metrics
    answer between 0 and 100, and the lookup answers scores between 0 and 1. *)
Record sane_externals {E : Externals} : Prop := {
  exp_pos : forall x, 0 < exp x;
  log10_nonneg : forall x, 1 <= x -> 0 <= log10 x;
  fuzz_ratio_range : forall a b, 0 <= fuzz_ratio a b /\ fuzz_ratio a b <= 100;
  fuzz_token_sort_ratio_range :
    forall a b, 0 <= fuzz_token_sort_ratio a b /\ fuzz_token_sort_ratio a b <= 100;
  fuzz_token_set_ratio_range :
    forall a b, 0 <= fuzz_token_set_ratio a b /\ fuzz_token_set_ratio a b <= 100;
  lookup_score_range :
    forall labels index item entities e sc,
      item ∈ output (entity_lookup labels index) ->
      li_entities item = Some entities -> (e, sc) ∈ entities -> 0 <= sc /\ sc <= 1
}.

(** ** Ranges of the locals of the methods *)

Definition relations_range (acc : Q * odict string Q) : Prop :=
  unit_interval acc.1 ∧ od_Forall (λ _, unit_interval) acc.2.

(** What a match may do to the score of a context. *)
Definition match_range (m : literal_match) : Prop :=
  match m with
  | NoMatch => True
  | AssignScore q => 1 # 10 <= q ∧ q <= 1
  | RaiseScore q => q <= 1
  end.

(** The locals of the loop over the contexts: the weighted sum never
    exceeds the sum of the weights. *)
Definition context_locals_range (acc : Q * Q * Q) : Prop :=
  0 <= acc.1.1 ∧ acc.1.1 <= acc.1.2.

Definition cea_range (c : cea) : Prop := unit_interval (cea_score c).

Definition disambiguation_range (acc : odict string Q * list Q) : Prop :=
  od_Forall (λ _, unit_interval) acc.1 ∧ Forall (λ x, 0 <= x) acc.2.

Definition row_types_range (row : odict string row_type) : Prop :=
  od_Forall (λ _ rt, unit_interval (rt_score rt)) row.

Definition type_stats_range (ct : odict string type_stat) : Prop :=
  NoDup (od_keys ct)
  ∧ od_Forall (λ _ st, 0 <= total_scores st ∧ total_scores st <= Qnat (count st)) ct.

Definition row_rels_range (rel : odict string row_rel) : Prop :=
  NoDup (od_keys rel)
  ∧ od_Forall (λ _ rr, unit_interval (rr_semantic_proximity rr) ∧ unit_interval (rr_score rr))
              rel.

Definition rel_stat_range (k : nat) (st : rel_stat) : Prop :=
  0 <= rs_total_scores st ∧ unit_interval (rs_semantic_proximity st) ∧ (rs_count st ≤ k)%nat.

Definition rel_stats_range (k : nat) (cc : odict string rel_stat) : Prop :=
  NoDup (od_keys cc) ∧ ∀ t st, od_get t cc = Some st → rel_stat_range k st.

Definition cells_range (cells : odict nat (list cea)) : Prop :=
  od_Forall (λ _, Forall cea_range) cells.

Definition lookup_results_range (lookup_results : odict string (list (string * Q))) : Prop :=
  od_Forall (λ _, Forall (λ es, unit_interval es.2)) lookup_results.

Definition lookup_locals_range (ll : lookup_locals) : Prop :=
  od_Forall (λ _, unit_interval) (ll_lookup_scores ll).

(** * Further properties of the engine *)

(** The two caches hold what the KB gives for their keys. *)
Definition caches_coherent (s : Baseline_Model) : Prop :=
  (forall t g, type_graph s !! t = Some g -> g = build_type_graph (KB (setup s)) t)
  /\ (forall i h, cached_cta_candidates s !! i = Some h ->
                  h = get_types_of_entity (KB (setup s)) i 3).

(** What the scoring methods leave alone: the setup and the two caches. *)
Definition setup_and_caches (s : Baseline_Model) :=
  (setup s, type_graph s, cached_cta_candidates s).

(** Every type of the row has the rank 0. *)
Definition ranks_are_zero (row : odict string row_type) : Prop :=
  od_Forall (λ _ rt, rt_rank rt = 0%Z) row.

(** Every type of the column has the total rank 0. *)
Definition total_ranks_are_zero (ct : odict string type_stat) : Prop :=
  od_Forall (λ _ st, total_ranks st = 0%Z) ct.

(** The candidates of the lookups. *)
Definition is_candidate_of (lookup_dict : odict Cell (list string))
    (candidate : Candidate_Entity) : Prop :=
  ∃ cell ids, (cell, ids) ∈ lookup_dict ∧ cand_id candidate ∈ ids
              ∧ cand_row candidate = cell_row cell ∧ cand_col candidate = cell_col cell.



(** * Facts about the embedding *)

#[local] Set Warnings "-clear-no-such-hyp".

(** ** Dictionaries *)

Section odict_facts.
Context {K V : Type} `{EqDecision K}.
Implicit Types (d : odict K V) (k : K) (v : V).

Lemma od_get_set_eq k v d : od_get k (od_set k v d) = Some v.
Proof.
  induction d as [|[k' v'] d IH]; simpl.
  - by rewrite decide_True.
  - destruct (decide (k' = k)) as [->|Hne]; simpl.
    + by rewrite decide_True.
    + by rewrite decide_False.
Qed.

Lemma od_get_set_ne k k' v d : k ≠ k' → od_get k' (od_set k v d) = od_get k' d.
Proof.
  intros Hne. induction d as [|[k0 v0] d IH]; simpl.
  - by rewrite decide_False.
  - destruct (decide (k0 = k)) as [->|Hne0]; simpl.
    + by rewrite !decide_False.
    + destruct (decide (k0 = k')); done.
Qed.

Lemma od_get_set k k' v d :
  od_get k' (od_set k v d) = if decide (k = k') then Some v else od_get k' d.
Proof.
  destruct (decide (k = k')) as [->|Hne].
  - apply od_get_set_eq.
  - by apply od_get_set_ne.
Qed.

Lemma od_get_elem_of k v d : od_get k d = Some v → (k, v) ∈ d.
Proof.
  induction d as [|[k' v'] d IH]; simpl; [done|].
  destruct (decide (k' = k)) as [->|Hne].
  - intros [= ->]. left.
  - intros Hg. right. by apply IH.
Qed.

Lemma od_get_is_Some k d : is_Some (od_get k d) ↔ k ∈ od_keys d.
Proof.
  induction d as [|[k' v'] d IH]; simpl.
  - split; [by intros [? ?]|]. by intros ?%elem_of_nil.
  - destruct (decide (k' = k)) as [->|Hne].
    + split; [intros _; left | by eauto].
    + rewrite IH. split; [by right|].
      intros [?|?]%elem_of_cons; [congruence|done].
Qed.

Lemma od_mem_true k d : od_mem k d = true ↔ k ∈ od_keys d.
Proof.
  unfold od_mem. rewrite <- od_get_is_Some.
  destruct (od_get k d); split; try done; try by eauto.
Qed.

Lemma od_keys_set k v d k' : k' ∈ od_keys (od_set k v d) ↔ k' = k ∨ k' ∈ od_keys d.
Proof.
  rewrite <- !od_get_is_Some, od_get_set.
  destruct (decide (k = k')) as [->|Hne].
  - split; [by left | by eauto].
  - split; [by right|]. intros [->|?]; [done|done].
Qed.

Lemma od_keys_update d d2 k :
  k ∈ od_keys (od_update d d2) ↔ k ∈ od_keys d ∨ k ∈ od_keys d2.
Proof.
  unfold od_update. revert d.
  induction d2 as [|[k2 v2] d2 IH]; intros d; simpl.
  - split; [by left|]. intros [?|?%elem_of_nil]; done.
  - rewrite IH, od_keys_set. simpl. rewrite elem_of_cons. tauto.
Qed.

Lemma od_set_NoDup k v d : NoDup (od_keys d) → NoDup (od_keys (od_set k v d)).
Proof.
  induction d as [|[k' v'] d IH]; simpl; intros Hd.
  - apply NoDup_singleton.
  - apply NoDup_cons in Hd as [Hn Hd].
    destruct (decide (k' = k)) as [->|Hne]; simpl.
    + by apply NoDup_cons.
    + apply NoDup_cons. split; [|by apply IH].
      intros [?|?]%od_keys_set; congruence.
Qed.

Lemma od_set_length k v d : (length d ≤ length (od_set k v d))%nat.
Proof.
  induction d as [|[k' v'] d IH]; simpl; [lia|].
  destruct (decide (k' = k)); simpl; lia.
Qed.

Lemma od_set_elem_of k v d k' v' :
  (k', v') ∈ od_set k v d → (k' = k ∧ v' = v) ∨ (k', v') ∈ d.
Proof.
  induction d as [|[k0 v0] d IH]; simpl.
  - intros ?%list_elem_of_singleton. left. by simplify_eq.
  - destruct (decide (k0 = k)) as [->|Hne].
    + intros [?|?]%elem_of_cons; [left; by simplify_eq | right; by right].
    + intros [->|Hin]%elem_of_cons; [right; left|].
      destruct (IH Hin) as [?|?]; [by left | right; by right].
Qed.
End odict_facts.

(** ** Hierarchical types of an entity *)

Lemma od_keys_update_nil (d : adjacency) t :
  t ∈ od_keys (od_update [] d) ↔ t ∈ od_keys d.
Proof.
  rewrite od_keys_update. split; [|by right].
  intros [?%elem_of_nil|?]; done.
Qed.

Lemma super_types_step kb u (types : adjacency) t :
  t ∈ od_keys match od_get subClassPID (prop_obj_dict kb u) with
              | Some ((_ :: _) as super_type) => od_update types super_type
              | _ => types
              end
  ↔ t ∈ od_keys types ∨ t ∈ od_keys (get_supertypes_of_type kb u).
Proof.
  unfold get_supertypes_of_type.
  destruct (od_get subClassPID (prop_obj_dict kb u)) as [[|kv sup]|]; cbn [default].
  - cbn [od_keys map]. rewrite elem_of_nil. tauto.
  - by rewrite od_keys_update.
  - cbn [od_keys map]. rewrite elem_of_nil. tauto.
Qed.

Lemma super_types_keys_from kb (inter : list string) (acc : adjacency) t :
  t ∈ od_keys
        (fold_left (fun types u =>
                      match od_get subClassPID (prop_obj_dict kb u) with
                      | Some ((_ :: _) as super_type) => od_update types super_type
                      | _ => types
                      end) inter acc)
  ↔ t ∈ od_keys acc ∨ ∃ u, u ∈ inter ∧ t ∈ od_keys (get_supertypes_of_type kb u).
Proof.
  revert acc. induction inter as [|u inter IH]; intros acc; cbn [fold_left].
  - split; [by left|]. intros [?|(u & ?%elem_of_nil & _)]; done.
  - rewrite IH, super_types_step. split.
    + intros [[?|?]|(u' & Hin & Ht)].
      * by left.
      * right. exists u. split; [left|done].
      * right. exists u'. split; [by right|done].
    + intros [?|(u' & [->|Hin]%elem_of_cons & Ht)].
      * left. by left.
      * left. by right.
      * right. by eauto.
Qed.

Lemma super_types_keys kb (inter_types : adjacency) t :
  t ∈ od_keys (super_types kb inter_types)
  ↔ ∃ u, u ∈ od_keys inter_types ∧ t ∈ od_keys (get_supertypes_of_type kb u).
Proof.
  unfold super_types. rewrite super_types_keys_from. simpl.
  split; [|by right]. intros [?%elem_of_nil|?]; done.
Qed.

Lemma higher_levels_length kb n inter : length (higher_levels kb n inter) = n.
Proof. revert inter. induction n as [|n IH]; intros inter; simpl; [done|]. by rewrite IH. Qed.

(** Every level above the first holds exactly the direct super types of
    the level before it. *)
Lemma higher_levels_step_gen kb n (first inter : adjacency) i (prev cur : adjacency) t :
  (∀ u, u ∈ od_keys first ↔ u ∈ od_keys inter) →
  (first :: higher_levels kb n inter) !! i = Some prev →
  higher_levels kb n inter !! i = Some cur →
  t ∈ od_keys cur ↔ ∃ u, u ∈ od_keys prev ∧ t ∈ od_keys (get_supertypes_of_type kb u).
Proof.
  revert first inter i prev cur.
  induction n as [|n IH]; intros first inter i prev cur Heq; cbn [higher_levels]; [done|].
  destruct i as [|i]; cbn [lookup list_lookup].
  - intros [= <-] [= <-]. rewrite od_keys_update_nil, super_types_keys.
    split; intros (u & Hu & Ht); exists u; split; try done; by apply Heq.
  - intros Hprev Hcur.
    eapply (IH (od_update [] (super_types kb inter)) (super_types kb inter) i); try done.
    intros u. apply od_keys_update_nil.
Qed.

Lemma higher_levels_step kb n (first : adjacency) i (prev cur : adjacency) t :
  (first :: higher_levels kb n first) !! i = Some prev →
  higher_levels kb n first !! i = Some cur →
  t ∈ od_keys cur ↔ ∃ u, u ∈ od_keys prev ∧ t ∈ od_keys (get_supertypes_of_type kb u).
Proof. by apply higher_levels_step_gen. Qed.

Lemma od_update_nonempty (d : adjacency) kv l : od_update d (kv :: l) ≠ [].
Proof.
  unfold od_update. cbn [fold_left].
  assert (Hlen : ∀ (l : list (string * string)) (acc : adjacency),
             (length acc ≤ length (fold_left (fun acc kv => od_set kv.1 kv.2 acc) l acc))%nat).
  { clear. induction l as [|kv l IH]; intros acc; cbn [fold_left]; [lia|].
    etrans; [|apply IH]. apply od_set_length. }
  intros Hnil. specialize (Hlen l (od_set kv.1 kv.2 d)). rewrite Hnil in Hlen.
  pose proof (od_set_length kv.1 kv.2 d) as H1.
  destruct (od_set kv.1 kv.2 d) eqn:Hs; simpl in *; [|lia].
  destruct d as [|[? ?] ?]; simpl in Hs; [done|]. by destruct (decide _).
Qed.

Lemma collect_step_instance pod i o p t :
  t ∈ od_keys (collect_step pod (i, o) p).1
  ↔ t ∈ od_keys i ∨ (p = instanceOfPID ∧ t ∈ od_keys (default [] (od_get p pod))).
Proof.
  unfold collect_step.
  destruct (od_get p pod) as [[|kv a]|]; cbn [default fst].
  - split; [by left|]. intros [?|[_ ?%elem_of_nil]]; done.
  - destruct (decide (p = instanceOfPID)) as [->|Hne]; cbn [fst].
    + rewrite od_keys_update. tauto.
    + tauto.
  - split; [by left|]. intros [?|[_ ?%elem_of_nil]]; done.
Qed.

Lemma collect_step_others pod i o p t :
  t ∈ od_keys (collect_step pod (i, o) p).2
  ↔ t ∈ od_keys o ∨ (p ≠ instanceOfPID ∧ t ∈ od_keys (default [] (od_get p pod))).
Proof.
  unfold collect_step.
  destruct (od_get p pod) as [[|kv a]|]; cbn [default snd].
  - split; [by left|]. intros [?|[_ ?%elem_of_nil]]; done.
  - destruct (decide (p = instanceOfPID)) as [->|Hne]; cbn [snd].
    + tauto.
    + rewrite od_keys_update. tauto.
  - split; [by left|]. intros [?|[_ ?%elem_of_nil]]; done.
Qed.

Lemma collect_step_others_nil pod i o p :
  (collect_step pod (i, o) p).2 = []
  ↔ o = [] ∧ (p ≠ instanceOfPID → default [] (od_get p pod) = []).
Proof.
  unfold collect_step.
  destruct (od_get p pod) as [[|kv a]|]; cbn [default snd].
  - tauto.
  - destruct (decide (p = instanceOfPID)) as [->|Hne]; cbn [snd].
    + tauto.
    + split.
      * intros H. by apply od_update_nonempty in H.
      * intros [_ H]. specialize (H Hne). done.
  - tauto.
Qed.

Lemma collect_types_fold (pod : odict string adjacency) (ps : list string)
    (i0 o0 : adjacency) t :
  let r := fold_left (collect_step pod) ps (i0, o0) in
  (t ∈ od_keys r.1
   ↔ t ∈ od_keys i0 ∨ (instanceOfPID ∈ ps ∧ t ∈ od_keys (default [] (od_get instanceOfPID pod))))
  ∧ (t ∈ od_keys r.2
     ↔ t ∈ od_keys o0
       ∨ ∃ p, p ∈ ps ∧ p ≠ instanceOfPID ∧ t ∈ od_keys (default [] (od_get p pod)))
  ∧ (r.2 = []
     ↔ o0 = [] ∧ ∀ p, p ∈ ps → p ≠ instanceOfPID → default [] (od_get p pod) = []).
Proof.
  revert i0 o0. induction ps as [|p ps IH]; intros i0 o0; cbn [fold_left].
  - cbn [fst snd]. split; [|split].
    + split; [by left|]. intros [?|[?%elem_of_nil _]]; done.
    + split; [by left|]. intros [?|(p & ?%elem_of_nil & _)]; done.
    + split; [|by intros [? _]]. intros ->. split; [done|]. by intros p ?%elem_of_nil.
  - destruct (collect_step pod (i0, o0) p) as [i1 o1] eqn:Hstep.
    pose proof (collect_step_instance pod i0 o0 p t) as S1.
    pose proof (collect_step_others pod i0 o0 p t) as S2.
    pose proof (collect_step_others_nil pod i0 o0 p) as S3.
    rewrite Hstep in S1, S2, S3. cbn [fst snd] in S1, S2, S3.
    destruct (IH i1 o1) as (IH1 & IH2 & IH3). split; [|split].
    + rewrite IH1, S1. split.
      * intros [[?|[-> ?]]|[? ?]]; [by left| |].
        -- right. split; [left|done].
        -- right. split; [by right|done].
      * intros [?|[[->|?]%elem_of_cons ?]]; [left; by left| |by right].
        left. right. done.
    + rewrite IH2, S2. split.
      * intros [[?|[? ?]]|(q & ? & ? & ?)]; [by left| |].
        -- right. exists p. split; [left|done].
        -- right. exists q. split; [by right|done].
      * intros [?|(q & [->|?]%elem_of_cons & ? & ?)]; [left; by left| |].
        -- left. by right.
        -- right. exists q. done.
    + rewrite IH3, S3. split.
      * intros [[-> H1] H2]. split; [done|].
        intros q [->|?]%elem_of_cons ?; [by apply H1|by apply H2].
      * intros [-> H]. split; [split; [done|]|].
        -- intros ?. apply H; [left|done].
        -- intros q ? ?. apply H; [by right|done].
Qed.

Lemma other_types_present_false kb entity_id :
  other_types_present kb entity_id = false
  ↔ ∀ p, p ∈ type_properties → p ≠ instanceOfPID → adjacency_of kb entity_id p = [].
Proof.
  unfold other_types_present, other_type_properties, type_properties, instanceOfPID.
  cbn [existsb]. split.
  - intros H p Hp Hne.
    repeat (apply elem_of_cons in Hp as [->|Hp]); try done.
    + by destruct (adjacency_of kb entity_id "P106").
    + destruct (adjacency_of kb entity_id "P106"); [|done].
      by destruct (adjacency_of kb entity_id "P39").
    + destruct (adjacency_of kb entity_id "P106"); [|done].
      destruct (adjacency_of kb entity_id "P39"); [|done].
      by destruct (adjacency_of kb entity_id "P105").
    + by apply elem_of_nil in Hp.
  - intros H.
    rewrite (H "P106"), (H "P39"), (H "P105"); try done;
      repeat first [by left | right].
Qed.

Lemma other_type_properties_spec p :
  p ∈ other_type_properties ↔ p ∈ type_properties ∧ p ≠ instanceOfPID.
Proof.
  unfold other_type_properties, type_properties, instanceOfPID.
  rewrite !elem_of_cons, !elem_of_nil. naive_solver.
Qed.

(** C5 (amended).  The hierarchical type lookup returns one dictionary per
    level.  Level 1 holds the neighbours under occupation, position-held and
    academic-degree when the entity has any of them, and the instance-of
    neighbours only when it has none; every higher level holds exactly the
    subclass-of targets of the types of the level before. *)
Theorem get_types_of_entity_levels (kb : Wikidata_KB) (entity_id : string) (n : nat) :
  ∃ (level_1 : adjacency) (rest : hierarchy),
    get_types_of_entity kb entity_id (S n) = level_1 :: rest
    ∧ length rest = n
    ∧ (∀ t, t ∈ od_keys level_1 ↔
         if other_types_present kb entity_id
         then ∃ p, p ∈ other_type_properties ∧ t ∈ od_keys (adjacency_of kb entity_id p)
         else t ∈ od_keys (adjacency_of kb entity_id instanceOfPID))
    ∧ (∀ i (prev cur : adjacency) t,
         (level_1 :: rest) !! i = Some prev → rest !! i = Some cur →
         t ∈ od_keys cur
         ↔ ∃ u, u ∈ od_keys prev ∧ t ∈ od_keys (get_supertypes_of_type kb u)).
Proof.
  unfold get_types_of_entity.
  pose proof (collect_types_fold (prop_obj_dict kb entity_id) type_properties [] []) as Hfold.
  cbv zeta in Hfold.
  change (fold_left (collect_step (prop_obj_dict kb entity_id)) type_properties ([], []))
    with (collect_types (prop_obj_dict kb entity_id)) in Hfold.
  revert Hfold.
  destruct (collect_types (prop_obj_dict kb entity_id)) as [instanceOf_types others_types].
  intros Hfold.
  cbn [fst snd] in Hfold.
  eexists _, _. split; [reflexivity|]. split; [apply higher_levels_length|]. split.
  - intros t. destruct (Hfold t) as (H1 & H2 & H3).
    fold (adjacency_of kb entity_id instanceOfPID) in H1.
    destruct (other_types_present kb entity_id) eqn:Hpresent.
    + destruct others_types as [|kv o].
      { exfalso. assert (Hf : other_types_present kb entity_id = false); [|congruence].
        apply other_types_present_false. intros p Hp Hne.
        destruct H3 as [H3 _]. destruct (H3 eq_refl) as [_ H3']. by apply H3'. }
      rewrite H2. split.
      * intros [?%elem_of_nil|(p & Hp & Hne & Ht)]; [done|].
        exists p. split; [by apply other_type_properties_spec|done].
      * intros (p & [Hp Hne]%other_type_properties_spec & Ht). right. by exists p.
    + destruct others_types as [|kv o].
      * rewrite H1. split.
        -- intros [?%elem_of_nil|[_ Ht]]; done.
        -- intros Ht. right. split; [left|done].
      * exfalso. pose proof (proj1 (other_types_present_false _ _) Hpresent) as Hp'.
        assert (kv :: o = []); [|done]. apply H3. split; [done|]. apply Hp'.
  - intros i prev cur t. apply higher_levels_step.
Qed.

(** C5, as stated, fails: [Ada] is an instance of [Q5] and has the
    occupation [Q82955]; the union of the specification holds both, level 1
    of the code holds the occupation only. *)
Lemma level_1_is_not_the_union :
  get_types_of_entity Example.kb1 "Ada" 3 = [[("Q82955", "NORMAL")]; []; []]
  ∧ spec_level_1 Example.kb1 "Ada" = ["Q5"; "Q82955"]
  ∧ ¬ (∀ t, t ∈ od_keys (default [] (get_types_of_entity Example.kb1 "Ada" 3 !! 0%nat))
            ↔ t ∈ spec_level_1 Example.kb1 "Ada").
Proof.
  split; [by vm_compute|]. split; [by vm_compute|].
  intros H. specialize (H "Q5").
  assert (Hin : "Q5" ∈ spec_level_1 Example.kb1 "Ada") by (vm_compute; left).
  apply H in Hin. vm_compute in Hin.
  apply list_elem_of_singleton in Hin. discriminate.
Qed.

(** ** Outcomes and loops *)

Lemma rbind_Ok {A B} (r : result A) (k : A → result B) b :
  rbind r k = Ok b ↔ ∃ a, r = Ok a ∧ k a = Ok b.
Proof. destruct r; simpl; naive_solver. Qed.

Lemma mbind_Ok {S A B} (m : M S A) (k : A → M S B) s b s' :
  mbind m k s = (Ok b, s') ↔ ∃ a s1, m s = (Ok a, s1) ∧ k a s1 = (Ok b, s').
Proof.
  unfold mbind. destruct (m s) as [[a|e] s1]; split.
  - intros H. by exists a, s1.
  - by intros (a' & s1' & [= -> ->] & H).
  - done.
  - by intros (a' & s1' & [=] & _).
Qed.

Lemma of_option_Ok {A} e (o : option A) a : of_option e o = Ok a ↔ o = Some a.
Proof. destruct o; simpl; naive_solver. Qed.

Lemma mget_Ok {S} (s a s' : S) : mget s = (Ok a, s') ↔ a = s ∧ s' = s.
Proof. unfold mget. naive_solver. Qed.

Lemma mret_Ok {S A} (x a : A) (s s' : S) : mret x s = (Ok a, s') ↔ a = x ∧ s' = s.
Proof. unfold mret. naive_solver. Qed.

Lemma mmodify_Ok {S} (f : S → S) (s s' : S) u : mmodify f s = (Ok u, s') ↔ s' = f s.
Proof. unfold mmodify. destruct u. naive_solver. Qed.

Lemma mlift_Ok {S A} (r : result A) (s s' : S) a : mlift r s = (Ok a, s') ↔ r = Ok a ∧ s' = s.
Proof. unfold mlift. naive_solver. Qed.

(** Taking apart a successful run. *)
Ltac minv H :=
  lazymatch type of H with
  | mbind _ _ _ = (Ok _, _) =>
      let a := fresh "a" in let s1 := fresh "s" in let H1 := fresh "Hm" in
      apply mbind_Ok in H as (a & s1 & H1 & H); minv H1; minv H
  | rbind _ _ = Ok _ =>
      let a := fresh "a" in let H1 := fresh "Hr" in
      apply rbind_Ok in H as (a & H1 & H); minv H1; minv H
  | mget _ = (Ok _, _) =>
      let H1 := fresh in let H2 := fresh in
      apply mget_Ok in H as [H1 H2]; try subst
  | mret _ _ = (Ok _, _) =>
      let H1 := fresh in let H2 := fresh in
      apply mret_Ok in H as [H1 H2]; try subst
  | mmodify _ _ = (Ok _, _) => apply mmodify_Ok in H; try subst
  | mlift _ _ = (Ok _, _) =>
      let H2 := fresh in
      apply mlift_Ok in H as [H H2]; try subst; minv H
  | mraise _ _ = (Ok _, _) => discriminate H
  | of_option _ _ = Ok _ => apply of_option_Ok in H
  | Ok _ = Ok _ => injection H as H; try subst
  | Raise _ = Ok _ => discriminate H
  | (Raise _, _) = (Ok _, _) => discriminate H
  | _ => idtac
  end.

Lemma foldR_inv {X B} (P : B → Prop) (body : B → X → result B) l b r :
  (∀ b x b', P b → x ∈ l → body b x = Ok b' → P b') →
  P b → foldR body b l = Ok r → P r.
Proof.
  revert b. induction l as [|x l IH]; intros b Hstep Hb; cbn [foldR].
  - by intros [= <-].
  - intros (b' & Hx & Hl)%rbind_Ok. apply (IH b'); [|by eapply Hstep; [|left|]|done].
    intros ???? Hin. apply Hstep; [done|by right].
Qed.

Lemma foldM_inv {S X B} (P : B → S → Prop) (body : B → X → M S B) l b s r s' :
  (∀ b x s b' s', P b s → x ∈ l → body b x s = (Ok b', s') → P b' s') →
  P b s → foldM body b l s = (Ok r, s') → P r s'.
Proof.
  revert b s. induction l as [|x l IH]; intros b s Hstep Hb; cbn [foldM].
  - by intros [= <- <-].
  - intros (b' & s1 & Hx & Hl)%mbind_Ok.
    apply (IH b' s1); [|by eapply Hstep; [|left|]|done].
    intros ?????? Hin. apply Hstep; [done|by right].
Qed.

Lemma fold_left_inv {X B} (P : B → Prop) (f : B → X → B) l b :
  (∀ b x, P b → x ∈ l → P (f b x)) → P b → P (fold_left f l b).
Proof.
  revert b. induction l as [|x l IH]; intros b Hstep Hb; cbn [fold_left]; [done|].
  apply IH; [|apply Hstep; [done|left]].
  intros ??? Hin. apply Hstep; [done|by right].
Qed.

(** ** CTA: the count of a type *)

Lemma cta_level_1_NoDup sc acc it acc' :
  cta_level_1 sc acc it = Ok acc' → NoDup (od_keys acc.1) → NoDup (od_keys acc'.1).
Proof.
  destruct acc as [row t1], it as [t rank]. unfold cta_level_1.
  destruct (od_get t row); intros H Hd; minv H; subst; by apply od_set_NoDup.
Qed.

Lemma cta_level_2_NoDup sc t1 row it row' :
  cta_level_2 sc t1 row it = Ok row' → NoDup (od_keys row) → NoDup (od_keys row').
Proof.
  destruct it as [t rank]. unfold cta_level_2.
  destruct (od_get t row); intros H Hd; minv H; subst; by apply od_set_NoDup.
Qed.

Lemma cta_level_3_NoDup sc row it row' :
  cta_level_3 sc row it = Ok row' → NoDup (od_keys row) → NoDup (od_keys row').
Proof.
  destruct it as [t rank]. unfold cta_level_3.
  destruct (od_get t row); intros H Hd; minv H; subst; by apply od_set_NoDup.
Qed.

Lemma cta_cea_NoDup acc c s acc' s' :
  cta_cea acc c s = (Ok acc', s') → NoDup (od_keys acc.1) → NoDup (od_keys acc'.1).
Proof.
  unfold cta_cea. intros H Hd. minv H. subst. cbn [fst].
  eapply (foldR_inv (fun row => NoDup (od_keys row))); [| |exact Hr4].
  { intros b x b' Hb _ Hrun. by eapply cta_level_3_NoDup. }
  eapply (foldR_inv (fun row => NoDup (od_keys row))); [| |exact Hr2].
  { intros b x b' Hb _ Hrun. by eapply cta_level_2_NoDup. }
  eapply (foldR_inv (fun acc => NoDup (od_keys acc.1))); [| |exact Hr0].
  { intros b x b' Hb _ Hrun. by eapply cta_level_1_NoDup. }
  done.
Qed.

(** Merging a row raises the count of a type by one at most. *)
Lemma cta_merge_row_count (row : odict string row_type) (ct : odict string type_stat) t st' :
  NoDup (od_keys row) →
  od_get t (cta_merge_row ct row) = Some st' →
  match od_get t ct with
  | Some st => (count st' ≤ count st + 1)%nat
  | None => count st' = 1%nat
  end.
Proof.
  unfold cta_merge_row. revert ct. induction row as [|[u rt] row IH]; intros ct Hd; cbn [fold_left].
  - intros ->. lia.
  - cbn [od_keys map fst] in Hd. apply NoDup_cons in Hd as [Hu Hd].
    intros Hget. specialize (IH _ Hd Hget).
    destruct (decide (u = t)) as [->|Hne].
    + assert (Hsame : ∀ ct0 : odict string type_stat,
                 od_get t (fold_left (fun ct '(t, rt) =>
                     match od_get t ct with
                     | Some st => od_set t (mkStat (count st + 1) (total_scores st + rt_score rt)
                                                   (total_ranks st + rt_rank rt)) ct
                     | None => od_set t (mkStat 1 (rt_score rt) (rt_rank rt)) ct
                     end) row ct0) = od_get t ct0).
      { clear -Hu. induction row as [|[u' rt'] row IH]; intros ct0; cbn [fold_left]; [done|].
        cbn [od_keys map fst] in Hu. apply not_elem_of_cons in Hu as [Hne Hu].
        rewrite (IH Hu). destruct (od_get u' ct0); by rewrite od_get_set_ne. }
      rewrite Hsame in Hget.
      destruct (od_get t ct) as [st|] eqn:Hct; rewrite od_get_set_eq in Hget;
        injection Hget as <-; simpl; lia.
    + destruct (od_get u ct); rewrite od_get_set_ne in IH by done; done.
Qed.

Lemma cta_row_count col acc row s acc' s' (k : nat) :
  cta_row col acc row s = (Ok acc', s') →
  (∀ t st, od_get t acc.1 = Some st → (count st ≤ k)%nat) →
  ∀ t st, od_get t acc'.1 = Some st → (count st ≤ k + 1)%nat.
Proof.
  unfold cta_row. intros H Hk t st. minv H.
  destruct (od_get (mkCell row col) (cea_annot s)) as [ceas|].
  - minv H. subst. cbn [fst]. intros Hget.
    apply cta_merge_row_count in Hget.
    + destruct (od_get t acc.1) as [st0|] eqn:H0; [|lia].
      specialize (Hk _ _ H0). lia.
    + eapply (foldM_inv (fun acc _ => NoDup (od_keys acc.1))); [| |exact Hm].
      * intros b x s2 b' s2' Hb _ Hrun. by eapply cta_cea_NoDup.
      * apply NoDup_nil_2.
  - minv H. subst. intros Hget. specialize (Hk _ _ Hget). lia.
Qed.

Lemma cta_rows_count col rows acc s r s' (k : nat) :
  foldM (cta_row col) acc rows s = (Ok r, s') →
  (∀ t st, od_get t acc.1 = Some st → (count st ≤ k)%nat) →
  ∀ t st, od_get t r.1 = Some st → (count st ≤ k + length rows)%nat.
Proof.
  revert acc s k. induction rows as [|row rows IH]; intros acc s k; cbn [foldM].
  - intros [= <- <-] Hk t st Hget. specialize (Hk _ _ Hget). simpl. lia.
  - intros (acc1 & s1 & Hrow & Hrest)%mbind_Ok Hk t st Hget.
    pose proof (cta_row_count _ _ _ _ _ _ k Hrow Hk) as Hk1.
    pose proof (IH _ _ _ Hrest Hk1 t st Hget). simpl. lia.
Qed.

Lemma data_rows_length st :
  data_rows st ≠ [] → Z.of_nat (length (data_rows st)) = num_data_rows st.
Proof.
  unfold data_rows, range, num_data_rows. rewrite length_seq.
  destruct (decide (num_rows st - first_data_row st = 0)%nat) as [->|Hne]; [done|].
  intros _. lia.
Qed.

(** C7 (amended).  For every column processed by [cta_task], the count
    aggregated for each distinct candidate type does not exceed the number
    of data rows of the table. *)
Theorem cta_count_le_data_rows (col_index : nat) (s : Baseline_Model)
    (candidate_types : odict string type_stat) (t : string) (st : type_stat) :
  cta_candidate_types col_index s = Ok candidate_types →
  od_get t candidate_types = Some st →
  (Z.of_nat (count st) ≤ num_data_rows (setup s))%Z.
Proof.
  unfold cta_candidate_types.
  destruct (foldM _ _ _ s) as [[r|e] s'] eqn:Hfold; [|done].
  intros [= <-] Hget.
  destruct (data_rows (setup s)) as [|row rows] eqn:Hrows.
  - cbn [foldM] in Hfold. injection Hfold as <- <-. done.
  - rewrite <- data_rows_length by (by rewrite Hrows). rewrite Hrows.
    pose proof (cta_rows_count _ _ _ _ _ _ 0 Hfold) as H.
    specialize (H ltac:(done) t st Hget). lia.
Qed.

Lemma cta_count_le_data_rows_witness :
  (Z.of_nat 2 ≤ num_data_rows (setup engine_kb2))%Z.
Proof.
  apply (cta_count_le_data_rows 0 engine_kb2
           [("T", mkStat 1 1 0); ("V", mkStat 1 (7 # 10) 0); ("U", mkStat 2 (10 # 25) 0)]
           "U" (mkStat 2 (10 # 25) 0)).
  - vm_compute. reflexivity.
  - vm_compute. reflexivity.
Defined.

(** C7, as stated, fails: on [table1] (two data rows) the candidate types
    of column 0 are [T] and [V], met in one row, and [U], met in two rows;
    their counts add up to 4. *)
Lemma type_counts_exceed_data_rows :
  ∃ candidate_types,
    cta_candidate_types 0 engine_kb2 = Ok candidate_types
    ∧ num_data_rows (setup engine_kb2) = 2%Z
    ∧ sum_counts candidate_types = 4%nat
    ∧ ¬ (Z.of_nat (sum_counts candidate_types) ≤ num_data_rows (setup engine_kb2))%Z.
Proof.
  eexists. split; [vm_compute; reflexivity|].
  split; [vm_compute; reflexivity|]. split; [vm_compute; reflexivity|].
  vm_compute. intros H. by apply H.
Qed.

(** ** What a computation leaves unchanged *)

Section preserves.
Context {S X : Type} (f : S → X).

Lemma preserves_ret {A} (a : A) : preserves f (mret a).
Proof. by intros s. Qed.

Lemma preserves_raise {A} e : preserves f (@mraise S A e).
Proof. by intros s. Qed.

Lemma preserves_get : preserves f (@mget S).
Proof. by intros s. Qed.

Lemma preserves_lift {A} (r : result A) : preserves f (@mlift S A r).
Proof. by intros s. Qed.

Lemma preserves_modify (g : S → S) : (∀ s, f (g s) = f s) → preserves f (mmodify g).
Proof. intros H s. apply H. Qed.

Lemma preserves_bind {A B} (m : M S A) (k : A → M S B) :
  preserves f m → (∀ a, preserves f (k a)) → preserves f (mbind m k).
Proof.
  intros Hm Hk s. unfold mbind. specialize (Hm s).
  destruct (m s) as [[a|e] s1]; simpl in *; [|done].
  by rewrite Hk.
Qed.

Lemma preserves_forM {Y} (l : list Y) (body : Y → M S unit) :
  (∀ y, preserves f (body y)) → preserves f (forM l body).
Proof.
  intros Hb. induction l as [|y l IH]; cbn [forM].
  - apply preserves_ret.
  - apply preserves_bind; [apply Hb|by intros _].
Qed.

Lemma preserves_foldM {Y B} (body : B → Y → M S B) b (l : list Y) :
  (∀ b y, preserves f (body b y)) → preserves f (foldM body b l).
Proof.
  intros Hb. revert b. induction l as [|y l IH]; intros b; cbn [foldM].
  - apply preserves_ret.
  - apply preserves_bind; [apply Hb|apply IH].
Qed.
End preserves.

(** Goals of the form [preserves f m], by the structure of [m]. *)
Ltac preserves_step :=
  first
    [ apply preserves_ret | apply preserves_raise | apply preserves_get
    | apply preserves_lift
    | apply preserves_bind; [|intros ?]
    | apply preserves_forM; intros ?
    | apply preserves_foldM; intros ? ?
    | apply preserves_modify; intros []; reflexivity
    | match goal with
      | |- preserves _ (match ?x with _ => _ end) => destruct x
      | |- preserves _ ((match ?x with _ => _ end) _) => destruct x
      | |- preserves _ ((fun _ => _) _) => progress cbv beta
      end ].
Ltac preserves_tac := repeat preserves_step.

Lemma cea_task_score_maps col row only_one : preserves score_maps (cea_task col row only_one).
Proof.
  unfold cea_task, cta_disambiguation, cta_disambiguation_cta. preserves_tac.
Qed.

Lemma cta_task_score_maps col only_one : preserves score_maps (cta_task col only_one).
Proof. unfold cta_task, cta_row, cta_cea. preserves_tac. Qed.

Lemma cpa_task_score_maps h t only_one : preserves score_maps (cpa_task h t only_one).
Proof. unfold cpa_task. preserves_tac. Qed.

(** C10.  The three annotation tasks leave [entity_scores],
    [entity_sim_scores] and [entity_context_scores] as they found them,
    whatever their outcome, so that a second run of [cea_task] on the cell
    starts from the same candidates with the same scores. *)
Theorem annotation_tasks_keep_score_maps (s : Baseline_Model)
    (col_index row_index head_col_index tail_col_index : nat) (only_one : bool)
    (ids : list string) :
  score_maps (cea_task col_index row_index only_one s).2 = score_maps s
  ∧ score_maps (cta_task col_index only_one s).2 = score_maps s
  ∧ score_maps (cpa_task head_col_index tail_col_index only_one s).2 = score_maps s
  ∧ initial_cea_candidates (cea_task col_index row_index only_one s).2 row_index col_index ids
    = initial_cea_candidates s row_index col_index ids.
Proof.
  pose proof (cea_task_score_maps col_index row_index only_one s) as Hcea.
  split; [done|]. split; [apply cta_task_score_maps|]. split; [apply cpa_task_score_maps|].
  unfold initial_cea_candidates. unfold score_maps in Hcea.
  injection Hcea as -> _ _. done.
Qed.

(** ** Sorting *)

Section sorting.
Context {A : Type} (ltb : A → A → bool).
Hypothesis ltb_asym : ∀ a b, ltb a b = true → ltb b a = false.
Hypothesis geb_trans : ∀ a b c, ltb a b = false → ltb b c = false → ltb a c = false.

Lemma insert_desc_perm x l : insert_desc ltb x l ≡ₚ x :: l.
Proof.
  induction l as [|y l IH]; cbn [insert_desc]; [done|].
  destruct (ltb x y); [|done]. rewrite IH. apply Permutation_swap.
Qed.

Lemma sorted_desc_perm l : sorted_desc ltb l ≡ₚ l.
Proof.
  unfold sorted_desc. induction l as [|x l IH]; cbn [fold_right]; [done|].
  by rewrite insert_desc_perm, IH.
Qed.

Lemma insert_desc_sorted x l :
  StronglySorted (fun a b => ltb a b = false) l →
  StronglySorted (fun a b => ltb a b = false) (insert_desc ltb x l).
Proof.
  induction 1 as [|y l Hl IH Hy]; cbn [insert_desc].
  - apply SSorted_cons; [apply SSorted_nil|apply Forall_nil_2].
  - destruct (ltb x y) eqn:Hxy.
    + apply SSorted_cons; [exact IH|].
      apply Forall_forall. intros z Hz.
      rewrite insert_desc_perm in Hz. apply elem_of_cons in Hz as [->|Hz].
      * by apply ltb_asym.
      * rewrite Forall_forall in Hy. by apply Hy.
    + apply SSorted_cons; [by apply SSorted_cons|].
      apply Forall_cons. split; [done|].
      rewrite Forall_forall in Hy. apply Forall_forall. intros z Hz.
      eapply geb_trans; [exact Hxy|]. by apply Hy.
Qed.

Lemma sorted_desc_sorted l : StronglySorted (fun a b => ltb a b = false) (sorted_desc ltb l).
Proof.
  unfold sorted_desc. induction l as [|x l IH]; cbn [fold_right]; [apply SSorted_nil|].
  by apply insert_desc_sorted.
Qed.
End sorting.

Lemma Qgtb_true a b : Qgtb a b = true ↔ b < a.
Proof.
  unfold Qgtb. rewrite negb_true_iff. split.
  - intros H. apply Qnot_le_lt. intros Hle. apply Qle_bool_iff in Hle. congruence.
  - intros H. destruct (Qle_bool a b) eqn:E; [|done].
    apply Qle_bool_iff in E. exfalso. by apply (Qlt_not_le _ _ H).
Qed.

Lemma Qgtb_false a b : Qgtb a b = false ↔ a <= b.
Proof.
  unfold Qgtb. rewrite negb_false_iff. apply Qle_bool_iff.
Qed.


Lemma Qeq_bool_true a b : Qeq_bool a b = true ↔ a == b.
Proof. apply Qeq_bool_iff. Qed.

Lemma Qeq_bool_false a b : Qeq_bool a b = false ↔ ¬ a == b.
Proof.
  split.
  - intros H Heq. apply Qeq_bool_iff in Heq. congruence.
  - intros H. destruct (Qeq_bool a b) eqn:E; [|done]. apply Qeq_bool_iff in E. done.
Qed.

(** The order of the CEA sort key, as a proposition. *)
Lemma cea_key_ltb_true s row col a b :
  cea_key_ltb s row col a b = true
  ↔ cea_score a < cea_score b
    ∨ (cea_score a == cea_score b
       ∧ (num_cpa_memberships s row col a < num_cpa_memberships s row col b)%nat).
Proof.
  unfold cea_key_ltb.
  rewrite orb_true_iff, andb_true_iff, Qgtb_true, Qeq_bool_true, Nat.ltb_lt. done.
Qed.

Lemma cea_key_ltb_false s row col a b :
  cea_key_ltb s row col a b = false
  ↔ cea_score b < cea_score a
    ∨ (cea_score a == cea_score b
       ∧ (num_cpa_memberships s row col b ≤ num_cpa_memberships s row col a)%nat).
Proof.
  destruct (cea_key_ltb s row col a b) eqn:E.
  - apply cea_key_ltb_true in E. split; [done|].
    intros [H|[H1 H2]]; destruct E as [E|[E1 E2]]; exfalso; try lra; lia.
  - split; [|done]. intros _.
    destruct (Qlt_le_dec (cea_score b) (cea_score a)) as [?|Hle]; [by left|].
    right. assert (Hn : ¬ cea_key_ltb s row col a b = true) by congruence.
    rewrite cea_key_ltb_true in Hn.
    assert (cea_score a == cea_score b).
    { destruct (Qlt_le_dec (cea_score a) (cea_score b)); [exfalso; apply Hn; by left|lra]. }
    split; [done|].
    destruct (decide (num_cpa_memberships s row col b ≤ num_cpa_memberships s row col a)%nat);
      [done|]. exfalso. apply Hn. right. split; [done|lia].
Qed.

Lemma cea_key_ltb_asym s row col a b :
  cea_key_ltb s row col a b = true → cea_key_ltb s row col b a = false.
Proof.
  rewrite cea_key_ltb_true, cea_key_ltb_false.
  intros [H|[H1 H2]]; [by left|]. right. split; [lra|lia].
Qed.

Lemma cea_key_geb_trans s row col a b c :
  cea_key_ltb s row col a b = false → cea_key_ltb s row col b c = false →
  cea_key_ltb s row col a c = false.
Proof.
  rewrite !cea_key_ltb_false.
  intros [H|[H1 H2]] [H'|[H1' H2']].
  - left. lra.
  - left. lra.
  - left. lra.
  - right. split; [lra|lia].
Qed.

(** ** CEA: combination, ranking and selection *)

Lemma foldR_snoc {X Y} (f : X → result Y) (l : list X) (acc r : list Y) :
  foldR (fun acc x => y <~ f x ;; Ok (acc ++ [y])) acc l = Ok r →
  ∃ l', r = acc ++ l' ∧ Forall2 (fun x y => f x = Ok y) l l'.
Proof.
  revert acc. induction l as [|x l IH]; intros acc; cbn [foldR].
  - intros [= <-]. exists []. split; [by rewrite app_nil_r|constructor].
  - intros H. minv H. subst. apply IH in H as (l' & -> & HF).
    exists (a0 :: l'). split; [by rewrite <- app_assoc|by constructor].
Qed.

Lemma cta_disambiguation_inputs col cands : preserves cea_inputs (cta_disambiguation col cands).
Proof. unfold cta_disambiguation, cta_disambiguation_cta. preserves_tac. Qed.

Lemma cta_disambiguation_applied_from col cands (l : odict Column (list cta)) flag sc w s r s' :
  foldM (fun '(cta_disabg_applied, scores, weights) '(c, cta_list) =>
           if decide (column_index c = col)
           then r <- foldM (cta_disambiguation_cta cands) (scores, weights) cta_list ;;
                mret (true, r.1, r.2)
           else mret (cta_disabg_applied, scores, weights))
        (flag, sc, w) l s = (Ok r, s') →
  flag = true ∨ mkColumn col ∈ od_keys l → r.1.1 = true.
Proof.
  revert flag sc w s. induction l as [|[c cta_list] l IH]; intros flag sc w s; cbn [foldM].
  - intros [= <- <-] [->|?%elem_of_nil]; done.
  - intros H Hor. apply mbind_Ok in H as ([[flag1 sc1] w1] & s1 & Hstep & Hrest).
    apply (IH _ _ _ _ Hrest).
    destruct (decide (column_index c = col)) as [Heq|Hne].
    + minv Hstep. left. congruence.
    + minv Hstep. destruct Hor as [->|Hin]; [left; congruence|].
      cbn [od_keys map fst] in Hin. apply elem_of_cons in Hin as [Heq|Hin]; [|by right].
      destruct c. simpl in *. congruence.
Qed.

Lemma cta_coefficient_inputs s s' row col w cands :
  cea_inputs s' = cea_inputs s →
  cta_coefficient s' row col w cands = cta_coefficient s row col w cands.
Proof.
  unfold cea_inputs. intros [= Hsetup Hctx Hpot _ _].
  unfold cta_coefficient, is_contextless, cpa_boost. by rewrite Hsetup, Hctx, Hpot.
Qed.

Lemma cea_key_ltb_inputs s s' row col :
  cea_inputs s' = cea_inputs s → cea_key_ltb s' row col = cea_key_ltb s row col.
Proof.
  unfold cea_inputs. intros [= _ _ Hpot _ _].
  unfold cea_key_ltb, num_cpa_memberships. by rewrite Hpot.
Qed.

Lemma cea_final_score_spec coeff bonus c0 c :
  cea_final_score true coeff bonus c0 = Ok c →
  cea_id c = cea_id c0
  ∧ ∃ b, od_get (cea_id c0) bonus = Some b
         ∧ cea_score c == (cea_score c0 + coeff * b) / (1 + coeff).
Proof.
  unfold cea_final_score. intros H. minv H.
  split; [done|]. exists a. split; [done|]. simpl. apply Qred_correct.
Qed.

(** The first of a sorted list has the highest score. *)
Lemma sorted_head_max s row col top sorted c :
  StronglySorted (fun a b => cea_key_ltb s row col a b = false) (top :: sorted) →
  c ∈ top :: sorted → cea_score c <= cea_score top.
Proof.
  intros Hs [->|Hin]%elem_of_cons; [lra|].
  apply StronglySorted_inv in Hs as [_ Hall].
  rewrite Forall_forall in Hall. specialize (Hall _ Hin).
  apply cea_key_ltb_false in Hall as [?|[? _]]; lra.
Qed.

(** *** The disambiguation scores *)

(** Case analysis on every [Qmax] and [Qmin] of the goal. *)
Ltac qminmax :=
  repeat match goal with
         | |- context [Qmax ?a ?b] =>
             let m := fresh "m" in let H := fresh "Hmax" in
             pose proof (Q.max_spec a b) as H;
             set (m := Qmax a b) in *; clearbody m
         | H : context [Qmax ?a ?b] |- _ =>
             let m := fresh "m" in let H := fresh "Hmax" in
             pose proof (Q.max_spec a b) as H;
             set (m := Qmax a b) in *; clearbody m
         end;
  repeat match goal with
         | H : (_ < _ ∧ _ == _) ∨ (_ <= _ ∧ _ == _) |- _ => destruct H as [[? ?]|[? ?]]
         end;
  try lra.

Lemma cta_disambiguation_step_spec s0 s a_cta scores c scores' :
  cached_cta_candidates s = cached_cta_candidates s0 →
  type_graph s !! cta_id a_cta = Some (type_neighbours s0 (cta_id a_cta)) →
  cta_disambiguation_step s a_cta scores c = Ok scores' →
  0 <= default 0 (od_get (cea_id c) scores) →
  (∀ id, id ≠ cea_id c → od_get id scores' = od_get id scores)
  ∧ default 0 (od_get (cea_id c) scores')
    == Qmax (default 0 (od_get (cea_id c) scores))
            (taxonomy_weight s0 (cea_id c) (cta_id a_cta) * cta_score a_cta).
Proof.
  intros Hcache Htg Hstep Hpos. unfold cta_disambiguation_step in Hstep.
  rewrite Hcache, Htg in Hstep.
  change (default [] (Some (type_neighbours s0 (cta_id a_cta))))
    with (type_neighbours s0 (cta_id a_cta)) in Hstep.
  set (scores1 := if od_mem (cea_id c) scores then scores else od_set (cea_id c) 0 scores)
    in Hstep.
  assert (Hother : ∀ id, id ≠ cea_id c → od_get id scores1 = od_get id scores).
  { intros id Hne. unfold scores1. destruct (od_mem _ _); [done|].
    by rewrite od_get_set_ne. }
  assert (Hcur : default 0 (od_get (cea_id c) scores1) = default 0 (od_get (cea_id c) scores)).
  { unfold scores1, od_mem. destruct (od_get (cea_id c) scores) eqn:Hg; [by rewrite Hg|].
    by rewrite od_get_set_eq. }
  rewrite Hcur in Hstep.
  apply rbind_Ok in Hstep as (h & Hh & Hstep). apply of_option_Ok in Hh.
  apply rbind_Ok in Hstep as (level_1 & H1 & Hstep). unfold level in H1.
  apply of_option_Ok in H1.
  assert (Ht1 : types_at s0 (cea_id c) 1 = od_keys level_1).
  { unfold types_at. by rewrite Hh, H1. }
  unfold taxonomy_weight. rewrite Ht1.
  destruct (od_mem (cta_id a_cta) level_1) eqn:Hm1.
  { apply od_mem_true in Hm1. rewrite decide_True by done.
    injection Hstep as <-. split.
    - intros id Hne. by rewrite od_get_set_ne, Hother.
    - rewrite od_get_set_eq. cbn. unfold first_level. reflexivity. }
  assert (Hn1 : cta_id a_cta ∉ od_keys level_1).
  { intros Hin%od_mem_true. congruence. }
  rewrite decide_False by done.
  apply rbind_Ok in Hstep as (level_2 & H2 & Hstep). unfold level in H2.
  apply of_option_Ok in H2.
  assert (Ht2 : types_at s0 (cea_id c) 2 = od_keys level_2).
  { unfold types_at. by rewrite Hh, H2. }
  rewrite Ht2.
  assert (Hnb : ∀ l, is_neighbor_of_entity (type_neighbours s0 (cta_id a_cta)) l = true
                     ↔ Exists (fun t => t ∈ type_neighbours s0 (cta_id a_cta)) l).
  { intros l. unfold is_neighbor_of_entity, mem. rewrite existsb_exists, Exists_exists.
    split; intros (x & Hx & Hin); exists x.
    - split; [by apply list_elem_of_In|by apply bool_decide_eq_true in Hin].
    - split; [by apply list_elem_of_In|by apply bool_decide_eq_true]. }
  destruct (od_mem (cta_id a_cta) level_2
            || is_neighbor_of_entity (type_neighbours s0 (cta_id a_cta)) (od_keys level_1))
    eqn:Hm2.
  { rewrite decide_True.
    2:{ apply orb_true_iff in Hm2 as [Hm2|Hm2]; [left; by apply od_mem_true|right; by apply Hnb]. }
    injection Hstep as <-. split.
    - intros id Hne. by rewrite od_get_set_ne, Hother.
    - rewrite od_get_set_eq. cbn. unfold second_level. reflexivity. }
  rewrite decide_False.
  2:{ apply orb_false_iff in Hm2 as [Hm2 Hm2'].
      intros [Hin%od_mem_true|Hex%Hnb]; congruence. }
  apply rbind_Ok in Hstep as (level_3 & H3 & Hstep). unfold level in H3.
  apply of_option_Ok in H3.
  assert (Ht3 : types_at s0 (cea_id c) 3 = od_keys level_3).
  { unfold types_at. by rewrite Hh, H3. }
  rewrite Ht3.
  destruct (od_mem (cta_id a_cta) level_3
            || is_neighbor_of_entity (type_neighbours s0 (cta_id a_cta)) (od_keys level_2))
    eqn:Hm3.
  { rewrite decide_True.
    2:{ apply orb_true_iff in Hm3 as [Hm3|Hm3]; [left; by apply od_mem_true|right; by apply Hnb]. }
    injection Hstep as <-. split.
    - intros id Hne. by rewrite od_get_set_ne, Hother.
    - rewrite od_get_set_eq. cbn. unfold third_level. reflexivity. }
  rewrite decide_False.
  2:{ apply orb_false_iff in Hm3 as [Hm3 Hm3'].
      intros [Hin%od_mem_true|Hex%Hnb]; congruence. }
  injection Hstep as <-. split; [done|]. rewrite Hcur.
  qminmax.
Qed.

Lemma cta_disambiguation_candidates s0 s a_cta cands scores scores' :
  cached_cta_candidates s = cached_cta_candidates s0 →
  type_graph s !! cta_id a_cta = Some (type_neighbours s0 (cta_id a_cta)) →
  foldR (cta_disambiguation_step s a_cta) scores cands = Ok scores' →
  (∀ id, 0 <= default 0 (od_get id scores)) →
  (∀ id, 0 <= default 0 (od_get id scores'))
  ∧ ∀ id, default 0 (od_get id scores')
          == if decide (id ∈ map cea_id cands)
             then Qmax (default 0 (od_get id scores))
                       (taxonomy_weight s0 id (cta_id a_cta) * cta_score a_cta)
             else default 0 (od_get id scores).
Proof.
  intros Hcache Htg. revert scores.
  induction cands as [|c cands IH]; intros scores Hrun Hpos; cbn [foldR] in Hrun.
  - injection Hrun as <-. split; [done|]. intros id. rewrite decide_False; [done|].
    by intros ?%elem_of_nil.
  - apply rbind_Ok in Hrun as (scores1 & Hstep & Hrun).
    destruct (cta_disambiguation_step_spec _ _ _ _ _ _ Hcache Htg Hstep (Hpos _))
      as [Hother Hval].
    assert (Hpos1 : ∀ id, 0 <= default 0 (od_get id scores1)).
    { intros id. destruct (decide (id = cea_id c)) as [->|Hne].
      - rewrite Hval. specialize (Hpos (cea_id c)). qminmax.
      - rewrite Hother by done. apply Hpos. }
    destruct (IH _ Hrun Hpos1) as [Hpos' Hval']. split; [done|].
    intros id. rewrite Hval'. cbn [map].
    destruct (decide (id = cea_id c)) as [->|Hne].
    + rewrite (decide_True (P := cea_id c ∈ cea_id c :: map cea_id cands)) by left.
      specialize (Hpos (cea_id c)).
      destruct (decide (cea_id c ∈ map cea_id cands)); rewrite Hval; qminmax.
    + rewrite Hother by done.
      destruct (decide (id ∈ map cea_id cands)) as [Hin|Hin].
      * rewrite decide_True by (by right). reflexivity.
      * rewrite decide_False; [reflexivity|]. by intros [?|?]%elem_of_cons.
Qed.

Lemma keeps_types_refl s : keeps_types s s.
Proof.
  repeat split; try done. intros t g Hg. unfold type_neighbours. by rewrite Hg.
Qed.

Lemma bonus_after_proper s0 id ctas b b' :
  b == b' → bonus_after s0 id ctas b == bonus_after s0 id ctas b'.
Proof.
  revert b b'. induction ctas as [|a ctas IH]; intros b b' Hb; cbn; [done|].
  apply IH. qminmax.
Qed.

Lemma cta_disambiguation_cta_spec s0 cands scores weights a_cta s r s' :
  keeps_types s0 s →
  cta_disambiguation_cta cands (scores, weights) a_cta s = (Ok r, s') →
  (∀ id, 0 <= default 0 (od_get id scores)) →
  keeps_types s0 s'
  ∧ r.2 = weights ++ [cta_coverage a_cta]
  ∧ (∀ id, 0 <= default 0 (od_get id r.1))
  ∧ ∀ id, id ∈ map cea_id cands →
          default 0 (od_get id r.1)
          == Qmax (default 0 (od_get id scores))
                  (taxonomy_weight s0 id (cta_id a_cta) * cta_score a_cta).
Proof.
  intros (Hsetup & Hcache & Hmono & Hnb) Hrun Hpos. unfold cta_disambiguation_cta in Hrun.
  apply mbind_Ok in Hrun as (s1 & s1' & Hget & Hrun). apply mget_Ok in Hget as [-> ->].
  apply mbind_Ok in Hrun as ([] & s2 & Hfill & Hrun).
  assert (keeps_types s0 s2 ∧ type_graph s2 !! cta_id a_cta
                              = Some (type_neighbours s0 (cta_id a_cta))) as [Hk Htg].
  { destruct (type_graph s !! cta_id a_cta) as [g|] eqn:Hg.
    - apply mret_Ok in Hfill as [_ ->]. split; [done|]. by rewrite (Hnb _ _ Hg) in Hg.
    - apply mmodify_Ok in Hfill as ->.
      assert (type_graph s0 !! cta_id a_cta = None) as Hg0.
      { destruct (type_graph s0 !! cta_id a_cta) as [g0|] eqn:Hg0; [|done].
        apply Hmono in Hg0. congruence. }
      assert (type_neighbours s0 (cta_id a_cta)
              = build_type_graph (KB (setup s)) (cta_id a_cta)) as Hb.
      { unfold type_neighbours. by rewrite Hg0, Hsetup. }
      set (G := <[cta_id a_cta := build_type_graph (KB (setup s)) (cta_id a_cta)]>
                  (type_graph s)).
      assert (type_graph (set_type_graph G s) = G) as HG by (by destruct s).
      assert (setup (set_type_graph G s) = setup s) as HS by (by destruct s).
      assert (cached_cta_candidates (set_type_graph G s) = cached_cta_candidates s) as HC
        by (by destruct s).
      split.
      + split; [by rewrite HS|]. split; [by rewrite HC|]. rewrite HG. unfold G. split.
        * intros t g Ht. destruct (decide (t = cta_id a_cta)) as [->|Hne]; [congruence|].
          rewrite lookup_insert_ne by done. by apply Hmono.
        * intros t g. destruct (decide (t = cta_id a_cta)) as [->|Hne].
          -- rewrite lookup_insert_eq. intros [= <-]. done.
          -- rewrite lookup_insert_ne by done. apply Hnb.
      + rewrite HG. unfold G. by rewrite lookup_insert_eq, Hb. }
  apply mbind_Ok in Hrun as (s3 & s3' & Hget & Hrun). apply mget_Ok in Hget as [-> ->].
  apply mbind_Ok in Hrun as (scores' & s4 & Hloop & Hrun).
  apply mlift_Ok in Hloop as [Hloop ->]. apply mret_Ok in Hrun as [-> ->].
  cbn [fst snd]. split; [done|]. split; [done|].
  destruct Hk as (_ & Hcache2 & _).
  destruct (cta_disambiguation_candidates _ _ _ _ _ _ Hcache2 Htg Hloop Hpos) as [Hpos' Hval].
  split; [done|]. intros id Hin. rewrite Hval. by rewrite decide_True.
Qed.

Lemma cta_disambiguation_ctas_spec s0 cands cta_list scores weights s r s' :
  keeps_types s0 s →
  foldM (cta_disambiguation_cta cands) (scores, weights) cta_list s = (Ok r, s') →
  (∀ id, 0 <= default 0 (od_get id scores)) →
  keeps_types s0 s'
  ∧ r.2 = weights ++ map cta_coverage cta_list
  ∧ (∀ id, 0 <= default 0 (od_get id r.1))
  ∧ ∀ id, id ∈ map cea_id cands →
          default 0 (od_get id r.1)
          == bonus_after s0 id cta_list (default 0 (od_get id scores)).
Proof.
  revert scores weights s.
  induction cta_list as [|a_cta cta_list IH]; intros scores weights s Hk Hrun Hpos;
    cbn [foldM] in Hrun.
  - apply mret_Ok in Hrun as [-> ->]. cbn. by rewrite app_nil_r.
  - apply mbind_Ok in Hrun as ([scores1 weights1] & s1 & Hstep & Hrun).
    destruct (cta_disambiguation_cta_spec _ _ _ _ _ _ _ _ Hk Hstep Hpos)
      as (Hk1 & Hw1 & Hpos1 & Hval1). cbn [fst snd] in Hw1, Hpos1, Hval1.
    destruct (IH _ _ _ Hk1 Hrun Hpos1) as (Hk' & Hw' & Hpos' & Hval').
    split; [done|]. split; [by rewrite Hw', Hw1, <- app_assoc|]. split; [done|].
    intros id Hin. rewrite (Hval' _ Hin). cbn [bonus_after fold_left].
    apply bonus_after_proper. by apply Hval1.
Qed.

Lemma bonus_after_app s0 id l1 l2 b :
  bonus_after s0 id (l1 ++ l2) b = bonus_after s0 id l2 (bonus_after s0 id l1 b).
Proof. unfold bonus_after. by rewrite fold_left_app. Qed.

Lemma cta_disambiguation_items_spec s0 col cands (items : list (Column * list cta))
    flag scores weights s r s' :
  keeps_types s0 s →
  foldM (fun '(cta_disabg_applied, scores, weights) '(c, cta_list) =>
           if decide (column_index c = col)
           then r <- foldM (cta_disambiguation_cta cands) (scores, weights) cta_list ;;
                mret (true, r.1, r.2)
           else mret (cta_disabg_applied, scores, weights))
        (flag, scores, weights) items s = (Ok r, s') →
  (∀ id, 0 <= default 0 (od_get id scores)) →
  let ctas := flat_map (fun it : Column * list cta =>
                          if decide (column_index it.1 = col) then it.2 else []) items in
  r.2 = weights ++ map cta_coverage ctas
  ∧ ∀ id, id ∈ map cea_id cands →
          default 0 (od_get id r.1.2)
          == bonus_after s0 id ctas (default 0 (od_get id scores)).
Proof.
  revert flag scores weights s.
  induction items as [|[c cta_list] items IH]; intros flag scores weights s Hk Hrun Hpos;
    cbn [foldM] in Hrun; cbv zeta.
  - apply mret_Ok in Hrun as [-> ->]. cbn. by rewrite app_nil_r.
  - apply mbind_Ok in Hrun as ([[flag1 scores1] weights1] & s1 & Hstep & Hrun).
    cbn [flat_map fst snd].
    destruct (decide (column_index c = col)) as [Hc|Hc].
    + apply mbind_Ok in Hstep as ([scores2 weights2] & s2 & Hctas & Hstep).
      apply mret_Ok in Hstep as [[= -> -> ->] ->].
      destruct (cta_disambiguation_ctas_spec _ _ _ _ _ _ _ _ Hk Hctas Hpos)
        as (Hk1 & Hw1 & Hpos1 & Hval1). cbn [fst snd] in Hw1, Hpos1, Hval1.
      destruct (IH _ _ _ _ Hk1 Hrun Hpos1) as [Hw' Hval'].
      split; [by rewrite Hw', Hw1, map_app, app_assoc|].
      intros id Hin. rewrite (Hval' _ Hin), bonus_after_app.
      apply bonus_after_proper. by apply Hval1.
    + apply mret_Ok in Hstep as [[= -> -> ->] ->].
      destruct (IH _ _ _ _ Hk Hrun Hpos) as [Hw' Hval']. split; [done|].
      intros id Hin. by rewrite (Hval' _ Hin).
Qed.

(** The weights and the scores that the loop over [self.cta_annot] leaves
    are the coverages of the CTAs of the column and the bonus of every
    candidate. *)
Lemma cta_disambiguation_spec col cands s applied scores weights s' :
  cta_disambiguation col cands s = (Ok (applied, scores, weights), s') →
  weights = map cta_coverage (column_ctas s col)
  ∧ ∀ id, id ∈ map cea_id cands → default 0 (od_get id scores) == cta_bonus s col id.
Proof.
  unfold cta_disambiguation. intros Hrun.
  apply mbind_Ok in Hrun as (s0 & s0' & Hget & Hrun). apply mget_Ok in Hget as [-> ->].
  apply (cta_disambiguation_items_spec s) in Hrun as [Hw Hval];
    [|apply keeps_types_refl|intros id; cbn; lra].
  cbn [fst snd app] in Hw, Hval. split; [done|].
  intros id Hin. by rewrite (Hval _ Hin).
Qed.

(** *** The coefficient and the boost *)

Lemma is_contextless_cell_is_contextless s cell :
  is_contextless s cell = cell_is_contextless s cell.
Proof. unfold is_contextless, cell_is_contextless. by destruct (contextless_cells s). Qed.

Lemma np_mean_mean l : np_mean l == Qsum l / Qnat (length l).
Proof. destruct l; [reflexivity|]. unfold np_mean, Qnat. reflexivity. Qed.

Lemma cpa_boost_spec s row col c c' :
  cpa_boost s row col c = Ok c' →
  cea_id c' = cea_id c
  ∧ cea_score c'
    = match od_get (mkCand row col (cea_id c)) (potential_candidates s) with
      | Some (p :: pots) =>
          Qmin 1 (cea_score c
                  * (1 + fold_left Qmax (map pot_cpa_coeff pots) (pot_cpa_coeff p)))
      | _ => cea_score c
      end.
Proof.
  unfold cpa_boost. destruct (od_get _ _) as [[|p pots]|]; intros H.
  - discriminate H.
  - cbn in H. injection H as <-. done.
  - injection H as <-. done.
Qed.

Lemma cta_coefficient_spec s row col cands coeff candidates :
  cta_coefficient s row col (map cta_coverage (column_ctas s col)) cands
  = Ok (coeff, candidates) →
  coeff == cta_coeff s row col
  ∧ Forall2 (fun c0 c1 => cea_id c1 = cea_id c0
                          ∧ cea_score c1 == boosted_score s row col c0) cands candidates.
Proof.
  unfold cta_coefficient, cta_coeff, boosted_score.
  rewrite is_contextless_cell_is_contextless.
  destruct (soft_scoring (setup s)); cbn [andb].
  - destruct (cell_is_contextless s (mkCell row col)).
    + intros (boosted & Hb & H)%rbind_Ok. injection H as <- <-.
      split; [apply np_mean_mean|].
      apply foldR_snoc in Hb as (l' & -> & HF). cbn [app].
      eapply Forall2_impl; [exact HF|]. intros c0 c1 Hc. cbv beta in Hc.
      apply cpa_boost_spec in Hc as [Hid Hsc]. split; [done|]. by rewrite Hsc.
    + intros [= <- <-]. split; [by rewrite np_mean_mean|].
      apply Forall2_same_length_lookup. split; [done|].
      intros i c0 c1 H0 H1. assert (c0 = c1) as -> by congruence. done.
  - intros [= <- <-]. split; [reflexivity|].
    apply Forall2_same_length_lookup. split; [done|].
    intros i c0 c1 H0 H1. assert (c0 = c1) as -> by congruence. done.
Qed.

(** *** The order and the selection *)

Lemma StronglySorted_lookup {A} (R : A → A → Prop) (l : list A) i j a b :
  StronglySorted R l → (i < j)%nat → l !! i = Some a → l !! j = Some b → R a b.
Proof.
  intros Hs. revert i j. induction Hs as [|x l Hs IH Hall]; intros i j Hij Hi Hj.
  - by rewrite lookup_nil in Hi.
  - destruct j as [|j]; [lia|]. cbn in Hj. destruct i as [|i].
    + injection Hi as <-. rewrite Forall_forall in Hall. apply Hall.
      by eapply list_elem_of_lookup_2.
    + cbn in Hi. apply (IH i j); [lia|done|done].
Qed.

Lemma filter_ext_elem_of {A} (P1 P2 : A → Prop) `{∀ x, Decision (P1 x)}
    `{∀ x, Decision (P2 x)} (l : list A) :
  (∀ x, x ∈ l → P1 x ↔ P2 x) → filter P1 l = filter P2 l.
Proof.
  induction l as [|x l IH]; intros Hext; [done|].
  assert (filter P1 l = filter P2 l) as Hl.
  { apply IH. intros y Hy. apply Hext. by right. }
  destruct (decide (P1 x)) as [Hx|Hx].
  - rewrite !filter_cons_True; [by rewrite Hl| |done]. apply Hext; [left|done].
  - rewrite !filter_cons_False; [done| |done]. intros H2. apply Hx. apply Hext; [left|done].
Qed.

Lemma ties_top_true l c :
  ties_top l c = true ↔ ∀ c', c' ∈ l → cea_score c' <= cea_score c.
Proof.
  unfold ties_top. rewrite forallb_forall. split.
  - intros H c' Hin%list_elem_of_In. apply Qle_bool_iff. by apply H.
  - intros H c' Hin%list_elem_of_In. apply Qle_bool_iff. by apply H.
Qed.

Lemma top_score_group_ties_top s row col sorted :
  StronglySorted (fun a b => cea_key_ltb s row col a b = false) sorted →
  top_score_group sorted = filter (fun c => ties_top sorted c = true) sorted.
Proof.
  intros Hs. destruct sorted as [|top sorted]; [done|]. cbn [top_score_group].
  apply filter_ext_elem_of. intros c Hc. rewrite Qeq_bool_true, ties_top_true. split.
  - intros Heq c' Hc'. pose proof (sorted_head_max _ _ _ _ _ _ Hs Hc'). lra.
  - intros Hmax. pose proof (sorted_head_max _ _ _ _ _ _ Hs Hc).
    specialize (Hmax top ltac:(left)). lra.
Qed.

Lemma Forall2_elem_of_l {A B} (P : A → B → Prop) (l : list A) (l' : list B) :
  Forall2 P l l' → Forall2 (fun x y => x ∈ l ∧ P x y) l l'.
Proof.
  induction 1 as [|x y l l' Hxy HF IH]; constructor.
  - split; [left|done].
  - eapply Forall2_impl; [exact IH|]. intros a b [? ?]. split; [by right|done].
Qed.

Lemma Forall2_compose {A B C} (P : A → B → Prop) (P' : B → C → Prop) (R : A → C → Prop)
    (l1 : list A) (l2 : list B) (l3 : list C) :
  (∀ a b c, P a b → P' b c → R a c) →
  Forall2 P l1 l2 → Forall2 P' l2 l3 → Forall2 R l1 l3.
Proof.
  intros HR H12. revert l3. induction H12 as [|a b l1 l2 Hab H12 IH]; intros l3 H23.
  - apply Forall2_nil_inv_l in H23 as ->. constructor.
  - apply Forall2_cons_inv_l in H23 as (c & l3' & Hbc & H23 & ->).
    constructor; [by eapply HR|by apply IH].
Qed.

(** C4.  When the column of the cell carries CTA results, [cea_task]
    gives every candidate the score [(score + cta_coeff * cta_bonus) /
    (1 + cta_coeff)]: [score] is the score of the candidate before
    disambiguation, after the boost of a contextless cell; [cta_coeff] is
    the mean coverage of the CTAs of the column, halved unless the cell is
    contextless, or 0.25 without soft scoring; [cta_bonus] is the largest
    score of a CTA of the column weighted by the level at which the
    candidate has its type.  It sorts the candidates by score, then by
    number of CPA memberships, both descending; it stores and returns the
    candidates that tie the top score when [only_one] is set, and the whole
    sorted list otherwise. *)
Theorem cea_task_combines_sorts_selects (s s' : Baseline_Model)
    (col_index row_index : nat) (only_one : bool) (ids : list string) (annot : list cea) :
  od_get (mkCell row_index col_index) (lookup_tbl (setup s)) = Some ids →
  od_mem (mkColumn col_index) (cta_annot s) = true →
  cea_task col_index row_index only_one s = (Ok (RetList annot), s') →
  let coeff := cta_coeff s row_index col_index in
  ∃ scored sorted : list cea,
    Forall2 (fun c0 c =>
               cea_id c = cea_id c0
               ∧ cea_score c
                 == (boosted_score s row_index col_index c0
                     + coeff * cta_bonus s col_index (cea_id c0)) / (1 + coeff))
            (initial_cea_candidates s row_index col_index ids) scored
    ∧ scored ≡ₚ sorted
    ∧ (∀ i j a b, (i < j)%nat → sorted !! i = Some a → sorted !! j = Some b →
         cea_score b < cea_score a
         ∨ (cea_score a == cea_score b
            ∧ (cpa_memberships s row_index col_index b
               ≤ cpa_memberships s row_index col_index a)%nat))
    ∧ annot = (if only_one then filter (fun c => ties_top sorted c = true) sorted
               else sorted)
    ∧ od_get (mkCell row_index col_index) (cea_annot s') = Some annot.
Proof.
  intros Hlookup Hcta Hrun. cbv zeta. unfold cea_task in Hrun.
  apply mbind_Ok in Hrun as (s0 & s0' & Hget & Hrun). apply mget_Ok in Hget as [-> ->].
  rewrite Hlookup in Hrun.
  destruct (initial_cea_candidates s row_index col_index ids) as [|c0 cands] eqn:Hinit.
  { apply mret_Ok in Hrun as [? _]. discriminate. }
  apply mbind_Ok in Hrun as ([[applied bonus] weights] & s1 & Hdis & Hrun).
  assert (cea_inputs s1 = cea_inputs s ∧ applied = true
          ∧ weights = map cta_coverage (column_ctas s col_index)
          ∧ ∀ id, id ∈ map cea_id (c0 :: cands) →
                  default 0 (od_get id bonus) == cta_bonus s col_index id)
    as (Hinputs & -> & -> & Hbonus).
  { apply od_mem_true in Hcta. destruct (cta_annot s) as [|kv l] eqn:Hannot.
    { by apply elem_of_nil in Hcta. }
    split; [|split].
    - pose proof (cta_disambiguation_inputs col_index (c0 :: cands) s) as H.
      by rewrite Hdis in H.
    - unfold cta_disambiguation in Hdis.
      apply mbind_Ok in Hdis as (s0 & s0' & Hget & Hdis). apply mget_Ok in Hget as [-> ->].
      rewrite Hannot in Hdis.
      apply cta_disambiguation_applied_from in Hdis; [done|]. by right.
    - by apply cta_disambiguation_spec in Hdis. }
  apply mbind_Ok in Hrun as (s1' & s1'' & Hget & Hrun). apply mget_Ok in Hget as [-> ->].
  apply mbind_Ok in Hrun as ([cta_coeff0 candidates] & s2 & Hcoeff & Hrun).
  apply mlift_Ok in Hcoeff as [Hcoeff ->].
  apply mbind_Ok in Hrun as (scored & s3 & Hscored & Hrun).
  apply mlift_Ok in Hscored as [Hscored ->].
  apply mbind_Ok in Hrun as ([] & s4 & Hmod & Hrun).
  apply mmodify_Ok in Hmod as ->. apply mret_Ok in Hrun as [Hannot ->].
  injection Hannot as ->.
  rewrite (cea_key_ltb_inputs _ _ _ _ Hinputs).
  rewrite (cta_coefficient_inputs _ _ _ _ _ _ Hinputs) in Hcoeff.
  apply cta_coefficient_spec in Hcoeff as [Hc Hboost].
  apply foldR_snoc in Hscored as (scored' & -> & HF). cbn [app].
  set (sorted := sorted_desc (cea_key_ltb s row_index col_index) scored').
  assert (Hsorted : StronglySorted
                      (fun a b => cea_key_ltb s row_index col_index a b = false) sorted).
  { apply sorted_desc_sorted; [apply cea_key_ltb_asym|apply cea_key_geb_trans]. }
  exists scored', sorted.
  split.
  { apply Forall2_elem_of_l in Hboost.
    eapply Forall2_compose; [|exact Hboost|exact HF].
    intros a b c [Ha [Hid Hsc]] Hfin. cbv beta in Hfin.
    apply cea_final_score_spec in Hfin as (Hid' & v & Hv & Hscore).
    split; [congruence|]. rewrite Hscore.
    assert (v == cta_bonus s col_index (cea_id a)) as ->.
    { rewrite <- Hbonus; [|by apply list_elem_of_fmap_2]. rewrite Hid in Hv. by rewrite Hv. }
    by rewrite Hsc, Hc. }
  split; [symmetry; apply sorted_desc_perm|].
  split.
  { intros i j a b Hij Ha Hb.
    pose proof (StronglySorted_lookup _ _ _ _ _ _ Hsorted Hij Ha Hb) as Hab.
    by apply cea_key_ltb_false in Hab. }
  split.
  { destruct only_one; [|done]. by apply (top_score_group_ties_top s row_index col_index). }
  destruct s1. cbn. apply od_get_set_eq.
Qed.

(** On [table9], when the fourth loop starts, the cell (0, 0) has the
    candidates [Xa], [Xc] and [Xb], in the order of the lookup.  [Xc] and
    [Xb] tie; [Xb] has one CPA membership and [Xc] none, so [Xb] comes
    first.  [Xa] has its type among the neighbours of the CTA. *)
Lemma cea_task_combines_sorts_selects_witness :
  let s := engine_table9 in
  let coeff := cta_coeff s 0 0 in
  (∃ scored sorted : list cea,
     Forall2 (fun c0 c =>
                cea_id c = cea_id c0
                ∧ cea_score c
                  == (boosted_score s 0 0 c0 + coeff * cta_bonus s 0 (cea_id c0))
                     / (1 + coeff))
             (initial_cea_candidates s 0 0 ["Xa"; "Xc"; "Xb"]) scored
     ∧ scored ≡ₚ sorted
     ∧ (∀ i j a b, (i < j)%nat → sorted !! i = Some a → sorted !! j = Some b →
          cea_score b < cea_score a
          ∨ (cea_score a == cea_score b
             ∧ (cpa_memberships s 0 0 b ≤ cpa_memberships s 0 0 a)%nat))
     ∧ [mkCea "Xb" (8 # 33); mkCea "Xc" (8 # 33)]
       = filter (fun c => ties_top sorted c = true) sorted
     ∧ od_get (mkCell 0 0) (cea_annot (cea_task 0 0 true s).2)
       = Some [mkCea "Xb" (8 # 33); mkCea "Xc" (8 # 33)])
  ∧ initial_cea_candidates s 0 0 ["Xa"; "Xc"; "Xb"]
    = [mkCea "Xa" (1 # 34); mkCea "Xc" (16 # 165); mkCea "Xb" (16 # 165)]
  ∧ coeff == 1 # 2
  ∧ cta_bonus s 0 "Xa" == (7 # 10) * (8 # 15)
  ∧ cta_bonus s 0 "Xc" == 8 # 15
  ∧ cta_bonus s 0 "Xb" == 8 # 15
  ∧ cpa_memberships s 0 0 (mkCea "Xc" (8 # 33)) = 0%nat
  ∧ cpa_memberships s 0 0 (mkCea "Xb" (8 # 33)) = 1%nat
  ∧ (cea_task 0 0 false s).1
    = Ok (RetList [mkCea "Xb" (8 # 33); mkCea "Xc" (8 # 33); mkCea "Xa" (551 # 3825)]).
Proof.
  cbv zeta. split.
  { apply (cea_task_combines_sorts_selects
             engine_table9 (cea_task 0 0 true engine_table9).2 0 0 true
             ["Xa"; "Xc"; "Xb"] [mkCea "Xb" (8 # 33); mkCea "Xc" (8 # 33)]);
      vm_compute; reflexivity. }
  repeat split; vm_compute; reflexivity.
Defined.

(** ** Semantic context through a shared neighbour *)

Section Relations_facts.
Context {E : Externals}.

Lemma fold_left_flat_map {X Y B} (f : B → Y → B) (g : X → list Y) (l : list X) (b : B) :
  fold_left f (flat_map g l) b = fold_left (fun b x => fold_left f (g x) b) l b.
Proof.
  revert b. induction l as [|x l IH]; intros b; cbn [flat_map fold_left]; [done|].
  by rewrite fold_left_app, IH.
Qed.

Lemma fold_left_map {X Y B} (f : B → Y → B) (g : X → Y) (l : list X) (b : B) :
  fold_left f (map g l) b = fold_left (fun b x => f b (g x)) l b.
Proof. revert b. induction l as [|x l IH]; intros b; cbn [map fold_left]; [done|]. apply IH. Qed.

Lemma fold_left_ext_in {X B} (f g : B → X → B) (l : list X) (b : B) :
  (∀ b x, f b x = g b x) → fold_left f l b = fold_left g l b.
Proof.
  intros H. revert b. induction l as [|x l IH]; intros b; cbn [fold_left]; [done|].
  by rewrite H, IH.
Qed.

(** The loops of the multi-hop branch record the emitted relations one
    after the other. *)
Lemma multi_hop_emissions kb G_head G_tail :
  multi_hop kb G_head G_tail
  = fold_left record_relation (emissions kb G_head G_tail) (0, []).
Proof.
  unfold multi_hop, emissions. rewrite fold_left_flat_map.
  apply fold_left_ext_in. intros acc node. cbv zeta.
  destruct (Qgtb (node_popularity kb node) 0); [|done].
  rewrite fold_left_flat_map. apply fold_left_ext_in. intros acc' prop_head.
  by rewrite fold_left_map.
Qed.

Lemma path_candidate_pos w rel_head rel_tail : 0 < w → 0 < (path_candidate w rel_head rel_tail).2.
Proof.
  intros Hw. unfold path_candidate.
  destruct (decide _); [destruct (mem _ _)|destruct (_ || _)]; cbn [snd]; try lra.
  apply Qlt_shift_div_l; lra.
Qed.

Lemma emissions_pos kb G_head G_tail e : e ∈ emissions kb G_head G_tail → 0 < e.2.
Proof.
  unfold emissions. intros (node & _ & He)%list_elem_of_In%in_flat_map.
  cbv zeta in He. destruct (Qgtb (node_popularity kb node) 0) eqn:Hpop; [|done].
  apply Qgtb_true in Hpop.
  apply in_flat_map in He as (prop_head & _ & He).
  apply in_map_iff in He as (prop_tail & <- & _).
  by apply path_candidate_pos.
Qed.

Lemma elem_of_snoc {X} (l : list X) (e x : X) : x ∈ l ++ [e] ↔ x ∈ l ∨ x = e.
Proof. by rewrite elem_of_app, list_elem_of_singleton. Qed.

Lemma record_relations_spec (l : list (string * Q)) :
  (∀ e, e ∈ l → 0 < e.2) →
  let r := fold_left record_relation l (0, []) in
  is_maximum l r.1
  ∧ ∀ rel, match od_get rel r.2 with
           | Some v => is_minimum_of l rel v
           | None => ∀ e, e ∈ l → e.1 ≠ rel
           end.
Proof.
  induction l as [|e l IH] using rev_ind; intros Hpos; cbv zeta.
  - cbn. split.
    + split; [by intros e ?%elem_of_nil|]. split; [reflexivity|done].
    + by intros rel e ?%elem_of_nil.
  - rewrite fold_left_app. cbn [fold_left].
    assert (Hposl : ∀ e0, e0 ∈ l → 0 < e0.2).
    { intros e0 H0. apply Hpos. apply elem_of_app. by left. }
    assert (Hpose : 0 < e.2).
    { apply Hpos. apply elem_of_app. right. left. }
    specialize (IH Hposl). cbv zeta in IH.
    destruct (fold_left record_relation l (0, [])) as [b d]. cbn [fst snd] in IH.
    destruct IH as [(Hle & Hnil & Hex) Hrec]. unfold record_relation. cbn [fst snd].
    split.
    + split; [|split].
      * intros e0 [H0| ->]%elem_of_snoc.
        -- eapply Qle_trans; [by apply Hle|]. apply Q.le_max_l.
        -- apply Q.le_max_r.
      * intros Hn. by apply app_eq_nil in Hn as [_ ?].
      * intros _. destruct (Q.max_spec b e.2) as [[Hlt Heq]|[Hge Heq]].
        -- exists e. split; [|done]. apply elem_of_app. right. left.
        -- destruct l as [|e1 l1].
           { specialize (Hnil eq_refl). exfalso. lra. }
           destruct (Hex ltac:(done)) as (e0 & H0 & Hb).
           exists e0. split; [apply elem_of_app; by left|lra].
    + intros rel. rewrite od_get_set. destruct (decide (e.1 = rel)) as [Heq|Hne].
      * specialize (Hrec e.1). destruct (od_get e.1 d) as [v|]; cbn [default from_option]; unfold id.
        -- destruct Hrec as [(e0 & H0 & H01 & H0v) Hmin]. split.
           ++ destruct (Q.min_spec v e.2) as [[Hlt Hm]|[Hge Hm]].
              ** exists e0. split; [apply elem_of_app; by left|]. split; [congruence|lra].
              ** exists e. split; [apply elem_of_app; right; left|]. split; [done|lra].
           ++ intros e1 [H1| ->]%elem_of_snoc Hrel.
              ** eapply Qle_trans; [apply Q.le_min_l|]. apply Hmin; [done|congruence].
              ** apply Q.le_min_r.
        -- split.
           ++ exists e. split; [apply elem_of_app; right; left|]. split; [done|].
              apply Q.min_id.
           ++ intros e1 [H1| ->]%elem_of_snoc Hrel.
              ** exfalso. apply (Hrec e1 H1). congruence.
              ** apply Q.le_min_r.
      * specialize (Hrec rel). destruct (od_get rel d) as [v|].
        -- destruct Hrec as [(e0 & H0 & H01 & H0v) Hmin]. split.
           ++ exists e0. split; [apply elem_of_app; by left|done].
           ++ intros e1 [H1| ->]%elem_of_snoc Hrel; [by apply Hmin|done].
        -- intros e1 [H1| ->]%elem_of_snoc; [by apply Hrec|done].
Qed.

Lemma node_popularity_formula kb node :
  get_num_edges kb node ≠ 0%nat →
  node_popularity kb node = 1 / (2 + log10 (2 + Qnat (get_num_edges kb node))).
Proof.
  intros Hne. unfold node_popularity.
  destruct (Nat.eqb_spec (get_num_edges kb node) 0); done.
Qed.

Lemma lead_to_emission kb G_head G_tail n e_head e_tail :
  lead_to kb G_head G_tail n e_head e_tail →
  path_candidate (popularity kb n) (pid e_head) (pid e_tail) ∈ emissions kb G_head G_tail.
Proof.
  intros (Hh & Ht & Hedges & Hw & Heh & Het).
  unfold emissions. apply list_elem_of_In, in_flat_map.
  exists n. split.
  { apply list_elem_of_In. unfold G_intersect. apply list_elem_of_filter.
    split; [by apply od_mem_true|done]. }
  cbv zeta. rewrite node_popularity_formula by done. fold (popularity kb n).
  rewrite (proj2 (Qgtb_true _ _) Hw).
  apply in_flat_map. exists e_head. split; [by apply list_elem_of_In|].
  apply in_map_iff. exists e_tail. split; [done|by apply list_elem_of_In].
Qed.

Lemma emission_lead_to kb G_head G_tail e :
  e ∈ emissions kb G_head G_tail →
  ∃ n e_head e_tail,
    lead_to kb G_head G_tail n e_head e_tail
    ∧ e = path_candidate (popularity kb n) (pid e_head) (pid e_tail).
Proof.
  unfold emissions. intros (n & Hn & He)%list_elem_of_In%in_flat_map.
  cbv zeta in He. destruct (Qgtb (node_popularity kb n) 0) eqn:Hpop; [|done].
  apply Qgtb_true in Hpop.
  apply in_flat_map in He as (e_head & Hh & He).
  apply in_map_iff in He as (e_tail & <- & Ht).
  apply list_elem_of_In in Hn. unfold G_intersect in Hn.
  apply list_elem_of_filter in Hn as [Hnt Hnh]. apply od_mem_true in Hnt.
  assert (Hedges : get_num_edges kb n ≠ 0%nat).
  { intros H0. unfold node_popularity in Hpop. rewrite H0 in Hpop. cbn in Hpop. lra. }
  rewrite node_popularity_formula in Hpop |- * by done. fold (popularity kb n) in Hpop |- *.
  exists n, e_head, e_tail. split; [|done].
  repeat split; try done; by apply list_elem_of_In.
Qed.

(** The relation that the loop body records for a pair of predicates is
    the one of [emits]. *)
Lemma path_candidate_emits w p_head p_tail :
  (p_head = reversed p_tail ∧ undirected p_head ∈ transitivePID
   ∧ path_candidate w p_head p_tail = (p_head, 1))
  ∨ (¬ (p_head = reversed p_tail ∧ undirected p_head ∈ transitivePID)
     ∧ path_candidate w p_head p_tail
       = (p_head +:+ "::" +:+ reversed p_tail,
          if mixed_directions p_head (reversed p_tail) then w / (7 # 4) else w)).
Proof.
  unfold path_candidate, mixed_directions, mem.
  change (reverse_direction p_tail) with (reversed p_tail).
  change (replace "(-)" "" p_head) with (undirected p_head).
  change (is_backward p_head) with (String.prefix "(-)" p_head).
  change (is_backward (reversed p_tail)) with (String.prefix "(-)" (reversed p_tail)).
  destruct (decide (p_head = reversed p_tail)) as [Heq|Hne].
  - destruct (bool_decide (undirected p_head ∈ transitivePID)) eqn:Htrans.
    + left. apply bool_decide_eq_true in Htrans. done.
    + right. apply bool_decide_eq_false in Htrans. split; [by intros [_ ?]|].
      rewrite <- Heq. by destruct (String.prefix "(-)" p_head).
  - right. split; [by intros [? _]|]. f_equal.
    by destruct (String.prefix "(-)" p_head), (String.prefix "(-)" (reversed p_tail)).
Qed.

Lemma emits_emissions kb G_head G_tail rel q :
  emits kb G_head G_tail rel q ↔ (rel, q) ∈ emissions kb G_head G_tail.
Proof.
  split.
  - intros [n e_head e_tail Hlead Heq Htrans|n e_head e_tail Hlead Hnot].
    + pose proof (lead_to_emission _ _ _ _ _ _ Hlead) as Hin.
      destruct (path_candidate_emits (popularity kb n) (pid e_head) (pid e_tail))
        as [(_ & _ & Hp)|[Hn _]]; [by rewrite Hp in Hin|by destruct Hn].
    + pose proof (lead_to_emission _ _ _ _ _ _ Hlead) as Hin.
      destruct (path_candidate_emits (popularity kb n) (pid e_head) (pid e_tail))
        as [(? & ? & _)|[_ Hp]]; [by destruct Hnot|by rewrite Hp in Hin].
  - intros (n & e_head & e_tail & Hlead & He)%emission_lead_to.
    destruct (path_candidate_emits (popularity kb n) (pid e_head) (pid e_tail))
      as [(Heq & Htrans & Hp)|[Hnot Hp]]; rewrite Hp in He; injection He as -> ->.
    + by eapply emits_transitive.
    + by eapply emits_path.
Qed.

(** C2 (amended).  When the pair is not cached, the tail is no direct
    neighbour of the head and multi-hop is enabled, the relations of the
    pair are the ones emitted through the shared neighbours that have edges
    of their own: for such a neighbour [n], of popularity
    [w = 1/(2 + log10(2 + num_edges(n))) > 0], and a pair of predicates
    leading to it, the head predicate alone with proximity 1 when it equals
    the reversed tail predicate and is transitive, the path
    [p_head::reversed(p_tail)] with proximity [w], divided by 1.75 when
    exactly one of its two predicates is backward, otherwise.  The best
    proximity of the pair is the largest emitted one (0 when nothing is
    emitted), the relations recorded are the emitted ones, and the
    proximity recorded for a relation is the smallest one emitted for
    it. *)
Theorem multi_hop_semantic_context (s : Baseline_Model) (head_id tail_id : string)
    (G_head : odict string (list Edge)) :
  cached_cpa_candidates s !! (head_id, tail_id) = None →
  od_get tail_id G_head = None →
  multiHop_context (setup s) = true →
  let G_tail := entity_subgraph (setup s) tail_id in
  let emitted := emits (KB (setup s)) G_head G_tail in
  let best_semantic_proximity := (pair_relations s head_id tail_id G_head).1 in
  let semantic_proximities := (pair_relations s head_id tail_id G_head).2 in
  (∀ rel q, emitted rel q → q <= best_semantic_proximity)
  ∧ ((∃ rel q, emitted rel q ∧ best_semantic_proximity == q)
     ∨ ((∀ rel q, ¬ emitted rel q) ∧ best_semantic_proximity == 0))
  ∧ (∀ rel, match od_get rel semantic_proximities with
            | Some v => (∃ q, emitted rel q ∧ v == q) ∧ ∀ q, emitted rel q → v <= q
            | None => ∀ q, ¬ emitted rel q
            end).
Proof.
  intros Hcache Hdirect Hmulti. cbv zeta.
  unfold pair_relations. rewrite Hcache, Hdirect, Hmulti, multi_hop_emissions.
  set (G_tail := entity_subgraph (setup s) tail_id).
  pose proof (record_relations_spec (emissions (KB (setup s)) G_head G_tail)
                (emissions_pos _ _ _)) as [(Hle & Hnil & Hex) Hrec].
  cbv zeta in Hle, Hnil, Hex, Hrec.
  split; [|split].
  - intros rel q Hq%emits_emissions. apply (Hle _ Hq).
  - destruct (emissions (KB (setup s)) G_head G_tail) as [|e l] eqn:Hl.
    + right. split; [|by apply Hnil].
      intros rel q Hq%emits_emissions. rewrite Hl in Hq. by apply elem_of_nil in Hq.
    + left. destruct (Hex ltac:(done)) as ([rel q] & Hin & Hb).
      exists rel, q. split; [|done]. apply emits_emissions. by rewrite Hl.
  - intros rel. specialize (Hrec rel).
    destruct (od_get rel _) as [v|].
    + destruct Hrec as [([rel' q] & Hin & Hr & Hv) Hmin]. cbn in Hr, Hv. subst rel'.
      split.
      * exists q. split; [by apply emits_emissions|done].
      * intros q' Hq'%emits_emissions. by apply (Hmin _ Hq').
    + intros q Hq%emits_emissions. by apply (Hrec _ Hq).
Qed.

End Relations_facts.

(** On [table7] the candidates [MH] and [MT] share five neighbours.
    [Z1] gives the transitive [P131] alone; [W1] and [W2] give the path
    [P17::(-)P17] with different popularities, of which the smaller one
    is recorded; [W1] also gives [P17::P36], [V1] gives [(-)P50::(-)P50];
    [U1], which has no edges, gives nothing. *)
Lemma multi_hop_semantic_context_witness :
  let s := engine_table7 in
  let G_head := entity_subgraph (setup s) "MH" in
  let G_tail := entity_subgraph (setup s) "MT" in
  let emitted := emits (E := Example.example_externals) (KB (setup s)) G_head G_tail in
  let r := pair_relations (E := Example.example_externals) s "MH" "MT" G_head in
  ((∀ rel q, emitted rel q → q <= r.1)
   ∧ ((∃ rel q, emitted rel q ∧ r.1 == q) ∨ ((∀ rel q, ¬ emitted rel q) ∧ r.1 == 0))
   ∧ (∀ rel, match od_get rel r.2 with
             | Some v => (∃ q, emitted rel q ∧ v == q) ∧ ∀ q, emitted rel q → v <= q
             | None => ∀ q, ¬ emitted rel q
             end))
  ∧ emitted "P131" 1
  ∧ (∃ q, emitted "P17::(-)P17" q ∧ q == 40 # 161)
  ∧ (∃ q, emitted "P17::(-)P17" q ∧ q == 20 # 91)
  ∧ (∃ q, emitted "P17::P36" q ∧ q == 10 # 23)
  ∧ (∃ q, emitted "(-)P50::(-)P50" q ∧ q == 5 # 13)
  ∧ r.1 == 1
  ∧ (∃ v, od_get "P17::(-)P17" r.2 = Some v ∧ v == 20 # 91)
  ∧ od_get "P9::(-)P9" r.2 = None.
Proof.
  cbv zeta. split.
  { apply (multi_hop_semantic_context (E := Example.example_externals) engine_table7 "MH" "MT"
             (entity_subgraph (setup engine_table7) "MH")); vm_compute; reflexivity. }
  split.
  { apply (emits_transitive (E := Example.example_externals) _ _ _
             "Z1" (mkEdge "P131" "entity") (mkEdge "(-)P131" "entity")).
    - repeat split; try (vm_compute; reflexivity); try (vm_compute; discriminate);
        vm_compute; repeat constructor.
    - vm_compute. reflexivity.
    - vm_compute. repeat constructor. }
  split.
  { eexists. split.
    - apply (emits_path (E := Example.example_externals) _ _ _
               "W1" (mkEdge "P17" "entity") (mkEdge "P17" "entity")).
      + repeat split; try (vm_compute; reflexivity); try (vm_compute; discriminate);
          vm_compute; repeat constructor.
      + intros [Heq _]. vm_compute in Heq. discriminate Heq.
    - vm_compute. reflexivity. }
  split.
  { eexists. split.
    - apply (emits_path (E := Example.example_externals) _ _ _
               "W2" (mkEdge "P17" "entity") (mkEdge "P17" "entity")).
      + repeat split; try (vm_compute; reflexivity); try (vm_compute; discriminate);
          vm_compute; repeat constructor.
      + intros [Heq _]. vm_compute in Heq. discriminate Heq.
    - vm_compute. reflexivity. }
  split.
  { eexists. split.
    - apply (emits_path (E := Example.example_externals) _ _ _
               "W1" (mkEdge "P17" "entity") (mkEdge "(-)P36" "entity")).
      + repeat split; try (vm_compute; reflexivity); try (vm_compute; discriminate);
          vm_compute; repeat constructor.
      + intros [Heq _]. vm_compute in Heq. discriminate Heq.
    - vm_compute. reflexivity. }
  split.
  { eexists. split.
    - apply (emits_path (E := Example.example_externals) _ _ _
               "V1" (mkEdge "(-)P50" "entity") (mkEdge "P50" "entity")).
      + repeat split; try (vm_compute; reflexivity); try (vm_compute; discriminate);
          vm_compute; repeat constructor.
      + intros [_ Htrans]. vm_compute in Htrans.
        repeat (apply elem_of_cons in Htrans as [Htrans|Htrans]; [discriminate Htrans|]).
        by apply elem_of_nil in Htrans.
    - vm_compute. reflexivity. }
  split; [vm_compute; reflexivity|].
  split; [eexists; split; [vm_compute; reflexivity|vm_compute; reflexivity]|].
  vm_compute. reflexivity.
Defined.

(** C2, as stated, fails.  On the table [alpha, beta] the candidates [A2]
    and [B] are not linked and share the neighbour [U], to which [P31]
    leads from both.  [U] has no record in the store, so its number of
    edges is 0 and the popularity of the formula is positive; the loop
    gives it the popularity 0 instead and emits nothing: the best proximity
    stays 0 and the path [P31::(-)P31] is not recorded.  After the scoring
    the context of [A2] at the column of [B] still has the floor score and
    no relation, and nothing is cached for the pair. *)
Lemma neighbour_without_edges_emits_nothing :
  let s := engine_table5 in
  let kb := KB (setup s) in
  let G_head := entity_subgraph (setup s) "A2" in
  let G_tail := entity_subgraph (setup s) "B" in
  let r := pair_relations (E := Example.example_externals) s "A2" "B" G_head in
  let scored := (entity_scoring_task (E := Example.example_externals) true false s).2 in
  cached_cpa_candidates s !! ("A2", "B") = None
  ∧ od_get "B" G_head = None
  ∧ multiHop_context (setup s) = true
  ∧ "U" ∈ od_keys G_head ∧ "U" ∈ od_keys G_tail
  ∧ mkEdge "P31" "entity" ∈ default [] (od_get "U" G_head)
  ∧ mkEdge "P31" "entity" ∈ default [] (od_get "U" G_tail)
  ∧ get_num_edges kb "U" = 0%nat
  ∧ 0 < popularity (E := Example.example_externals) kb "U"
  ∧ r.1 == 0
  ∧ od_get ("P31" +:+ "::" +:+ reversed "P31") r.2 = None
  ∧ r = (0, [])
  ∧ od_get (mkCand 0 0 "A2") (entity_context_scores scored)
    = Some [(1%nat, mkCtx 1 (1 # 10) [])]
  ∧ cached_cpa_candidates scored !! ("A2", "B") = None.
Proof.
  cbv zeta.
  repeat split; try (vm_compute; reflexivity); vm_compute; repeat constructor.
Qed.

(** ** The aggregated context score *)

Lemma last_step_context_inputs candidate col_idx col_pair sc :
  preserves context_inputs (last_step_context candidate col_idx col_pair sc).
Proof. unfold last_step_context. preserves_tac. Qed.

Lemma context_contribution_inputs s s' first_step candidate it :
  context_inputs s' = context_inputs s →
  context_contribution s' first_step candidate it
  = context_contribution s first_step candidate it.
Proof.
  unfold context_inputs. intros [= Hsetup Hun Hcpa].
  unfold context_contribution, context_counts, scaled_score, scale_factor.
  by rewrite Hsetup, Hun, Hcpa.
Qed.

Lemma context_step_run first_step last_step candidate acc it s acc' s' :
  context_step first_step last_step candidate acc it s = (Ok acc', s') →
  context_inputs s' = context_inputs s
  ∧ acc'.1.1 == acc.1.1 + (context_contribution s first_step candidate it).1
  ∧ acc'.1.2 == acc.1.2 + (context_contribution s first_step candidate it).2.
Proof.
  destruct acc as [[cs cw] mw], it as [col_idx a_context].
  unfold context_step, context_contribution. cbn [fst snd].
  intros H. apply mbind_Ok in H as (s0 & s0' & Hget & H). apply mget_Ok in Hget as [-> ->].
  destruct (context_counts s (context_col_pair (setup s) candidate col_idx)).
  - apply mbind_Ok in H as ([] & s1 & Hlast & H). apply mret_Ok in H as [-> ->].
    cbn [fst snd]. split; [|split; reflexivity].
    destruct last_step.
    + pose proof (last_step_context_inputs candidate col_idx
                    (context_col_pair (setup s) candidate col_idx)
                    (scaled_score s first_step (context_col_pair (setup s) candidate col_idx)
                       a_context) s) as Hp.
      by rewrite Hlast in Hp.
    + by apply mret_Ok in Hlast as [_ ->].
  - apply mret_Ok in H as [-> ->]. cbn [fst snd]. split; [done|]. split; lra.
Qed.

Lemma context_loop_run first_step last_step candidate contexts acc s0 s r s' :
  context_inputs s = context_inputs s0 →
  foldM (context_step first_step last_step candidate) acc contexts s = (Ok r, s') →
  context_inputs s' = context_inputs s0
  ∧ r.1.1 == acc.1.1 + context_numerator s0 first_step candidate contexts
  ∧ r.1.2 == acc.1.2 + context_denominator s0 first_step candidate contexts.
Proof.
  unfold context_numerator, context_denominator.
  revert acc s. induction contexts as [|it contexts IH]; intros acc s Hin; cbn [foldM].
  - intros [-> ->]%mret_Ok. cbn [map Qsum fold_right]. split; [done|]. split; lra.
  - intros (acc1 & s1 & Hstep & Hrest)%mbind_Ok.
    apply context_step_run in Hstep as (Hin1 & H1 & H2).
    rewrite (context_contribution_inputs _ _ _ _ _ Hin) in H1, H2.
    apply IH in Hrest as (Hin' & H1' & H2'); [|congruence].
    split; [done|]. unfold Qsum in *. cbn [map fold_right]. split; lra.
Qed.

Lemma context_col_pair_pair_of_context s candidate col_idx :
  context_col_pair (setup s) candidate col_idx = pair_of_context s candidate col_idx.
Proof.
  unfold context_col_pair, pair_of_context, mem.
  destruct (decide ((col_idx < cand_col candidate)%nat ∧ col_idx ∈ entity_cols (setup s)))
    as [[Hlt Hin]|Hn].
  - by rewrite (proj2 (Nat.ltb_lt _ _) Hlt), bool_decide_eq_true_2.
  - destruct (col_idx <? cand_col candidate)%nat eqn:Hlt; [|done].
    rewrite bool_decide_eq_false_2; [done|].
    intros Hin. apply Hn. split; [by apply Nat.ltb_lt|done].
Qed.

Lemma context_counts_takes_part s candidate it :
  context_counts s (context_col_pair (setup s) candidate it.1) = true
  ↔ takes_part s candidate it.
Proof.
  unfold context_counts, takes_part, mem. rewrite context_col_pair_pair_of_context.
  rewrite andb_true_iff, negb_true_iff, bool_decide_eq_false.
  unfold od_mem. destruct (od_get _ (cpa_annot s)); split; intros [? H]; split;
    try done; try by eexists.
Qed.

Lemma list_find_filter {A} (P : A → Prop) `{∀ x, Decision (P x)}
    (Q' : A → Prop) `{∀ x, Decision (Q' x)} (l : list A) :
  (∀ x, P x ↔ Q' x) →
  match list_find P l with
  | Some (_, x) => ∃ l', filter Q' l = x :: l'
  | None => filter Q' l = []
  end.
Proof.
  intros Hiff. induction l as [|x l IH]; [done|].
  cbn [list_find]. destruct (decide (P x)) as [Hx|Hx].
  - rewrite filter_cons_True by (by apply Hiff). by eexists.
  - rewrite filter_cons_False by (by rewrite <- Hiff).
    destruct (list_find P l) as [[i y]|]; cbn; done.
Qed.

Lemma scaled_score_cpa_scale s first_step candidate it :
  scaled_score s first_step (context_col_pair (setup s) candidate it.1) it.2
  = Qmax (1 # 10) (cpa_scale s first_step candidate it * ctx_score it.2).
Proof.
  unfold scaled_score, scale_factor, cpa_scale. rewrite context_col_pair_pair_of_context.
  destruct first_step; [done|].
  pose proof (list_find_filter
                (fun a_cpa => mem (cpa_id a_cpa) (ctx_context it.2) = true)
                (fun a_cpa => cpa_id a_cpa ∈ ctx_context it.2)
                (default [] (od_get (pair_of_context s candidate it.1) (cpa_annot s)))) as H.
  destruct (list_find _ _) as [[i a_cpa]|].
  - destruct H as [l' ->]; [|done]. intros x. unfold mem. apply bool_decide_eq_true.
  - rewrite H; [done|]. intros x. unfold mem. apply bool_decide_eq_true.
Qed.

Lemma column_base_weight_base_weight s col_idx :
  base_weight (setup s) col_idx = column_base_weight s col_idx.
Proof.
  unfold base_weight, column_base_weight, mem.
  destruct (decide (col_idx ∈ entity_cols (setup s)));
    [by rewrite bool_decide_eq_true_2|rewrite bool_decide_eq_false_2 by done].
  destruct (decide (col_idx ∈ literal_cols (setup s)));
    [by rewrite bool_decide_eq_true_2|by rewrite bool_decide_eq_false_2].
Qed.

(** The two sums of the loop run over the contexts that take part. *)
Lemma context_sums_filter s first_step candidate (contexts : list (nat * context_rec)) :
  context_numerator s first_step candidate contexts
  == Qsum (map (fun it => ctx_weight it.2
                          * Qmax (1 # 10) (cpa_scale s first_step candidate it * ctx_score it.2))
               (filter (takes_part s candidate) contexts))
  ∧ context_denominator s first_step candidate contexts
    == Qsum (map (fun it => column_base_weight s it.1)
                 (filter (takes_part s candidate) contexts)).
Proof.
  unfold context_numerator, context_denominator.
  induction contexts as [|it contexts [IH1 IH2]]; [done|].
  destruct (decide (takes_part s candidate it)) as [Ht|Hn].
  - rewrite filter_cons_True by done.
    pose proof (proj2 (context_counts_takes_part s candidate it) Ht) as Hc.
    unfold Qsum in *. cbn [map fold_right]. unfold context_contribution at 1 3.
    rewrite Hc. cbn [fst snd].
    rewrite scaled_score_cpa_scale, column_base_weight_base_weight, IH1, IH2. done.
  - rewrite filter_cons_False by done.
    assert (context_counts s (context_col_pair (setup s) candidate it.1) = false) as Hc.
    { destruct (context_counts s _) eqn:Hc; [|done].
      by apply context_counts_takes_part in Hc. }
    unfold Qsum in *. cbn [map fold_right]. unfold context_contribution at 1 3.
    rewrite Hc. cbn [fst snd]. rewrite IH1, IH2. split; lra.
Qed.

Lemma aggregate_context_run (s s' : Baseline_Model) (first_step last_step : bool)
    (candidate : Candidate_Entity) (contexts : odict nat context_rec)
    (context_score max_context_weight : Q) :
  aggregate_context first_step last_step candidate contexts s
  = (Ok (context_score, max_context_weight), s') →
  (context_denominator s first_step candidate contexts == 0 → context_score == 1 # 100)
  ∧ (¬ context_denominator s first_step candidate contexts == 0 →
     context_score == context_numerator s first_step candidate contexts
                      / context_denominator s first_step candidate contexts)
  ∧ (contexts = [] → context_score == 1 # 100).
Proof.
  unfold aggregate_context. intros H. destruct contexts as [|it contexts].
  - apply mbind_Ok in H as ([] & s1 & _ & H). apply mret_Ok in H as [[= -> ->] _].
    split; [done|]. split; [|done]. intros Hne. exfalso. apply Hne. reflexivity.
  - apply mbind_Ok in H as ([[cs cw] mw] & s1 & Hloop & H).
    apply (context_loop_run _ _ _ _ _ s) in Hloop as (_ & H1 & H2); [|done].
    cbn [fst snd] in H1, H2.
    destruct (Qeq_bool cw 0) eqn:Hz.
    + apply mret_Ok in H as [[= -> ->] _]. apply Qeq_bool_true in Hz.
      split; [done|]. split; [|done]. intros Hne. exfalso. apply Hne. lra.
    + apply mret_Ok in H as [[= -> ->] _]. apply Qeq_bool_false in Hz.
      split; [|split; [|done]].
      * intros Hd. exfalso. apply Hz. lra.
      * intros _. assert (Hcs : cs == context_numerator s first_step candidate (it :: contexts))
          by lra.
        assert (Hcw : cw == context_denominator s first_step candidate (it :: contexts))
          by lra.
        by rewrite Hcs, Hcw.
Qed.

(** C3 (amended).  The aggregated context score of a candidate is the sum,
    over the contexts whose column pair carries a CPA and is not marked
    unrelated, of the current weight of the context times its scaled
    sub-score [max(0.1, scale * score)], divided by the sum of the base
    weights of these contexts, 1.0 for an entity column and 0.3 for a
    literal column; the scale is 1 on the first pass and afterwards the
    coverage times the semantic proximity of the first CPA of the pair
    found among the relations of the context, 0 if there is none.  The
    score is 0.01 when that sum of base weights is 0, in particular when
    the candidate has no context. *)
Theorem aggregated_context_score (s s' : Baseline_Model) (first_step last_step : bool)
    (candidate : Candidate_Entity) (contexts : list (nat * context_rec))
    (context_score max_context_weight : Q) :
  aggregate_context first_step last_step candidate contexts s
  = (Ok (context_score, max_context_weight), s') →
  let counted := filter (takes_part s candidate) contexts in
  let numerator :=
    Qsum (map (fun it => ctx_weight it.2
                         * Qmax (1 # 10) (cpa_scale s first_step candidate it * ctx_score it.2))
              counted) in
  let denominator := Qsum (map (fun it => column_base_weight s it.1) counted) in
  (denominator == 0 → context_score == 1 # 100)
  ∧ (¬ denominator == 0 → context_score == numerator / denominator)
  ∧ (contexts = [] → context_score == 1 # 100).
Proof.
  intros (H0 & Hdiv & Hnil)%aggregate_context_run. cbv zeta.
  destruct (context_sums_filter s first_step candidate contexts) as [Hnum Hden].
  split; [|split; [|done]].
  - intros Hd. apply H0. by rewrite Hden.
  - intros Hd. rewrite <- Hnum, <- Hden. apply Hdiv. by rewrite Hden.
Qed.

(** On [table8], before the last scoring, the candidate [X3] of the
    cell (0, 0) has four contexts.  The entity column 1 and the literal
    column 2 take part; column 3 has no CPA, and the pair of column 4 has
    one but is marked unrelated.  The score is the sum of the two weighted
    sub-scores divided by 1 + 0.3. *)
Lemma aggregated_context_score_witness :
  let s := engine_table8 in
  let candidate := mkCand 0 0 "X3" in
  let contexts :=
    [(1%nat, mkCtx (2 # 3) 1 ["P1"]); (3%nat, mkCtx (1 # 20) (1 # 10) []);
     (2%nat, mkCtx (3 # 30) (20000 # 20000) ["P5"]);
     (4%nat, mkCtx (3 # 30) (20000 # 20000) ["P7"])] in
  od_get candidate (entity_context_scores s) = Some contexts
  ∧ filter (takes_part s candidate) contexts
    = [(1%nat, mkCtx (2 # 3) 1 ["P1"]); (2%nat, mkCtx (3 # 30) (20000 # 20000) ["P5"])]
  ∧ is_Some (od_get (mkPair 0 4) (cpa_annot s)) ∧ mkPair 0 4 ∈ unrelated_col_pairs s
  ∧ od_get (mkPair 0 3) (cpa_annot s) = None
  ∧ column_base_weight s 1 = 1 ∧ column_base_weight s 2 = 3 # 10
  ∧ (aggregate_context false true candidate contexts s).1 = Ok (77400000 # 210600000, 2 # 3)
  ∧ (77400000 # 210600000)
    == ((2 # 3) * Qmax (1 # 10) ((2 # 3) * 1 * 1) + (3 # 30) * Qmax (1 # 10) ((1 # 3) * 1 * 1))
       / (1 + (3 # 10)).
Proof.
  cbv zeta.
  destruct (aggregated_context_score
              engine_table8
              (aggregate_context false true (mkCand 0 0 "X3")
                 [(1%nat, mkCtx (2 # 3) 1 ["P1"]); (3%nat, mkCtx (1 # 20) (1 # 10) []);
                  (2%nat, mkCtx (3 # 30) (20000 # 20000) ["P5"]);
                  (4%nat, mkCtx (3 # 30) (20000 # 20000) ["P7"])] engine_table8).2
              false true (mkCand 0 0 "X3")
              [(1%nat, mkCtx (2 # 3) 1 ["P1"]); (3%nat, mkCtx (1 # 20) (1 # 10) []);
               (2%nat, mkCtx (3 # 30) (20000 # 20000) ["P5"]);
               (4%nat, mkCtx (3 # 30) (20000 # 20000) ["P7"])]
              (77400000 # 210600000) (2 # 3)) as (_ & H & _).
  - vm_compute. reflexivity.
  - split; [vm_compute; reflexivity|]. split; [vm_compute; reflexivity|].
    split; [vm_compute; by eexists|]. split; [vm_compute; repeat constructor|].
    split; [vm_compute; reflexivity|]. split; [vm_compute; reflexivity|].
    split; [vm_compute; reflexivity|]. split; [vm_compute; reflexivity|].
    etransitivity; [apply H; vm_compute; discriminate|]. vm_compute. reflexivity.
Defined.

(** C3, as stated, fails.  On [table2] the candidate [X] of cell (0, 0) has
    one context, at column 1, with the updated weight 1/2 and the sub-score
    1; the weighted mean of the specification is 1, the scoring loop gives
    1/4: the sub-score is scaled by the coverage of the CPA, and the sum is
    divided by the base weight 1. *)
Lemma context_score_is_not_the_weighted_mean :
  od_get (mkCand 0 0 "X") (entity_context_scores engine_reweighted)
  = Some [(1%nat, mkCtx (1 # 2) 1 ["P1"])]
  ∧ (aggregate_context false false (mkCand 0 0 "X")
       [(1%nat, mkCtx (1 # 2) 1 ["P1"])] engine_reweighted).1 = Ok (1 # 4, 1 # 2)
  ∧ spec_weighted_context [(1%nat, mkCtx (1 # 2) 1 ["P1"])] == 1
  ∧ ¬ (1 # 4) == spec_weighted_context [(1%nat, mkCtx (1 # 2) 1 ["P1"])].
Proof.
  split; [vm_compute; reflexivity|]. split; [vm_compute; reflexivity|].
  split; [vm_compute; reflexivity|]. vm_compute. discriminate.
Qed.

(** ** The pipeline: failure of the preprocessing, rendering of the result *)

Section Pipeline_facts.
Context {E : Externals}.

(** C9.  When the preprocessing of the table gives nothing, the engine is
    built with its success flag unset, and [table_annotation] returns the
    record it started from: the raw table, nothing annotated, nothing
    preprocessed, and every measure at 0. *)
Theorem preprocessing_failure_gives_raw_echo (raw_table : list (list string)) (k : nat)
    (kb_path lookup_index : string) (params : params_rec) :
  table_preprocessing raw_table = None →
  (∃ m, Baseline_Model_init raw_table kb_path lookup_index params = Ok m
        ∧ is_model_init_success (setup m) = false
        ∧ cea_annot m = [] ∧ cta_annot m = [] ∧ cpa_annot m = [])
  ∧ table_annotation raw_table k kb_path lookup_index
    = Ok {| out_tableDataRaw := raw_table; out_annotated := None; out_preprocessed := None;
            out_preprocessingTime := 0; out_lookupTime := 0; out_entityScoringTime := 0;
            out_subgraphConstructionTime := 0; out_ctaTaskTime := 0; out_ceaTaskTime := 0;
            out_cpaTaskTime := 0; out_avgLookupCandidate := 0 |}.
Proof.
  intros Hpre. split.
  - unfold Baseline_Model_init. rewrite Hpre. eexists. split; [reflexivity|]. done.
  - unfold table_annotation, Baseline_Model_init. rewrite Hpre. reflexivity.
Qed.
End Pipeline_facts.

Lemma preprocessing_failure_gives_raw_echo_witness :
  table_annotation (E := Example.example_externals) [["alpha"]] 20 "kb1" "idx"
  = Ok {| out_tableDataRaw := [["alpha"]]; out_annotated := None; out_preprocessed := None;
          out_preprocessingTime := 0; out_lookupTime := 0; out_entityScoringTime := 0;
          out_subgraphConstructionTime := 0; out_ctaTaskTime := 0; out_ceaTaskTime := 0;
          out_cpaTaskTime := 0; out_avgLookupCandidate := 0 |}.
Proof.
  apply (preprocessing_failure_gives_raw_echo (E := Example.example_externals)
           [["alpha"]] 20 "kb1" "idx" Example.params1).
  reflexivity.
Defined.

(** C1, on the code.  Whenever the engine is initialised, the pipeline
    runs through and the first annotated cell holds a candidate,
    [table_annotation] raises [TypeError] instead of returning: the label
    of the first CEA is asked with two arguments, [(id, True)], from
    [get_label_of_entity], which takes one. *)
Theorem table_annotation_raises_TypeError {E : Externals} (raw_table : list (list string))
    (k : nat) (kb_path lookup_index : string) (m s : Baseline_Model)
    (cell : Cell) (c : cea) (rest : list cea) (others : odict Cell (list cea)) :
  Baseline_Model_init raw_table kb_path lookup_index
    {| p_multiHop_context := true; p_transitivePropertyOnly_path := false;
       p_soft_scoring := true; p_K := k |} = Ok m →
  is_model_init_success (setup m) = true →
  pipeline m = (Ok tt, s) →
  cea_annot s = (cell, c :: rest) :: others →
  table_annotation raw_table k kb_path lookup_index = Raise TypeError.
Proof.
  intros Hinit Hok Hrun Hcea. unfold table_annotation. rewrite Hinit. cbn [rbind].
  rewrite Hok, Hrun. unfold render_output. rewrite Hcea. reflexivity.
Qed.

Lemma table_annotation_raises_TypeError_witness :
  (∃ s, pipeline (E := Example.example_externals) engine_table1_init = (Ok tt, s)
        ∧ cea_annot s
          = [(mkCell 0 0, [mkCea "A" (107 # 132)]); (mkCell 1 0, [mkCea "B" (2 # 15)])])
  ∧ table_annotation (E := Example.example_externals) Example.table1 20 "kb1" "idx"
    = Raise TypeError.
Proof.
  assert (pipeline (E := Example.example_externals) engine_table1_init
          = (Ok tt, (pipeline (E := Example.example_externals) engine_table1_init).2)) as Hrun
    by (vm_compute; reflexivity).
  assert (cea_annot (pipeline (E := Example.example_externals) engine_table1_init).2
          = [(mkCell 0 0, [mkCea "A" (107 # 132)]); (mkCell 1 0, [mkCea "B" (2 # 15)])]) as Hcea
    by (vm_compute; reflexivity).
  split; [eexists; split; [exact Hrun|exact Hcea]|].
  eapply (table_annotation_raises_TypeError (E := Example.example_externals)
            Example.table1 20 "kb1" "idx" engine_table1_init);
    [vm_compute; reflexivity|vm_compute; reflexivity|exact Hrun|exact Hcea].
Defined.

(** ** Running the third annotation loop again *)

Section follows.
Context {S : Type} (R : S → S → Prop).

Lemma follows_ret {A} (a : A) x y : R x y → follows R (mret a) (mret a) x y.
Proof. intros HR a' x' [-> ->]%mret_Ok. by exists y. Qed.

Lemma follows_lift {A} (r1 r2 : result A) x y :
  R x y → (∀ a, r1 = Ok a → r2 = Ok a) → follows R (mlift r1) (mlift r2) x y.
Proof.
  intros HR Hr a x' [H1 ->]%mlift_Ok. exists y. split; [|done].
  unfold mlift. by rewrite (Hr _ H1).
Qed.

Lemma follows_modify (g1 g2 : S → S) x y :
  R (g1 x) (g2 y) → follows R (mmodify g1) (mmodify g2) x y.
Proof. intros HR [] x' ->%mmodify_Ok. by exists (g2 y). Qed.

Lemma follows_bind {A B} (m1 m2 : M S A) (k1 k2 : A → M S B) x y :
  follows R m1 m2 x y →
  (∀ a x' y', m1 x = (Ok a, x') → R x' y' → follows R (k1 a) (k2 a) x' y') →
  follows R (mbind m1 k1) (mbind m2 k2) x y.
Proof.
  intros Hm Hk b x'' (a & x' & H1 & H2)%mbind_Ok.
  destruct (Hm _ _ H1) as (y' & Hy & HR).
  destruct (Hk _ _ _ H1 HR _ _ H2) as (y'' & Hy' & HR').
  exists y''. split; [|done]. apply mbind_Ok. by exists a, y'.
Qed.

Lemma follows_get_bind {B} (k1 k2 : S → M S B) x y :
  follows R (k1 x) (k2 y) x y → follows R (mbind mget k1) (mbind mget k2) x y.
Proof.
  intros Hk b x' (a & x0 & [-> ->]%mget_Ok & H2)%mbind_Ok.
  destruct (Hk _ _ H2) as (y' & Hy & HR). exists y'. split; [|done].
  apply mbind_Ok. exists y, y. by split.
Qed.

Lemma follows_forM {X} (l : list X) (b1 b2 : X → M S unit) x y :
  (∀ e x y, e ∈ l → R x y → follows R (b1 e) (b2 e) x y) →
  R x y → follows R (forM l b1) (forM l b2) x y.
Proof.
  revert x y. induction l as [|e l IH]; intros x y Hb HR; cbn [forM].
  - by apply follows_ret.
  - apply follows_bind; [apply Hb; [left|done]|].
    intros [] x' y' _ HR'. apply IH; [|done].
    intros e' ? ? Hin. apply Hb. by right.
Qed.

Lemma follows_foldM {X B} (l : list X) (b1 b2 : B → X → M S B) acc x y :
  (∀ acc e x y, e ∈ l → R x y → follows R (b1 acc e) (b2 acc e) x y) →
  R x y → follows R (foldM b1 acc l) (foldM b2 acc l) x y.
Proof.
  revert acc x y. induction l as [|e l IH]; intros acc x y Hb HR; cbn [foldM].
  - by apply follows_ret.
  - apply follows_bind; [apply Hb; [left|done]|].
    intros acc' x' y' _ HR'. apply IH; [|done].
    intros acc'' e' ? ? Hin. apply Hb. by right.
Qed.
End follows.

Lemma cache_ext_refl s : cache_ext s s.
Proof.
  split; [done|]. split.
  - intros t. destruct (type_graph s !! t) eqn:H; [done|]. intros g Hg. congruence.
  - intros i. destruct (cached_cta_candidates s !! i) eqn:H; [done|]. intros g Hg. congruence.
Qed.

Lemma cache_ext_trans x y z : cache_ext x y → cache_ext y z → cache_ext x z.
Proof.
  intros (Hs1 & Ht1 & Hc1) (Hs2 & Ht2 & Hc2). split; [congruence|]. split.
  - intros t. specialize (Ht1 t). specialize (Ht2 t).
    destruct (type_graph x !! t) as [g|].
    + by rewrite Ht1 in Ht2.
    + intros g Hg. destruct (type_graph y !! t) as [g'|].
      * rewrite Ht2 in Hg. injection Hg as <-. by apply Ht1.
      * rewrite Hs1. by apply Ht2.
  - intros i. specialize (Hc1 i). specialize (Hc2 i).
    destruct (cached_cta_candidates x !! i) as [g|].
    + by rewrite Hc1 in Hc2.
    + intros g Hg. destruct (cached_cta_candidates y !! i) as [g'|].
      * rewrite Hc2 in Hg. injection Hg as <-. by apply Hc1.
      * rewrite Hs1. by apply Hc2.
Qed.

Lemma extends_ret {A} (a : A) : extends (mret a).
Proof. intros s. apply cache_ext_refl. Qed.

Lemma extends_raise {A} e : extends (@mraise _ A e).
Proof. intros s. apply cache_ext_refl. Qed.

Lemma extends_get : extends mget.
Proof. intros s. apply cache_ext_refl. Qed.

Lemma extends_lift {A} (r : result A) : extends (mlift r).
Proof. intros s. apply cache_ext_refl. Qed.

Lemma extends_modify (g : Baseline_Model → Baseline_Model) :
  (∀ s, cache_ext s (g s)) → extends (mmodify g).
Proof. intros H s. apply H. Qed.

Lemma extends_bind {A B} (m : M Baseline_Model A) (k : A → M Baseline_Model B) :
  extends m → (∀ a, extends (k a)) → extends (mbind m k).
Proof.
  intros Hm Hk s. unfold mbind. specialize (Hm s).
  destruct (m s) as [[a|e] s1]; cbn [snd] in *; [|done].
  eapply cache_ext_trans; [exact Hm|apply Hk].
Qed.

Lemma extends_forM {Y} (l : list Y) (body : Y → M Baseline_Model unit) :
  (∀ y, extends (body y)) → extends (forM l body).
Proof.
  intros Hb. induction l as [|y l IH]; cbn [forM].
  - apply extends_ret.
  - apply extends_bind; [apply Hb|by intros _].
Qed.

Lemma extends_foldM {Y B} (body : B → Y → M Baseline_Model B) b (l : list Y) :
  (∀ b y, extends (body b y)) → extends (foldM body b l).
Proof.
  intros Hb. revert b. induction l as [|y l IH]; intros b; cbn [foldM].
  - apply extends_ret.
  - apply extends_bind; [apply Hb|apply IH].
Qed.

Lemma cache_ext_same x y :
  setup x = setup y → type_graph x = type_graph y →
  cached_cta_candidates x = cached_cta_candidates y → cache_ext x y.
Proof.
  intros Hs Ht Hc. split; [done|]. rewrite <- Ht, <- Hc. split.
  - intros t. destruct (type_graph x !! t); [done|]. intros g Hg. discriminate.
  - intros i. destruct (cached_cta_candidates x !! i); [done|]. intros g Hg. discriminate.
Qed.

Lemma cache_ext_fill_type_graph s t :
  type_graph s !! t = None →
  cache_ext s (set_type_graph (<[t := build_type_graph (KB (setup s)) t]> (type_graph s)) s).
Proof.
  intros Hnone. destruct s; cbn in *. split; [done|]. split; cbn.
  - intros t'. destruct (decide (t' = t)) as [->|Hne].
    + rewrite Hnone, lookup_insert_eq. by intros g [= <-].
    + rewrite lookup_insert_ne by done.
      destruct (_ !! t'); [done|]. intros g Hg. discriminate.
  - intros i. destruct (_ !! i); [done|]. intros g Hg. discriminate.
Qed.

Lemma cache_ext_fill_cta_candidates s i :
  cached_cta_candidates s !! i = None →
  cache_ext s (set_cached_cta_candidates
                 (<[i := get_types_of_entity (KB (setup s)) i 3]> (cached_cta_candidates s)) s).
Proof.
  intros Hnone. destruct s; cbn in *. split; [done|]. split; cbn.
  - intros t. destruct (_ !! t); [done|]. intros g Hg. discriminate.
  - intros i'. destruct (decide (i' = i)) as [->|Hne].
    + rewrite Hnone, lookup_insert_eq. by intros g [= <-].
    + rewrite lookup_insert_ne by done.
      destruct (_ !! i'); [done|]. intros g Hg. discriminate.
Qed.

Lemma extends_get_bind {B} (k : Baseline_Model → M Baseline_Model B) :
  (∀ s, cache_ext s (k s s).2) → extends (mbind mget k).
Proof. intros H s. apply H. Qed.

Lemma extends_at_bind {A B} (m : M Baseline_Model A) (k : A → M Baseline_Model B) s :
  cache_ext s (m s).2 → (∀ a, extends (k a)) → cache_ext s (mbind m k s).2.
Proof.
  intros Hm Hk. unfold mbind.
  destruct (m s) as [[a|e] s1]; cbn [snd] in *; [|done].
  eapply cache_ext_trans; [exact Hm|apply Hk].
Qed.

Ltac extends_step :=
  first
    [ apply extends_ret | apply extends_raise | apply extends_get
    | apply extends_lift
    | apply extends_bind; [|intros ?]
    | apply extends_forM; intros ?
    | apply extends_foldM; intros ? ?
    | apply extends_modify; intros []; by apply cache_ext_same
    | match goal with
      | |- extends (match ?x with _ => _ end) => destruct x
      | |- extends ((match ?x with _ => _ end) _) => destruct x
      | |- extends ((fun _ => _) _) => progress cbv beta
      end ].
Ltac extends_tac := repeat extends_step.
Ltac extends_with tac := repeat first [tac | extends_step].

Lemma cta_disambiguation_cta_extends cands acc a_cta :
  extends (cta_disambiguation_cta cands acc a_cta).
Proof.
  unfold cta_disambiguation_cta. destruct acc as [scores weights].
  apply extends_get_bind. intros s. apply extends_at_bind; [|intros ?; extends_tac].
  destruct (type_graph s !! cta_id a_cta) eqn:Hl; cbn.
  - apply cache_ext_refl.
  - by apply cache_ext_fill_type_graph.
Qed.

Lemma cea_task_extends col row only_one : extends (cea_task col row only_one).
Proof.
  unfold cea_task, cta_disambiguation.
  extends_with ltac:(apply cta_disambiguation_cta_extends).
Qed.

Lemma cta_cea_extends acc c : extends (cta_cea acc c).
Proof.
  unfold cta_cea. apply extends_get_bind. intros s.
  apply extends_at_bind; [|intros ?; extends_tac].
  destruct (cached_cta_candidates s !! cea_id c) eqn:Hl.
  - apply cache_ext_refl.
  - cbn. by apply cache_ext_fill_cta_candidates.
Qed.

Lemma cta_task_extends col only_one : extends (cta_task col only_one).
Proof.
  unfold cta_task, cta_row. extends_with ltac:(apply cta_cea_extends).
Qed.

Lemma cpa_task_extends h t only_one : extends (cpa_task h t only_one).
Proof. unfold cpa_task. extends_tac. Qed.

Lemma pass3_extends : extends pass3.
Proof.
  unfold pass3, cea_loop, cta_loop, cpa_loop.
  extends_with ltac:(first [apply cea_task_extends | apply cta_task_extends
                           | apply cpa_task_extends]).
Qed.

Lemma cea_task_pass3_frame col row only_one : preserves pass3_frame (cea_task col row only_one).
Proof. unfold cea_task, cta_disambiguation, cta_disambiguation_cta. preserves_tac. Qed.

Lemma cta_task_pass3_frame col only_one : preserves pass3_frame (cta_task col only_one).
Proof. unfold cta_task, cta_row, cta_cea. preserves_tac. Qed.

Lemma cpa_task_pass3_frame h t only_one : preserves pass3_frame (cpa_task h t only_one).
Proof. unfold cpa_task. preserves_tac. Qed.

Lemma pass3_pass3_frame : preserves pass3_frame pass3.
Proof.
  unfold pass3, cea_loop, cta_loop, cpa_loop.
  repeat first [apply cea_task_pass3_frame | apply cta_task_pass3_frame
               | apply cpa_task_pass3_frame | preserves_step].
Qed.

Lemma sim_fields x y :
  sim x y →
  setup y = setup x ∧ entity_scores y = entity_scores x
  ∧ cached_cpa_candidates y = cached_cpa_candidates x
  ∧ unrelated_col_pairs y = unrelated_col_pairs x
  ∧ contextless_cells y = contextless_cells x
  ∧ potential_candidates y = potential_candidates x
  ∧ cta_annot y = cta_annot x ∧ cea_annot y = cea_annot x.
Proof. intros [Hcore _]. unfold core in Hcore. by simplify_eq. Qed.

Ltac sim_rw H :=
  let Hf := fresh in
  pose proof (sim_fields _ _ H) as Hf;
  destruct Hf as (?Hs & ?Hes & ?Hcpa & ?Hun & ?Hcl & ?Hpc & ?Hcta & ?Hcea).

Lemma sim_set_cea_annot v x y : sim x y → sim (set_cea_annot v x) (set_cea_annot v y).
Proof.
  intros [Hcore (Hs & Ht & Hc)]. destruct x, y. unfold core in *. cbn in *.
  simplify_eq. by repeat split.
Qed.

Lemma sim_set_cta_annot v x y : sim x y → sim (set_cta_annot v x) (set_cta_annot v y).
Proof.
  intros [Hcore (Hs & Ht & Hc)]. destruct x, y. unfold core in *. cbn in *.
  simplify_eq. by repeat split.
Qed.

Lemma sim_full_set_cpa_annot v x y :
  sim x y → sim_full (set_cpa_annot v x) (set_cpa_annot v y).
Proof.
  intros [Hcore (Hs & Ht & Hc)]. destruct x, y. unfold core in *. cbn in *.
  simplify_eq. by repeat split.
Qed.

Lemma sim_full_set_cpa_annot' v x y :
  sim_full x y → sim_full (set_cpa_annot v x) (set_cpa_annot v y).
Proof. intros [H _]. by apply sim_full_set_cpa_annot. Qed.

Lemma foldR_ext_Ok {X B} (f g : B → X → result B) l b r :
  (∀ b e r, f b e = Ok r → g b e = Ok r) → foldR f b l = Ok r → foldR g b l = Ok r.
Proof.
  intros Hfg. revert b. induction l as [|e l IH]; intros b; cbn [foldR]; [done|].
  intros (b' & Hb & Hl)%rbind_Ok. rewrite (Hfg _ _ _ Hb). cbn. by apply IH.
Qed.

Lemma cta_disambiguation_step_sim x y a_cta scores c r :
  sim x y → is_Some (type_graph x !! cta_id a_cta) →
  cta_disambiguation_step x a_cta scores c = Ok r →
  cta_disambiguation_step y a_cta scores c = Ok r.
Proof.
  intros [_ (_ & Ht & Hc)] [g Hg]. unfold cta_disambiguation_step.
  specialize (Ht (cta_id a_cta)). rewrite Hg in Ht. rewrite Hg, Ht.
  specialize (Hc (cea_id c)).
  destruct (cached_cta_candidates x !! cea_id c) as [h|]; [|discriminate].
  by rewrite Hc.
Qed.

Lemma fill_type_graph_sim x y t :
  sim x y →
  follows sim
    (match type_graph x !! t with
     | Some _ => mret tt
     | None => mmodify (set_type_graph (<[t := build_type_graph (KB (setup x)) t]>
                                          (type_graph x)))
     end)
    (match type_graph y !! t with
     | Some _ => mret tt
     | None => mmodify (set_type_graph (<[t := build_type_graph (KB (setup y)) t]>
                                          (type_graph y)))
     end) x y.
Proof.
  intros Hsim. pose proof Hsim as [Hcore (Hs & Ht & Hc)].
  pose proof (Ht t) as Htt.
  destruct (type_graph x !! t) as [g|] eqn:Hx.
  - rewrite Htt. by apply follows_ret.
  - destruct (type_graph y !! t) as [g'|] eqn:Hy.
    + intros [] x' ->%mmodify_Ok. exists y. split; [done|].
      split; [by destruct x, y|]. split; [by destruct x, y|]. split.
      * intros t'. destruct x as [? ? ? ? ? tg ? ? ? ? ? ? ? ?]; cbn in *.
        destruct (decide (t' = t)) as [->|Hne].
        -- rewrite lookup_insert_eq, Hy. f_equal. by apply Htt.
        -- rewrite lookup_insert_ne by done. apply Ht.
      * by destruct x.
    + apply follows_modify. split; [by destruct x, y|]. split; [by destruct x, y|]. split.
      * intros t'. destruct x as [? ? ? ? ? tg ? ? ? ? ? ? ? ?], y as [? ? ? ? ? tg' ? ? ? ? ? ? ? ?];
          cbn in *. subst. destruct (decide (t' = t)) as [->|Hne].
        -- by rewrite !lookup_insert_eq.
        -- rewrite !lookup_insert_ne by done. apply Ht.
      * by destruct x, y.
Qed.

Lemma fill_type_graph_is_Some x t x' :
  (match type_graph x !! t with
   | Some _ => mret tt
   | None => mmodify (set_type_graph (<[t := build_type_graph (KB (setup x)) t]>
                                        (type_graph x)))
   end) x = (Ok tt, x') → is_Some (type_graph x' !! t).
Proof.
  destruct (type_graph x !! t) as [g|] eqn:Hx.
  - intros [_ ->]%mret_Ok. by rewrite Hx.
  - intros ->%mmodify_Ok. destruct x; cbn. by rewrite lookup_insert_eq.
Qed.

Lemma cta_disambiguation_cta_sim cands acc a_cta x y :
  sim x y →
  follows sim (cta_disambiguation_cta cands acc a_cta) (cta_disambiguation_cta cands acc a_cta)
          x y.
Proof.
  intros Hsim. unfold cta_disambiguation_cta. destruct acc as [scores weights].
  apply follows_get_bind. apply follows_bind; [by apply fill_type_graph_sim|].
  intros [] x' y' Hfill Hsim'. apply fill_type_graph_is_Some in Hfill.
  apply follows_get_bind. apply follows_bind; [|intros; by apply follows_ret].
  apply follows_lift; [done|]. intros r. apply foldR_ext_Ok. intros b e r'.
  by apply cta_disambiguation_step_sim.
Qed.

Lemma cta_disambiguation_sim col cands x y :
  sim x y →
  follows sim (cta_disambiguation col cands) (cta_disambiguation col cands) x y.
Proof.
  intros Hsim. unfold cta_disambiguation. apply follows_get_bind.
  sim_rw Hsim. rewrite Hcta. apply follows_foldM; [|done].
  intros [[applied scores] weights] [column cta_list] x' y' _ Hsim'.
  destruct (decide _); [|by apply follows_ret].
  apply follows_bind; [|intros; by apply follows_ret].
  apply follows_foldM; [|done]. intros. by apply cta_disambiguation_cta_sim.
Qed.

Lemma cea_task_sim col row only_one x y :
  sim x y →
  follows sim (cea_task col row only_one) (cea_task col row only_one) x y.
Proof.
  intros Hsim. unfold cea_task. apply follows_get_bind.
  sim_rw Hsim. unfold initial_cea_candidates. rewrite Hs, Hes, Hcta.
  destruct (od_get _ _); [|by apply follows_ret].
  destruct (flat_map _ _) as [|c0 cands]; [by apply follows_ret|].
  apply follows_bind.
  { destruct (cta_annot x); [by apply follows_ret|by apply cta_disambiguation_sim]. }
  intros [[applied scores] weights] x' y' _ Hsim'.
  apply follows_get_bind. clear dependent x. clear dependent y.
  sim_rw Hsim'.
  unfold cta_coefficient, is_contextless, cpa_boost, cea_key_ltb, num_cpa_memberships.
  rewrite Hs, Hcl, Hpc, Hcea.
  apply follows_bind; [by apply follows_lift|].
  intros [cta_coeff cands1] x y _ Hsim.
  apply follows_bind; [by apply follows_lift|].
  intros scored x0 y0 _ Hsim0.
  apply follows_bind; [|intros; by apply follows_ret].
  apply follows_modify. by apply sim_set_cea_annot.
Qed.

Lemma cta_cea_sim acc c x y :
  sim x y → follows sim (cta_cea acc c) (cta_cea acc c) x y.
Proof.
  intros Hsim. unfold cta_cea. apply follows_get_bind.
  apply follows_bind; [|intros; by apply follows_lift].
  pose proof Hsim as [Hcore (Hs & Ht & Hc)]. pose proof (Hc (cea_id c)) as Hcc.
  destruct (cached_cta_candidates x !! cea_id c) as [h|] eqn:Hx.
  - rewrite Hcc. by apply follows_ret.
  - destruct (cached_cta_candidates y !! cea_id c) as [h'|] eqn:Hy.
    + intros h x' (? & ? & ->%mmodify_Ok & [-> ->]%mret_Ok)%mbind_Ok.
      exists y. split; [unfold mret; f_equal; f_equal; by apply Hcc|].
      split; [by destruct x, y|]. split; [by destruct x, y|]. split.
      * by destruct x.
      * intros i. destruct x as [? ? ? ? ? ? ? ? cc ? ? ? ? ?]; cbn in *.
        destruct (decide (i = cea_id c)) as [->|Hne].
        -- rewrite lookup_insert_eq, Hy. f_equal. by apply Hcc.
        -- rewrite lookup_insert_ne by done. apply Hc.
    + rewrite <- Hs. apply follows_bind; [|intros; by apply follows_ret].
      apply follows_modify. split; [by destruct x, y|]. split; [by destruct x, y|]. split.
      * by destruct x, y.
      * intros i. destruct x as [? ? ? ? ? ? ? ? cc ? ? ? ? ?], y as [? ? ? ? ? ? ? ? cc' ? ? ? ? ?];
          cbn in *. subst. destruct (decide (i = cea_id c)) as [->|Hne].
        -- by rewrite !lookup_insert_eq.
        -- rewrite !lookup_insert_ne by done. apply Hc.
Qed.

Lemma cta_task_sim col only_one x y :
  sim x y → follows sim (cta_task col only_one) (cta_task col only_one) x y.
Proof.
  intros Hsim. unfold cta_task. apply follows_get_bind.
  sim_rw Hsim. rewrite Hs.
  apply follows_bind.
  { apply follows_foldM; [|done]. intros acc row x' y' _ Hsim'.
    unfold cta_row. apply follows_get_bind. sim_rw Hsim'. rewrite Hcea0.
    destruct (od_get _ _); [|by apply follows_ret].
    apply follows_bind; [|intros; by apply follows_ret].
    apply follows_foldM; [|done]. intros. by apply cta_cea_sim. }
  intros r x' y' _ Hsim'.
  destruct (sorted_desc _ _) as [|top rest]; [by apply follows_ret|].
  apply follows_get_bind. sim_rw Hsim'. rewrite Hs0, Hcta0.
  apply follows_bind; [|intros; by apply follows_ret].
  apply follows_modify. by apply sim_set_cta_annot.
Qed.

Lemma cpa_task_sim h t only_one x y :
  sim_full x y → follows sim_full (cpa_task h t only_one) (cpa_task h t only_one) x y.
Proof.
  intros Hsim. unfold cpa_task. apply follows_get_bind.
  pose proof Hsim as [Hsim' Hcpa_annot]. sim_rw Hsim'.
  unfold cpa_cells, cpa_collect, cpa_row_relations, cpa_pair.
  rewrite Hs, Hun, Hcea, Hcpa, <- Hcpa_annot.
  destruct (_ || _); [by apply follows_ret|].
  apply follows_bind; [by apply follows_lift|].
  intros cells x' y' _ Hsim''.
  destruct (sorted_desc _ _) as [|top rest]; [by apply follows_ret|].
  apply follows_bind; [|intros; by apply follows_ret].
  apply follows_modify. by apply sim_full_set_cpa_annot'.
Qed.

Lemma cea_loop_sim only_one x y :
  sim x y → follows sim (cea_loop only_one) (cea_loop only_one) x y.
Proof.
  intros Hsim. unfold cea_loop. apply follows_get_bind. sim_rw Hsim. rewrite Hs.
  apply follows_forM; [|done]. intros col x' y' _ Hsim'.
  apply follows_forM; [|done]. intros row x'' y'' _ Hsim''.
  apply follows_bind; [by apply cea_task_sim|]. intros; by apply follows_ret.
Qed.

Lemma cta_loop_sim only_one x y :
  sim x y → follows sim (cta_loop only_one) (cta_loop only_one) x y.
Proof.
  intros Hsim. unfold cta_loop. apply follows_get_bind. sim_rw Hsim. rewrite Hs.
  apply follows_forM; [|done]. intros col x' y' _ Hsim'.
  apply follows_bind; [by apply cta_task_sim|]. intros; by apply follows_ret.
Qed.

Lemma cpa_loop_sim only_one x y :
  sim_full x y → follows sim_full (cpa_loop only_one) (cpa_loop only_one) x y.
Proof.
  intros Hsim. unfold cpa_loop. apply follows_get_bind.
  pose proof Hsim as [Hsim0 _]. sim_rw Hsim0. rewrite Hs.
  apply follows_bind.
  - apply follows_forM; [|done]. intros i x' y' _ Hsim'.
    apply follows_bind; [by apply follows_lift|]. intros head x1 y1 _ Hsim1.
    apply follows_forM; [|done]. intros tail x2 y2 _ Hsim2.
    apply follows_bind; [by apply cpa_task_sim|]. intros; by apply follows_ret.
  - intros [] x' y' _ Hsim'.
    apply follows_forM; [|done]. intros head x1 y1 _ Hsim1.
    apply follows_forM; [|done]. intros tail x2 y2 _ Hsim2.
    apply follows_bind; [by apply cpa_task_sim|]. intros; by apply follows_ret.
Qed.

(** The third loop run from [y] follows its run from [x] when the two
    states differ in their caches and CPA results only. *)
Lemma pass3_sim x y : sim x y → follows sim_full pass3 pass3 x y.
Proof.
  intros Hsim a x' Hrun. unfold pass3 in *.
  apply mbind_Ok in Hrun as ([] & x1 & ->%mmodify_Ok & Hrun).
  apply mbind_Ok in Hrun as ([] & x2 & Hcea & Hrun).
  apply mbind_Ok in Hrun as ([] & x3 & ->%mmodify_Ok & Hrun).
  apply mbind_Ok in Hrun as ([] & x4 & Hcta & Hrun).
  apply mbind_Ok in Hrun as ([] & x5 & ->%mmodify_Ok & Hrun).
  destruct (cea_loop_sim true _ _ (sim_set_cea_annot [] _ _ Hsim) _ _ Hcea) as (y2 & Hy2 & Hsim2).
  destruct (cta_loop_sim true _ _ (sim_set_cta_annot [] _ _ Hsim2) _ _ Hcta) as (y4 & Hy4 & Hsim4).
  destruct (cpa_loop_sim false _ _ (sim_full_set_cpa_annot [] _ _ Hsim4) _ _ Hrun)
    as (y6 & Hy6 & Hsim6).
  exists y6. split; [|done].
  apply mbind_Ok. eexists tt, _. split; [done|].
  apply mbind_Ok. eexists tt, _. split; [exact Hy2|].
  apply mbind_Ok. eexists tt, _. split; [done|].
  apply mbind_Ok. eexists tt, _. split; [exact Hy4|].
  apply mbind_Ok. eexists tt, _. split; [done|]. exact Hy6.
Qed.

Lemma pass3_reset s : pass3 (set_cea_annot [] s) = pass3 s.
Proof. by destruct s. Qed.

(** C8 (amended).  When the third annotation loop leaves the CTA results as
    it found them, running it once more succeeds and gives the same CEA and
    CTA results. *)
Theorem pass3_again_at_cta_fixpoint (s s1 : Baseline_Model) :
  pass3 s = (Ok tt, s1) →
  cta_annot s1 = cta_annot s →
  ∃ s2, pass3 s1 = (Ok tt, s2) ∧ cea_annot s2 = cea_annot s1 ∧ cta_annot s2 = cta_annot s1.
Proof.
  intros Hrun Hfix.
  pose proof (pass3_extends s) as Hext. pose proof (pass3_pass3_frame s) as Hframe.
  rewrite Hrun in Hext, Hframe. cbn [snd] in Hext, Hframe.
  assert (sim (set_cea_annot [] s) (set_cea_annot [] s1)) as Hsim.
  { unfold pass3_frame in Hframe. destruct s, s1. unfold sim, core, cache_ext in *.
    cbn in *. simplify_eq. by repeat split; try apply Hext. }
  rewrite <- pass3_reset in Hrun.
  destruct (pass3_sim _ _ Hsim _ _ Hrun) as (s2 & Hs2 & [Hsim2 _]).
  rewrite pass3_reset in Hs2. exists s2. split; [done|].
  sim_rw Hsim2. done.
Qed.

(** On [table6] every cell has two candidates, with the lookup scores 1
    and 1/2, and the column has the types [T1], [T2] and [S1].  The third
    loop keeps the CTA results of the second loop, and a second run gives
    the same CEA and CTA results.  The scores met are 1, 1/2 and 0.7: the
    source, run in binary floating point on this table, shows the same
    equalities. *)
Lemma pass3_again_at_cta_fixpoint_witness :
  ∃ s1 s2, pass3 engine_table6 = (Ok tt, s1)
    ∧ cta_annot s1 = cta_annot engine_table6
    ∧ cta_annot s1
      = [(mkColumn 0, [mkCta "T1" 1 1; mkCta "T2" 1 1; mkCta "S1" (7 # 10) 1])]
    ∧ cea_annot s1 = [(mkCell 0 0, [mkCea "G1" 1]); (mkCell 1 0, [mkCea "H1" 1])]
    ∧ pass3 s1 = (Ok tt, s2)
    ∧ cea_annot s2 = cea_annot s1 ∧ cta_annot s2 = cta_annot s1.
Proof.
  exists (pass3 engine_table6).2.
  assert (pass3 engine_table6 = (Ok tt, (pass3 engine_table6).2)) as Hrun
    by (vm_compute; reflexivity).
  assert (cta_annot (pass3 engine_table6).2 = cta_annot engine_table6) as Hfix
    by (vm_compute; reflexivity).
  destruct (pass3_again_at_cta_fixpoint engine_table6 _ Hrun Hfix) as (s2 & H2 & Hcea & Hcta).
  exists s2. split; [exact Hrun|]. split; [exact Hfix|].
  split; [vm_compute; reflexivity|]. split; [vm_compute; reflexivity|].
  split; [exact H2|]. split; [exact Hcea|exact Hcta].
Defined.

(** C8 (as stated): from the engine reached after the second loop on the
    table [alpha; beta], the third loop run twice gives other CEA and CTA
    scores than run once, although it changes none of its inputs. *)
Lemma pass3_is_not_idempotent :
  ∃ s1 s2, pass3 engine_kb1 = (Ok tt, s1) ∧ pass3 s1 = (Ok tt, s2)
    ∧ pass3_frame s1 = pass3_frame engine_kb1
    ∧ cea_annot s1 = [(mkCell 0 0, [mkCea "A" (19 # 22)]); (mkCell 1 0, [mkCea "B" (1 # 5)])]
    ∧ cea_annot s2 = [(mkCell 0 0, [mkCea "A" (39 # 44)]); (mkCell 1 0, [mkCea "B" (4 # 25)])]
    ∧ cta_annot s1 = [(mkColumn 0, [mkCta "T" (19 # 44) (1 # 2)])]
    ∧ cta_annot s2 = [(mkColumn 0, [mkCta "T" (39 # 88) (1 # 2)])]
    ∧ ¬ (19 # 22 == 39 # 44) ∧ ¬ (19 # 44 == 39 # 88).
Proof.
  exists (pass3 engine_kb1).2, (pass3 (pass3 engine_kb1).2).2.
  split; [vm_compute; reflexivity|]. split; [vm_compute; reflexivity|].
  split; [apply pass3_pass3_frame|].
  split; [vm_compute; reflexivity|]. split; [vm_compute; reflexivity|].
  split; [vm_compute; reflexivity|]. split; [vm_compute; reflexivity|].
  split; intros H; discriminate H.
Qed.

(** ** The ranges of the scores *)

Section triple.
Context {S : Type} (I : S → Prop).

Lemma triple_ret {A} (a : A) (Q : A → Prop) : Q a → triple I (mret a) Q.
Proof. intros HQ s Hs. split; [done|]. by intros a' [= <-]. Qed.

Lemma triple_raise {A} e (Q : A → Prop) : triple I (mraise e) Q.
Proof. intros s Hs. split; [done|]. by intros a' [=]. Qed.

Lemma triple_lift {A} (r : result A) (Q : A → Prop) :
  (∀ a, r = Ok a → Q a) → triple I (mlift r) Q.
Proof. intros HQ s Hs. split; [done|]. intros a Ha. by apply HQ. Qed.

Lemma triple_modify (g : S → S) (Q : unit → Prop) :
  (∀ s, I s → I (g s)) → Q tt → triple I (mmodify g) Q.
Proof. intros Hg HQ s Hs. split; [by apply Hg|]. by intros [] _. Qed.

Lemma triple_bind {A B} (m : M S A) (k : A → M S B) (Q : A → Prop) (R : B → Prop) :
  triple I m Q → (∀ a, Q a → triple I (k a) R) → triple I (mbind m k) R.
Proof.
  intros Hm Hk s Hs. unfold mbind. destruct (Hm s Hs) as [Hs1 HQ].
  destruct (m s) as [[a|e] s1]; cbn [fst snd] in *.
  - by apply Hk; [apply HQ|].
  - split; [done|]. by intros a [=].
Qed.

Lemma triple_weaken {A} (m : M S A) (Q Q' : A → Prop) :
  triple I m Q → (∀ a, Q a → Q' a) → triple I m Q'.
Proof. intros Hm Himp s Hs. destruct (Hm s Hs) as [? HQ]. split; [done|]. eauto. Qed.

Lemma triple_get_bind {B} (k : S → M S B) (R : B → Prop) :
  (∀ s0, I s0 → triple I (k s0) R) → triple I (mbind mget k) R.
Proof. intros Hk s Hs. by apply (Hk s). Qed.

Lemma triple_lift_bind {A B} (r : result A) (k : A → M S B) (R : B → Prop) :
  (∀ a, r = Ok a → triple I (k a) R) → triple I (mbind (mlift r) k) R.
Proof.
  intros Hk. eapply (triple_bind _ _ (λ a, r = Ok a)); [by apply triple_lift|]. done.
Qed.

Lemma triple_modify_bind {B} (g : S → S) (k : unit → M S B) (R : B → Prop) :
  (∀ s, I s → I (g s)) → triple I (k tt) R → triple I (mbind (mmodify g) k) R.
Proof.
  intros Hg Hk. eapply (triple_bind _ _ (λ _, True)); [by apply triple_modify|].
  by intros [] _.
Qed.

Lemma triple_seq {A B} (m : M S A) (k : M S B) (R : B → Prop) :
  triple I m (λ _, True) → triple I k R → triple I (mbind m (λ _, k)) R.
Proof. intros Hm Hk. eapply triple_bind; [exact Hm|]. done. Qed.

Lemma triple_forM {X} (l : list X) (body : X → M S unit) :
  (∀ x, x ∈ l → triple I (body x) (λ _, True)) → triple I (forM l body) (λ _, True).
Proof.
  induction l as [|x l IH]; intros Hb; cbn [forM].
  - by apply triple_ret.
  - apply triple_seq; [apply Hb; left|]. apply IH. intros. apply Hb. by right.
Qed.

Lemma triple_foldM_idx {X B} (P : nat → B → Prop) (body : B → X → M S B) b (l : list X) i :
  P i b →
  (∀ j b x, x ∈ l → P j b → triple I (body b x) (P (Datatypes.S j))) →
  triple I (foldM body b l) (P (i + length l)%nat).
Proof.
  revert b i. induction l as [|x l IH]; intros b i Hb Hbody; cbn [foldM length].
  - apply triple_ret. by rewrite Nat.add_0_r.
  - eapply triple_bind; [apply Hbody; [left|done]|].
    intros b' Hb'. replace (i + Datatypes.S (length l))%nat with (Datatypes.S i + length l)%nat by lia.
    apply IH; [done|]. intros. apply Hbody; [by right|done].
Qed.

Lemma triple_foldM {X B} (P : B → Prop) (body : B → X → M S B) b (l : list X) :
  P b → (∀ b x, x ∈ l → P b → triple I (body b x) P) → triple I (foldM body b l) P.
Proof.
  intros Hb Hbody. apply (triple_foldM_idx (λ _, P) body b l 0 Hb). intros. by apply Hbody.
Qed.
End triple.

Lemma foldR_Forall {X B} (P : B → Prop) (body : B → X → result B) l b r :
  P b → (∀ b x b', x ∈ l → P b → body b x = Ok b' → P b') → foldR body b l = Ok r → P r.
Proof. intros Hb Hstep. apply foldR_inv; [|done]. intros. by eapply Hstep. Qed.

Lemma fold_left_Forall {X B} (P : B → Prop) (f : B → X → B) l b :
  P b → (∀ b x, x ∈ l → P b → P (f b x)) → P (fold_left f l b).
Proof.
  revert b. induction l as [|x l IH]; intros b Hb Hf; cbn; [done|].
  apply IH; [apply Hf; [left|done]|]. intros. apply Hf; [by right|done].
Qed.

(** *** Dictionaries *)

Section od_Forall.
Context {K V : Type} `{EqDecision K} (P : K → V → Prop).

Lemma od_Forall_nil : od_Forall P [].
Proof. constructor. Qed.

Lemma od_Forall_set k v d : od_Forall P d → P k v → od_Forall P (od_set k v d).
Proof.
  unfold od_Forall. induction d as [|[k' v'] d IH]; intros Hd Hv; cbn.
  - by repeat constructor.
  - inversion_clear Hd. destruct (decide (k' = k)); constructor; auto.
Qed.

Lemma od_Forall_del k d : od_Forall P d → od_Forall P (od_del k d).
Proof.
  unfold od_Forall. induction d as [|[k' v'] d IH]; intros Hd; cbn; [done|].
  inversion_clear Hd. destruct (decide (k' = k)); [done|]. constructor; auto.
Qed.

Lemma od_Forall_get k v d : od_Forall P d → od_get k d = Some v → P k v.
Proof.
  intros Hd Hget%od_get_elem_of. unfold od_Forall in Hd.
  rewrite Forall_forall in Hd. by apply (Hd (k, v)).
Qed.

Lemma od_Forall_elem_of k v d : od_Forall P d → (k, v) ∈ d → P k v.
Proof. unfold od_Forall. rewrite Forall_forall. intros Hd Hin. by apply (Hd (k, v)). Qed.
End od_Forall.

(** *** Arithmetic of the unit interval *)

Lemma unit_interval_0 : unit_interval 0.
Proof. split; lra. Qed.

Lemma unit_interval_1 : unit_interval 1.
Proof. split; lra. Qed.

Lemma unit_interval_mult a b : unit_interval a → unit_interval b → unit_interval (a * b).
Proof. intros [] []. split; nra. Qed.

Lemma unit_interval_Qmax a b : unit_interval a → unit_interval b → unit_interval (Qmax a b).
Proof.
  intros [] []. split.
  - eapply Qle_trans; [|apply Q.le_max_l]. done.
  - by apply Q.max_lub.
Qed.

Lemma unit_interval_Qmin a b : unit_interval a → unit_interval b → unit_interval (Qmin a b).
Proof.
  intros [] []. split.
  - by apply Q.min_glb.
  - eapply Qle_trans; [apply Q.le_min_l|]. done.
Qed.

Lemma unit_interval_Qred a : unit_interval a → unit_interval (Qred a).
Proof. unfold unit_interval. by rewrite Qred_correct. Qed.

Lemma unit_interval_div a b : 0 <= a → a <= b → 0 < b → unit_interval (a / b).
Proof.
  intros. split.
  - apply Qle_shift_div_l; [done|]. lra.
  - apply Qle_shift_div_r; [done|]. lra.
Qed.

(** *** Writing an attribute *)

Ltac setter_tac :=
  let H := fresh in
  intros H; destruct H as (? & ? & ? & ? & ? & ? & ? & ? & ? & ?);
  match goal with |- context [in_range_at _ (_ _ ?s)] => destruct s end;
  unfold in_range_at; cbn in *; intuition.

Lemma in_range_set_lookup_scores st v s :
  in_range_at st s → od_Forall (λ _, unit_interval) v → in_range_at st (set_lookup_scores v s).
Proof. setter_tac. Qed.

Lemma in_range_set_entity_sim_scores st v s :
  in_range_at st s → od_Forall (λ _, unit_interval) v →
  in_range_at st (set_entity_sim_scores v s).
Proof. setter_tac. Qed.

Lemma in_range_set_entity_scores st v s :
  in_range_at st s → od_Forall (λ _, unit_interval) v → in_range_at st (set_entity_scores v s).
Proof. setter_tac. Qed.

Lemma in_range_set_entity_context_scores st v s :
  in_range_at st s → od_Forall (λ _, od_Forall (ctx_ok st)) v →
  in_range_at st (set_entity_context_scores v s).
Proof. setter_tac. Qed.

Lemma in_range_set_cached_cpa_candidates st v s :
  in_range_at st s →
  map_Forall (λ _, Forall (λ r, unit_interval (rel_semantic_proximity r))) v →
  in_range_at st (set_cached_cpa_candidates v s).
Proof. setter_tac. Qed.

Lemma in_range_set_cea_annot st v s :
  in_range_at st s → od_Forall (λ _, Forall (λ c, unit_interval (cea_score c))) v →
  in_range_at st (set_cea_annot v s).
Proof. setter_tac. Qed.

Lemma in_range_set_cta_annot st v s :
  in_range_at st s → od_Forall (λ _, Forall cta_ok) v → in_range_at st (set_cta_annot v s).
Proof. setter_tac. Qed.

Lemma in_range_set_cpa_annot st v s :
  in_range_at st s → od_Forall (λ _, Forall cpa_ok) v → in_range_at st (set_cpa_annot v s).
Proof. setter_tac. Qed.

Lemma in_range_set_potential_candidates st v s :
  in_range_at st s → od_Forall (λ _, Forall (λ p, 0 <= pot_cpa_coeff p)) v →
  in_range_at st (set_potential_candidates v s).
Proof. setter_tac. Qed.

Lemma in_range_set_type_graph st v s : in_range_at st s → in_range_at st (set_type_graph v s).
Proof. setter_tac. Qed.

Lemma in_range_set_unrelated_col_pairs st v s :
  in_range_at st s → in_range_at st (set_unrelated_col_pairs v s).
Proof. setter_tac. Qed.

Lemma in_range_set_cached_cta_candidates st v s :
  in_range_at st s → in_range_at st (set_cached_cta_candidates v s).
Proof. setter_tac. Qed.

Lemma in_range_set_contextless_cells st v s :
  in_range_at st s → in_range_at st (set_contextless_cells v s).
Proof. setter_tac. Qed.

Section projections.
Context {st : Setup} {s : Baseline_Model} (H : in_range_at st s).

Lemma range_setup : setup s = st.
Proof. apply H. Qed.
Lemma range_lookup_scores : od_Forall (λ _, unit_interval) (lookup_scores s).
Proof. apply H. Qed.
Lemma range_entity_sim_scores : od_Forall (λ _, unit_interval) (entity_sim_scores s).
Proof. apply H. Qed.
Lemma range_entity_scores : od_Forall (λ _, unit_interval) (entity_scores s).
Proof. apply H. Qed.
Lemma range_entity_context_scores :
  od_Forall (λ _, od_Forall (ctx_ok st)) (entity_context_scores s).
Proof. apply H. Qed.
Lemma range_cached_cpa_candidates :
  map_Forall (λ _, Forall (λ r, unit_interval (rel_semantic_proximity r)))
             (cached_cpa_candidates s).
Proof. apply H. Qed.
Lemma range_cea_annot :
  od_Forall (λ _, Forall (λ c, unit_interval (cea_score c))) (cea_annot s).
Proof. apply H. Qed.
Lemma range_cta_annot : od_Forall (λ _, Forall cta_ok) (cta_annot s).
Proof. apply H. Qed.
Lemma range_cpa_annot : od_Forall (λ _, Forall cpa_ok) (cpa_annot s).
Proof. apply H. Qed.
Lemma range_potential_candidates :
  od_Forall (λ _, Forall (λ p, 0 <= pot_cpa_coeff p)) (potential_candidates s).
Proof. apply H. Qed.
End projections.

(** *** Literal similarity *)

Section Range.
Context {E : Externals} (sane : sane_externals) (st : Setup).

#[local] Abbreviation Inv := (in_range_at st).

Lemma _literal_similarity_scoring_range : triple Inv _literal_similarity_scoring (λ _, True).
Proof.
  unfold _literal_similarity_scoring. apply triple_get_bind. intros s0 Hs0.
  destruct (lookup_scores s0).
  - apply triple_forM. intros candidate _.
    apply triple_lift_bind. intros mention _. apply triple_lift_bind. intros lbl _.
    apply triple_raise.
  - apply triple_seq.
    + apply triple_forM. intros candidate _. apply triple_get_bind. intros s Hs.
      apply triple_lift_bind. intros sc Hsc%of_option_Ok.
      apply triple_modify; [|done]. intros s' Hs'.
      apply in_range_set_entity_sim_scores; [done|].
      apply od_Forall_set; [apply (range_entity_sim_scores Hs)|].
      by apply (od_Forall_get _ _ _ _ (range_lookup_scores Hs) Hsc).
    + apply triple_modify; [|done]. intros s' Hs'.
      apply in_range_set_lookup_scores; [done|]. apply od_Forall_nil.
Qed.

(** *** Context records *)

Lemma base_weight_entity col : col ∈ entity_cols st → base_weight st col = 1.
Proof. intros Hin. unfold base_weight, mem. by rewrite bool_decide_eq_true_2. Qed.

Lemma base_weight_literal col : col ∈ literal_cols st → 3 # 10 <= base_weight st col.
Proof.
  intros Hin. unfold base_weight, mem. case_bool_decide.
  - unfold semantic_context_weight. lra.
  - rewrite bool_decide_eq_true_2 by done. unfold literal_context_weight. lra.
Qed.

Lemma initial_context_semantic col :
  col ∈ entity_cols st → ctx_ok st col (initial_context semantic_context_weight).
Proof.
  intros Hin. unfold ctx_ok, initial_context. cbn. rewrite (base_weight_entity _ Hin).
  unfold semantic_context_weight. repeat split; lra.
Qed.

Lemma initial_context_literal col :
  col ∈ literal_cols st → ctx_ok st col (initial_context literal_context_weight).
Proof.
  intros Hin%base_weight_literal. unfold ctx_ok, initial_context. cbn.
  unfold literal_context_weight. repeat split; lra.
Qed.

Lemma get_context_range candidate col :
  triple Inv (get_context candidate col) (ctx_ok st col).
Proof.
  unfold get_context. apply triple_get_bind. intros s Hs.
  apply triple_lift_bind. intros ctxs Hctxs%of_option_Ok.
  apply triple_lift. intros ctx Hctx%of_option_Ok.
  pose proof (od_Forall_get _ _ _ _ (range_entity_context_scores Hs) Hctxs) as H.
  by apply (od_Forall_get _ _ _ _ H Hctx).
Qed.

Lemma put_context_range candidate col ctx :
  ctx_ok st col ctx → triple Inv (put_context candidate col ctx) (λ _, True).
Proof.
  intros Hctx. unfold put_context. apply triple_get_bind. intros s Hs.
  apply triple_lift_bind. intros ctxs Hctxs%of_option_Ok.
  apply triple_modify; [|done]. intros s' Hs'.
  apply in_range_set_entity_context_scores; [done|].
  apply od_Forall_set; [apply (range_entity_context_scores Hs)|].
  apply od_Forall_set; [|done].
  by apply (od_Forall_get _ _ _ _ (range_entity_context_scores Hs) Hctxs).
Qed.

Lemma raise_score_range candidate col sc :
  sc <= 1 → triple Inv (raise_score candidate col sc) (λ _, True).
Proof.
  intros Hsc. unfold raise_score.
  eapply triple_bind; [apply get_context_range|]. intros ctx (Hlo & Hhi & Hw).
  apply put_context_range. split; [|split]; cbn; [| |done].
  - eapply Qle_trans; [exact Hlo|apply Q.le_max_l].
  - by apply Q.max_lub.
Qed.

Lemma append_context_range candidate col rel :
  triple Inv (append_context candidate col rel) (λ _, True).
Proof.
  unfold append_context.
  eapply triple_bind; [apply get_context_range|]. intros ctx Hctx.
  by apply put_context_range.
Qed.
End Range.

(** *** Semantic context *)

Lemma Qnat_nonneg n : 0 <= Qnat n.
Proof. unfold Qnat, Qle. cbn. lia. Qed.

Section Range_semantic.
Context {E : Externals} (sane : sane_externals) (st : Setup).

#[local] Abbreviation Inv := (in_range_at st).

Lemma node_popularity_range kb node : unit_interval (node_popularity kb node).
Proof.
  unfold node_popularity. destruct (_ =? _)%nat; [apply unit_interval_0|].
  pose proof (Qnat_nonneg (get_num_edges kb node)) as Hn.
  pose proof (log10_nonneg sane (2 + Qnat (get_num_edges kb node)) ltac:(lra)) as Hl.
  apply unit_interval_div; lra.
Qed.

Lemma path_candidate_range popularity rel_head rel_tail :
  unit_interval popularity → unit_interval (path_candidate popularity rel_head rel_tail).2.
Proof.
  intros Hp. unfold path_candidate.
  assert (unit_interval (popularity / (7 # 4))) as Hdiv.
  { destruct Hp. split.
    - apply Qle_shift_div_l; lra.
    - apply Qle_shift_div_r; lra. }
  repeat case_match; cbn; auto using unit_interval_1.
Qed.

Lemma record_relation_range acc c :
  relations_range acc → unit_interval c.2 → relations_range (record_relation acc c).
Proof.
  destruct acc as [best sps]. intros [Hb Hs] Hc. unfold record_relation. split; cbn.
  - by apply unit_interval_Qmax.
  - apply od_Forall_set; [done|]. apply unit_interval_Qmin; [|done].
    destruct (od_get c.1 sps) eqn:Hget; cbn; [|done].
    by apply (od_Forall_get _ _ _ _ Hs Hget).
Qed.

Lemma multi_hop_range kb G_head G_tail : relations_range (multi_hop kb G_head G_tail).
Proof.
  unfold multi_hop. apply fold_left_Forall.
  { split; [apply unit_interval_0|apply od_Forall_nil]. }
  intros acc node _ Hacc. destruct (Qgtb _ _); [|done].
  apply fold_left_Forall; [done|]. intros acc1 prop_head _ Hacc1.
  apply fold_left_Forall; [done|]. intros acc2 prop_tail _ Hacc2.
  apply record_relation_range; [done|].
  apply path_candidate_range, node_popularity_range.
Qed.

Lemma pair_relations_range s head_id tail_id G_head :
  Inv s → relations_range (pair_relations s head_id tail_id G_head).
Proof.
  intros Hs. unfold pair_relations.
  destruct (cached_cpa_candidates s !! (head_id, tail_id)) as [cands|] eqn:Hc.
  - pose proof (range_cached_cpa_candidates Hs _ _ Hc) as Hcands. cbn in Hcands.
    rewrite Forall_forall in Hcands.
    apply (fold_left_Forall relations_range).
    { split; [apply unit_interval_0|apply od_Forall_nil]. }
    intros [best sps] r Hin [Hb Hsps]. split; cbn.
    + apply unit_interval_Qmax; auto.
    + apply od_Forall_set; auto.
  - destruct (od_get tail_id G_head).
    + split; cbn; [apply unit_interval_1|].
      apply (fold_left_Forall (od_Forall (λ _, unit_interval))); [apply od_Forall_nil|].
      intros sps prop _ Hsps. apply od_Forall_set; [done|apply unit_interval_1].
    + destruct (multiHop_context _); [apply multi_hop_range|].
      split; [apply unit_interval_0|apply od_Forall_nil].
Qed.

Lemma partner_score_range best sim mention :
  unit_interval best → unit_interval sim → partner_score best sim mention <= 1.
Proof.
  intros Hb Hs. unfold partner_score. destruct (Qgeb _ _); [|lra].
  apply Q.max_lub; [lra|]. by apply unit_interval_mult.
Qed.

Lemma semantic_pair_range row_idx head_col tail_col head_mention tail_mention head_id
    G_head tail_id :
  head_col ∈ entity_cols st → tail_col ∈ entity_cols st →
  triple Inv (semantic_pair row_idx head_col tail_col head_mention tail_mention head_id
                            G_head tail_id) (λ _, True).
Proof.
  intros Hhead Htail. unfold semantic_pair. apply triple_get_bind. intros s0 Hs0.
  apply triple_lift_bind. intros tail_ctxs _.
  apply triple_seq.
  { destruct (od_mem _ _); [by apply triple_ret|].
    by apply put_context_range, initial_context_semantic. }
  destruct (decide _); [by apply triple_ret|].
  apply triple_get_bind. intros s Hs.
  pose proof (pair_relations_range s head_id tail_id G_head Hs) as Hrel.
  destruct (pair_relations s head_id tail_id G_head) as [best sps].
  destruct Hrel as [Hbest Hsps]. cbn in Hbest, Hsps.
  destruct (Qgtb best 0); [|by apply triple_ret].
  apply triple_lift_bind. intros sim_tail Hst%of_option_Ok.
  pose proof (od_Forall_get _ _ _ _ (range_entity_sim_scores Hs) Hst) as Hsim_tail.
  apply triple_seq; [by apply raise_score_range, partner_score_range|].
  apply triple_lift_bind. intros sim_head Hsh%of_option_Ok.
  pose proof (od_Forall_get _ _ _ _ (range_entity_sim_scores Hs) Hsh) as Hsim_head.
  apply triple_seq; [by apply raise_score_range, partner_score_range|].
  destruct (_ || _); [|by apply triple_ret].
  apply triple_get_bind. intros s1 Hs1.
  apply triple_seq.
  { destruct (cached_cpa_candidates s1 !! (head_id, tail_id)) eqn:Hc; [by apply triple_ret|].
    apply triple_modify; [|done]. intros s' Hs'.
    apply in_range_set_cached_cpa_candidates; [done|].
    apply map_Forall_insert_2; [|apply (range_cached_cpa_candidates Hs1)].
    apply Forall_map. unfold od_Forall in Hsps. eapply Forall_impl; [exact Hsps|].
    by intros [a_cpa sc] H. }
  apply triple_forM. intros [a_cpa sc] _.
  apply triple_seq; apply append_context_range.
Qed.

Lemma index_elem_of {A} (l : list A) i x : index l i = Ok x → x ∈ l.
Proof. unfold index. intros H%of_option_Ok. by eapply list_elem_of_lookup_2. Qed.

Lemma later_entity_cols_elem_of i col : col ∈ later_entity_cols st i → col ∈ entity_cols st.
Proof. unfold later_entity_cols. apply subseteq_drop. Qed.

Lemma semantic_head_range row_idx i : triple Inv (semantic_head row_idx i) (λ _, True).
Proof.
  unfold semantic_head. apply triple_get_bind. intros s0 Hs0.
  rewrite (range_setup Hs0).
  apply triple_lift_bind. intros head_col Hhead%index_elem_of.
  apply triple_lift_bind. intros head_mention _.
  destruct (default [] _) as [|head_id0 head_ids].
  - apply triple_forM. intros tail_col Htail.
    apply triple_lift_bind. intros tail_mention _.
    apply triple_forM. intros tail_id _.
    by apply put_context_range, initial_context_semantic.
  - apply triple_forM. intros head_id _.
    apply triple_forM. intros tail_col Htail%later_entity_cols_elem_of.
    apply triple_lift_bind. intros tail_mention _.
    apply triple_seq; [by apply put_context_range, initial_context_semantic|].
    destruct (od_get (mkCell row_idx tail_col) _); [|by apply triple_ret].
    apply triple_forM. intros tail_id _. by apply semantic_pair_range.
Qed.
End Range_semantic.

(** *** Literal context *)

Lemma sorted_desc_Forall {A} (P : A → Prop) ltb l : Forall P l → Forall P (sorted_desc ltb l).
Proof. intros H. by rewrite sorted_desc_perm. Qed.

Lemma Qsum_take_2 l : Forall (λ x, x <= 1) l → Qsum (take 2 l) <= 2.
Proof.
  unfold Qsum. destruct l as [|x [|y l]]; cbn [take fold_right]; intros H.
  - lra.
  - apply Forall_cons in H as [? _]. cbv beta in *. lra.
  - apply Forall_cons in H as [? H]. apply Forall_cons in H as [? _]. cbv beta in *.
    rewrite take_0. cbn [foldr]. lra.
Qed.

Lemma dimensionless_quantity_similarity_le s1 s2 :
  dimensionless_quantity_similarity s1 s2 <= 1.
Proof.
  unfold dimensionless_quantity_similarity.
  pose proof (Qabs_nonneg (s1 - s2)). pose proof (Qabs_nonneg s1). pose proof (Qabs_nonneg s2).
  assert (0 <= Qabs (s1 - s2) / (Qabs s1 + Qabs s2 + (1 # 10000))).
  { apply Qle_shift_div_l; lra. }
  lra.
Qed.

Section Range_literal.
Context {E : Externals} (sane : sane_externals) (st : Setup).

#[local] Abbreviation Inv := (in_range_at st).

Lemma textual_similarity_le s1 s2 : textual_similarity s1 s2 <= 1.
Proof.
  unfold textual_similarity. apply Qle_shift_div_r; [lra|].
  eapply Qle_trans; [apply Qsum_take_2|lra].
  apply sorted_desc_Forall.
  pose proof (fuzz_ratio_range sane (lower s1) (lower s2)) as [].
  pose proof (fuzz_token_sort_ratio_range sane (lower s1) (lower s2)) as [].
  pose proof (fuzz_token_set_ratio_range sane (lower s1) (lower s2)) as [].
  repeat constructor; apply Qle_shift_div_r; lra.
Qed.

Lemma date_match_values obj literal_mention is_period q :
  date_match obj literal_mention is_period = Ok q → q = 1 ∨ q = 4 # 5 ∨ q = 0.
Proof.
  unfold date_match. intros H.
  repeat (case_match; try discriminate); injection H as <-; auto.
Qed.

Lemma quantity_match_range literal_col obj literal_mention prop_unit m :
  quantity_match st literal_col obj literal_mention prop_unit = Ok m → match_range m.
Proof.
  unfold quantity_match. intros H.
  destruct (mem _ _); [by injection H as <-|].
  destruct (_ && _); [|by injection H as <-].
  apply rbind_Ok in H as (unit_dim & _ & H).
  repeat (case_match; try discriminate); try (by injection H as <-).
  all: apply rbind_Ok in H as (obj_magnitude & _ & H).
  all: destruct (Qgtb _ _); injection H as <-; [|done].
  all: apply dimensionless_quantity_similarity_le.
Qed.

Lemma literal_edge_match_range literal_col literal_mention obj prop m :
  literal_edge_match st literal_col literal_mention obj prop = Ok m → match_range m.
Proof.
  unfold literal_edge_match. intros H.
  apply rbind_Ok in H as (kind & _ & H).
  destruct (_ && _).
  { apply rbind_Ok in H as (p1 & _ & H). apply rbind_Ok in H as (q & Hq & H).
    destruct (Qeq_bool q 0) eqn:Hz; injection H as <-; [done|].
    apply date_match_values in Hq as [->| [->| ->]]; cbn; [lra|lra|done]. }
  destruct (_ && _).
  { destruct (Qgtb _ _); injection H as <-; [|done]. apply textual_similarity_le. }
  destruct (bool_decide _); [|by injection H as <-].
  apply rbind_Ok in H as (p1 & _ & H). by eapply quantity_match_range.
Qed.

Lemma cache_literal_relation_range entity_id literal_mention a_cpa_candidate :
  triple Inv (cache_literal_relation entity_id literal_mention a_cpa_candidate) (λ _, True).
Proof.
  unfold cache_literal_relation. apply triple_get_bind. intros s Hs.
  apply triple_modify; [|done]. intros s' Hs'.
  apply in_range_set_cached_cpa_candidates; [done|].
  apply map_Forall_insert_2; [|apply (range_cached_cpa_candidates Hs)].
  assert (Forall (λ r, unit_interval (rel_semantic_proximity r))
            (default [] (cached_cpa_candidates s !! (entity_id, literal_mention)))) as Hc.
  { destruct (_ !! _) eqn:Hl; cbn; [|constructor].
    apply (range_cached_cpa_candidates Hs _ _ Hl). }
  destruct (existsb _ _); [done|].
  apply Forall_app. split; [done|]. repeat constructor; cbn; lra.
Qed.

Lemma literal_edge_range entity_candidate literal_col literal_mention obj prop :
  triple Inv (literal_edge entity_candidate literal_col literal_mention obj prop) (λ _, True).
Proof.
  unfold literal_edge. apply triple_get_bind. intros s Hs.
  apply triple_lift_bind. intros m Hm. rewrite (range_setup Hs) in Hm.
  apply literal_edge_match_range in Hm. destruct m as [|q|q]; cbn in Hm.
  - by apply triple_ret.
  - eapply triple_bind; [apply get_context_range|]. intros ctx (_ & _ & Hw1 & Hw2).
    destruct Hm as [Hm1 Hm2].
    apply triple_seq; [apply put_context_range; by split; [|split; [|split]]|].
    apply triple_seq; [apply append_context_range|apply cache_literal_relation_range].
  - apply triple_seq; [by apply raise_score_range|].
    apply triple_seq; [apply append_context_range|apply cache_literal_relation_range].
Qed.

Lemma literal_entity_col_range row_idx entity_col :
  triple Inv (literal_entity_col row_idx entity_col) (λ _, True).
Proof.
  unfold literal_entity_col. apply triple_get_bind. intros s0 Hs0.
  rewrite (range_setup Hs0).
  destruct (od_get _ _); [|by apply triple_ret].
  apply triple_forM. intros entity_id _.
  apply triple_forM. intros literal_col Hlit.
  destruct (_ <? _)%nat; [by apply triple_ret|].
  apply triple_seq; [by apply put_context_range, initial_context_literal|].
  apply triple_lift_bind. intros literal_mention _.
  apply triple_forM. intros [obj props] _.
  apply triple_forM. intros prop _. apply literal_edge_range.
Qed.

Lemma _context_scoring_range : triple Inv _context_scoring (λ _, True).
Proof.
  unfold _context_scoring. apply triple_get_bind. intros s0 Hs0.
  rewrite (range_setup Hs0).
  apply triple_forM. intros row_idx _.
  apply triple_seq; apply triple_forM; intros; [by apply semantic_head_range|].
  apply literal_entity_col_range.
Qed.
End Range_literal.

(** *** Candidate scores *)

Section Range_scoring.
Context {E : Externals} (sane : sane_externals) (st : Setup).

#[local] Abbreviation Inv := (in_range_at st).

Lemma scale_factor_range s first_step col_pair a_context :
  Inv s → unit_interval (scale_factor s first_step col_pair a_context).
Proof.
  intros Hs. unfold scale_factor. destruct first_step; [apply unit_interval_1|].
  destruct (list_find _ _) as [[i a_cpa]|] eqn:Hfind; [|apply unit_interval_0].
  apply list_find_Some in Hfind as (Hi%list_elem_of_lookup_2 & _).
  destruct (od_get col_pair (cpa_annot s)) as [cpas|] eqn:Hget; cbn in Hi; [|by inversion Hi].
  pose proof (od_Forall_get _ _ _ _ (range_cpa_annot Hs) Hget) as Hall. cbn in Hall.
  rewrite Forall_forall in Hall. destruct (Hall _ Hi) as (Hcov & Hprox & _).
  by apply unit_interval_mult.
Qed.

Lemma scaled_score_range s first_step col_pair col a_context :
  Inv s → ctx_ok st col a_context →
  1 # 10 <= scaled_score s first_step col_pair a_context
  ∧ scaled_score s first_step col_pair a_context <= 1.
Proof.
  intros Hs (Hlo & Hhi & _). unfold scaled_score. split; [apply Q.le_max_l|].
  apply Q.max_lub; [lra|].
  apply unit_interval_mult; [by apply scale_factor_range|split; lra].
Qed.

Lemma last_step_context_range candidate col_idx col_pair sc :
  triple Inv (last_step_context candidate col_idx col_pair sc) (λ _, True).
Proof.
  unfold last_step_context. apply triple_get_bind. intros s0 Hs0.
  apply triple_modify_bind; [intros; by apply in_range_set_contextless_cells|].
  apply triple_lift_bind. intros cpas Hcpas%of_option_Ok.
  pose proof (od_Forall_get _ _ _ _ (range_cpa_annot Hs0) Hcpas) as Hall. cbn in Hall.
  rewrite Forall_forall in Hall.
  apply triple_forM. intros a_cpa Hin. apply triple_get_bind. intros s Hs.
  apply triple_lift_bind. intros [|] _; [|by apply triple_ret].
  apply triple_modify; [|done]. intros s' Hs'.
  apply in_range_set_potential_candidates; [done|].
  apply od_Forall_set; [apply (range_potential_candidates Hs)|].
  apply Forall_app. split.
  - destruct (od_get candidate (potential_candidates s)) eqn:Hget; cbn; [|constructor].
    apply (od_Forall_get _ _ _ _ (range_potential_candidates Hs) Hget).
  - repeat constructor. cbn. by destruct (Hall _ Hin) as ([? ?] & _).
Qed.

Lemma context_step_range first_step last_step candidate acc it :
  context_locals_range acc → ctx_ok st it.1 it.2 →
  triple Inv (context_step first_step last_step candidate acc it) context_locals_range.
Proof.
  destruct acc as [[context_score context_weight] max_context_weight].
  destruct it as [col_idx a_context]. intros [Hlo Hhi] Hctx. cbn in Hlo, Hhi, Hctx.
  unfold context_step. apply triple_get_bind. intros s Hs.
  destruct (context_counts _ _); [|by apply triple_ret].
  apply triple_seq.
  { destruct last_step; [apply last_step_context_range|by apply triple_ret]. }
  apply triple_ret.
  pose proof (scaled_score_range s first_step
                (context_col_pair (setup s) candidate col_idx) col_idx a_context Hs Hctx)
    as [Hs1 Hs2].
  destruct Hctx as (_ & _ & Hw1 & Hw2). rewrite (range_setup Hs) in *.
  generalize dependent (scaled_score s first_step (context_col_pair st candidate col_idx)
                                     a_context).
  intros sc Hs1 Hs2. unfold context_locals_range. cbn [fst snd].
  assert (0 <= ctx_weight a_context * sc) by nra.
  assert (ctx_weight a_context * sc <= ctx_weight a_context) by nra.
  split; lra.
Qed.

Lemma mark_contextless_range cell : triple Inv (mark_contextless cell) (λ _, True).
Proof.
  unfold mark_contextless. apply triple_get_bind. intros s Hs.
  destruct (od_mem _ _); [by apply triple_ret|].
  apply triple_modify; [|done]. intros. by apply in_range_set_contextless_cells.
Qed.

Lemma aggregate_context_range first_step last_step candidate contexts :
  od_Forall (ctx_ok st) contexts →
  triple Inv (aggregate_context first_step last_step candidate contexts)
         (λ r, unit_interval r.1).
Proof.
  intros Hctxs. unfold aggregate_context. destruct contexts as [|c0 contexts'] eqn:Hc.
  { apply triple_seq.
    - destruct last_step; [apply mark_contextless_range|by apply triple_ret].
    - apply triple_ret. cbn. split; lra. }
  rewrite <- Hc in *. clear Hc.
  eapply triple_bind.
  { apply (triple_foldM _ context_locals_range); [split; cbn; lra|].
    intros acc it Hin Hacc. apply context_step_range; [done|].
    unfold od_Forall in Hctxs. rewrite Forall_forall in Hctxs. by apply (Hctxs it). }
  intros [[context_score context_weight] max_context_weight] [Hlo Hhi]. cbn in Hlo, Hhi.
  destruct (Qeq_bool context_weight 0) eqn:Hz; apply triple_ret; cbn.
  - split; lra.
  - apply Qeq_bool_false in Hz. apply unit_interval_div; [done|done|].
    apply Qle_lteq in Hhi as [Hlt|Heq]; [lra|].
    apply Qle_lteq in Hlo as [Hlt|Heq']; [lra|]. exfalso. apply Hz. lra.
Qed.

Lemma logistic_denominator_ge sim : 1 <= logistic_denominator sim.
Proof.
  unfold logistic_denominator.
  pose proof (exp_pos sane (- (pow sim (5 # 2) / (1 # 2) - 1) / (1 # 5))). lra.
Qed.

Lemma score_candidate_range first_step last_step candidate :
  triple Inv (score_candidate first_step last_step candidate) (λ _, True).
Proof.
  unfold score_candidate. apply triple_get_bind. intros s0 Hs0.
  destruct (_ && _).
  - apply triple_lift_bind. intros contexts Hctxs%of_option_Ok.
    pose proof (od_Forall_get _ _ _ _ (range_entity_context_scores Hs0) Hctxs) as Hall.
    eapply triple_bind; [by apply aggregate_context_range|].
    intros [context_score max_context_weight] [Hlo Hhi]. cbn in Hlo, Hhi.
    apply triple_get_bind. intros s Hs.
    apply triple_lift_bind. intros sim Hsim%of_option_Ok.
    pose proof (od_Forall_get _ _ _ _ (range_entity_sim_scores Hs) Hsim) as [Hs1 Hs2].
    destruct (Qgtb _ _); apply triple_modify; try done; intros s' Hs';
      apply in_range_set_entity_scores; try done;
      (apply od_Forall_set; [apply (range_entity_scores Hs)|]);
      apply unit_interval_Qred.
    + pose proof (logistic_denominator_ge sim). apply unit_interval_div; lra.
    + split; lra.
  - apply triple_lift_bind. intros sim Hsim%of_option_Ok.
    pose proof (od_Forall_get _ _ _ _ (range_entity_sim_scores Hs0) Hsim) as Hsim'.
    apply triple_modify_bind.
    + intros s' Hs'. apply in_range_set_entity_scores; [done|].
      apply od_Forall_set; [apply (range_entity_scores Hs0)|done].
    + destruct last_step; [apply mark_contextless_range|by apply triple_ret].
Qed.

Lemma entity_scoring_task_range first_step last_step :
  triple Inv (entity_scoring_task first_step last_step) (λ _, True).
Proof.
  unfold entity_scoring_task. apply triple_seq.
  - destruct first_step; [|by apply triple_ret].
    apply triple_seq; [by apply _literal_similarity_scoring_range|].
    by apply _context_scoring_range.
  - apply triple_get_bind. intros s Hs. apply triple_forM. intros candidate _.
    apply score_candidate_range.
Qed.
End Range_scoring.

(** *** Context weights *)

Lemma Qinv_inject_Z_range z : (1 ≤ z)%Z → 0 < / inject_Z z ∧ / inject_Z z <= 1.
Proof.
  intros Hz. assert (1 <= inject_Z z) as H by (rewrite (Zle_Qle 1 z) in Hz; exact Hz).
  split.
  - apply Qinv_lt_0_compat. lra.
  - apply Qle_shift_inv_r; lra.
Qed.

Section Range_weights.
Context {E : Externals} (sane : sane_externals) (st : Setup).

#[local] Abbreviation Inv := (in_range_at st).

Lemma updated_weight_range s candidate col_idx old w :
  Inv s → ctx_ok st col_idx old → updated_weight s candidate col_idx = Ok w →
  0 < w ∧ w <= base_weight st col_idx.
Proof.
  intros Hs (_ & _ & Hold1 & Hold2). unfold updated_weight. rewrite (range_setup Hs).
  assert (mem col_idx (entity_cols st) = false → base_weight st col_idx = 3 # 10) as Hlit.
  { intros Hne. unfold base_weight in *. rewrite Hne in *.
    destruct (mem col_idx (literal_cols st)); [done|]. lra. }
  assert (mem col_idx (entity_cols st) = true → base_weight st col_idx = 1) as Hent.
  { intros He. unfold base_weight. by rewrite He. }
  destruct (od_get _ (cpa_annot s)) as [cpas|] eqn:Hget.
  - intros (first & Hfirst%index_elem_of & H)%rbind_Ok.
    apply rbind_Ok in H as (leftmost & _ & H).
    pose proof (od_Forall_get _ _ _ _ (range_cpa_annot Hs) Hget) as Hall. cbn in Hall.
    rewrite Forall_forall in Hall. destruct (Hall _ Hfirst) as ([Hc1 Hc2] & [Ht1 Ht2] & _).
    destruct (Qinv_inject_Z_range
                (1 + 4 * Z.min (Zabs_diff col_idx leftmost)
                               (Zabs_diff (cand_col candidate) leftmost)))
      as [Hd1 Hd2]; [unfold Zabs_diff; lia|].
    revert Hd1 Hd2 H. generalize (/ inject_Z (1 + 4 * Z.min (Zabs_diff col_idx leftmost)
                                        (Zabs_diff (cand_col candidate) leftmost))).
    intros df Hd1 Hd2 H.
    assert (0 <= cpa_coverage first * cpa_semantic_proximity first) as Hp1 by nra.
    assert (cpa_coverage first * cpa_semantic_proximity first <= 1) as Hp2 by nra.
    assert (0 <= cpa_coverage first * cpa_semantic_proximity first * df) as Hq1 by nra.
    assert (cpa_coverage first * cpa_semantic_proximity first * df <= 1) as Hq2 by nra.
    unfold semantic_context_weight, literal_context_weight in H.
    destruct (mem col_idx (entity_cols st)) eqn:Hmem; injection H as <-.
    + rewrite Hent by done. split.
      * eapply Qlt_le_trans; [|apply Q.le_max_l]. lra.
      * apply Q.max_lub; lra.
    + rewrite Hlit by done. split.
      * eapply Qlt_le_trans; [|apply Q.le_max_l]. lra.
      * apply Q.max_lub; lra.
  - destruct (mem col_idx (entity_cols st)) eqn:Hmem; intros [= <-].
    + rewrite Hent by done. split; lra.
    + rewrite Hlit by done. split; lra.
Qed.

Lemma update_context_weight_range onlyLiteralContext :
  triple Inv (update_context_weight onlyLiteralContext) (λ _, True).
Proof.
  unfold update_context_weight. apply triple_get_bind. intros s0 Hs0.
  destruct onlyLiteralContext; cbn [negb].
  - apply triple_forM. intros literal_col _.
    eapply (triple_bind _ _ _ (λ _, True)).
    { apply (triple_foldM _ (λ _, True)); [done|]. intros acc entity_col _ _.
      unfold match_entity_col.
      apply triple_modify_bind; [intros; by apply in_range_set_unrelated_col_pairs|].
      apply triple_get_bind. intros s Hs.
      destruct (od_get _ _); [|by apply triple_ret].
      apply triple_lift_bind. intros first _. destruct (Qgtb _ _); by apply triple_ret. }
    intros r _. destruct r.2; [|by apply triple_ret].
    apply triple_get_bind. intros s Hs. apply triple_lift_bind. intros l _.
    apply triple_modify; [|done]. intros. by apply in_range_set_unrelated_col_pairs.
  - apply triple_forM. intros [candidate contexts] _.
    apply triple_forM. intros col_idx _.
    apply triple_get_bind. intros s Hs.
    eapply triple_bind; [apply get_context_range|]. intros a_context Hctx.
    apply triple_lift_bind. intros w Hw.
    apply put_context_range.
    destruct (updated_weight_range _ _ _ _ _ Hs Hctx Hw) as [Hw1 Hw2].
    destruct Hctx as (Hc1 & Hc2 & _). by split; [|split; [|split]].
Qed.
End Range_weights.

(** *** Cell-entity annotation *)

Lemma Qsum_nonneg l : Forall (λ x, 0 <= x) l → 0 <= Qsum l.
Proof.
  unfold Qsum. induction 1 as [|x l Hx Hl IH]; cbn [fold_right]; [lra|].
  cbv beta in *. lra.
Qed.

Lemma np_mean_nonneg l : Forall (λ x, 0 <= x) l → 0 <= np_mean l.
Proof.
  intros Hl. unfold np_mean. destruct l as [|x l'] eqn:Heq; [lra|]. rewrite <- Heq in *.
  apply Qle_shift_div_l; [|rewrite Qmult_0_l; by apply Qsum_nonneg].
  rewrite Heq. unfold Qlt. cbn. lia.
Qed.

Lemma py_max_nonneg l q : Forall (λ x, 0 <= x) l → py_max l = Ok q → 0 <= q.
Proof.
  destruct l as [|x l]; [done|]. intros [Hx Hl]%Forall_cons [= <-].
  apply (fold_left_Forall (λ q, 0 <= q)); [done|].
  intros b y Hin Hb. eapply Qle_trans; [exact Hb|apply Q.le_max_l].
Qed.

Lemma Forall_filter_keep {A} (P : A → Prop) (Q : A → Prop) `{∀ x, Decision (Q x)} l :
  Forall P l → Forall P (filter Q l).
Proof.
  rewrite !Forall_forall. intros Hl x [_ Hin]%list_elem_of_filter. by apply Hl.
Qed.

Section Range_cea.
Context (st : Setup).

#[local] Abbreviation Inv := (in_range_at st).

Lemma cta_disambiguation_step_range s a_cta scores c r :
  od_Forall (λ _, unit_interval) scores → unit_interval (cta_score a_cta) →
  cta_disambiguation_step s a_cta scores c = Ok r → od_Forall (λ _, unit_interval) r.
Proof.
  intros Hscores Hcta. unfold cta_disambiguation_step.
  set (scores' := if od_mem (cea_id c) scores then scores else od_set (cea_id c) 0 scores).
  assert (od_Forall (λ _, unit_interval) scores') as Hscores'.
  { subst scores'. destruct (od_mem _ _); [done|].
    apply od_Forall_set; [done|apply unit_interval_0]. }
  assert (unit_interval (default 0 (od_get (cea_id c) scores'))) as Hcur.
  { destruct (od_get _ scores') eqn:Hget; cbn; [|apply unit_interval_0].
    apply (od_Forall_get _ _ _ _ Hscores' Hget). }
  assert (∀ lvl, unit_interval lvl →
            od_Forall (λ _, unit_interval)
              (od_set (cea_id c) (Qmax (default 0 (od_get (cea_id c) scores'))
                                       (lvl * cta_score a_cta)) scores')) as Hset.
  { intros lvl Hlvl. apply od_Forall_set; [done|].
    apply unit_interval_Qmax; [done|]. by apply unit_interval_mult. }
  clearbody scores'.
  intros (h & _ & H)%rbind_Ok. apply rbind_Ok in H as (level_1 & _ & H).
  destruct (od_mem _ level_1).
  { injection H as <-. apply Hset. unfold first_level. split; lra. }
  apply rbind_Ok in H as (level_2 & _ & H). destruct (_ || _).
  { injection H as <-. apply Hset. unfold second_level. split; lra. }
  apply rbind_Ok in H as (level_3 & _ & H). destruct (_ || _); injection H as <-; [|done].
  apply Hset. unfold third_level. split; lra.
Qed.

Lemma cta_disambiguation_cta_range cands acc a_cta :
  disambiguation_range acc → cta_ok a_cta →
  triple Inv (cta_disambiguation_cta cands acc a_cta) disambiguation_range.
Proof.
  destruct acc as [scores weights]. intros [Hsc Hw] [Hcta Hcov]. cbn in Hsc, Hw.
  unfold cta_disambiguation_cta. apply triple_get_bind. intros s0 Hs0.
  apply triple_seq.
  { destruct (type_graph s0 !! _); [by apply triple_ret|].
    apply triple_modify; [|done]. intros. by apply in_range_set_type_graph. }
  apply triple_get_bind. intros s Hs. apply triple_lift_bind. intros r Hr.
  apply triple_ret. split; cbn.
  - revert Hr. apply foldR_Forall; [done|]. intros b x b' _ Hb.
    by apply cta_disambiguation_step_range.
  - apply Forall_app. split; [done|]. by repeat constructor.
Qed.

Lemma cta_disambiguation_range_ok col cands :
  triple Inv (cta_disambiguation col cands) (λ r, disambiguation_range (r.1.2, r.2)).
Proof.
  unfold cta_disambiguation. apply triple_get_bind. intros s Hs.
  pose proof (range_cta_annot Hs) as Hcta. unfold od_Forall in Hcta.
  rewrite Forall_forall in Hcta.
  apply (triple_foldM _ (λ r, disambiguation_range (r.1.2, r.2))).
  { split; constructor. }
  intros [[applied scores] weights] [column cta_list] Hin Hacc.
  destruct (decide _); [|by apply triple_ret].
  eapply triple_bind.
  - apply (triple_foldM _ disambiguation_range); [exact Hacc|].
    intros acc a_cta Hcin Hacc'. apply cta_disambiguation_cta_range; [done|].
    pose proof (Hcta _ Hin) as Hl. cbn in Hl. rewrite Forall_forall in Hl. by apply Hl.
  - intros [scores' weights'] Hr. by apply triple_ret.
Qed.

Lemma cpa_boost_range s row col c c' :
  Inv s → cea_range c → cpa_boost s row col c = Ok c' → cea_range c'.
Proof.
  intros Hs [Hc1 Hc2]. unfold cpa_boost.
  destruct (od_get _ _) as [pots|] eqn:Hget; [|by intros [= <-]].
  intros (coeff & Hmax & [= <-])%rbind_Ok.
  pose proof (od_Forall_get _ _ _ _ (range_potential_candidates Hs) Hget) as Hpots.
  cbn in Hpots. apply (py_max_nonneg (map pot_cpa_coeff pots)) in Hmax;
    [|by apply Forall_map].
  split; cbn.
  - apply Q.min_glb; [lra|nra].
  - apply Q.le_min_l.
Qed.

Lemma cta_coefficient_range s row col weights cands coeff cands1 :
  Inv s → Forall (λ x, 0 <= x) weights → Forall cea_range cands →
  cta_coefficient s row col weights cands = Ok (coeff, cands1) →
  0 <= coeff ∧ Forall cea_range cands1.
Proof.
  intros Hs Hw Hc. unfold cta_coefficient. pose proof (np_mean_nonneg _ Hw) as Hm.
  destruct (soft_scoring _); [|intros [= <- <-]; split; [lra|done]].
  destruct (is_contextless _ _).
  - intros (boosted & Hb & [= <- <-])%rbind_Ok. split; [done|].
    revert Hb. apply foldR_Forall; [constructor|].
    intros acc c acc' Hin Hacc (c' & Hc' & [= <-])%rbind_Ok.
    apply Forall_app. split; [done|]. apply Forall_singleton.
    rewrite Forall_forall in Hc. by eapply cpa_boost_range; [| |exact Hc']; auto.
  - intros [= <- <-]. split; [|done]. apply Qle_shift_div_l; lra.
Qed.

Lemma cea_final_score_range applied coeff scores c c' :
  0 <= coeff → od_Forall (λ _, unit_interval) scores → cea_range c →
  cea_final_score applied coeff scores c = Ok c' → cea_range c'.
Proof.
  intros Hcoeff Hscores [Hc1 Hc2]. unfold cea_final_score. destruct applied.
  - intros (bonus & Hb%of_option_Ok & [= <-])%rbind_Ok.
    destruct (od_Forall_get _ _ _ _ Hscores Hb) as [Hb1 Hb2].
    apply unit_interval_Qred. apply unit_interval_div; [nra|nra|lra].
  - intros [= <-]. apply unit_interval_Qred. apply unit_interval_div; lra.
Qed.

Lemma initial_cea_candidates_range s row col ids :
  Inv s → Forall cea_range (initial_cea_candidates s row col ids).
Proof.
  intros Hs. unfold initial_cea_candidates. apply Forall_flat_map, Forall_forall.
  intros candidate_id _. destruct (od_get _ _) eqn:Hget; [|constructor].
  apply Forall_singleton. apply (od_Forall_get _ _ _ _ (range_entity_scores Hs) Hget).
Qed.

Lemma top_score_group_Forall (P : cea → Prop) l : Forall P l → Forall P (top_score_group l).
Proof.
  intros H. unfold top_score_group. destruct l as [|top l'] eqn:Heq; [done|].
  rewrite <- Heq in *. by apply Forall_filter_keep.
Qed.

Lemma cea_task_range col row only_one : triple Inv (cea_task col row only_one) (λ _, True).
Proof.
  unfold cea_task. apply triple_get_bind. intros s0 Hs0.
  destruct (od_get _ _) as [ids|]; [|by apply triple_ret].
  pose proof (initial_cea_candidates_range s0 row col ids Hs0) as Hcands.
  destruct (initial_cea_candidates s0 row col ids) as [|c0 cands0] eqn:Hinit;
    [by apply triple_ret|].
  rewrite <- Hinit in *. clear Hinit.
  eapply (triple_bind _ _ _ (λ r, disambiguation_range (r.1.2, r.2))).
  { destruct (cta_annot s0); [apply triple_ret; split; constructor|].
    apply cta_disambiguation_range_ok. }
  intros [[applied scores] weights] [Hscores Hweights]. cbn in Hscores, Hweights.
  apply triple_get_bind. intros s Hs.
  apply triple_lift_bind. intros [coeff cands1] Hcc.
  assert (0 <= coeff ∧ Forall cea_range cands1) as [Hcoeff Hcands1].
  { destruct applied; [by eapply cta_coefficient_range|].
    injection Hcc as <- <-. split; [lra|done]. }
  apply triple_lift_bind. intros scored Hscored.
  assert (Forall cea_range scored) as Hsc.
  { revert Hscored. apply foldR_Forall; [constructor|].
    intros acc c acc' Hin Hacc (c' & Hc' & [= <-])%rbind_Ok.
    apply Forall_app. split; [done|]. apply Forall_singleton.
    rewrite Forall_forall in Hcands1. eapply cea_final_score_range; [| | |exact Hc']; auto. }
  apply triple_modify_bind; [|by apply triple_ret].
  intros s' Hs'. apply in_range_set_cea_annot; [done|].
  apply od_Forall_set; [apply (range_cea_annot Hs)|].
  destruct only_one; [apply top_score_group_Forall|]; by apply sorted_desc_Forall.
Qed.
End Range_cea.

(** *** Column-type annotation *)

Lemma Qnat_S n : Qnat (n + 1) == Qnat n + 1.
Proof. unfold Qnat. rewrite Nat2Z.inj_add, inject_Z_plus. reflexivity. Qed.

Lemma Qnat_le n (z : Z) : (Z.of_nat n ≤ z)%Z → Qnat n <= inject_Z z.
Proof. intros H. unfold Qnat. by rewrite <- Zle_Qle. Qed.

Lemma od_elem_of_get {K V} `{EqDecision K} (k : K) (v : V) d :
  NoDup (od_keys d) → (k, v) ∈ d → od_get k d = Some v.
Proof.
  induction d as [|[k' v'] d IH]; cbn; intros Hd Hin; [by apply elem_of_nil in Hin|].
  apply NoDup_cons in Hd as [Hk Hd]. apply elem_of_cons in Hin as [[= <- <-]|Hin].
  - by rewrite decide_True.
  - rewrite decide_False; [by apply IH|]. intros ->. apply Hk.
    apply list_elem_of_fmap. by exists (k, v).
Qed.

Lemma level_score_range lvl sc old :
  unit_interval lvl → unit_interval sc → unit_interval old →
  unit_interval (lvl * sc) ∧ unit_interval (Qmax old (lvl * sc)).
Proof.
  intros. assert (unit_interval (lvl * sc)) by by apply unit_interval_mult.
  split; [done|]. by apply unit_interval_Qmax.
Qed.

Lemma first_level_range : unit_interval first_level.
Proof. unfold first_level. split; lra. Qed.
Lemma second_level_range : unit_interval second_level.
Proof. unfold second_level. split; lra. Qed.
Lemma third_level_range : unit_interval third_level.
Proof. unfold third_level. split; lra. Qed.

Lemma cta_level_1_range sc acc it acc' :
  unit_interval sc → row_types_range acc.1 →
  cta_level_1 sc acc it = Ok acc' → row_types_range acc'.1.
Proof.
  destruct acc as [row t1], it as [t rank]. intros Hsc Hrow. unfold cta_level_1.
  destruct (od_get t row) as [old|] eqn:Hget; intros (r0 & _ & [= <-])%rbind_Ok;
    apply od_Forall_set; try done; cbn.
  - apply level_score_range; [apply first_level_range|done|].
    apply (od_Forall_get _ _ _ _ Hrow Hget).
  - by apply unit_interval_mult; [apply first_level_range|].
Qed.

Lemma cta_level_2_range sc t1 row it row' :
  unit_interval sc → row_types_range row →
  cta_level_2 sc t1 row it = Ok row' → row_types_range row'.
Proof.
  destruct it as [t rank]. intros Hsc Hrow. unfold cta_level_2.
  destruct (od_get t row) as [old|] eqn:Hget.
  - intros (t1' & _ & H)%rbind_Ok. apply rbind_Ok in H as (old1 & _ & H).
    apply rbind_Ok in H as (r0 & _ & [= <-]). apply od_Forall_set; [done|]. cbn.
    apply level_score_range; [apply second_level_range|done|].
    apply (od_Forall_get _ _ _ _ Hrow Hget).
  - intros (r0 & _ & [= <-])%rbind_Ok. apply od_Forall_set; [done|]. cbn.
    by apply unit_interval_mult; [apply second_level_range|].
Qed.

Lemma cta_level_3_range sc row it row' :
  unit_interval sc → row_types_range row →
  cta_level_3 sc row it = Ok row' → row_types_range row'.
Proof.
  destruct it as [t rank]. intros Hsc Hrow. unfold cta_level_3.
  destruct (od_get t row) as [old|] eqn:Hget; intros (r0 & _ & [= <-])%rbind_Ok;
    apply od_Forall_set; try done; cbn.
  - apply level_score_range; [apply third_level_range|done|].
    apply (od_Forall_get _ _ _ _ Hrow Hget).
  - by apply unit_interval_mult; [apply third_level_range|].
Qed.

Lemma cta_merge_row_range ct row :
  type_stats_range ct → row_types_range row → type_stats_range (cta_merge_row ct row).
Proof.
  intros Hct Hrow. unfold cta_merge_row. apply fold_left_Forall; [done|].
  intros ct' [t rt] Hin [Hd Hct'].
  pose proof (od_Forall_elem_of _ _ _ _ Hrow Hin) as [Hr1 Hr2]. cbn in Hr1, Hr2.
  destruct (od_get t ct') as [st0|] eqn:Hget.
  - split; [by apply od_set_NoDup|]. apply od_Forall_set; [done|]. cbn.
    destruct (od_Forall_get _ _ _ _ Hct' Hget) as [H1 H2]. rewrite Qnat_S. split; lra.
  - split; [by apply od_set_NoDup|]. apply od_Forall_set; [done|]. cbn.
    split; [done|]. change (Qnat 1) with 1. done.
Qed.

Section Range_cta.
Context (st : Setup).

#[local] Abbreviation Inv := (in_range_at st).

Lemma cta_cea_range acc c :
  row_types_range acc.1 → cea_range c →
  triple Inv (cta_cea acc c) (λ r, row_types_range r.1).
Proof.
  intros Hacc Hc. unfold cta_cea. apply triple_get_bind. intros s Hs.
  eapply (triple_bind _ _ _ (λ _, True)).
  { destruct (cached_cta_candidates s !! _); [by apply triple_ret|].
    apply triple_modify_bind; [|by apply triple_ret].
    intros. by apply in_range_set_cached_cta_candidates. }
  intros h _. apply triple_lift. intros r H.
  apply rbind_Ok in H as (level_1 & _ & H). apply rbind_Ok in H as (acc1 & H1 & H).
  apply rbind_Ok in H as (level_2 & _ & H). apply rbind_Ok in H as (row2 & H2 & H).
  apply rbind_Ok in H as (level_3 & _ & H). apply rbind_Ok in H as (row3 & H3 & [= <-]).
  cbn [fst].
  revert H3. apply foldR_Forall; [|intros ?????; by apply cta_level_3_range].
  revert H2. apply foldR_Forall; [|intros ?????; by apply cta_level_2_range].
  revert H1. apply (foldR_Forall (λ acc, row_types_range acc.1)); [done|].
  intros ?????; by apply cta_level_1_range.
Qed.

Lemma cta_row_range col acc row :
  type_stats_range acc.1 → triple Inv (cta_row col acc row) (λ r, type_stats_range r.1).
Proof.
  intros Hacc. unfold cta_row. apply triple_get_bind. intros s Hs.
  destruct (od_get _ _) as [ceas|] eqn:Hget; [|by apply triple_ret].
  pose proof (od_Forall_get _ _ _ _ (range_cea_annot Hs) Hget) as Hceas. cbn in Hceas.
  rewrite Forall_forall in Hceas.
  eapply triple_bind.
  - apply (triple_foldM _ (λ r, row_types_range r.1)); [constructor|].
    intros b c Hin Hb. apply cta_cea_range; [done|]. by apply Hceas.
  - intros r Hr. apply triple_ret. by apply cta_merge_row_range.
Qed.

Lemma cta_record_range (ct : string * type_stat) :
  0 <= total_scores ct.2 → total_scores ct.2 <= Qnat (count ct.2) →
  (Z.of_nat (count ct.2) ≤ num_data_rows st)%Z → (0 < num_data_rows st)%Z →
  cta_ok (cta_record st ct).
Proof.
  intros H1 H2 H3%Qnat_le H4. unfold cta_record, cta_ok. cbn.
  assert (0 < inject_Z (num_data_rows st)) as Hn by (by rewrite <- (Zlt_Qlt 0)).
  pose proof (Qnat_nonneg (count ct.2)). split.
  - apply unit_interval_Qred, unit_interval_div; lra.
  - rewrite Qred_correct. apply Qle_shift_div_l; lra.
Qed.

Lemma cta_select_range only_one sorted threshold :
  Forall (λ ct, cta_ok (cta_record st ct)) sorted →
  Forall cta_ok (cta_select st only_one sorted threshold).
Proof.
  intros Hs. unfold cta_select. destruct only_one.
  - apply fold_left_Forall.
    + apply Forall_map. by apply Forall_filter_keep.
    + intros annot ct Hin Hannot. destruct (_ && _); [|done].
      apply Forall_app. split; [done|]. apply Forall_singleton.
      rewrite Forall_forall in Hs. by apply Hs.
  - apply Forall_map. by apply Forall_filter_keep.
Qed.

Lemma cta_task_range col only_one : triple Inv (cta_task col only_one) (λ _, True).
Proof.
  intros s Hs. split; [|done]. unfold cta_task, mbind, mget.
  pose proof (triple_foldM Inv (λ r, type_stats_range r.1) (cta_row col) ([], None)
                (data_rows (setup s)) ltac:(split; constructor)
                ltac:(intros; by apply cta_row_range) s Hs) as [Hs1 Hr].
  destruct (foldM (cta_row col) ([], None) (data_rows (setup s)) s) as [[r|e] s1] eqn:Hfold;
    cbn [fst snd] in *; [|done].
  specialize (Hr _ eq_refl).
  destruct (sorted_desc cta_key_ltb r.1) as [|top rest] eqn:Hsorted; [done|].
  cbn. apply in_range_set_cta_annot; [done|].
  apply od_Forall_set; [apply (range_cta_annot Hs1)|].
  rewrite (range_setup Hs1). rewrite (range_setup Hs) in Hfold.
  apply cta_select_range. rewrite <- Hsorted. apply sorted_desc_Forall.
  apply Forall_forall. intros [t stat] Hin.
  destruct (data_rows st) as [|row rows] eqn:Hrows.
  { cbn [foldM] in Hfold. injection Hfold as <- <-. by apply elem_of_nil in Hin. }
  destruct Hr as [Hd Hr]. pose proof (od_Forall_elem_of _ _ _ _ Hr Hin) as [Ht1 Ht2].
  cbn in Ht1, Ht2.
  pose proof (cta_rows_count _ _ _ _ _ _ 0 Hfold ltac:(done) t stat
                (od_elem_of_get _ _ _ Hd Hin)) as Hcount.
  pose proof (data_rows_length st) as Hlen. rewrite Hrows in Hlen.
  specialize (Hlen ltac:(done)).
  apply cta_record_range; cbn [snd]; [done|done|lia|]. cbn [length] in Hlen. lia.
Qed.
End Range_cta.

(** *** Column-pair annotation *)

Lemma od_set_length_le {K V} `{EqDecision K} (k : K) (v : V) d :
  (length (od_set k v d) ≤ S (length d))%nat.
Proof.
  induction d as [|[k' v'] d IH]; cbn; [lia|]. destruct (decide (k' = k)); cbn; lia.
Qed.

Lemma fold_left_idx {X B} (P : nat → B → Prop) (f : B → X → B) l b i :
  P i b → (∀ j b x, x ∈ l → P j b → P (S j) (f b x)) → P (i + length l)%nat (fold_left f l b).
Proof.
  revert b i. induction l as [|x l IH]; intros b i Hb Hf; cbn [fold_left length].
  - by rewrite Nat.add_0_r.
  - replace (i + S (length l))%nat with (S i + length l)%nat by lia.
    apply IH; [apply Hf; [left|done]|]. intros. apply Hf; [by right|done].
Qed.

Lemma rel_stats_range_mono k k' cc : (k ≤ k')%nat → rel_stats_range k cc → rel_stats_range k' cc.
Proof.
  intros Hk [Hd H]. split; [done|]. intros t st Hget.
  destruct (H _ _ Hget) as (? & ? & ?). repeat split; try done; try apply H1. lia.
Qed.

Lemma cpa_merge_row_range k cc row :
  rel_stats_range k cc → row_rels_range row → rel_stats_range (S k) (cpa_merge_row cc row).
Proof.
  intros Hcc [Hd Hrow]. unfold cpa_merge_row.
  set (J := λ (rest : odict string row_rel) (cc' : odict string rel_stat),
         NoDup (od_keys cc')
         ∧ ∀ t st, od_get t cc' = Some st →
                   rel_stat_range (S k) st ∧ (t ∈ od_keys rest → (rs_count st ≤ k)%nat)).
  assert (J row cc) as HJ.
  { destruct Hcc as [Hdc Hc]. split; [done|]. intros t st Hget.
    destruct (Hc _ _ Hget) as (? & ? & ?). repeat split; try done; try apply H0; lia. }
  assert (∀ rest cc', NoDup (od_keys rest) →
            od_Forall (λ _ rr, unit_interval (rr_semantic_proximity rr)
                               ∧ unit_interval (rr_score rr)) rest →
            J rest cc' →
            J [] (fold_left (λ cc0 '(prop, score_info),
                    match od_get prop cc0 with
                    | Some st =>
                        od_set prop
                          {| rs_count := rs_count st + 1;
                             rs_total_scores := rs_total_scores st + rr_score score_info;
                             rs_semantic_proximity :=
                               Qmin (rs_semantic_proximity st)
                                    (rr_semantic_proximity score_info) |} cc0
                    | None =>
                        od_set prop
                          {| rs_count := 1; rs_total_scores := rr_score score_info;
                             rs_semantic_proximity := rr_semantic_proximity score_info |} cc0
                    end) rest cc')) as Hind.
  { clear. induction rest as [|[u rr] rest IH]; intros cc' Hd Hrest HJ; cbn [fold_left];
      [done|].
    cbn [od_keys map fst] in Hd. apply NoDup_cons in Hd as [Hu Hd].
    apply Forall_cons in Hrest as [[[Hp1 Hp2] [Hs1 Hs2]] Hrest]. cbn in Hp1, Hp2, Hs1, Hs2.
    destruct HJ as [Hdc HJ]. apply IH; [done|done|].
    destruct (od_get u cc') as [st0|] eqn:Hget.
    - split; [by apply od_set_NoDup|]. intros t st. rewrite od_get_set.
      destruct (decide (u = t)) as [<-|Hne].
      + intros [= <-]. destruct (HJ _ _ Hget) as ((Ht & Hpr & _) & Hk).
        specialize (Hk ltac:(left)). split; [|done]. split; [cbn; lra|]. split; cbn.
        * by apply unit_interval_Qmin.
        * lia.
      + intros Hget'. destruct (HJ _ _ Hget') as [Hst Hk]. split; [done|].
        intros Hin. apply Hk. by right.
    - split; [by apply od_set_NoDup|]. intros t st. rewrite od_get_set.
      destruct (decide (u = t)) as [<-|Hne].
      + intros [= <-]. split; [|done]. split; [done|]. split; cbn; [done|lia].
      + intros Hget'. destruct (HJ _ _ Hget') as [Hst Hk]. split; [done|].
        intros Hin. apply Hk. by right. }
  destruct (Hind row cc Hd Hrow HJ) as [Hd' H']. split; [done|].
  intros t st Hget. by destruct (H' _ _ Hget) as [? _].
Qed.

Section Range_cpa.
Context (st : Setup).

#[local] Abbreviation Inv := (in_range_at st).

Lemma cpa_pair_range s head_candidate tail_candidate rel :
  Inv s → cea_range head_candidate → cea_range tail_candidate →
  row_rels_range rel → row_rels_range (cpa_pair s head_candidate tail_candidate rel).
Proof.
  intros Hs Hh Ht Hrel. unfold cpa_pair.
  assert (unit_interval (Qmax (cea_score head_candidate) (cea_score tail_candidate))) as Hconf
    by by apply unit_interval_Qmax.
  assert (Forall (λ r, unit_interval (rel_semantic_proximity r))
            (default [] (cached_cpa_candidates s
                           !! (cea_id head_candidate, cea_id tail_candidate)))) as Hc.
  { destruct (_ !! _) eqn:Hl; cbn; [|constructor].
    apply (range_cached_cpa_candidates Hs _ _ Hl). }
  rewrite Forall_forall in Hc.
  apply fold_left_Forall; [done|]. intros rel' r Hin [Hd Hrel'].
  pose proof (Hc _ Hin) as Hp.
  destruct (od_get (rel_id r) rel') as [old|] eqn:Hget.
  - destruct (od_Forall_get _ _ _ _ Hrel' Hget) as [Ho1 Ho2].
    split; [by apply od_set_NoDup|]. apply od_Forall_set; [done|]. cbn. split.
    + by apply unit_interval_Qmin.
    + apply unit_interval_Qmax; [done|]. by apply unit_interval_mult.
  - split; [by apply od_set_NoDup|]. apply od_Forall_set; [done|]. cbn. split; [done|].
    by apply unit_interval_mult.
Qed.

Lemma cpa_row_relations_range s heads tails :
  Inv s → Forall cea_range heads → Forall cea_range tails →
  row_rels_range (cpa_row_relations s heads tails).
Proof.
  intros Hs Hh Ht. rewrite Forall_forall in Hh, Ht. unfold cpa_row_relations.
  apply fold_left_Forall; [split; constructor|]. intros rel h Hin Hrel.
  apply fold_left_Forall; [done|]. intros rel' t Hin' Hrel'.
  apply cpa_pair_range; auto.
Qed.

Lemma cpa_collect_range s head_cells tail_cells :
  Inv s → cells_range head_cells → cells_range tail_cells →
  rel_stats_range (length head_cells) (cpa_collect s head_cells tail_cells).
Proof.
  intros Hs Hh Ht. unfold cpa_collect.
  apply (fold_left_idx rel_stats_range _ head_cells [] 0).
  { split; [constructor|]. intros t stat' H. discriminate H. }
  intros j cc [row heads] Hin Hcc.
  destruct (od_get row tail_cells) as [tails|] eqn:Hget.
  - apply cpa_merge_row_range; [done|].
    apply cpa_row_relations_range; [done| |].
    + apply (od_Forall_elem_of _ _ _ _ Hh Hin).
    + apply (od_Forall_get _ _ _ _ Ht Hget).
  - eapply rel_stats_range_mono; [|exact Hcc]. lia.
Qed.

Lemma cpa_cells_range s head_col tail_col cells :
  Inv s → cpa_cells s head_col tail_col = Ok cells →
  cells_range cells.1 ∧ cells_range cells.2
  ∧ (length cells.1 ≤ length (data_rows (setup s)))%nat.
Proof.
  intros Hs. unfold cpa_cells.
  set (P := λ (j : nat) (c : odict nat (list cea) * odict nat (list cea)),
         cells_range c.1 ∧ cells_range c.2 ∧ (length c.1 ≤ j)%nat).
  enough (∀ rows acc j r, P j acc →
            foldR (λ '(head_cells, tail_cells) row_index,
                let head_cells' :=
                  match od_get (mkCell row_index head_col) (cea_annot s) with
                  | Some l => od_set row_index l head_cells
                  | None => head_cells
                  end in
                if mem tail_col (entity_cols (setup s))
                then Ok (head_cells',
                         match od_get (mkCell row_index tail_col) (cea_annot s) with
                         | Some l => od_set row_index l tail_cells
                         | None => tail_cells
                         end)
                else mention <~ table_cell (setup s) row_index tail_col ;;
                     Ok (head_cells', od_set row_index [mkCea mention 0] tail_cells))
              acc rows = Ok r → P (j + length rows)%nat r) as Hind.
  { intros H. apply (Hind _ ([], []) 0%nat); [|done]. split; [constructor|].
    split; [constructor|]. cbn. lia. }
  induction rows as [|row rows IH]; intros [head_cells tail_cells] j r HP; cbn [foldR length].
  { intros [= <-]. by rewrite Nat.add_0_r. }
  intros (acc' & Hstep & Hrest)%rbind_Ok.
  replace (j + S (length rows))%nat with (S j + length rows)%nat by lia.
  eapply IH; [|exact Hrest]. clear IH Hrest. destruct HP as (Hh & Ht & Hlen).
  cbn in Hh, Ht, Hlen.
  assert (cells_range (match od_get (mkCell row head_col) (cea_annot s) with
                       | Some l => od_set row l head_cells
                       | None => head_cells
                       end)
          ∧ (length (match od_get (mkCell row head_col) (cea_annot s) with
                     | Some l => od_set row l head_cells
                     | None => head_cells
                     end) ≤ S j)%nat) as [Hh' Hlen'].
  { destruct (od_get (mkCell row head_col) _) eqn:Hget; [|split; [done|lia]]. split.
    - apply od_Forall_set; [done|]. apply (od_Forall_get _ _ _ _ (range_cea_annot Hs) Hget).
    - pose proof (od_set_length_le row l head_cells). lia. }
  destruct (mem tail_col _).
  - injection Hstep as <-. split; [done|]. split; [|done]. cbn.
    destruct (od_get (mkCell row tail_col) _) eqn:Hget; [|done].
    apply od_Forall_set; [done|]. apply (od_Forall_get _ _ _ _ (range_cea_annot Hs) Hget).
  - apply rbind_Ok in Hstep as (mention & _ & [= <-]). split; [done|]. split; [|done]. cbn.
    apply od_Forall_set; [done|]. apply Forall_singleton. apply unit_interval_0.
Qed.

Lemma cpa_record_range k (c : string * rel_stat) :
  rel_stat_range k c.2 → (Z.of_nat k ≤ num_data_rows st)%Z → (0 < num_data_rows st)%Z →
  cpa_ok (cpa_record st c).
Proof.
  intros (Ht & Hp & Hc) Hk Hn. unfold cpa_record, cpa_ok. cbn.
  assert (0 < inject_Z (num_data_rows st)) as Hn' by (by rewrite <- (Zlt_Qlt 0)).
  pose proof (Qnat_nonneg (rs_count c.2)).
  assert (Qnat (rs_count c.2) <= inject_Z (num_data_rows st)) by (apply Qnat_le; lia).
  split; [|split].
  - apply unit_interval_Qred, unit_interval_div; lra.
  - by apply unit_interval_Qred.
  - rewrite Qred_correct. apply Qle_shift_div_l; lra.
Qed.

Lemma cpa_task_range head_col tail_col only_one :
  triple Inv (cpa_task head_col tail_col only_one) (λ _, True).
Proof.
  unfold cpa_task. apply triple_get_bind. intros s Hs.
  destruct (_ || _); [by apply triple_ret|].
  apply triple_lift_bind. intros cells Hcells.
  destruct (cpa_cells_range _ _ _ _ Hs Hcells) as (Hh & Ht & Hlen).
  pose proof (cpa_collect_range s cells.1 cells.2 Hs Hh Ht) as [Hd Hstats].
  destruct (sorted_desc cpa_key_ltb _) as [|top rest] eqn:Hsorted; [by apply triple_ret|].
  apply triple_modify_bind; [|by apply triple_ret].
  intros s' Hs'. apply in_range_set_cpa_annot; [done|].
  apply od_Forall_set; [apply (range_cpa_annot Hs)|].
  unfold cpa_select. apply Forall_map, Forall_filter_keep. rewrite <- Hsorted.
  apply sorted_desc_Forall, Forall_forall. intros [t stat] Hin.
  rewrite (range_setup Hs) in *.
  destruct (data_rows st) as [|row rows] eqn:Hrows.
  { cbn in Hlen. destruct cells.1; [|cbn in Hlen; lia]. cbn in Hin.
    by apply elem_of_nil in Hin. }
  pose proof (data_rows_length st) as Hn. rewrite Hrows in Hn. specialize (Hn ltac:(done)).
  cbn [length] in Hn, Hlen.
  apply (cpa_record_range (length cells.1)); [|lia|lia].
  apply (Hstats t). by apply od_elem_of_get.
Qed.
End Range_cpa.

(** *** Initialisation *)

Section Range_init.
Context {E : Externals} (sane : sane_externals).

Lemma distribute_column_range t lookup_results column_idx ll r :
  lookup_results_range lookup_results → lookup_locals_range ll →
  distribute_column t lookup_results column_idx ll = Ok r → lookup_locals_range r.2.
Proof.
  intros Hres Hll. unfold distribute_column.
  apply (foldR_Forall (λ acc, lookup_locals_range acc.2)); [done|].
  intros [cov ll0] row [cov' ll'] _ Hll0 (c & _ & H)%rbind_Ok. cbn in Hll0.
  destruct (od_get (lower c) lookup_results) as [candidates|] eqn:Hget;
    injection H as <- <-; [|done].
  pose proof (od_Forall_get _ _ _ _ Hres Hget) as Hc. cbn in Hc. rewrite Forall_forall in Hc.
  unfold lookup_locals_range. cbn.
  apply fold_left_Forall; [done|]. intros sc [entity score] Hin Hsc.
  apply od_Forall_set; [done|]. apply (Hc _ Hin).
Qed.

Lemma demote_column_range t lookup_results column_idx ll ll' :
  lookup_locals_range ll →
  demote_column t lookup_results column_idx ll = Ok ll' → lookup_locals_range ll'.
Proof.
  intros Hll. unfold demote_column. intros (entity_cols' & _ & H)%rbind_Ok. revert H.
  apply foldR_Forall; [done|].
  intros ll0 row ll1 _ Hll0 (c & _ & H)%rbind_Ok.
  apply rbind_Ok in H as (scores' & Hscores & [= <-]). unfold lookup_locals_range. cbn.
  revert Hscores. apply foldR_Forall; [done|].
  intros sc [entity score] sc' _ Hsc. unfold od_pop.
  destruct (od_mem _ _); intros [= <-]. by apply od_Forall_del.
Qed.

Lemma lookup_columns_range fuel i t lookup_results ll ll' :
  lookup_results_range lookup_results → lookup_locals_range ll →
  lookup_columns fuel i t lookup_results ll = Ok ll' → lookup_locals_range ll'.
Proof.
  intros Hres. revert i ll. induction fuel as [|fuel IH]; intros i ll Hll; cbn [lookup_columns].
  { by intros [= <-]. }
  destruct (ll_entity_cols ll !! i) as [column_idx|]; [|by intros [= <-]].
  intros (r & Hr & H)%rbind_Ok. apply rbind_Ok in H as (ll1 & Hll1 & H).
  eapply IH; [|exact H]. clear H IH.
  pose proof (distribute_column_range _ _ _ _ _ Hres Hll Hr) as Hr2.
  destruct (Qltb _ _); [by eapply demote_column_range|]. by injection Hll1 as <-.
Qed.

Lemma _initialize_scores_range st lookup_dict :
  od_Forall (λ _, od_Forall (ctx_ok st)) (_initialize_scores lookup_dict).1.1
  ∧ od_Forall (λ _, unit_interval) (_initialize_scores lookup_dict).1.2
  ∧ od_Forall (λ _, unit_interval) (_initialize_scores lookup_dict).2.
Proof.
  unfold _initialize_scores.
  apply (fold_left_Forall
           (λ acc : odict Candidate_Entity (odict nat context_rec)
                    * odict Candidate_Entity Q * odict Candidate_Entity Q,
              od_Forall (λ _, od_Forall (ctx_ok st)) acc.1.1
              ∧ od_Forall (λ _, unit_interval) acc.1.2
              ∧ od_Forall (λ _, unit_interval) acc.2)).
  { repeat split; constructor. }
  intros acc [cell entity_list] _ Hacc.
  apply fold_left_Forall; [done|].
  intros [[ctx sim] sc] entity_id _ (H1 & H2 & H3). cbn in H1, H2, H3. cbn.
  split; [|split]; apply od_Forall_set; try done; try apply unit_interval_0. constructor.
Qed.

Lemma uninitialized_range kb k infos : in_range (uninitialized kb k infos).
Proof.
  split; [done|]. cbn. repeat split; try constructor. apply map_Forall_empty.
Qed.


Lemma lookup_results_of_range k labels lookup_index :
  lookup_results_range (lookup_results_of k (entity_lookup labels lookup_index)).1.
Proof.
  unfold lookup_results_of.
  apply (fold_left_Forall (λ acc : odict string (list (string * Q)) * list string,
                             lookup_results_range acc.1)); [constructor|].
  intros [results abnormal] item Hin Hres. cbn in Hres.
  destruct (li_entities item) as [entities|] eqn:Hent; cbn; [|done].
  apply od_Forall_set; [done|]. apply Forall_forall. intros [e sc] Hes. cbn.
  apply (lookup_score_range sane labels lookup_index item entities e sc Hin Hent).
  eapply subseteq_take, Hes.
Qed.

Lemma lookup_task_range t k lookup_index ll r :
  lookup_locals_range ll → lookup_task t k lookup_index ll = Ok (Some r) →
  lookup_locals_range r.1.1.1.
Proof.
  intros Hll. unfold lookup_task. intros (inputs & _ & H)%rbind_Ok.
  pose proof (lookup_results_of_range k inputs lookup_index) as Hres.
  destruct (lookup_results_of k (entity_lookup inputs lookup_index)) as [results abnormal].
  cbn in Hres. destruct results as [|r0 results'] eqn:Heq; [done|]. rewrite <- Heq in *.
  apply rbind_Ok in H as (ll' & Hll' & [= <-]). cbn.
  by eapply lookup_columns_range.
Qed.

Lemma Baseline_Model_init_range raw_table kb_path lookup_index params m :
  Baseline_Model_init raw_table kb_path lookup_index params = Ok m → in_range m.
Proof.
  unfold Baseline_Model_init.
  destruct (table_preprocessing raw_table) as [infos|];
    [|intros [= <-]; apply uninitialized_range].
  intros (row0 & _ & H)%rbind_Ok. apply rbind_Ok in H as (ecols & _ & H).
  apply rbind_Ok in H as (cls & _ & H).
  destruct cls as [[[[dcols with_unit] without_unit] tcols] icol].
  apply rbind_Ok in H as (lk & Hlk & H).
  destruct lk as [[[[ll abnormal] ltime] avg]|]; [|injection H as <-; apply uninitialized_range].
  apply lookup_task_range in Hlk; [|constructor]. cbn in Hlk.
  match type of H with
  | context [mkModel ?st _ _ _ _ _ _ _ _ _ _ _ _ _] =>
      pose proof (_initialize_scores_range st (ll_lookup ll)) as (H1 & H2 & H3)
  end.
  destruct (_initialize_scores (ll_lookup ll)) as [[ctx sim] sc]. injection H as <-.
  split; [done|]. cbn in *. repeat split; try done; try constructor.
Qed.

(** *** The points of the pipeline *)

Lemma triple_in_range {A} (m : M Baseline_Model A) s :
  (∀ st, triple (in_range_at st) m (λ _, True)) → in_range s → in_range (m s).2.
Proof.
  intros Hm Hs. destruct (Hm (setup s) s Hs) as [Hs' _]. unfold in_range.
  by rewrite (range_setup Hs').
Qed.

Lemma pipeline_point_range s : pipeline_point s → in_range s.
Proof.
  induction 1 as [raw_table kb_path lookup_index params m Hinit
                 |s first_step last_step _ IH|s b _ IH|s col row o _ IH|s col o _ IH
                 |s h t o _ IH|s _ IH|s _ IH|s _ IH].
  - by eapply Baseline_Model_init_range.
  - apply triple_in_range; [|done]. intros st. by apply entity_scoring_task_range.
  - apply triple_in_range; [|done]. intros st. by apply update_context_weight_range.
  - apply triple_in_range; [|done]. intros st. by apply cea_task_range.
  - apply triple_in_range; [|done]. intros st. by apply cta_task_range.
  - apply triple_in_range; [|done]. intros st. by apply cpa_task_range.
  - unfold in_range in *. replace (setup (set_cea_annot [] s)) with (setup s) by by destruct s.
    apply in_range_set_cea_annot; [done|constructor].
  - unfold in_range in *. replace (setup (set_cta_annot [] s)) with (setup s) by by destruct s.
    apply in_range_set_cta_annot; [done|constructor].
  - unfold in_range in *. replace (setup (set_cpa_annot [] s)) with (setup s) by by destruct s.
    apply in_range_set_cpa_annot; [done|constructor].
Qed.

Lemma in_range_scores s : in_range s → scores_in_range s.
Proof.
  intros Hs. split; [|split; [|split]].
  - intros candidate sc Hin. apply (od_Forall_elem_of _ _ _ _ (range_entity_scores Hs) Hin).
  - intros cell annot c Hin Hc.
    pose proof (od_Forall_elem_of _ _ _ _ (range_cea_annot Hs) Hin) as Hall. cbn in Hall.
    rewrite Forall_forall in Hall. by apply Hall.
  - intros candidate sim Hin.
    apply (od_Forall_elem_of _ _ _ _ (range_entity_sim_scores Hs) Hin).
  - intros candidate contexts col ctx Hin Hc.
    pose proof (od_Forall_elem_of _ _ _ _ (range_entity_context_scores Hs) Hin) as Hall.
    cbn in Hall. by destruct (od_Forall_elem_of _ _ _ _ Hall Hc) as (? & _).
Qed.

(** C6.  With libraries and a lookup service that behave, at every point of
    the pipeline the score of every candidate, before and after the
    disambiguation of [cea_task], lies between 0 and 1, so does its literal
    similarity, and every context score it holds is at least 0.1. *)
Theorem scores_stay_in_range (s : Baseline_Model) :
  pipeline_point s → scores_in_range s.
Proof. intros Hs. by apply in_range_scores, pipeline_point_range. Qed.
End Range_init.

Lemma example_externals_sane : sane_externals (E := Example.example_externals).
Proof.
  split; cbn.
  - intros x. apply Qpower_0_lt. lra.
  - intros x _. pose proof (Z.log2_nonneg (Qfloor x)) as H.
    rewrite (Zle_Qle 0) in H. change (inject_Z 0) with 0 in H.
    apply Qmult_le_0_compat; [done|lra].
  - intros a b. destruct (decide (a = b)); split; lra.
  - intros a b. destruct (decide (a = b)); split; lra.
  - intros a b. destruct (decide (a = b)); split; lra.
  - intros labels _ item entities e sc
      (l & -> & _)%list_elem_of_fmap Hent Hin. cbn in Hent.
    unfold Example.candidates_of in Hent.
    repeat (match type of Hent with context [decide ?P] => destruct (decide P) end;
            [injection Hent as <-;
                          repeat (apply elem_of_cons in Hin as [[= -> ->]|Hin];
                                  [split; lra|]);
                          by apply elem_of_nil in Hin|]).
    discriminate Hent.
Qed.

Lemma scores_stay_in_range_witness :
  scores_in_range (entity_scoring_task (E := Example.example_externals) true false
                     engine_table3).2.
Proof.
  apply (scores_stay_in_range (E := Example.example_externals) example_externals_sane).
  apply point_scoring.
  apply (point_init Example.table3 "kb1" "idx" Example.params1).
  vm_compute. reflexivity.
Defined.

(** * Further properties of the engine *)

(** ** What [table_annotation] returns *)

Lemma render_output_raises {E : Externals} raw_table s out :
  render_output raw_table s = Ok out → False.
Proof.
  unfold render_output. intros (cea_out & _ & H)%rbind_Ok.
  apply rbind_Ok in H as (cta_out & _ & H). apply rbind_Ok in H as (cpa_out & _ & H).
  discriminate H.
Qed.

(** X1.  Whatever the table, when [table_annotation] returns, it returns
    the record it started from, the raw table with nothing annotated, and
    the engine was not initialised: with an initialised engine the function
    does not come back from the lines that render the annotations. *)
Theorem table_annotation_returns_only_raw_echo {E : Externals}
    (raw_table : list (list string)) (k : nat) (kb_path lookup_index : string)
    (out : annotation_output) :
  table_annotation raw_table k kb_path lookup_index = Ok out →
  out = initial_output raw_table
  ∧ ∃ m, Baseline_Model_init raw_table kb_path lookup_index
           {| p_multiHop_context := true; p_transitivePropertyOnly_path := false;
              p_soft_scoring := true; p_K := k |} = Ok m
         ∧ is_model_init_success (setup m) = false.
Proof.
  unfold table_annotation. intros (m & Hinit & H)%rbind_Ok.
  destruct (is_model_init_success (setup m)) eqn:Hok.
  - destruct (pipeline m) as [[[]|e] s]; [|discriminate H].
    by apply render_output_raises in H.
  - injection H as <-. split; [done|]. by exists m.
Qed.

Lemma table_annotation_returns_only_raw_echo_witness :
  table_annotation (E := Example.example_externals) [["alpha"]] 20 "kb1" "idx"
  = Ok (initial_output [["alpha"]])
  ∧ ∃ m, Baseline_Model_init (E := Example.example_externals) [["alpha"]] "kb1" "idx"
           {| p_multiHop_context := true; p_transitivePropertyOnly_path := false;
              p_soft_scoring := true; p_K := 20 |} = Ok m
         ∧ is_model_init_success (setup m) = false.
Proof.
  assert (table_annotation (E := Example.example_externals) [["alpha"]] 20 "kb1" "idx"
          = Ok (initial_output [["alpha"]])) as H by (vm_compute; reflexivity).
  split; [exact H|].
  exact (proj2 (table_annotation_returns_only_raw_echo (E := Example.example_externals)
                  _ _ _ _ _ H)).
Defined.

(** ** What the methods leave alone *)

Section Frames.
Context {E : Externals}.

Ltac frame_tac :=
  unfold entity_scoring_task, _literal_similarity_scoring, _context_scoring, semantic_head,
    semantic_pair, literal_entity_col, literal_edge, cache_literal_relation, raise_score,
    append_context, put_context, get_context, score_candidate, aggregate_context,
    context_step, last_step_context, mark_contextless, update_context_weight,
    match_entity_col, cea_task, cta_disambiguation, cta_disambiguation_cta, cta_task,
    cta_row, cta_cea, cpa_task;
  preserves_tac.

Lemma entity_scoring_task_setup_and_caches first_step last_step :
  preserves setup_and_caches (entity_scoring_task first_step last_step).
Proof. frame_tac. Qed.

Lemma update_context_weight_setup_and_caches b :
  preserves setup_and_caches (update_context_weight b).
Proof. frame_tac. Qed.

Lemma entity_scoring_task_setup first_step last_step :
  preserves setup (entity_scoring_task first_step last_step).
Proof.
  intros s. pose proof (entity_scoring_task_setup_and_caches first_step last_step s) as H.
  unfold setup_and_caches in H. by injection H.
Qed.

Lemma update_context_weight_setup b : preserves setup (update_context_weight b).
Proof.
  intros s. pose proof (update_context_weight_setup_and_caches b s) as H.
  unfold setup_and_caches in H. by injection H.
Qed.

Lemma cea_task_setup col row only_one : preserves setup (cea_task col row only_one).
Proof. frame_tac. Qed.

Lemma cta_task_setup col only_one : preserves setup (cta_task col only_one).
Proof. frame_tac. Qed.

Lemma cpa_task_setup h t only_one : preserves setup (cpa_task h t only_one).
Proof. frame_tac. Qed.

Lemma pipeline_setup : preserves setup pipeline.
Proof.
  unfold pipeline, pass0, pass1, pass2, pass3, pass4, cea_loop, cta_loop, cpa_loop.
  repeat first [apply entity_scoring_task_setup | apply update_context_weight_setup
               | apply cea_task_setup | apply cta_task_setup | apply cpa_task_setup
               | preserves_step].
Qed.

(** X2.  No method of the engine touches what [__init__] has set: the
    table, its columns, the lookups, the KB and the subgraphs of the
    candidates are the same after the scoring, the update of the weights,
    the three annotation tasks and the whole pipeline, whether they return
    or raise. *)
Theorem methods_keep_setup (s : Baseline_Model) (first_step last_step onlyLiteralContext : bool)
    (col_index row_index head_col_index tail_col_index : nat) (only_one : bool) :
  setup (entity_scoring_task first_step last_step s).2 = setup s
  ∧ setup (update_context_weight onlyLiteralContext s).2 = setup s
  ∧ setup (cea_task col_index row_index only_one s).2 = setup s
  ∧ setup (cta_task col_index only_one s).2 = setup s
  ∧ setup (cpa_task head_col_index tail_col_index only_one s).2 = setup s
  ∧ setup (pipeline s).2 = setup s.
Proof.
  split; [apply entity_scoring_task_setup|]. split; [apply update_context_weight_setup|].
  split; [apply cea_task_setup|]. split; [apply cta_task_setup|].
  split; [apply cpa_task_setup|apply pipeline_setup].
Qed.
End Frames.

(** ** The passes of the pipeline *)

Lemma triple_of_keeps {S A} (I : S → Prop) (m : M S A) :
  (∀ s, I s → I (m s).2) → triple I m (λ _, True).
Proof. intros H s Hs. split; [by apply H|done]. Qed.

Section Passes.
Context {E : Externals}.

Lemma cea_loop_points only_one : triple pipeline_point (cea_loop only_one) (λ _, True).
Proof.
  unfold cea_loop. apply triple_get_bind. intros s0 _.
  apply triple_forM. intros col _. apply triple_forM. intros row _.
  apply triple_seq; [|by apply triple_ret].
  apply triple_of_keeps. intros s Hs. by apply point_cea.
Qed.

Lemma cta_loop_points only_one : triple pipeline_point (cta_loop only_one) (λ _, True).
Proof.
  unfold cta_loop. apply triple_get_bind. intros s0 _.
  apply triple_forM. intros col _.
  apply triple_seq; [|by apply triple_ret].
  apply triple_of_keeps. intros s Hs. by apply point_cta.
Qed.

Lemma cpa_loop_points only_one : triple pipeline_point (cpa_loop only_one) (λ _, True).
Proof.
  unfold cpa_loop. apply triple_get_bind. intros s0 _. apply triple_seq.
  - apply triple_forM. intros i _. apply triple_lift_bind. intros head _.
    apply triple_forM. intros tail _. apply triple_seq; [|by apply triple_ret].
    apply triple_of_keeps. intros s Hs. by apply point_cpa.
  - apply triple_forM. intros head _. apply triple_forM. intros tail _.
    apply triple_seq; [|by apply triple_ret].
    apply triple_of_keeps. intros s Hs. by apply point_cpa.
Qed.

Lemma scoring_points first_step last_step :
  triple pipeline_point (entity_scoring_task first_step last_step) (λ _, True).
Proof. apply triple_of_keeps. intros s Hs. by apply point_scoring. Qed.

Lemma weights_points b : triple pipeline_point (update_context_weight b) (λ _, True).
Proof. apply triple_of_keeps. intros s Hs. by apply point_weights. Qed.

Lemma reset_cea_points : triple pipeline_point (mmodify (set_cea_annot [])) (λ _, True).
Proof. apply triple_modify; [|done]. intros s Hs. by apply point_reset_cea. Qed.

Lemma reset_cta_points : triple pipeline_point (mmodify (set_cta_annot [])) (λ _, True).
Proof. apply triple_modify; [|done]. intros s Hs. by apply point_reset_cta. Qed.

Lemma reset_cpa_points : triple pipeline_point (mmodify (set_cpa_annot [])) (λ _, True).
Proof. apply triple_modify; [|done]. intros s Hs. by apply point_reset_cpa. Qed.

Ltac points_tac :=
  repeat first
    [ apply scoring_points | apply weights_points | apply cea_loop_points
    | apply cta_loop_points | apply cpa_loop_points | apply reset_cea_points
    | apply reset_cta_points | apply reset_cpa_points | apply triple_seq ].

Lemma pass0_points : triple pipeline_point pass0 (λ _, True).
Proof. unfold pass0. points_tac. Qed.
Lemma pass1_points : triple pipeline_point pass1 (λ _, True).
Proof. unfold pass1. points_tac. Qed.
Lemma pass2_points : triple pipeline_point pass2 (λ _, True).
Proof. unfold pass2. points_tac. Qed.
Lemma pass3_points : triple pipeline_point pass3 (λ _, True).
Proof. unfold pass3. points_tac. Qed.

End Passes.


(** ** Ranges of the annotations and of the weights *)

Section Ranges_more.
Context {E : Externals} (sane : sane_externals).


End Ranges_more.

Lemma after_pass2_point tbl path s :
  Example.after_pass2 tbl path = Ok s → pipeline_point (E := Example.example_externals) s.
Proof.
  unfold Example.after_pass2, Example.run.
  destruct (Baseline_Model_init _ _ _ _) as [m|] eqn:Hinit; [|done].
  pose proof (point_init _ _ _ _ _ Hinit) as H0.
  pose proof (proj1 (pass0_points _ H0)) as H1.
  destruct (pass0 m) as [[[]|] s0]; [|done]. cbn [snd] in H1.
  pose proof (proj1 (pass1_points _ H1)) as H2.
  destruct (pass1 s0) as [[[]|] s1]; [|done]. cbn [snd] in H2.
  pose proof (proj1 (pass2_points _ H2)) as H3.
  destruct (pass2 s1) as [[[]|] s2]; [|done]. cbn [snd] in H3.
  by intros [= <-].
Qed.

Lemma engine_kb1_point : pipeline_point (E := Example.example_externals) engine_kb1.
Proof. apply (after_pass2_point Example.table1 "kb1"). vm_compute. reflexivity. Qed.




(** ** The caches *)

Lemma cache_ext_coherent x y : cache_ext x y → caches_coherent x → caches_coherent y.
Proof.
  intros (Hs & Ht & Hc) [Hxt Hxc]. unfold caches_coherent. rewrite <- Hs. split.
  - intros t g Hy. specialize (Ht t). destruct (type_graph x !! t) as [g'|] eqn:Hx.
    + rewrite Ht in Hy. injection Hy as <-. by apply Hxt.
    + by apply Ht.
  - intros i h Hy. specialize (Hc i). destruct (cached_cta_candidates x !! i) as [h'|] eqn:Hx.
    + rewrite Hc in Hy. injection Hy as <-. by apply Hxc.
    + by apply Hc.
Qed.

Lemma setup_and_caches_coherent x y :
  setup_and_caches y = setup_and_caches x → caches_coherent x → caches_coherent y.
Proof.
  unfold setup_and_caches. intros [= Hs Ht Hc] H. apply (cache_ext_coherent x); [|done].
  by apply cache_ext_same.
Qed.

Lemma cache_ext_set_type_graph s v :
  type_graph s = ∅ →
  (∀ t g, v !! t = Some g → g = build_type_graph (KB (setup s)) t) →
  cache_ext s (set_type_graph v s).
Proof.
  destruct s; cbn. intros -> H. split; [done|]. split; cbn.
  - intros t. rewrite lookup_empty. apply H.
  - intros i. destruct (_ !! i); [done|]. intros h Hh. discriminate Hh.
Qed.

Lemma core_set_type_graph v s : core (set_type_graph v s) = core s.
Proof. by destruct s. Qed.

Lemma pass3_pass3_frame_setup s : setup (pass3 s).2 = setup s.
Proof.
  pose proof (pass3_pass3_frame s) as H. unfold pass3_frame in H. by injection H.
Qed.

Section Caches.
Context {E : Externals}.

Lemma Baseline_Model_init_caches raw_table kb_path lookup_index params m :
  Baseline_Model_init raw_table kb_path lookup_index params = Ok m →
  type_graph m = ∅ ∧ cached_cta_candidates m = ∅.
Proof.
  unfold Baseline_Model_init.
  destruct (table_preprocessing raw_table) as [infos|]; [|by intros [= <-]].
  intros (row0 & _ & H)%rbind_Ok. apply rbind_Ok in H as (ecols & _ & H).
  apply rbind_Ok in H as (cls & _ & H).
  destruct cls as [[[[dcols with_unit] without_unit] tcols] icol].
  apply rbind_Ok in H as (lk & _ & H).
  destruct lk as [[[[ll abnormal] ltime] avg]|]; [|by injection H as <-].
  destruct (_initialize_scores (ll_lookup ll)) as [[ctx sim] sc]. by injection H as <-.
Qed.

Lemma pipeline_point_caches s : pipeline_point s → caches_coherent s.
Proof.
  induction 1 as [raw_table kb_path lookup_index params m Hinit
                 |s first_step last_step _ IH|s b _ IH|s col row o _ IH|s col o _ IH
                 |s h t o _ IH|s _ IH|s _ IH|s _ IH].
  - apply Baseline_Model_init_caches in Hinit as [Ht Hc]. split.
    + intros t g. by rewrite Ht, lookup_empty.
    + intros i h. by rewrite Hc, lookup_empty.
  - eapply setup_and_caches_coherent; [|exact IH].
    apply entity_scoring_task_setup_and_caches.
  - eapply setup_and_caches_coherent; [|exact IH].
    apply update_context_weight_setup_and_caches.
  - eapply cache_ext_coherent; [|exact IH]. apply cea_task_extends.
  - eapply cache_ext_coherent; [|exact IH]. apply cta_task_extends.
  - eapply cache_ext_coherent; [|exact IH]. apply cpa_task_extends.
  - eapply setup_and_caches_coherent; [|exact IH]. by destruct s.
  - eapply setup_and_caches_coherent; [|exact IH]. by destruct s.
  - eapply setup_and_caches_coherent; [|exact IH]. by destruct s.
Qed.


(** X7.  The caches do not change what [cea_task] answers: run from two
    engines that agree on everything but the caches, the second holding
    what the first holds and KB entries beyond, the task that succeeds on
    the first succeeds on the second with the same answer and stores the
    same CEA results. *)
Theorem cea_task_ignores_the_caches (col_index row_index : nat) (only_one : bool)
    (x y x' : Baseline_Model) (r : task_ret cea) :
  core x = core y → cache_ext x y →
  cea_task col_index row_index only_one x = (Ok r, x') →
  ∃ y', cea_task col_index row_index only_one y = (Ok r, y')
        ∧ cea_annot y' = cea_annot x' ∧ cache_ext x' y'.
Proof.
  intros Hcore Hext Hrun.
  destruct (cea_task_sim col_index row_index only_one x y (conj Hcore Hext) _ _ Hrun)
    as (y' & Hy & Hsim).
  exists y'. split; [done|]. split; [|apply Hsim]. sim_rw Hsim. done.
Qed.
End Caches.

Lemma after_pass3_point :
  pipeline_point (E := Example.example_externals) (pass3 engine_kb1).2.
Proof. apply pass3_points, engine_kb1_point. Qed.


Lemma cea_task_ignores_the_caches_witness :
  ∃ y', cea_task 0 0 true (set_type_graph (type_graph (pass3 engine_kb1).2) engine_kb1)
        = (Ok (RetList [mkCea "A" (19 # 22)]), y')
        ∧ cea_annot y' = cea_annot (cea_task 0 0 true engine_kb1).2.
Proof.
  assert (cea_task 0 0 true engine_kb1
          = (Ok (RetList [mkCea "A" (19 # 22)]), (cea_task 0 0 true engine_kb1).2)) as Hrun
    by (vm_compute; reflexivity).
  assert (cache_ext engine_kb1
            (set_type_graph (type_graph (pass3 engine_kb1).2) engine_kb1)) as Hext.
  { apply cache_ext_set_type_graph; [vm_compute; reflexivity|].
    intros t g Hg. rewrite <- (pass3_pass3_frame_setup engine_kb1).
    by apply (pipeline_point_caches (E := Example.example_externals) _ after_pass3_point). }
  destruct (cea_task_ignores_the_caches 0 0 true _ _ _ _
              (eq_sym (core_set_type_graph _ engine_kb1)) Hext Hrun) as (y' & Hy & Hcea & _).
  exists y'. split; [exact Hy|exact Hcea].
Defined.

(** ** What the annotation tasks write *)








Lemma cta_rows_cta_annot col acc rows : preserves cta_annot (foldM (cta_row col) acc rows).
Proof.
  revert acc. induction rows as [|row rows IH]; intros acc; cbn [foldM].
  - apply preserves_ret.
  - apply preserves_bind; [|intros; apply IH]. unfold cta_row, cta_cea. preserves_tac.
Qed.

Lemma cta_rows_cea_annot col acc rows : preserves cea_annot (foldM (cta_row col) acc rows).
Proof.
  revert acc. induction rows as [|row rows IH]; intros acc; cbn [foldM].
  - apply preserves_ret.
  - apply preserves_bind; [|intros; apply IH]. unfold cta_row, cta_cea. preserves_tac.
Qed.

Lemma fold_left_app_nonempty {X Y} (f : list Y → X → list Y) l acc :
  (∀ acc x, ∃ l', f acc x = acc ++ l') → acc ≠ [] → fold_left f l acc ≠ [].
Proof.
  intros Hf. revert acc. induction l as [|x l IH]; intros acc Hacc; cbn; [done|].
  apply IH. destruct (Hf acc x) as [l' ->]. by destruct acc.
Qed.

Lemma cta_select_nonempty st only_one top rest :
  cta_select st only_one (top :: rest) top.2 ≠ [].
Proof.
  unfold cta_select. destruct only_one.
  - apply fold_left_app_nonempty.
    + intros acc x. destruct (_ && _); [by eexists|]. exists []. by rewrite app_nil_r.
    + rewrite filter_cons_True; [done|]. apply Qeq_bool_true. reflexivity.
  - rewrite filter_cons_True; [done|]. apply Nat.leb_refl.
Qed.

(** X9.  A [cta_task] that returns leaves the CEA results and the CTA
    results of every other column as they were.  When it returns a list,
    the list is not empty and is what it has stored for its column; when it
    returns [""] the CTA results are as they were. *)
Theorem cta_task_writes_its_column (col_index : nat) (only_one : bool)
    (s s' : Baseline_Model) (r : task_ret cta) :
  cta_task col_index only_one s = (Ok r, s') →
  cea_annot s' = cea_annot s
  ∧ (∀ col, col ≠ mkColumn col_index → od_get col (cta_annot s') = od_get col (cta_annot s))
  ∧ match r with
    | RetList annot =>
        annot ≠ [] ∧ od_get (mkColumn col_index) (cta_annot s') = Some annot
    | _ => cta_annot s' = cta_annot s
    end.
Proof.
  intros Hrun. unfold cta_task in Hrun.
  apply mbind_Ok in Hrun as (s0 & s0' & Hget & Hrun). apply mget_Ok in Hget as [-> ->].
  apply mbind_Ok in Hrun as (acc & s1 & Hrows & Hrun).
  pose proof (cta_rows_cta_annot col_index ([], None) (data_rows (setup s)) s) as Hcta.
  pose proof (cta_rows_cea_annot col_index ([], None) (data_rows (setup s)) s) as Hcea.
  rewrite Hrows in Hcta, Hcea. cbn [snd] in Hcta, Hcea.
  destruct (sorted_desc cta_key_ltb acc.1) as [|top rest] eqn:Hsorted.
  { apply mret_Ok in Hrun as [-> ->]. split; [done|]. split; [|done].
    intros col _. by rewrite Hcta. }
  apply mbind_Ok in Hrun as (s1' & s1'' & Hget & Hrun). apply mget_Ok in Hget as [-> ->].
  apply mbind_Ok in Hrun as ([] & s2 & Hmod & Hrun).
  apply mmodify_Ok in Hmod as ->. apply mret_Ok in Hrun as [-> ->].
  split; [by destruct s1|]. split; [|split].
  - intros col Hcol. destruct s1. cbn in *. rewrite od_get_set_ne by done. by rewrite Hcta.
  - apply cta_select_nonempty.
  - destruct s1. cbn. apply od_get_set_eq.
Qed.

Lemma cta_task_writes_its_column_witness :
  ∃ s', cta_task 0 true engine_kb1 = (Ok (RetList [mkCta "T" (1 # 2) (1 # 2)]), s')
        ∧ cea_annot s' = cea_annot engine_kb1
        ∧ od_get (mkColumn 0) (cta_annot s') = Some [mkCta "T" (1 # 2) (1 # 2)].
Proof.
  assert (cta_task 0 true engine_kb1
          = (Ok (RetList [mkCta "T" (1 # 2) (1 # 2)]), (cta_task 0 true engine_kb1).2)) as Hrun
    by (vm_compute; reflexivity).
  destruct (cta_task_writes_its_column _ _ _ _ _ Hrun) as (Hcea & _ & _ & Hstored).
  eexists. split; [exact Hrun|]. split; [exact Hcea|exact Hstored].
Defined.




(** ** The knowledge base *)




(** ** The rank of a type *)

Lemma map_rank_first_char rank r0 : first_char rank = Ok r0 → map_rank r0 = 0%Z.
Proof.
  destruct rank as [|c rank]; [done|]. intros [= <-]. unfold map_rank.
  destruct (decide _) as [H|_]; [discriminate H|].
  destruct (decide _) as [H|_]; [discriminate H|]. done.
Qed.

Lemma cta_level_1_rank sc acc it acc' :
  ranks_are_zero acc.1 → cta_level_1 sc acc it = Ok acc' → ranks_are_zero acc'.1.
Proof.
  destruct acc as [row t1], it as [t rank]. intros Hrow. unfold cta_level_1.
  destruct (od_get t row) as [old|] eqn:Hget;
    intros (r0 & ->%map_rank_first_char & [= <-])%rbind_Ok; apply od_Forall_set; try done; cbn.
  by rewrite (od_Forall_get _ _ _ _ Hrow Hget).
Qed.

Lemma cta_level_2_rank sc t1 row it row' :
  ranks_are_zero row → cta_level_2 sc t1 row it = Ok row' → ranks_are_zero row'.
Proof.
  destruct it as [t rank]. intros Hrow. unfold cta_level_2.
  destruct (od_get t row) as [old|] eqn:Hget.
  - intros (t1' & _ & H)%rbind_Ok. apply rbind_Ok in H as (old1 & Hold1%of_option_Ok & H).
    apply rbind_Ok in H as (r0 & ->%map_rank_first_char & [= <-]).
    apply od_Forall_set; [done|]. cbn. by rewrite (od_Forall_get _ _ _ _ Hrow Hold1).
  - intros (r0 & ->%map_rank_first_char & [= <-])%rbind_Ok. by apply od_Forall_set.
Qed.

Lemma cta_level_3_rank sc row it row' :
  ranks_are_zero row → cta_level_3 sc row it = Ok row' → ranks_are_zero row'.
Proof.
  destruct it as [t rank]. intros Hrow. unfold cta_level_3.
  destruct (od_get t row) as [old|] eqn:Hget;
    intros (r0 & ->%map_rank_first_char & [= <-])%rbind_Ok; apply od_Forall_set; try done; cbn.
  by rewrite (od_Forall_get _ _ _ _ Hrow Hget).
Qed.

Lemma cta_cea_rank acc c :
  ranks_are_zero acc.1 → triple (λ _, True) (cta_cea acc c) (λ r, ranks_are_zero r.1).
Proof.
  intros Hacc. unfold cta_cea. apply triple_get_bind. intros s _.
  eapply (triple_bind _ _ _ (λ _, True)).
  { destruct (cached_cta_candidates s !! _); [by apply triple_ret|].
    apply triple_modify_bind; [done|by apply triple_ret]. }
  intros h _. apply triple_lift. intros r H.
  apply rbind_Ok in H as (level_1 & _ & H). apply rbind_Ok in H as (acc1 & H1 & H).
  apply rbind_Ok in H as (level_2 & _ & H). apply rbind_Ok in H as (row2 & H2 & H).
  apply rbind_Ok in H as (level_3 & _ & H). apply rbind_Ok in H as (row3 & H3 & [= <-]).
  cbn [fst].
  revert H3. apply foldR_Forall; [|intros ?????; by apply cta_level_3_rank].
  revert H2. apply foldR_Forall; [|intros ?????; by apply cta_level_2_rank].
  revert H1. apply (foldR_Forall (λ acc, ranks_are_zero acc.1)); [done|].
  intros ?????; by apply cta_level_1_rank.
Qed.

Lemma cta_merge_row_rank ct row :
  total_ranks_are_zero ct → ranks_are_zero row → total_ranks_are_zero (cta_merge_row ct row).
Proof.
  intros Hct Hrow. unfold cta_merge_row. apply fold_left_Forall; [done|].
  intros ct' [t rt] Hin Hct'. pose proof (od_Forall_elem_of _ _ _ _ Hrow Hin) as Hr.
  cbn in Hr. destruct (od_get t ct') as [st0|] eqn:Hget; apply od_Forall_set; try done; cbn.
  rewrite Hr, (od_Forall_get _ _ _ _ Hct' Hget). done.
Qed.

Lemma cta_row_rank col acc row :
  total_ranks_are_zero acc.1 →
  triple (λ _, True) (cta_row col acc row) (λ r, total_ranks_are_zero r.1).
Proof.
  intros Hacc. unfold cta_row. apply triple_get_bind. intros s _.
  destruct (od_get _ _) as [ceas|]; [|by apply triple_ret].
  eapply triple_bind.
  - apply (triple_foldM _ (λ r, ranks_are_zero r.1)); [constructor|].
    intros b c _ Hb. by apply cta_cea_rank.
  - intros r Hr. apply triple_ret. by apply cta_merge_row_rank.
Qed.

(** X12.  The rank never tells two candidate types apart.  [cta_task] asks
    [map_rank] for the rank of the first character of the rank stored in
    the KB, which is neither ["PREFERRED"] nor ["NORMAL"]: the total of the
    ranks of every candidate type is 0, and the order of the candidate
    types is the order of [count * total_scores] alone. *)
Theorem cta_ranks_are_zero (col_index : nat) (s : Baseline_Model)
    (candidate_types : odict string type_stat) :
  cta_candidate_types col_index s = Ok candidate_types →
  (∀ t st, (t, st) ∈ candidate_types → total_ranks st = 0%Z)
  ∧ (∀ a b, a ∈ candidate_types → b ∈ candidate_types →
            cta_key_ltb a b = Qgtb (cta_product b.2) (cta_product a.2)).
Proof.
  unfold cta_candidate_types.
  pose proof (triple_foldM (λ _, True) (λ r, total_ranks_are_zero r.1) (cta_row col_index)
                ([], None) (data_rows (setup s)) ltac:(constructor)
                ltac:(intros; by apply cta_row_rank) s I) as [_ Hr].
  destruct (foldM _ _ _ s) as [[r|e] s1]; [|done]. intros [= <-].
  specialize (Hr _ eq_refl).
  assert (∀ t st, (t, st) ∈ r.1 → total_ranks st = 0%Z) as Hzero.
  { intros t st Hin. apply (od_Forall_elem_of _ _ _ _ Hr Hin). }
  split; [done|]. intros [ta sa] [tb sb] Ha Hb. unfold cta_key_ltb. cbn.
  rewrite (Hzero _ _ Ha), (Hzero _ _ Hb). cbn. by rewrite andb_false_r, orb_false_r.
Qed.

Lemma cta_ranks_are_zero_witness :
  ∃ candidate_types, cta_candidate_types 0 engine_kb1 = Ok candidate_types
    ∧ candidate_types ≠ []
    ∧ ∀ t st, (t, st) ∈ candidate_types → total_ranks st = 0%Z.
Proof.
  eexists. split; [vm_compute; reflexivity|]. split; [done|].
  apply (cta_ranks_are_zero 0 engine_kb1). vm_compute. reflexivity.
Defined.

(** ** The maps that [__init__] fills *)

Lemma fold_left_mem {X B K} (mem : B → K → Prop) (f : B → X → B) (G : X → K → Prop) l b k :
  (∀ b x k, mem (f b x) k ↔ mem b k ∨ G x k) →
  mem (fold_left f l b) k ↔ mem b k ∨ ∃ x, x ∈ l ∧ G x k.
Proof.
  intros Hf. revert b. induction l as [|x l IH]; intros b; cbn [fold_left].
  - split; [by left|]. intros [?|(x & Hx%elem_of_nil & _)]; done.
  - rewrite IH, Hf. split.
    + intros [[?|?]|(y & Hy & HG)]; [by left|right; exists x; split; [left|done]|].
      right. exists y. split; [by right|done].
    + intros [?|(y & [->|Hy]%elem_of_cons & HG)]; [by left; left|by left; right|].
      right. by exists y.
Qed.

Lemma od_keys_set_same {K V W} `{EqDecision K} (k : K) (v : V) (w : W) d1 d2 :
  od_keys d1 = od_keys d2 → od_keys (od_set k v d1) = od_keys (od_set k w d2).
Proof.
  revert d2. induction d1 as [|[k1 v1] d1 IH]; intros [|[k2 v2] d2]; cbn; try done.
  intros [= -> H]. destruct (decide (k2 = k)); cbn; [by rewrite H|]. f_equal. by apply IH.
Qed.

(** X13.  [_initialize_scores] gives the three score maps the same keys in
    the same order, the candidates of the lookups and nothing else, each
    with an empty context, the similarity 0 and the score 0. *)
Theorem _initialize_scores_spec (lookup_dict : odict Cell (list string)) :
  let '(ctx, sim, sc) := _initialize_scores lookup_dict in
  od_keys ctx = od_keys sc ∧ od_keys sim = od_keys sc
  ∧ (∀ candidate, candidate ∈ od_keys sc ↔ is_candidate_of lookup_dict candidate)
  ∧ (∀ candidate v, (candidate, v) ∈ ctx → v = [])
  ∧ (∀ candidate v, (candidate, v) ∈ sim → v = 0)
  ∧ (∀ candidate v, (candidate, v) ∈ sc → v = 0).
Proof.
  pose (P := λ acc : odict Candidate_Entity (odict nat context_rec)
                     * odict Candidate_Entity Q * odict Candidate_Entity Q,
          od_keys acc.1.1 = od_keys acc.2 ∧ od_keys acc.1.2 = od_keys acc.2
          ∧ od_Forall (λ _ v, v = []) acc.1.1 ∧ od_Forall (λ _ v, v = 0) acc.1.2
          ∧ od_Forall (λ _ v, v = 0) acc.2).
  assert (P (_initialize_scores lookup_dict)) as HP.
  { unfold _initialize_scores. apply fold_left_Forall; [by repeat split; constructor|].
    intros acc [cell entity_list] _ Hacc. apply fold_left_Forall; [done|].
    intros [[ctx sim] sc] entity_id _ (H1 & H2 & H3 & H4 & H5). cbn in *.
    repeat split; cbn; try (by apply od_keys_set_same); by apply od_Forall_set. }
  assert (∀ candidate, candidate ∈ od_keys (_initialize_scores lookup_dict).2
                       ↔ is_candidate_of lookup_dict candidate) as Hkeys.
  { intros candidate. unfold _initialize_scores.
    rewrite (fold_left_mem (λ acc k, k ∈ od_keys acc.2) _
               (λ (x : Cell * list string) k,
                  ∃ id, id ∈ x.2 ∧ k = mkCand (cell_row x.1) (cell_col x.1) id)).
    - cbn. split.
      + intros [?%elem_of_nil|([cell ids] & Hin & id & Hid & ->)]; [done|].
        by exists cell, ids.
      + intros (cell & ids & Hin & Hid & Hr & Hc). right. exists (cell, ids).
        split; [done|]. exists (cand_id candidate). split; [done|].
        destruct candidate. cbn in *. by subst.
    - intros acc [cell ids] k. cbn.
      rewrite (fold_left_mem (λ acc k, k ∈ od_keys acc.2) _
                 (λ id k, k = mkCand (cell_row cell) (cell_col cell) id)).
      + split; (intros [?|(id & ? & ?)]; [by left|right; by exists id]).
      + intros [[ctx sim] sc] id k'. cbn [fst snd]. rewrite od_keys_set. tauto. }
  destruct (_initialize_scores lookup_dict) as [[ctx sim] sc].
  destruct HP as (H1 & H2 & H3 & H4 & H5). cbn in *.
  split; [done|]. split; [done|]. split; [done|].
  split; [|split]; intros candidate v Hin.
  - apply (od_Forall_elem_of _ _ _ _ H3 Hin).
  - apply (od_Forall_elem_of _ _ _ _ H4 Hin).
  - apply (od_Forall_elem_of _ _ _ _ H5 Hin).
Qed.


(** ** The similarities of [utils.py] *)


Section Textual.
Context {E : Externals}.

(** X16.  The textual similarity of two strings is the mean of the two
    largest of the three ratios of [rapidfuzz] on the lowered strings: half
    of their sum without the smallest one. *)
Theorem textual_similarity_is_mean_of_two_largest (s1 s2 : string) :
  let a := fuzz_ratio (lower s1) (lower s2) / 100 in
  let b := fuzz_token_sort_ratio (lower s1) (lower s2) / 100 in
  let c := fuzz_token_set_ratio (lower s1) (lower s2) / 100 in
  textual_similarity s1 s2 == (a + b + c - Qmin a (Qmin b c)) / 2.
Proof.
  intros a b c. unfold textual_similarity. fold a b c.
  generalize a b c. clear. intros a b c.
  assert (∀ x y, Qltb x y = true ↔ x < y) as Hlt by (intros; apply Qgtb_true).
  assert (∀ x y, Qltb x y = false ↔ y <= x) as Hge by (intros; apply Qgtb_false).
  assert (∀ m, (m <= a ∧ m <= b ∧ m <= c) → (m == a ∨ m == b ∨ m == c) →
               m == Qmin a (Qmin b c)) as Hmin.
  { intros m (Ha & Hb & Hc) Hor.
    assert (m <= Qmin a (Qmin b c)) by (repeat apply Q.min_glb; done).
    assert (Qmin a (Qmin b c) <= m).
    { destruct Hor as [->|[->| ->]].
      - apply Q.le_min_l.
      - eapply Qle_trans; [apply Q.le_min_r|apply Q.le_min_l].
      - eapply Qle_trans; [apply Q.le_min_r|apply Q.le_min_r]. }
    lra. }
  unfold sorted_desc. cbn [fold_right insert_desc].
  destruct (Qltb b c) eqn:Hbc; cbn [insert_desc];
    [apply Hlt in Hbc|apply Hge in Hbc].
  - destruct (Qltb a c) eqn:Hac; cbn [insert_desc];
      [apply Hlt in Hac|apply Hge in Hac].
    + destruct (Qltb a b) eqn:Hab; [apply Hlt in Hab|apply Hge in Hab];
        unfold Qsum; cbn [take fold_right].
      * rewrite <- (Hmin a); [field|split; [lra|split; lra]|by left].
      * rewrite <- (Hmin b); [field|split; [lra|split; lra]|right; by left].
    + unfold Qsum; cbn [take fold_right].
      rewrite <- (Hmin b); [field|split; [lra|split; lra]|right; by left].
  - destruct (Qltb a b) eqn:Hab; cbn [insert_desc];
      [apply Hlt in Hab|apply Hge in Hab].
    + destruct (Qltb a c) eqn:Hac; [apply Hlt in Hac|apply Hge in Hac];
        unfold Qsum; cbn [take fold_right].
      * rewrite <- (Hmin a); [field|split; [lra|split; lra]|by left].
      * rewrite <- (Hmin c); [field|split; [lra|split; lra]|right; by right].
    + unfold Qsum; cbn [take fold_right].
      rewrite <- (Hmin c); [field|split; [lra|split; lra]|right; by right].
Qed.
End Textual.

(** ** Identifiers and their prefixes *)

(** X17.  A valid identifier, [P] or [Q] followed by digits, always gets a
    prefix: the entity prefix for a [Q], the direct-property prefix for a
    [P]; the empty string has no first character and raises
    [IndexError]. *)
Theorem prefixing_entity_of_valid_ID (entity_id : string) :
  (is_valid_ID entity_id = true →
   ∃ rest, (entity_id = "Q" +:+ rest
            ∧ prefixing_entity entity_id = Ok ("http://www.wikidata.org/entity/" +:+ entity_id))
           ∨ (entity_id = "P" +:+ rest
              ∧ prefixing_entity entity_id
                = Ok ("http://www.wikidata.org/prop/direct/" +:+ entity_id)))
  ∧ prefixing_entity "" = Raise IndexError
  ∧ is_valid_ID "" = false.
Proof.
  split; [|done]. destruct entity_id as [|c [|c' rest]]; [done|done|].
  unfold is_valid_ID. intros [Hc _]%andb_true_iff. exists (String c' rest).
  apply orb_true_iff in Hc as [Hc|Hc]; apply bool_decide_eq_true in Hc;
    injection Hc as ->; [right|left]; done.
Qed.

(** ** The columns of the table *)




Section Columns.
Context {E : Externals}.






End Columns.


(** ** Loops over the candidates *)

Lemma forM_prefix {S X} (P : list X → S → Prop) (body : X → M S unit) l s s' :
  P [] s →
  (∀ pre x s1 s2, P pre s1 → x ∈ l → body x s1 = (Ok tt, s2) → P (pre ++ [x]) s2) →
  forM l body s = (Ok tt, s') → P l s'.
Proof.
  intros H0 Hstep.
  enough (∀ pre rest s1, P pre s1 → (∀ x, x ∈ rest → x ∈ l) →
            forM rest body s1 = (Ok tt, s') → P (pre ++ rest) s') as Hind.
  { intros Hrun. by apply (Hind [] l s). }
  intros pre rest. revert pre. induction rest as [|x rest IH]; intros pre s1 Hpre Hsub;
    cbn [forM].
  - intros [_ ->]%mret_Ok. by rewrite app_nil_r.
  - intros ([] & s2 & Hx & Hrest)%mbind_Ok.
    replace (pre ++ x :: rest) with ((pre ++ [x]) ++ rest) by by rewrite <- app_assoc.
    apply (IH _ s2); [|intros; apply Hsub; by right|done].
    eapply Hstep; [done| |done]. apply Hsub. by left.
Qed.

Lemma od_keys_set_mem {K V} `{EqDecision K} (k : K) (v : V) d :
  k ∈ od_keys d → od_keys (od_set k v d) = od_keys d.
Proof.
  induction d as [|[k' v'] d IH]; cbn; [by intros ?%elem_of_nil|].
  destruct (decide (k' = k)) as [->|Hne]; [done|].
  intros [?|Hin]%elem_of_cons; [done|]. cbn. f_equal. by apply IH.
Qed.

Section Similarity.
Context {E : Externals}.

(** X19.  With scores from the lookup at hand, a
    [_literal_similarity_scoring] that returns has given every candidate
    the score of the lookup as its similarity, in the same order, and has
    emptied [lookup_scores]; without them, that is on a second call, it does
    not return when there is a candidate: it raises [IndexError] or
    [TypeError] and leaves the engine as it was. *)
Theorem _literal_similarity_scoring_spec (s : Baseline_Model) :
  (lookup_scores s ≠ [] → ∀ s',
     _literal_similarity_scoring s = (Ok tt, s') →
     lookup_scores s' = []
     ∧ od_keys (entity_sim_scores s') = od_keys (entity_sim_scores s)
     ∧ ∀ candidate, candidate ∈ od_keys (entity_sim_scores s) →
         od_get candidate (entity_sim_scores s') = od_get candidate (lookup_scores s)
         ∧ is_Some (od_get candidate (lookup_scores s)))
  ∧ (lookup_scores s = [] → entity_sim_scores s ≠ [] →
     _literal_similarity_scoring s = (Raise IndexError, s)
     ∨ _literal_similarity_scoring s = (Raise TypeError, s)).
Proof.
  split.
  - intros Hne s' Hrun. unfold _literal_similarity_scoring in Hrun.
    apply mbind_Ok in Hrun as (s0 & s0' & Hget & Hrun). apply mget_Ok in Hget as [-> ->].
    destruct (lookup_scores s) as [|kv l] eqn:Hl; [done|]. rewrite <- Hl in *. clear Hne.
    apply mbind_Ok in Hrun as ([] & s1 & Hloop & Hrun). apply mmodify_Ok in Hrun as ->.
    apply (forM_prefix
             (λ pre s1, lookup_scores s1 = lookup_scores s
                        ∧ od_keys (entity_sim_scores s1) = od_keys (entity_sim_scores s)
                        ∧ ∀ c, c ∈ pre →
                            od_get c (entity_sim_scores s1) = od_get c (lookup_scores s)
                            ∧ is_Some (od_get c (lookup_scores s)))) in Hloop.
    + destruct Hloop as (H1 & H2 & H3).
      destruct s1; cbn -[od_keys od_get od_set] in *. done.
    + split; [done|]. split; [done|]. by intros c ?%elem_of_nil.
    + intros pre candidate s2 s3 (H1 & H2 & H3) Hin Hbody.
      apply mbind_Ok in Hbody as (s4 & s4' & Hget & Hbody). apply mget_Ok in Hget as [-> ->].
      apply mbind_Ok in Hbody as (sc & s5 & Hsc & Hbody).
      apply mlift_Ok in Hsc as [Hsc%of_option_Ok ->]. apply mmodify_Ok in Hbody as ->.
      rewrite H1 in Hsc.
      destruct s2; cbn -[od_keys od_get od_set] in *.
      split; [done|]. split; [rewrite <- H2; apply od_keys_set_mem; by rewrite H2|].
      intros c [Hc| ->%list_elem_of_singleton]%elem_of_app.
      * destruct (decide (candidate = c)) as [->|Hne].
        -- rewrite od_get_set_eq, Hsc. by split.
        -- rewrite od_get_set_ne by done. by apply H3.
      * rewrite od_get_set_eq, Hsc. by split.
  - intros Hl Hne. unfold _literal_similarity_scoring, mbind, mget. rewrite Hl.
    destruct (entity_sim_scores s) as [|[candidate sim] rest]; [done|].
    cbn [od_keys map fst forM]. unfold mbind, mlift, mraise.
    destruct (table_cell _ _ _) as [mention|e] eqn:Hcell.
    + right. done.
    + left. unfold table_cell, index in Hcell.
      destruct (table (setup s) !! cand_row candidate) as [row|]; cbn in Hcell.
      * destruct (row !! cand_col candidate); cbn in Hcell; [done|]. by injection Hcell as <-.
      * by injection Hcell as <-.
Qed.

Lemma scoring_first_part_setup (first_step : bool) :
  preserves setup (if first_step then _literal_similarity_scoring ;;; _context_scoring
                   else mret tt).
Proof.
  unfold _literal_similarity_scoring, _context_scoring, semantic_head, semantic_pair,
    literal_entity_col, literal_edge, cache_literal_relation, raise_score, append_context,
    put_context, get_context.
  preserves_tac.
Qed.

Lemma mark_contextless_scores cell s r s' :
  mark_contextless cell s = (r, s') →
  setup s' = setup s ∧ entity_scores s' = entity_scores s
  ∧ entity_sim_scores s' = entity_sim_scores s.
Proof.
  unfold mark_contextless, mbind, mget. destruct (od_mem _ _).
  - by intros [= _ <-].
  - intros [= _ <-]. by destruct s.
Qed.

(** X20.  In a table of one column no context takes part in the score:
    when [entity_scoring_task] returns, the score of every candidate is its
    literal similarity. *)
Theorem single_column_score_is_similarity (first_step last_step : bool)
    (s s' : Baseline_Model) (candidate : Candidate_Entity) :
  (num_columns (setup s) ≤ 1)%nat →
  entity_scoring_task first_step last_step s = (Ok tt, s') →
  candidate ∈ od_keys (entity_scores s') →
  od_get candidate (entity_scores s') = od_get candidate (entity_sim_scores s')
  ∧ is_Some (od_get candidate (entity_sim_scores s')).
Proof.
  intros Hcols Hrun. unfold entity_scoring_task in Hrun.
  apply mbind_Ok in Hrun as ([] & s0 & Hfirst & Hrun).
  assert (setup s0 = setup s) as Hsetup.
  { pose proof (scoring_first_part_setup first_step s) as H. by rewrite Hfirst in H. }
  apply mbind_Ok in Hrun as (s1 & s1' & Hget & Hrun). apply mget_Ok in Hget as [-> ->].
  apply (forM_prefix
           (λ pre s1, setup s1 = setup s ∧ entity_sim_scores s1 = entity_sim_scores s0
                      ∧ od_keys (entity_scores s1) = od_keys (entity_scores s0)
                      ∧ ∀ c, c ∈ pre →
                          od_get c (entity_scores s1) = od_get c (entity_sim_scores s0)
                          ∧ is_Some (od_get c (entity_sim_scores s0)))) in Hrun.
  - destruct Hrun as (_ & Hsim & Hkeys & Hall). rewrite Hkeys. rewrite Hsim. apply Hall.
  - split; [done|]. split; [done|]. split; [done|]. by intros c ?%elem_of_nil.
  - intros pre cand s1 s2 (H1 & H2 & H3 & H4) Hin Hbody.
    unfold score_candidate in Hbody.
    apply mbind_Ok in Hbody as (s3 & s3' & Hget & Hbody). apply mget_Ok in Hget as [-> ->].
    rewrite H1 in Hbody.
    replace (1 <? num_columns (setup s))%nat with false in Hbody
      by (symmetry; apply Nat.ltb_ge; lia).
    cbn [andb] in Hbody.
    apply mbind_Ok in Hbody as (sim & s4 & Hsim & Hbody).
    apply mlift_Ok in Hsim as [Hsim%of_option_Ok ->].
    apply mbind_Ok in Hbody as ([] & s5 & Hmod & Hbody). apply mmodify_Ok in Hmod as ->.
    assert (setup s2 = setup s1 ∧ entity_scores s2 = od_set cand sim (entity_scores s1)
            ∧ entity_sim_scores s2 = entity_sim_scores s1) as (Hs2 & Hsc2 & Hsim2).
    { destruct last_step.
      - apply mark_contextless_scores in Hbody as (-> & -> & ->). by destruct s1.
      - apply mret_Ok in Hbody as [_ ->]. by destruct s1. }
    rewrite Hs2, Hsc2, Hsim2. rewrite H2 in Hsim.
    split; [done|]. split; [done|].
    split; [rewrite <- H3; apply od_keys_set_mem; by rewrite H3|].
    intros c [Hc| ->%list_elem_of_singleton]%elem_of_app.
    + destruct (decide (cand = c)) as [->|Hne].
      * rewrite od_get_set_eq, Hsim. by split.
      * rewrite od_get_set_ne by done. by apply H4.
    + rewrite od_get_set_eq, Hsim. by split.
Qed.
End Similarity.

Lemma single_column_score_is_similarity_witness :
  ∃ s', entity_scoring_task (E := Example.example_externals) true false engine_table1_init
        = (Ok tt, s')
        ∧ od_get (mkCand 0 0 "A") (entity_scores s') = Some 1
        ∧ od_get (mkCand 0 0 "A") (entity_scores s')
          = od_get (mkCand 0 0 "A") (entity_sim_scores s').
Proof.
  assert (entity_scoring_task (E := Example.example_externals) true false engine_table1_init
          = (Ok tt, (entity_scoring_task (E := Example.example_externals) true false
                       engine_table1_init).2)) as Hrun by (vm_compute; reflexivity).
  eexists. split; [exact Hrun|]. split; [vm_compute; reflexivity|].
  refine (proj1 (single_column_score_is_similarity (E := Example.example_externals)
                   true false engine_table1_init _ (mkCand 0 0 "A") _ Hrun _)).
  - vm_compute. lia.
  - vm_compute. set_solver.
Defined.
